(** * ultra-scraper: the task scheduling and concurrency-control core

    A shallow embedding of the queue, dead-letter, backoff, circuit-breaker
    and rate-limiter classes of the repository, followed by the properties
    the specification states about them.

    Conventions of the embedding.
    - A JavaScript [number] that counts, indexes or stamps time is a [Z];
      a [number] that is a delay or a rate is the [Q] it denotes.  The
      arithmetic of the rate limiter and of the Fibonacci backoff rounds as
      doubles do ([double]); the delay arithmetic of the other backoff
      types, of the jitter and of the retry strategy is exact.
    - An optional field ([id?: string]) is an [option]; [undefined] is [None].
    - A JavaScript [Map] iterates in insertion order, so it is an association
      list with unique keys ([JsMap]); a [Set] of ids is a [gset].
    - A mutable object becomes a value threaded through the methods; every
      method returns the new object together with its result.
    - [Date.now()], [Math.random()] and the settling of a task's [execute]
      promise are inputs supplied by the caller of the embedded function. *)

From Stdlib Require Import ZArith QArith Qminmax Qpower Qround Lia Lqa List String.
From stdpp Require Import base option list gmap strings pretty.

Local Open Scope Z_scope.

(** ** JavaScript values *)

(** [!x] for an optional string: [undefined] and the empty string are falsy. *)
Definition truthy_str (x : option string) : bool :=
  match x with
  | Some s => negb (String.eqb s ""%string)
  | None => false
  end.

(** [!x] for an optional number: [undefined] and [0] are falsy. *)
Definition truthy_num (x : option Z) : bool :=
  match x with
  | Some n => negb (n =? 0)
  | None => false
  end.

(** [x || d] on an optional number. *)
Definition or_default (x : option Z) (d : Z) : Z :=
  match x with
  | Some n => if n =? 0 then d else n
  | None => d
  end.

(** *** Doubles

    A [number] that is not a whole number of modest size is a double, and
    every arithmetic operation on doubles rounds its exact result to the
    nearest double, ties going to the even significand.  [double x] is that
    rounding of the rational [x]: 53 significant bits.  The exponent range
    is not modelled, so there is neither overflow to [Infinity] nor
    underflow; nor are there [NaN]s.  For results between [2^-1022] and
    [2^1024] in magnitude [double] is what the code computes. *)

(** For [x > 0], the [k] with [2^k <= x < 2^(k+1)]. *)
Definition ilog2 (x : Q) : Z :=
  let k := Z.log2 (Qnum x) - Z.log2 (Zpos (Qden x)) in
  if Qle_bool (2 ^ k) x then k else k - 1.

Definition round_half_even (x : Q) : Z :=
  let f := Qfloor x in
  match (x - inject_Z f ?= 1 # 2)%Q with
  | Lt => f
  | Gt => f + 1
  | Eq => if Z.even f then f else f + 1
  end.

(** A positive [x] rounded to 53 significant bits. *)
Definition double_pos (x : Q) : Q :=
  let e := ilog2 x - 52 in
  (inject_Z (round_half_even (x / 2 ^ e)) * 2 ^ e)%Q.

Definition double (x : Q) : Q :=
  Qred match (x ?= 0)%Q with
       | Eq => 0%Q
       | Gt => double_pos x
       | Lt => (- double_pos (- x))%Q
       end.

(** The rounding of a whole number, which is a whole number again. *)
Definition double_Z (n : Z) : Z := Qfloor (double (inject_Z n)).

(** An [Error] object: its [name] and its [message]. *)
Record JsError := mkError { err_name : string; err_message : string }.

#[global] Instance JsError_eq_dec : EqDecision JsError.
Proof. solve_decision. Defined.

(** ** Insertion-ordered maps ([Map<K, V>]) *)

Module JsMap.
Section JsMap.
Context {K V : Type} `{EqDecision K}.

Fixpoint get (k : K) (m : list (K * V)) : option V :=
  match m with
  | [] => None
  | (k', v) :: m' => if decide (k = k') then Some v else get k m'
  end.

Definition has (k : K) (m : list (K * V)) : bool :=
  match get k m with Some _ => true | None => false end.

(** [set] keeps the position of a key that is already present and appends
    a new key at the end. *)
Fixpoint set (k : K) (v : V) (m : list (K * V)) : list (K * V) :=
  match m with
  | [] => [(k, v)]
  | (k', v') :: m' =>
      if decide (k = k') then (k, v) :: m' else (k', v') :: set k v m'
  end.

Fixpoint delete (k : K) (m : list (K * V)) : list (K * V) :=
  match m with
  | [] => []
  | (k', v') :: m' =>
      if decide (k = k') then m' else (k', v') :: delete k m'
  end.

Definition keys (m : list (K * V)) : list K := m.*1.
Definition values (m : list (K * V)) : list V := m.*2.
Definition size (m : list (K * V)) : Z := Z.of_nat (length m).
End JsMap.
End JsMap.

(** ** The task data model ([types/queue.types]) *)

Module TaskPriority.
Definition CRITICAL : Z := 0.
Definition HIGH : Z := 1.
Definition NORMAL : Z := 2.
Definition LOW : Z := 3.
End TaskPriority.

Inductive TaskStatus :=
  | PENDING | PROCESSING | COMPLETED | FAILED | RETRYING | CANCELLED.

#[global] Instance TaskStatus_eq_dec : EqDecision TaskStatus.
Proof. solve_decision. Defined.

(** A [Task] object.  Its [execute] closure is not a field of the model: the
    way each call of [execute] settles is an input of the queue's step
    function.  [metadata] is never read by the scheduling core. *)
Module Task.
Record t := mk {
  id : option string;
  priority : option Z;
  status : option TaskStatus;
  retries : option Z;
  addedAt : option Z;
  startedAt : option Z;
  completedAt : option Z;
  failedAt : option Z;
  lastError : option JsError;
  result : option string
}.

Definition set_id (x : option string) (t0 : t) : t :=
  mk x (priority t0) (status t0) (retries t0) (addedAt t0) (startedAt t0)
     (completedAt t0) (failedAt t0) (lastError t0) (result t0).
Definition set_priority (x : option Z) (t0 : t) : t :=
  mk (id t0) x (status t0) (retries t0) (addedAt t0) (startedAt t0)
     (completedAt t0) (failedAt t0) (lastError t0) (result t0).
Definition set_status (x : option TaskStatus) (t0 : t) : t :=
  mk (id t0) (priority t0) x (retries t0) (addedAt t0) (startedAt t0)
     (completedAt t0) (failedAt t0) (lastError t0) (result t0).
Definition set_retries (x : option Z) (t0 : t) : t :=
  mk (id t0) (priority t0) (status t0) x (addedAt t0) (startedAt t0)
     (completedAt t0) (failedAt t0) (lastError t0) (result t0).
Definition set_addedAt (x : option Z) (t0 : t) : t :=
  mk (id t0) (priority t0) (status t0) (retries t0) x (startedAt t0)
     (completedAt t0) (failedAt t0) (lastError t0) (result t0).
Definition set_startedAt (x : option Z) (t0 : t) : t :=
  mk (id t0) (priority t0) (status t0) (retries t0) (addedAt t0) x
     (completedAt t0) (failedAt t0) (lastError t0) (result t0).
Definition set_completedAt (x : option Z) (t0 : t) : t :=
  mk (id t0) (priority t0) (status t0) (retries t0) (addedAt t0)
     (startedAt t0) x (failedAt t0) (lastError t0) (result t0).
Definition set_failedAt (x : option Z) (t0 : t) : t :=
  mk (id t0) (priority t0) (status t0) (retries t0) (addedAt t0)
     (startedAt t0) (completedAt t0) x (lastError t0) (result t0).
Definition set_lastError (x : option JsError) (t0 : t) : t :=
  mk (id t0) (priority t0) (status t0) (retries t0) (addedAt t0)
     (startedAt t0) (completedAt t0) (failedAt t0) x (result t0).
Definition set_result (x : option string) (t0 : t) : t :=
  mk (id t0) (priority t0) (status t0) (retries t0) (addedAt t0)
     (startedAt t0) (completedAt t0) (failedAt t0) (lastError t0) x.

(** The object literal [{ id, priority }] a caller hands to the queue. *)
Definition literal (i : option string) (p : option Z) : t :=
  mk i p None None None None None None None None.

#[global] Instance eq_dec : EqDecision t.
Proof. solve_decision. Defined.
End Task.

(** ** PriorityQueue ([queue/PriorityQueue.ts]) *)

Module PriorityQueue.
Import TaskPriority.

Record t := mk { queues : list (Z * list Task.t) }.

Definition priorities : list Z := [CRITICAL; HIGH; NORMAL; LOW].

(** The constructor gives every known priority an empty array. *)
Definition new : t :=
  mk (foldl (λ m priority, JsMap.set priority [] m) [] priorities).

Definition enqueue (task : Task.t) (pq : t) : t :=
  let priority := default NORMAL (Task.priority task) in
  let task := Task.set_priority (Some priority) task in
  match JsMap.get priority (queues pq) with
  | Some queue => mk (JsMap.set priority (queue ++ [task]) (queues pq))
  | None => mk (JsMap.set priority [task] (queues pq))
  end.

Fixpoint dequeue_scan (ps : list Z) (pq : t) : option Task.t * t :=
  match ps with
  | [] => (None, pq)
  | priority :: ps' =>
      match JsMap.get priority (queues pq) with
      | Some (task :: queue) =>
          (Some task, mk (JsMap.set priority queue (queues pq)))
      | _ => dequeue_scan ps' pq
      end
  end.

Definition dequeue (pq : t) : option Task.t * t :=
  dequeue_scan priorities pq.

Fixpoint peek_scan (ps : list Z) (pq : t) : option Task.t :=
  match ps with
  | [] => None
  | priority :: ps' =>
      match JsMap.get priority (queues pq) with
      | Some (task :: _) => Some task
      | _ => peek_scan ps' pq
      end
  end.

Definition peek (pq : t) : option Task.t := peek_scan priorities pq.

Definition has_id (taskId : string) (task : Task.t) : bool :=
  bool_decide (Task.id task = Some taskId).

(** [findById] walks [queues.values()] in the map's insertion order. *)
Fixpoint findById_in (taskId : string) (qs : list (Z * list Task.t))
  : option Task.t :=
  match qs with
  | [] => None
  | (_, queue) :: qs' =>
      match find (has_id taskId) queue with
      | Some task => Some task
      | None => findById_in taskId qs'
      end
  end.

Definition findById (taskId : string) (pq : t) : option Task.t :=
  findById_in taskId (queues pq).

(** [queue.splice(index, 1)] at the first index whose task has the id. *)
Fixpoint splice_first (taskId : string) (queue : list Task.t)
  : option (list Task.t) :=
  match queue with
  | [] => None
  | task :: queue' =>
      if has_id taskId task then Some queue'
      else cons task <$> splice_first taskId queue'
  end.

Fixpoint remove_in (taskId : string) (qs : list (Z * list Task.t))
  : bool * list (Z * list Task.t) :=
  match qs with
  | [] => (false, [])
  | (p, queue) :: qs' =>
      match splice_first taskId queue with
      | Some queue' => (true, (p, queue') :: qs')
      | None => let '(b, qs'') := remove_in taskId qs' in (b, (p, queue) :: qs'')
      end
  end.

Definition remove (taskId : string) (pq : t) : bool * t :=
  let '(b, qs) := remove_in taskId (queues pq) in (b, mk qs).

Definition size (pq : t) : Z :=
  foldl (λ total queue, total + Z.of_nat (length queue)) 0
        (JsMap.values (queues pq)).

Definition isEmpty (pq : t) : bool := size pq =? 0.

Definition clear (pq : t) : t :=
  mk ((λ e : Z * list Task.t, (e.1, [])) <$> queues pq).

Definition getAll (pq : t) : list Task.t :=
  foldl (λ allTasks priority,
           match JsMap.get priority (queues pq) with
           | Some queue => allTasks ++ queue
           | None => allTasks
           end) [] priorities.

Definition reorder (pq : t) : t :=
  let allTasks := getAll pq in
  foldl (λ q task, enqueue task q) (clear pq) allTasks.

(** Calling [dequeue] until it answers [null], at most [fuel] times. *)
Fixpoint drain (fuel : nat) (pq : t) : list Task.t * t :=
  match fuel with
  | O => ([], pq)
  | S fuel' =>
      match dequeue pq with
      | (Some task, pq') =>
          let '(rest, pq'') := drain fuel' pq' in (task :: rest, pq'')
      | (None, pq') => ([], pq')
      end
  end.

Definition enqueue_all (tasks : list Task.t) (pq : t) : t :=
  foldl (λ q task, enqueue task q) pq tasks.

(** The array of one priority tier. *)
Definition tier (p : Z) (pq : t) : list Task.t :=
  default [] (JsMap.get p (queues pq)).
(** [task.priority = priority] on the object [findById] returns: the first
    task with the id, in the first queue that holds one. *)
Fixpoint assign_first (taskId : string) (priority : Z)
  (queue : list Task.t) : list Task.t :=
  match queue with
  | [] => []
  | task :: queue' =>
      if has_id taskId task
      then Task.set_priority (Some priority) task :: queue'
      else task :: assign_first taskId priority queue'
  end.

Fixpoint assign_in (taskId : string) (priority : Z)
  (qs : list (Z * list Task.t)) : list (Z * list Task.t) :=
  match qs with
  | [] => []
  | (p, queue) :: qs' =>
      match find (has_id taskId) queue with
      | Some _ => (p, assign_first taskId priority queue) :: qs'
      | None => (p, queue) :: assign_in taskId priority qs'
      end
  end.

Definition assignPriority (taskId : string) (priority : Z) (pq : t) : t :=
  mk (assign_in taskId priority (queues pq)).
End PriorityQueue.

(** ** DeadLetterQueue ([queue/DeadLetterQueue]) *)

Module DeadLetterQueue.
(** What the queue emits to its listeners. *)
Inductive Event :=
  | overflow (taskId : option string)
  | taskAdded (taskId : option string).

(** [tasks] is keyed by [task.id!], which is [undefined] for a task
    without an id. *)
Record t := mk {
  tasks : list (option string * Task.t);
  maxSize : Z;
  emitted : list Event
}.

(** [constructor(maxSize: number = 10000)] *)
Definition new (maxSize : option Z) : t := mk [] (default 10000 maxSize) [].

Definition size (dlq : t) : Z := JsMap.size (tasks dlq).

(** [this.tasks.keys().next().value]: the first key in insertion order,
    [undefined] for an empty map. *)
Definition oldestId (dlq : t) : option string :=
  match tasks dlq with
  | [] => None
  | (k, _) :: _ => k
  end.

(** The first half of [add]: the capacity check made before the insert. *)
Definition evict (dlq : t) : t :=
  if size dlq >=? maxSize dlq then
    if truthy_str (oldestId dlq) then
      mk (JsMap.delete (oldestId dlq) (tasks dlq)) (maxSize dlq)
         (emitted dlq ++ [overflow (oldestId dlq)])
    else dlq
  else dlq.

Definition add (task : Task.t) (dlq : t) : t :=
  let dlq := evict dlq in
  mk (JsMap.set (Task.id task) task (tasks dlq)) (maxSize dlq)
     (emitted dlq ++ [taskAdded (Task.id task)]).

Definition get (taskId : string) (dlq : t) : option Task.t :=
  JsMap.get (Some taskId) (tasks dlq).

Definition getAll (dlq : t) : list Task.t := JsMap.values (tasks dlq).

Definition remove (taskId : string) (dlq : t) : bool * t :=
  (JsMap.has (Some taskId) (tasks dlq),
   mk (JsMap.delete (Some taskId) (tasks dlq)) (maxSize dlq) (emitted dlq)).

Definition clear (dlq : t) : t := mk [] (maxSize dlq) (emitted dlq).

Definition add_all (batch : list Task.t) (dlq : t) : t :=
  foldl (λ q task, add task q) dlq batch.

Definition overflows (dlq : t) : list (option string) :=
  omap (λ e, match e with overflow k => Some k | _ => None end) (emitted dlq).
End DeadLetterQueue.

(** ** QueuePersistence ([queue/QueuePersistence]), as far as the queue
    drives it *)

Module QueuePersistence.
Record t := mk {
  tasks : list (option string * Task.t);
  isDirty : bool
}.

Definition new : t := mk [] false.

(** [saveTask] writes the file at once only for a CRITICAL task; whether
    that [save()] throws is the input [saveError]. *)
Definition saveTask (task : Task.t) (saveError : option JsError) (p : t)
  : t * option JsError :=
  let p := mk (JsMap.set (Task.id task) task (tasks p)) true in
  if bool_decide (Task.priority task = Some TaskPriority.CRITICAL) then
    match saveError with
    | Some e => (p, Some e)
    | None => (mk (tasks p) false, None)
    end
  else (p, None).

Definition updateTask (task : Task.t) (p : t) : t :=
  if JsMap.has (Task.id task) (tasks p)
  then mk (JsMap.set (Task.id task) task (tasks p)) true
  else p.
End QueuePersistence.

(** ** TaskQueue ([queue/TaskQueue.ts]) *)

Module QueueConfig.
(** [rateLimit], [saveInterval] and [compression] are passed on to
    collaborators and never read by the queue itself. *)
Record t := mk {
  concurrency : Z;
  maxQueueSize : Z;
  enablePersistence : bool;
  persistencePath : option string;
  enableDeadLetter : bool;
  maxRetries : Z;
  retryDelay : Z;
  timeout : Z
}.
End QueueConfig.

Module TaskQueue.
Import TaskPriority.

Inductive Event :=
  | taskCancelled (taskId : string)
  | taskCancelling (taskId : string)
  | taskAdded (task : Task.t)
  | started | paused | resumed | stopped | idle
  | taskStarted (task : Task.t)
  | taskCompleted (task : Task.t)
  | taskError (task : Task.t) (error : JsError)
  | taskRetrying (task : Task.t) (delay : Z) (attempt : Z)
  | taskFailed (task : Task.t) (error : JsError)
  | priorityUpdated (taskId : string) (priority : Z)
  | cleared.

(** [metrics.averageProcessTime] is a floating-point mean that no other
    part of the queue reads; the integer counters are kept. *)
Record Metrics := mkMetrics {
  totalAdded : Z;
  totalProcessed : Z;
  totalFailed : Z;
  totalRetried : Z;
  peakConcurrency : Z
}.

(** The object's fields, followed by what the event loop holds for it:
    [running] are the [processTask] calls waiting for [execute] to settle,
    [timers] the pending [setTimeout] re-enqueues of [handleTaskError],
    [loops] the number of [processQueue] calls that have not returned. *)
Record t := mk {
  config : QueueConfig.t;
  priorityQueue : PriorityQueue.t;
  deadLetterQueue : DeadLetterQueue.t;
  persistence : option QueuePersistence.t;
  activeTasks : gset (option string);
  completedTasks : list (option string * string);
  failedTasks : list (option string * JsError);
  isProcessing : bool;
  isPaused : bool;
  metrics : Metrics;
  running : list Task.t;
  timers : list (Z * Task.t);
  loops : nat;
  emitted : list Event
}.

Definition with_priorityQueue (x : PriorityQueue.t) (q : t) : t :=
  mk (config q) x (deadLetterQueue q) (persistence q) (activeTasks q)
     (completedTasks q) (failedTasks q) (isProcessing q) (isPaused q)
     (metrics q) (running q) (timers q) (loops q) (emitted q).
Definition with_deadLetterQueue (x : DeadLetterQueue.t) (q : t) : t :=
  mk (config q) (priorityQueue q) x (persistence q) (activeTasks q)
     (completedTasks q) (failedTasks q) (isProcessing q) (isPaused q)
     (metrics q) (running q) (timers q) (loops q) (emitted q).
Definition with_persistence (x : option QueuePersistence.t) (q : t) : t :=
  mk (config q) (priorityQueue q) (deadLetterQueue q) x (activeTasks q)
     (completedTasks q) (failedTasks q) (isProcessing q) (isPaused q)
     (metrics q) (running q) (timers q) (loops q) (emitted q).
Definition with_activeTasks (x : gset (option string)) (q : t) : t :=
  mk (config q) (priorityQueue q) (deadLetterQueue q) (persistence q) x
     (completedTasks q) (failedTasks q) (isProcessing q) (isPaused q)
     (metrics q) (running q) (timers q) (loops q) (emitted q).
Definition with_completedTasks (x : list (option string * string)) (q : t)
  : t :=
  mk (config q) (priorityQueue q) (deadLetterQueue q) (persistence q)
     (activeTasks q) x (failedTasks q) (isProcessing q) (isPaused q)
     (metrics q) (running q) (timers q) (loops q) (emitted q).
Definition with_failedTasks (x : list (option string * JsError)) (q : t)
  : t :=
  mk (config q) (priorityQueue q) (deadLetterQueue q) (persistence q)
     (activeTasks q) (completedTasks q) x (isProcessing q) (isPaused q)
     (metrics q) (running q) (timers q) (loops q) (emitted q).
Definition with_isProcessing (x : bool) (q : t) : t :=
  mk (config q) (priorityQueue q) (deadLetterQueue q) (persistence q)
     (activeTasks q) (completedTasks q) (failedTasks q) x (isPaused q)
     (metrics q) (running q) (timers q) (loops q) (emitted q).
Definition with_isPaused (x : bool) (q : t) : t :=
  mk (config q) (priorityQueue q) (deadLetterQueue q) (persistence q)
     (activeTasks q) (completedTasks q) (failedTasks q) (isProcessing q) x
     (metrics q) (running q) (timers q) (loops q) (emitted q).
Definition with_metrics (x : Metrics) (q : t) : t :=
  mk (config q) (priorityQueue q) (deadLetterQueue q) (persistence q)
     (activeTasks q) (completedTasks q) (failedTasks q) (isProcessing q)
     (isPaused q) x (running q) (timers q) (loops q) (emitted q).
Definition with_running (x : list Task.t) (q : t) : t :=
  mk (config q) (priorityQueue q) (deadLetterQueue q) (persistence q)
     (activeTasks q) (completedTasks q) (failedTasks q) (isProcessing q)
     (isPaused q) (metrics q) x (timers q) (loops q) (emitted q).
Definition with_timers (x : list (Z * Task.t)) (q : t) : t :=
  mk (config q) (priorityQueue q) (deadLetterQueue q) (persistence q)
     (activeTasks q) (completedTasks q) (failedTasks q) (isProcessing q)
     (isPaused q) (metrics q) (running q) x (loops q) (emitted q).
Definition with_loops (x : nat) (q : t) : t :=
  mk (config q) (priorityQueue q) (deadLetterQueue q) (persistence q)
     (activeTasks q) (completedTasks q) (failedTasks q) (isProcessing q)
     (isPaused q) (metrics q) (running q) (timers q) x (emitted q).
Definition emit (e : Event) (q : t) : t :=
  mk (config q) (priorityQueue q) (deadLetterQueue q) (persistence q)
     (activeTasks q) (completedTasks q) (failedTasks q) (isProcessing q)
     (isPaused q) (metrics q) (running q) (timers q) (loops q)
     (emitted q ++ [e]).

(** [constructor(config)] *)
Definition new (config : QueueConfig.t) : t :=
  mk config PriorityQueue.new
     (DeadLetterQueue.new (Some (QueueConfig.maxRetries config)))
     (if QueueConfig.enablePersistence config
         && truthy_str (QueueConfig.persistencePath config)
      then Some QueuePersistence.new else None)
     ∅ [] [] false false (mkMetrics 0 0 0 0 0) [] [] 0 [].

Definition queueFull : JsError := mkError "Error" "Queue is full".
Definition taskTimeout : JsError := mkError "Error" "Task timeout".

(** How a call of [executeWithTimeout] settles; the timeout branch of the
    race is [Rejected taskTimeout]. *)
Inductive Outcome :=
  | Resolved (result : string)
  | Rejected (error : JsError).

(** What the environment supplies to one round of the loop of [add]:
    [Date.now()], the random suffix of a generated id, and whether a
    [save()] of the persistence file would throw. *)
Record AddEnv := mkEnv {
  now : Z;
  random : string;
  saveError : option JsError
}.

Definition generateTaskId (env : AddEnv) : string :=
  "task-" +:+ pretty (now env) +:+ "-" +:+ random env.

Definition bump_totalAdded (m : Metrics) : Metrics :=
  mkMetrics (totalAdded m + 1) (totalProcessed m) (totalFailed m)
            (totalRetried m) (peakConcurrency m).
Definition bump_totalProcessed (m : Metrics) : Metrics :=
  mkMetrics (totalAdded m) (totalProcessed m + 1) (totalFailed m)
            (totalRetried m) (peakConcurrency m).
Definition bump_totalFailed (m : Metrics) : Metrics :=
  mkMetrics (totalAdded m) (totalProcessed m) (totalFailed m + 1)
            (totalRetried m) (peakConcurrency m).
Definition bump_totalRetried (m : Metrics) : Metrics :=
  mkMetrics (totalAdded m) (totalProcessed m) (totalFailed m)
            (totalRetried m + 1) (peakConcurrency m).
Definition set_peakConcurrency (x : Z) (m : Metrics) : Metrics :=
  mkMetrics (totalAdded m) (totalProcessed m) (totalFailed m)
            (totalRetried m) x.

Definition pause (q : t) : t := emit paused (with_isPaused true q).

(** [stop] in two halves: up to its wait for the active tasks, and from
    there on.  The second half runs once the wait is over. *)
Definition stop_begin (q : t) : t := with_isPaused true q.
Definition stop_end (q : t) : t := emit stopped (with_isProcessing false q).

(** The assignments [add] makes to a task before it enqueues it. *)
Definition admitted (env : AddEnv) (task : Task.t) : Task.t :=
  let task := if truthy_str (Task.id task) then task
              else Task.set_id (Some (generateTaskId env)) task in
  let task := if truthy_num (Task.priority task) then task
              else Task.set_priority (Some NORMAL) task in
  Task.set_retries (Some 0)
    (Task.set_addedAt (Some (now env))
       (Task.set_status (Some PENDING) task)).

(** The body of the [for] loop of [add] for one task. *)
Definition add_one (env : AddEnv) (task : Task.t) (q : t)
  : t * option JsError :=
  if PriorityQueue.size (priorityQueue q)
     >=? QueueConfig.maxQueueSize (config q)
  then (q, Some queueFull)
  else
    let task := admitted env task in
    let q := with_priorityQueue
               (PriorityQueue.enqueue task (priorityQueue q)) q in
    let q := with_metrics (bump_totalAdded (metrics q)) q in
    match persistence q with
    | Some p =>
        let '(p', err) := QueuePersistence.saveTask task (saveError env) p in
        let q := with_persistence (Some p') q in
        match err with
        | Some e => (q, Some e)
        | None => (emit (taskAdded task) q, None)
        end
    | None => (emit (taskAdded task) q, None)
    end.

Fixpoint add_loop (i : nat) (env : nat → AddEnv) (tasks : list Task.t)
  (q : t) : t * option JsError :=
  match tasks with
  | [] => (q, None)
  | task :: rest =>
      match add_one (env i) task q with
      | (q', None) => add_loop (S i) env rest q'
      | (q', Some e) => (q', Some e)
      end
  end.

(** [processTask] up to its [await]. *)
Definition processTask_begin (now : Z) (task : Task.t) (q : t) : t :=
  let q := with_activeTasks ({[ Task.id task ]} ∪ activeTasks q) q in
  let task := Task.set_startedAt (Some now)
                (Task.set_status (Some PROCESSING) task) in
  let q := emit (taskStarted task) q in
  let q := if Z.of_nat (size (activeTasks q))
              >? peakConcurrency (metrics q)
           then with_metrics
                  (set_peakConcurrency (Z.of_nat (size (activeTasks q)))
                     (metrics q)) q
           else q in
  with_running (running q ++ [task]) q.

(** What one round of the [while] loop of [processQueue] did. *)
Inductive LoopAction :=
  | Slept (ms : Z)
  | Dispatched (task : Task.t)
  | Returned.

(** One evaluation of the loop condition of [processQueue] and, when it
    holds, one round of the body. *)
Definition processQueue_round (now : Z) (q : t) : t * LoopAction :=
  if isProcessing q && negb (isPaused q) then
    if Z.of_nat (size (activeTasks q)) >=? QueueConfig.concurrency (config q)
    then (q, Slept 50)
    else
      match PriorityQueue.dequeue (priorityQueue q) with
      | (Some task, pq') =>
          (processTask_begin now task (with_priorityQueue pq' q),
           Dispatched task)
      | (None, pq') =>
          let q := with_priorityQueue pq' q in
          (if Z.of_nat (size (activeTasks q)) =? 0
           then emit idle (with_isProcessing false q) else q,
           Slept 100)
      end
  else (with_loops (pred (loops q)) q, Returned).

(** [processQueue()] from its entry, or from where it wakes up after a
    sleep, to its next [await]: [processTask(task)] is not awaited, so the
    loop goes round synchronously while it dispatches and only stops at a
    sleep or when its condition fails.  [fuel] bounds the dispatching
    rounds; [Date.now()] is taken to read the same millisecond throughout
    the run. *)
Fixpoint processQueue_rounds (fuel : nat) (now : Z) (q : t)
  : t * LoopAction :=
  match fuel with
  | O => processQueue_round now q
  | S fuel' =>
      match processQueue_round now q with
      | (q', Dispatched _) => processQueue_rounds fuel' now q'
      | r => r
      end
  end.

(** Every dispatching round takes a task out of the priority queue, so
    there are no more of them than [priorityQueue.size()]. *)
Definition processQueue (now : Z) (q : t) : t * LoopAction :=
  processQueue_rounds (Z.to_nat (PriorityQueue.size (priorityQueue q))) now q.

(** [start()]: the [processQueue()] call it makes is one more loop, which
    runs to its first sleep before [start] returns. *)
Definition start (now : Z) (q : t) : t :=
  if isProcessing q then q
  else
    (processQueue now
       (with_loops (S (loops q))
          (emit started (with_isPaused false (with_isProcessing true q))))).1.

(** [resume()], likewise. *)
Definition resume (now : Z) (q : t) : t :=
  if negb (isPaused q) then q
  else
    (processQueue now
       (with_loops (S (loops q)) (emit resumed (with_isPaused false q)))).1.

(** [add(task | task[])]: a single task is the one-element array.  The
    second component is the error the returned promise rejects with.  The
    [start()] it ends with reads the clock of the environment at the index
    after the last task. *)
Definition add (env : nat → AddEnv) (tasks : list Task.t) (q : t)
  : t * option JsError :=
  match add_loop 0 env tasks q with
  | (q', Some e) => (q', Some e)
  | (q', None) =>
      (if negb (isProcessing q') && negb (isPaused q')
       then start (now (env (length tasks))) q' else q',
       None)
  end.

Definition persist_update (task : Task.t) (q : t) : t :=
  match persistence q with
  | Some p => with_persistence (Some (QueuePersistence.updateTask task p)) q
  | None => q
  end.

(** [Math.pow(2, task.retries - 1)] is a whole number here: [retries] is
    at least 1 after the increment for every task that came in by [add]. *)
Definition handleTaskError (now : Z) (task : Task.t) (error : JsError)
  (q : t) : t :=
  let retries := or_default (Task.retries task) 0 + 1 in
  let task := Task.set_lastError (Some error)
                (Task.set_retries (Some retries) task) in
  let q := emit (taskError task error) q in
  if retries <? QueueConfig.maxRetries (config q) then
    let task := Task.set_status (Some RETRYING) task in
    let delay := QueueConfig.retryDelay (config q) * 2 ^ (retries - 1) in
    let q := with_metrics (bump_totalRetried (metrics q)) q in
    let q := emit (taskRetrying task delay retries) q in
    with_timers (timers q ++ [(delay, task)]) q
  else
    let task := Task.set_failedAt (Some now)
                  (Task.set_status (Some FAILED) task) in
    let q := with_failedTasks
               (JsMap.set (Task.id task) error (failedTasks q)) q in
    let q := with_metrics (bump_totalFailed (metrics q)) q in
    let q := if QueueConfig.enableDeadLetter (config q)
             then with_deadLetterQueue
                    (DeadLetterQueue.add task (deadLetterQueue q)) q
             else q in
    let q := emit (taskFailed task error) q in
    persist_update task q.

(** [processTask] from its [await] on, for the call at index [k] of
    [running]. *)
Definition processTask_settle (k : nat) (outcome : Outcome) (now : Z)
  (q : t) : option t :=
  match running q !! k with
  | None => None
  | Some task =>
      let q := with_running (delete k (running q)) q in
      let q :=
        match outcome with
        | Resolved result =>
            let task := Task.set_result (Some result)
                          (Task.set_completedAt (Some now)
                             (Task.set_status (Some COMPLETED) task)) in
            let q := with_completedTasks
                       (JsMap.set (Task.id task) result (completedTasks q))
                       q in
            let q := with_metrics (bump_totalProcessed (metrics q)) q in
            let q := emit (taskCompleted task) q in
            persist_update task q
        | Rejected error => handleTaskError now task error q
        end in
      Some (with_activeTasks (activeTasks q ∖ {[ Task.id task ]}) q)
  end.

(** The callback of the [setTimeout] at index [k] of [timers]. *)
Definition timer_fire (k : nat) (q : t) : option t :=
  match timers q !! k with
  | None => None
  | Some (_, task) =>
      Some (with_priorityQueue
              (PriorityQueue.enqueue task (priorityQueue q))
              (with_timers (delete k (timers q)) q))
  end.

Definition cancel (taskId : string) (q : t) : t * bool :=
  let '(removed, pq') := PriorityQueue.remove taskId (priorityQueue q) in
  if removed
  then (emit (taskCancelled taskId) (with_priorityQueue pq' q), true)
  else if bool_decide (Some taskId ∈ activeTasks q)
  then (emit (taskCancelling taskId) q, false)
  else (q, false).

Definition cancelTask (taskId : string) (q : t) : t * bool :=
  let '(removed, pq') := PriorityQueue.remove taskId (priorityQueue q) in
  if removed
  then (emit (taskCancelled taskId) (with_priorityQueue pq' q), true)
  else if bool_decide (Some taskId ∈ activeTasks q)
  then (emit (taskCancelling taskId) q, true)
  else (q, false).

Definition updatePriority (taskId : string) (priority : Z) (q : t) : t :=
  match PriorityQueue.findById taskId (priorityQueue q) with
  | Some _ =>
      emit (priorityUpdated taskId priority)
        (with_priorityQueue
           (PriorityQueue.reorder
              (PriorityQueue.assignPriority taskId priority
                 (priorityQueue q))) q)
  | None => q
  end.

Definition reset_for_retry (task : Task.t) : Task.t :=
  Task.set_status (Some PENDING) (Task.set_retries (Some 0) task).

Definition retryFailed (taskId : option string) (q : t) : t :=
  match taskId with
  | Some i =>
      if truthy_str taskId then
        match DeadLetterQueue.get i (deadLetterQueue q) with
        | Some task =>
            with_deadLetterQueue
              (DeadLetterQueue.remove i (deadLetterQueue q)).2
              (with_priorityQueue
                 (PriorityQueue.enqueue (reset_for_retry task)
                    (priorityQueue q)) q)
        | None => q
        end
      else
        with_deadLetterQueue (DeadLetterQueue.clear (deadLetterQueue q))
          (with_priorityQueue
             (PriorityQueue.enqueue_all
                (reset_for_retry <$> DeadLetterQueue.getAll (deadLetterQueue q))
                (priorityQueue q)) q)
  | None =>
      with_deadLetterQueue (DeadLetterQueue.clear (deadLetterQueue q))
        (with_priorityQueue
           (PriorityQueue.enqueue_all
              (reset_for_retry <$> DeadLetterQueue.getAll (deadLetterQueue q))
              (priorityQueue q)) q)
  end.

(** [clear(options)]: every flag defaults to [true]; the persistence file
    is not modelled beyond the task table. *)
Definition clear (clearPending clearCompleted clearFailed : bool) (q : t)
  : t :=
  let q := if clearPending
           then with_priorityQueue (PriorityQueue.clear (priorityQueue q)) q
           else q in
  let q := if clearCompleted then with_completedTasks [] q else q in
  let q := if clearFailed
           then with_deadLetterQueue
                  (DeadLetterQueue.clear (deadLetterQueue q))
                  (with_failedTasks [] q)
           else q in
  let q := match persistence q with
           | Some p => with_persistence (Some (QueuePersistence.mk [] true)) q
           | None => q
           end in
  emit cleared q.

(** *** The step function of the queue under its callers and its event loop

    A label is one atomic piece of execution: a public method called by a
    client, the run of a [processQueue] loop from a wake-up to its next
    sleep, the settling of one running task, or the firing of one retry
    timer.  [initialize], which restores
    tasks from disk, is not a label: a queue is taken from its constructor. *)
Inductive Label :=
  | LAdd (env : nat → AddEnv) (tasks : list Task.t)
  | LStart (now : Z) | LPause | LResume (now : Z)
  | LStopBegin | LStopEnd (graceful : bool)
  | LRound (now : Z)
  | LSettle (k : nat) (outcome : Outcome) (now : Z)
  | LTimer (k : nat)
  | LCancel (taskId : string)
  | LCancelTask (taskId : string)
  | LUpdatePriority (taskId : string) (priority : Z)
  | LRetryFailed (taskId : option string)
  | LClear (clearPending clearCompleted clearFailed : bool).

(** [None] when the label cannot run in the state: no loop is alive, there
    is no such running task or timer, or a graceful [stop] is still
    waiting for active tasks. *)
Definition step (l : Label) (q : t) : option t :=
  match l with
  | LAdd env tasks => Some (add env tasks q).1
  | LStart now => Some (start now q)
  | LPause => Some (pause q)
  | LResume now => Some (resume now q)
  | LStopBegin => Some (stop_begin q)
  | LStopEnd graceful =>
      if graceful && negb (Z.of_nat (size (activeTasks q)) =? 0) then None
      else Some (stop_end q)
  | LRound now =>
      match loops q with
      | O => None
      | S _ => Some (processQueue now q).1
      end
  | LSettle k outcome now => processTask_settle k outcome now q
  | LTimer k => timer_fire k q
  | LCancel taskId => Some (cancel taskId q).1
  | LCancelTask taskId => Some (cancelTask taskId q).1
  | LUpdatePriority taskId priority => Some (updatePriority taskId priority q)
  | LRetryFailed taskId => Some (retryFailed taskId q)
  | LClear a b c => Some (clear a b c q)
  end.

Fixpoint run (ls : list Label) (q : t) : option t :=
  match ls with
  | [] => Some q
  | l :: ls' =>
      match step l q with
      | Some q' => run ls' q'
      | None => None
      end
  end.

(** The states a queue built from [config] can be in when only the labels
    in [allowed] occur. *)
Inductive reachable_by (allowed : Label → Prop) (config : QueueConfig.t)
  : t → Prop :=
  | reachable_new : reachable_by allowed config (new config)
  | reachable_step l q q' :
      reachable_by allowed config q → allowed l → step l q = Some q' →
      reachable_by allowed config q'.

Definition reachable : QueueConfig.t → t → Prop :=
  reachable_by (λ _, True).
End TaskQueue.

(** ** BackoffStrategy ([strategies/BackoffStrategy.ts]) *)

Inductive BackoffType :=
  | EXPONENTIAL | LINEAR | CONSTANT | FIBONACCI | DECORRELATED_JITTER.

Module BackoffConfig.
Record t := mk {
  type : BackoffType;
  initialDelay : Q;
  maxDelay : Q;
  multiplier : option Q;
  increment : option Q;
  jitter : option bool;
  jitterFactor : option Q
}.
End BackoffConfig.

Module BackoffStrategy.
Import BackoffConfig.

(** [x || d] on an optional delay or factor: [undefined] and [0] are falsy. *)
Definition or_defaultQ (x : option Q) (d : Q) : Q :=
  match x with
  | Some q => if Qeq_bool q 0 then d else q
  | None => d
  end.

(** [x!] on a field the constructor has filled in. *)
Definition the (x : option Q) : Q := default 0%Q x.

Record t := mk {
  config : BackoffConfig.t;
  attempt : Z;
  fibSequence : list Z
}.

(** The constructor writes the defaults into the config object. *)
Definition new (config : BackoffConfig.t) : t :=
  mk (BackoffConfig.mk (type config) (initialDelay config) (maxDelay config)
        (Some (or_defaultQ (multiplier config) 2))
        (Some (or_defaultQ (increment config) 1000))
        (jitter config)
        (Some (or_defaultQ (jitterFactor config) (1 # 10))))
     0 [0; 1].

Definition exponentialBackoff (s : t) : Q :=
  let multiplier := the (multiplier (config s)) in
  (initialDelay (config s) * multiplier ^ (attempt s - 1))%Q.

Definition linearBackoff (s : t) : Q :=
  let increment := the (increment (config s)) in
  (initialDelay (config s) + increment * inject_Z (attempt s - 1))%Q.

(** [rounds] turns of [while (fibSequence.length <= attempt)].  The
    entries are doubles that hold whole numbers, and the sum of two of them
    is rounded. *)
Fixpoint fib_extend (rounds : nat) (seq : list Z) : list Z :=
  match rounds with
  | O => seq
  | S rounds' =>
      let len := length seq in
      fib_extend rounds'
        (seq ++ [double_Z (nth (len - 1) seq 0 + nth (len - 2) seq 0)])
  end.

Definition fibonacciBackoff (s : t) : Q * t :=
  let seq := fib_extend
               (Z.to_nat (attempt s + 1 - Z.of_nat (length (fibSequence s))))
               (fibSequence s) in
  (double (initialDelay (config s)
           * inject_Z (nth (Z.to_nat (attempt s)) seq 0%Z)),
   mk (config s) (attempt s) seq).

(** [random] is what [Math.random()] returns. *)
Definition decorrelatedJitterBackoff (random : Q) (s : t) : Q :=
  let previousDelay :=
    if attempt s =? 1 then initialDelay (config s)
    else (initialDelay (config s) * 2 ^ (attempt s - 2))%Q in
  let min := initialDelay (config s) in
  let max := (previousDelay * 3)%Q in
  (random * (max - min) + min)%Q.

Definition applyJitter (random : Q) (delay : Q) (s : t) : Q :=
  let jitterFactor := the (jitterFactor (config s)) in
  let jitter := (delay * jitterFactor)%Q in
  let randomJitter := ((random * 2 - 1) * jitter)%Q in
  (delay + randomJitter)%Q.

(** [next()]; [random] holds the values of the two possible calls of
    [Math.random()], the one of the decorrelated strategy and the one of
    the jitter. *)
Definition next (random : Q * Q) (s : t) : Q * t :=
  let s := mk (config s) (attempt s + 1) (fibSequence s) in
  let '(delay, s) :=
    match type (config s) with
    | EXPONENTIAL => (exponentialBackoff s, s)
    | LINEAR => (linearBackoff s, s)
    | CONSTANT => (initialDelay (config s), s)
    | FIBONACCI => fibonacciBackoff s
    | DECORRELATED_JITTER => (decorrelatedJitterBackoff random.1 s, s)
    end in
  let delay := if default false (jitter (config s))
               then applyJitter random.2 delay s else delay in
  (Qmin delay (maxDelay (config s)), s).

Definition reset (s : t) : t := mk (config s) 0 (fibSequence s).

Definition getCurrentAttempt (s : t) : Z := attempt s.

(** [count] successive calls of [next()], call [i] drawing [random i]. *)
Fixpoint next_many (count : nat) (random : nat → Q * Q) (i : nat) (s : t)
  : list Q * t :=
  match count with
  | O => ([], s)
  | S count' =>
      let '(delay, s1) := next (random i) s in
      let '(rest, s2) := next_many count' random (S i) s1 in
      (delay :: rest, s2)
  end.

Definition calculateSequence (maxAttempts : nat) (random : nat → Q * Q)
  (s : t) : list Q * t :=
  let '(sequence, s') := next_many maxAttempts random 0 (reset s) in
  (sequence, reset s').
End BackoffStrategy.

(** ** CircuitBreaker ([concurrency/CircuitBreaker]) *)

Inductive CircuitState := CLOSED | OPEN | HALF_OPEN.

#[global] Instance CircuitState_eq_dec : EqDecision CircuitState.
Proof. solve_decision. Defined.

Module CircuitBreakerConfig.
Record t := mk {
  failureThreshold : Z;
  successThreshold : Z;
  timeout : Z;
  monitoringPeriod : option Z;
  halfOpenMaxAttempts : option Z;
  resetTimeout : option Z
}.
End CircuitBreakerConfig.

Module CircuitBreaker.
Import CircuitBreakerConfig.

Record CircuitMetrics := mkMetrics {
  totalRequests : Z;
  successfulRequests : Z;
  failedRequests : Z;
  consecutiveFailures : Z;
  consecutiveSuccesses : Z;
  lastFailureTime : option Z;
  lastSuccessTime : option Z;
  stateChanges : Z
}.

Inductive Event :=
  | success (state : CircuitState) (consecutiveSuccesses : Z)
  | failure (state : CircuitState) (consecutiveFailures : Z)
  | stateChange (from to : CircuitState)
  | metricsReset
  | resetEvent.

(** What a pending [setTimeout] will run. *)
Inductive Callback :=
  | ToHalfOpen      (* the timer armed by [open] *)
  | ResetCounters.  (* the timer armed by [scheduleReset] *)

(** The object's fields, then the timers the event loop holds for it:
    [pending] maps the handle of every armed timer to its callback, and
    [nextHandle] is the handle the next [setTimeout] returns. *)
Record t := mk {
  config : CircuitBreakerConfig.t;
  state : CircuitState;
  metrics : CircuitMetrics;
  openTimer : option nat;
  resetTimer : option nat;
  halfOpenAttempts : Z;
  pending : list (nat * Callback);
  nextHandle : nat;
  emitted : list Event
}.

Definition circuitOpen : JsError :=
  mkError "CircuitBreakerOpenError" "Circuit breaker is OPEN".
Definition halfOpenLimit : JsError :=
  mkError "CircuitBreakerOpenError" "Circuit breaker HALF_OPEN limit reached".

(** [x!] on a field the constructor has filled in. *)
Definition the (x : option Z) : Z := default 0 x.

(** The constructor writes the defaults into the config object. *)
Definition new (config : CircuitBreakerConfig.t) : t :=
  mk (CircuitBreakerConfig.mk (failureThreshold config)
        (successThreshold config) (timeout config)
        (Some (or_default (monitoringPeriod config) 60000))
        (Some (or_default (halfOpenMaxAttempts config) 3))
        (Some (or_default (resetTimeout config) 60000)))
     CLOSED (mkMetrics 0 0 0 0 0 None None 0) None None 0 [] 0 [].

Definition with_state (x : CircuitState) (cb : t) : t :=
  mk (config cb) x (metrics cb) (openTimer cb) (resetTimer cb)
     (halfOpenAttempts cb) (pending cb) (nextHandle cb) (emitted cb).
Definition with_metrics (x : CircuitMetrics) (cb : t) : t :=
  mk (config cb) (state cb) x (openTimer cb) (resetTimer cb)
     (halfOpenAttempts cb) (pending cb) (nextHandle cb) (emitted cb).
Definition with_halfOpenAttempts (x : Z) (cb : t) : t :=
  mk (config cb) (state cb) (metrics cb) (openTimer cb) (resetTimer cb)
     x (pending cb) (nextHandle cb) (emitted cb).
Definition emit (e : Event) (cb : t) : t :=
  mk (config cb) (state cb) (metrics cb) (openTimer cb) (resetTimer cb)
     (halfOpenAttempts cb) (pending cb) (nextHandle cb) (emitted cb ++ [e]).

(** [this.openTimer = setTimeout(...)] and [this.resetTimer = setTimeout(...)] *)
Definition arm_openTimer (cb : t) : t :=
  mk (config cb) (state cb) (metrics cb) (Some (nextHandle cb))
     (resetTimer cb) (halfOpenAttempts cb)
     (pending cb ++ [(nextHandle cb, ToHalfOpen)]) (S (nextHandle cb))
     (emitted cb).
Definition arm_resetTimer (cb : t) : t :=
  mk (config cb) (state cb) (metrics cb) (openTimer cb)
     (Some (nextHandle cb)) (halfOpenAttempts cb)
     (pending cb ++ [(nextHandle cb, ResetCounters)]) (S (nextHandle cb))
     (emitted cb).

(** [if (handle) clearTimeout(handle)] *)
Definition clearTimeout (handle : option nat) (cb : t) : t :=
  match handle with
  | Some h =>
      mk (config cb) (state cb) (metrics cb) (openTimer cb) (resetTimer cb)
         (halfOpenAttempts cb) (JsMap.delete h (pending cb)) (nextHandle cb)
         (emitted cb)
  | None => cb
  end.

Definition set_stateChanges (x : Z) (m : CircuitMetrics) : CircuitMetrics :=
  mkMetrics (totalRequests m) (successfulRequests m) (failedRequests m)
    (consecutiveFailures m) (consecutiveSuccesses m) (lastFailureTime m)
    (lastSuccessTime m) x.
Definition set_consecutiveFailures (x : Z) (m : CircuitMetrics)
  : CircuitMetrics :=
  mkMetrics (totalRequests m) (successfulRequests m) (failedRequests m)
    x (consecutiveSuccesses m) (lastFailureTime m) (lastSuccessTime m)
    (stateChanges m).
Definition set_consecutiveSuccesses (x : Z) (m : CircuitMetrics)
  : CircuitMetrics :=
  mkMetrics (totalRequests m) (successfulRequests m) (failedRequests m)
    (consecutiveFailures m) x (lastFailureTime m) (lastSuccessTime m)
    (stateChanges m).

Definition open (cb : t) : t :=
  if decide (state cb = OPEN) then cb
  else
    let cb := with_state OPEN cb in
    let cb := with_metrics
                (set_stateChanges (stateChanges (metrics cb) + 1) (metrics cb))
                cb in
    let cb := with_halfOpenAttempts 0 cb in
    let cb := emit (stateChange CLOSED OPEN) cb in
    arm_openTimer cb.

Definition halfOpen (cb : t) : t :=
  let cb := with_state HALF_OPEN cb in
  let cb := with_metrics
              (set_stateChanges (stateChanges (metrics cb) + 1) (metrics cb))
              cb in
  let cb := with_halfOpenAttempts 0 cb in
  let cb := with_metrics (set_consecutiveSuccesses 0 (metrics cb)) cb in
  emit (stateChange OPEN HALF_OPEN) cb.

Definition scheduleReset (cb : t) : t :=
  arm_resetTimer (clearTimeout (resetTimer cb) cb).

Definition close (cb : t) : t :=
  if decide (state cb = CLOSED) then cb
  else
    let cb := with_state CLOSED cb in
    let cb := with_metrics
                (set_stateChanges (stateChanges (metrics cb) + 1) (metrics cb))
                cb in
    let cb := with_metrics (set_consecutiveFailures 0 (metrics cb)) cb in
    let cb := with_halfOpenAttempts 0 cb in
    let cb := emit (stateChange HALF_OPEN CLOSED) cb in
    scheduleReset cb.

Definition onSuccess (now : Z) (cb : t) : t :=
  let m := metrics cb in
  let cb := with_metrics
              (mkMetrics (totalRequests m) (successfulRequests m + 1)
                 (failedRequests m) 0 (consecutiveSuccesses m + 1)
                 (lastFailureTime m) (Some now) (stateChanges m)) cb in
  let cb :=
    if decide (state cb = HALF_OPEN) then
      if consecutiveSuccesses (metrics cb) >=? successThreshold (config cb)
      then close cb else cb
    else cb in
  emit (success (state cb) (consecutiveSuccesses (metrics cb))) cb.

Definition onFailure (now : Z) (cb : t) : t :=
  let m := metrics cb in
  let cb := with_metrics
              (mkMetrics (totalRequests m) (successfulRequests m)
                 (failedRequests m + 1) (consecutiveFailures m + 1) 0
                 (Some now) (lastSuccessTime m) (stateChanges m)) cb in
  let cb :=
    if decide (state cb = HALF_OPEN) then open cb
    else if decide (state cb = CLOSED) then
      if consecutiveFailures (metrics cb) >=? failureThreshold (config cb)
      then open cb else cb
    else cb in
  emit (failure (state cb) (consecutiveFailures (metrics cb))) cb.

(** [execute] up to its [await fn()]: either the call is turned away with an
    error, or it is let through and [fn] is invoked. *)
Definition execute_begin (cb : t) : t * option JsError :=
  if decide (state cb = OPEN) then (cb, Some circuitOpen)
  else
    let admitted (cb : t) : t * option JsError :=
      let m := metrics cb in
      (with_metrics
         (mkMetrics (totalRequests m + 1) (successfulRequests m)
            (failedRequests m) (consecutiveFailures m)
            (consecutiveSuccesses m) (lastFailureTime m) (lastSuccessTime m)
            (stateChanges m)) cb, None) in
    if decide (state cb = HALF_OPEN) then
      if halfOpenAttempts cb >=? the (halfOpenMaxAttempts (config cb))
      then (cb, Some halfOpenLimit)
      else admitted (with_halfOpenAttempts (halfOpenAttempts cb + 1) cb)
    else admitted cb.

(** [execute(fn)] for an [fn] that settles before anything else happens to
    the breaker.  [fn] acts on the outside world [W] and either returns a
    value or throws; its error is rethrown after [onFailure]. *)
Definition execute {W T : Type} (fn : W → W * (T + JsError)) (now : Z)
  (cb : t) (w : W) : t * W * (T + JsError) :=
  match execute_begin cb with
  | (cb, Some e) => (cb, w, inr e)
  | (cb, None) =>
      match fn w with
      | (w', inl result) => (onSuccess now cb, w', inl result)
      | (w', inr error) => (onFailure now cb, w', inr error)
      end
  end.

(** The timer with handle [h] fires. *)
Definition timer_fire (h : nat) (cb : t) : option t :=
  match JsMap.get h (pending cb) with
  | None => None
  | Some callback =>
      let cb := mk (config cb) (state cb) (metrics cb) (openTimer cb)
                   (resetTimer cb) (halfOpenAttempts cb)
                   (JsMap.delete h (pending cb)) (nextHandle cb)
                   (emitted cb) in
      match callback with
      | ToHalfOpen => Some (halfOpen cb)
      | ResetCounters =>
          if decide (state cb = CLOSED) then
            Some (emit metricsReset
                    (with_metrics
                       (set_consecutiveSuccesses 0
                          (set_consecutiveFailures 0 (metrics cb))) cb))
          else Some cb
      end
  end.

Definition forceState (s : CircuitState) (cb : t) : t :=
  let cb := with_state s cb in
  let cb := with_metrics
              (set_stateChanges (stateChanges (metrics cb) + 1) (metrics cb))
              cb in
  emit (stateChange (state cb) s) cb.

Definition getState (cb : t) : CircuitState := state cb.

Definition isOpen (cb : t) : bool := bool_decide (state cb = OPEN).

Definition reset (cb : t) : t :=
  let cb := with_metrics (mkMetrics 0 0 0 0 0 None None 0) cb in
  let cb := clearTimeout (openTimer cb) cb in
  let cb := clearTimeout (resetTimer cb) cb in
  let cb := with_state CLOSED cb in
  let cb := with_halfOpenAttempts 0 cb in
  emit resetEvent cb.

(** What can happen to a breaker between two observations: a call is
    admitted or turned away, an admitted call settles, or a timer fires. *)
Inductive Label :=
  | LAdmit
  | LSuccess (now : Z)
  | LFailure (now : Z)
  | LTimer (h : nat).

Definition step (l : Label) (cb : t) : option t :=
  match l with
  | LAdmit => Some (execute_begin cb).1
  | LSuccess now => Some (onSuccess now cb)
  | LFailure now => Some (onFailure now cb)
  | LTimer h => timer_fire h cb
  end.

(** The number of calls let through while the breaker is HALF_OPEN, over a
    sequence of admissions and settlements (no timer fires in between). *)
Fixpoint probes_admitted (ls : list Label) (cb : t) : nat :=
  match ls with
  | [] => O
  | l :: ls' =>
      match step l cb with
      | None => O
      | Some cb' =>
          (match l, state cb, (execute_begin cb).2 with
           | LAdmit, HALF_OPEN, None => 1
           | _, _, _ => 0
           end + probes_admitted ls' cb')%nat
      end
  end.

Fixpoint run (ls : list Label) (cb : t) : option t :=
  match ls with
  | [] => Some cb
  | l :: ls' =>
      match step l cb with
      | Some cb' => run ls' cb'
      | None => None
      end
  end.
End CircuitBreaker.

(** ** RetryStrategy ([strategies/RetryStrategy]) *)

Module RetryConfig.
(** The optional [onRetry] callback runs outside the strategy and is left
    out: the model is a strategy configured without one. *)
Record t := mk {
  maxRetries : Z;
  backoff : BackoffConfig.t;
  retryableErrors : option (list string);
  retryableStatusCodes : option (list Z)
}.
End RetryConfig.

Module RetryStrategy.
Import RetryConfig.

(** What [isRetryableError] reads of a thrown error: [code], [name],
    [response?.status] and [statusCode]. *)
Record Thrown := mkThrown {
  code : option string;
  name : string;
  responseStatus : option Z;
  statusCode : option Z
}.

Record RetryResult (T : Type) := mkResult {
  success : bool;
  result : option T;
  error : option Thrown;
  attempts : Z;
  totalDelay : Q
}.
Arguments mkResult {T} _ _ _ _ _.
Arguments success {T} _.
Arguments result {T} _.
Arguments error {T} _.
Arguments attempts {T} _.
Arguments totalDelay {T} _.

Record t := mk {
  config : RetryConfig.t;
  backoffStrategy : BackoffStrategy.t
}.

Definition defaultRetryableErrors : list string :=
  ["ECONNRESET"; "ETIMEDOUT"; "ENOTFOUND"; "ECONNREFUSED"; "NetworkError";
   "TimeoutError"]%string.

Definition defaultRetryableStatusCodes : list Z :=
  [408; 429; 500; 502; 503; 504].

(** The constructor; an array, even an empty one, is truthy and kept. *)
Definition new (config : RetryConfig.t) : t :=
  mk (RetryConfig.mk (maxRetries config) (backoff config)
        (Some (default defaultRetryableErrors (retryableErrors config)))
        (Some (default defaultRetryableStatusCodes
                 (retryableStatusCodes config))))
     (BackoffStrategy.new (backoff config)).

Definition isRetryableError (error : Thrown) (s : t) : bool :=
  match retryableErrors (config s) with
  | Some errors =>
      (truthy_str (code error)
       && bool_decide (default ""%string (code error) ∈ errors))
      || bool_decide (name error ∈ errors)
  | None => false
  end
  || match retryableStatusCodes (config s) with
     | Some codes =>
         let statusCode :=
           if truthy_num (responseStatus error) then responseStatus error
           else statusCode error in
         truthy_num statusCode && bool_decide (default 0 statusCode ∈ codes)
     | None => false
     end.

(** The [while (attempt <= maxRetries)] loop of [execute].  [fn k] is how
    invocation number [k] of the retried function settles, [random k] what
    [Math.random()] yields for the backoff after it; [calls] counts the
    invocations made so far.  [fuel] bounds the rounds. *)
Fixpoint execute_loop {T : Type} (fuel : nat) (fn : nat → T + Thrown)
  (random : nat → Q * Q) (calls : nat) (attempt : Z) (totalDelay : Q)
  (lastError : option Thrown) (s : t) : RetryResult T * t :=
  match fuel with
  | O => (mkResult false None lastError attempt totalDelay, s)
  | S fuel' =>
      if attempt <=? maxRetries (config s) then
        let attempt := attempt + 1 in
        match fn calls with
        | inl value => (mkResult true (Some value) None attempt totalDelay, s)
        | inr e =>
            if negb (isRetryableError e s)
            then (mkResult false None (Some e) attempt totalDelay, s)
            else if attempt >? maxRetries (config s)
            then (mkResult false None (Some e) attempt totalDelay, s)
            else
              let '(delay, b) :=
                BackoffStrategy.next (random calls) (backoffStrategy s) in
              execute_loop fuel' fn random (S calls) attempt
                (totalDelay + delay)%Q (Some e) (mk (config s) b)
        end
      else (mkResult false None lastError attempt totalDelay, s)
  end.

(** [execute(fn)]: at most [maxRetries + 1] rounds are ever needed. *)
Definition execute {T : Type} (fn : nat → T + Thrown)
  (random : nat → Q * Q) (s : t) : RetryResult T * t :=
  execute_loop (Z.to_nat (maxRetries (config s) + 1) + 1) fn random 0 0 0%Q
    None (mk (config s) (BackoffStrategy.reset (backoffStrategy s))).

Definition getDelaySequence (random : nat → Q * Q) (s : t) : list Q * t :=
  let '(sequence, b) :=
    BackoffStrategy.calculateSequence
      (Z.to_nat (maxRetries (config s))) random (backoffStrategy s) in
  (sequence, mk (config s) b).
End RetryStrategy.

(** ** RateLimiter ([concurrency/RateLimiter]) *)

Inductive RateLimitStrategy :=
  | fixed_window | sliding_window | token_bucket | leaky_bucket.

#[global] Instance RateLimitStrategy_eq_dec : EqDecision RateLimitStrategy.
Proof. solve_decision. Defined.

Module AdaptiveConfig.
Record t := mk {
  enabled : bool;
  targetErrorRate : Q;
  increaseStep : Q;
  decreaseStep : Q;
  minRate : Q;
  maxRate : Q
}.
End AdaptiveConfig.

Module RateLimitConfig.
Record t := mk {
  requestsPerSecond : option Q;
  requestsPerMinute : option Q;
  requestsPerHour : option Q;
  requestsPerDay : option Q;
  burst : option Q;
  strategy : option RateLimitStrategy;
  adaptive : option AdaptiveConfig.t
}.
End RateLimitConfig.

Module RateLimitWindow.
Record t := mk {
  start : Z;
  count : Z;
  requests : list Z
}.
End RateLimitWindow.

Module TokenBucket.
Record t := mk {
  tokens : Q;
  capacity : Q;
  refillRate : Q;
  lastRefill : Z
}.
End TokenBucket.

Module LeakyBucket.
(** A queued entry is the [resolve] of a pending [acquire] and its
    timestamp; the pending call is named by the key it was made for. *)
Record t := mk {
  queue : list (string * Z);
  capacity : Q;
  leakRate : Q;
  lastLeak : Z
}.
End LeakyBucket.

Module RateLimiter.
Import RateLimitConfig.

Inductive Event :=
  | acquired (key : string) (strategy : option RateLimitStrategy)
  | windowUpdate (key : string) (count limit : Z)
  | tokenConsumed (remaining capacity : Q)
  | rateDecreased (newRate errorRate : Q)
  | rateIncreased (newRate errorRate : Q).

Record AdaptiveMetrics := mkAdaptiveMetrics {
  successCount : Z;
  errorCount : Z;
  totalRequests : Z;
  lastAdjustment : Z
}.

(** The object's fields, then the [acquire] calls that are asleep between
    two attempts (by key), and the events emitted. *)
Record t := mk {
  config : RateLimitConfig.t;
  windows : list (string * RateLimitWindow.t);
  tokenBucket : option TokenBucket.t;
  leakyBucket : option LeakyBucket.t;
  currentRate : Q;
  adaptiveMetrics : AdaptiveMetrics;
  sleepers : list string;
  emitted : list Event
}.

Definition with_windows (x : list (string * RateLimitWindow.t)) (s : t) : t :=
  mk (config s) x (tokenBucket s) (leakyBucket s) (currentRate s)
     (adaptiveMetrics s) (sleepers s) (emitted s).
Definition with_tokenBucket (x : option TokenBucket.t) (s : t) : t :=
  mk (config s) (windows s) x (leakyBucket s) (currentRate s)
     (adaptiveMetrics s) (sleepers s) (emitted s).
Definition with_leakyBucket (x : option LeakyBucket.t) (s : t) : t :=
  mk (config s) (windows s) (tokenBucket s) x (currentRate s)
     (adaptiveMetrics s) (sleepers s) (emitted s).
Definition with_currentRate (x : Q) (s : t) : t :=
  mk (config s) (windows s) (tokenBucket s) (leakyBucket s) x
     (adaptiveMetrics s) (sleepers s) (emitted s).
Definition with_adaptiveMetrics (x : AdaptiveMetrics) (s : t) : t :=
  mk (config s) (windows s) (tokenBucket s) (leakyBucket s) (currentRate s)
     x (sleepers s) (emitted s).
Definition with_sleepers (x : list string) (s : t) : t :=
  mk (config s) (windows s) (tokenBucket s) (leakyBucket s) (currentRate s)
     (adaptiveMetrics s) x (emitted s).
Definition emit (e : Event) (s : t) : t :=
  mk (config s) (windows s) (tokenBucket s) (leakyBucket s) (currentRate s)
     (adaptiveMetrics s) (sleepers s) (emitted s ++ [e]).

(** An optional number used as a condition: [undefined] and [0] are
    falsy. *)
Definition truthyQ (x : option Q) : bool :=
  match x with
  | Some q => negb (Qeq_bool q 0)
  | None => false
  end.

Definition the (x : option Q) : Q := default 0%Q x.

Definition ceil (x : Q) : Q := inject_Z (Qceiling x).

Definition initializeTokenBucket (now : Z) (s : t) : t :=
  let capacity :=
    if truthyQ (burst (config s)) then the (burst (config s))
    else ceil (double (currentRate s * 2)) in
  with_tokenBucket
    (Some (TokenBucket.mk capacity capacity (currentRate s) now)) s.

Definition initializeLeakyBucket (now : Z) (s : t) : t :=
  let capacity :=
    if truthyQ (burst (config s)) then the (burst (config s))
    else ceil (double (currentRate s * 10)) in
  with_leakyBucket
    (Some (LeakyBucket.mk [] capacity (currentRate s) now)) s.

Definition initializeStrategy (now : Z) (s : t) : t :=
  match strategy (config s) with
  | Some token_bucket => initializeTokenBucket now s
  | Some leaky_bucket => initializeLeakyBucket now s
  | _ => s
  end.

(** [constructor(config)]; [now] is what [Date.now()] returns in it. *)
Definition new (config : RateLimitConfig.t) (now : Z) : t :=
  let currentRate :=
    if truthyQ (requestsPerSecond config) then the (requestsPerSecond config)
    else if truthyQ (requestsPerMinute config)
    then double (the (requestsPerMinute config) / 60)
    else 1%Q in
  initializeStrategy now
    (mk config [] None None currentRate (mkAdaptiveMetrics 0 0 0 now) [] []).

Definition getWindowSize (s : t) : Z :=
  if truthyQ (requestsPerSecond (config s)) then 1000
  else if truthyQ (requestsPerMinute (config s)) then 60000
  else if truthyQ (requestsPerHour (config s)) then 3600000
  else if truthyQ (requestsPerDay (config s)) then 86400000
  else 1000.

Definition getLimit (windowSize : Z) (s : t) : Z :=
  let seconds := double (inject_Z windowSize / 1000) in
  if truthyQ (requestsPerSecond (config s))
  then Qceiling (double (the (requestsPerSecond (config s)) * seconds))
  else if truthyQ (requestsPerMinute (config s))
  then Qceiling
         (double (double (the (requestsPerMinute (config s)) * seconds) / 60))
  else if truthyQ (requestsPerHour (config s))
  then Qceiling
         (double (double (the (requestsPerHour (config s)) * seconds) / 3600))
  else if truthyQ (requestsPerDay (config s))
  then Qceiling
         (double (double (the (requestsPerDay (config s)) * seconds) / 86400))
  else 1.

(** How one attempt of an [acquire] call ends: it is let through, it goes
    to sleep to try again ([None] is a wait that is not a finite number),
    it is parked in the leaky bucket's queue, or it throws. *)
Inductive Outcome :=
  | Granted
  | Sleeping (waitTime : option Q)
  | Queued
  | Threw (error : JsError).

Definition acquireFixedWindow (key : string) (now : Z) (s : t)
  : t * Outcome :=
  let windowSize := getWindowSize s in
  let windowStart := now / windowSize * windowSize in
  let '(window, s) :=
    match JsMap.get key (windows s) with
    | Some window =>
        if RateLimitWindow.start window =? windowStart then (window, s)
        else
          let window := RateLimitWindow.mk windowStart 0 [] in
          (window, with_windows (JsMap.set key window (windows s)) s)
    | None =>
        let window := RateLimitWindow.mk windowStart 0 [] in
        (window, with_windows (JsMap.set key window (windows s)) s)
    end in
  let limit := getLimit windowSize s in
  if RateLimitWindow.count window >=? limit then
    (s, Sleeping (Some (inject_Z (windowStart + windowSize - now))))
  else
    let window :=
      RateLimitWindow.mk (RateLimitWindow.start window)
        (RateLimitWindow.count window + 1)
        (RateLimitWindow.requests window) in
    (emit (windowUpdate key (RateLimitWindow.count window) limit)
       (with_windows (JsMap.set key window (windows s)) s),
     Granted).

(** [Math.min(...requests)]; [None] for the [Infinity] of no request. *)
Definition oldest (requests : list Z) : option Z :=
  match requests with
  | [] => None
  | t0 :: rest => Some (foldl Z.min t0 rest)
  end.

Definition acquireSlidingWindow (key : string) (now : Z) (s : t)
  : t * Outcome :=
  let windowSize := getWindowSize s in
  let windowStart := now - windowSize in
  let window :=
    match JsMap.get key (windows s) with
    | Some window => window
    | None => RateLimitWindow.mk now 0 []
    end in
  let requests :=
    List.filter (λ t0, windowStart <? t0) (RateLimitWindow.requests window) in
  let window :=
    RateLimitWindow.mk (RateLimitWindow.start window)
      (Z.of_nat (length requests)) requests in
  let limit := getLimit windowSize s in
  if RateLimitWindow.count window >=? limit then
    (with_windows (JsMap.set key window (windows s)) s,
     Sleeping
       ((λ oldestRequest, inject_Z (oldestRequest + windowSize - now + 1))
          <$> oldest requests))
  else
    let window :=
      RateLimitWindow.mk (RateLimitWindow.start window)
        (RateLimitWindow.count window + 1) (requests ++ [now]) in
    (emit (windowUpdate key (RateLimitWindow.count window) limit)
       (with_windows (JsMap.set key window (windows s)) s),
     Granted).

(** [elapsed * rate] for the milliseconds between two readings of the
    clock, as both buckets compute it: the division and the product round. *)
Definition accrued (elapsedMs : Z) (rate : Q) : Q :=
  let elapsed := double (inject_Z elapsedMs / 1000) in
  double (elapsed * rate).

(** The refill both [acquireTokenBucket] and the refill interval make. *)
Definition refill (now : Z) (b : TokenBucket.t) : TokenBucket.t :=
  let tokensToAdd :=
    accrued (now - TokenBucket.lastRefill b) (TokenBucket.refillRate b) in
  TokenBucket.mk
    (Qmin (TokenBucket.capacity b)
          (double (TokenBucket.tokens b + tokensToAdd)))
    (TokenBucket.capacity b) (TokenBucket.refillRate b) now.

Definition notInitialized (what : string) : JsError :=
  mkError "Error" (what +:+ " not initialized").

Definition bucketFull : JsError :=
  mkError "Error" "Rate limit exceeded: bucket is full".

Definition acquireTokenBucket (now : Z) (s : t) : t * Outcome :=
  match tokenBucket s with
  | None => (s, Threw (notInitialized "Token bucket"))
  | Some b =>
      let b := refill now b in
      if Qle_bool 1 (TokenBucket.tokens b) then
        let b := TokenBucket.mk (double (TokenBucket.tokens b - 1))
                   (TokenBucket.capacity b) (TokenBucket.refillRate b)
                   (TokenBucket.lastRefill b) in
        (emit (tokenConsumed (TokenBucket.tokens b) (TokenBucket.capacity b))
           (with_tokenBucket (Some b) s),
         Granted)
      else
        (with_tokenBucket (Some b) s,
         Sleeping
           (if Qeq_bool (TokenBucket.refillRate b) 0 then None
            else Some (double
                         (double (double (1 - TokenBucket.tokens b)
                                  / TokenBucket.refillRate b) * 1000))))
  end.

Definition acquireLeakyBucket (key : string) (now : Z) (s : t)
  : t * Outcome :=
  match leakyBucket s with
  | None => (s, Threw (notInitialized "Leaky bucket"))
  | Some b =>
      if Qle_bool (LeakyBucket.capacity b)
           (inject_Z (Z.of_nat (length (LeakyBucket.queue b))))
      then (s, Threw bucketFull)
      else
        (with_leakyBucket
           (Some (LeakyBucket.mk (LeakyBucket.queue b ++ [(key, now)])
                    (LeakyBucket.capacity b) (LeakyBucket.leakRate b)
                    (LeakyBucket.lastLeak b))) s,
         Queued)
  end.

(** One attempt under the configured strategy. *)
Definition attempt (key : string) (now : Z) (s : t) : t * Outcome :=
  match strategy (config s) with
  | Some token_bucket => acquireTokenBucket now s
  | Some leaky_bucket => acquireLeakyBucket key now s
  | Some sliding_window => acquireSlidingWindow key now s
  | _ => acquireFixedWindow key now s
  end.

(** What follows an attempt inside [acquire]: the [acquired] event once it
    is let through, another attempt after the sleep otherwise. *)
Definition settle (key : string) (r : t * Outcome) : t * Outcome :=
  match r.2 with
  | Granted => (emit (acquired key (strategy (config r.1))) r.1, Granted)
  | Sleeping ms => (with_sleepers (sleepers r.1 ++ [key]) r.1, Sleeping ms)
  | o => (r.1, o)
  end.

Definition bump_totalRequests (m : AdaptiveMetrics) : AdaptiveMetrics :=
  mkAdaptiveMetrics (successCount m) (errorCount m) (totalRequests m + 1)
    (lastAdjustment m).

(** [acquire(key)] up to its first sleep, if any. *)
Definition acquire (key : string) (now : Z) (s : t) : t * Outcome :=
  let s := with_adaptiveMetrics (bump_totalRequests (adaptiveMetrics s)) s in
  settle key (attempt key now s).

(** The sleeper at index [k] wakes up and tries again. *)
Definition wake (k : nat) (now : Z) (s : t) : option (t * Outcome) :=
  match sleepers s !! k with
  | None => None
  | Some key =>
      let s := with_sleepers (delete k (sleepers s)) s in
      Some (settle key (attempt key now s))
  end.

(** The callback of the refill interval. *)
Definition refill_tick (now : Z) (s : t) : t :=
  match tokenBucket s with
  | None => s
  | Some b => with_tokenBucket (Some (refill now b)) s
  end.

(** The callback of the leak interval; every released caller finishes its
    [acquire] with the [acquired] event. *)
Definition leak_tick (now : Z) (s : t) : t :=
  match leakyBucket s with
  | None => s
  | Some b =>
      match LeakyBucket.queue b with
      | [] => s
      | _ =>
          let requestsToLeak :=
            Qfloor (accrued (now - LeakyBucket.lastLeak b)
                      (LeakyBucket.leakRate b)) in
          let released :=
            take (Z.to_nat requestsToLeak) (LeakyBucket.queue b) in
          let s :=
            with_leakyBucket
              (Some (LeakyBucket.mk
                       (drop (Z.to_nat requestsToLeak) (LeakyBucket.queue b))
                       (LeakyBucket.capacity b) (LeakyBucket.leakRate b)
                       now)) s in
          foldl (λ s request, emit (acquired request.1 (strategy (config s))) s)
            s released
      end
  end.

Definition adjustAdaptiveRate (now : Z) (s : t) : t :=
  match adaptive (config s) with
  | None => s
  | Some config =>
      let m := adaptiveMetrics s in
      if totalRequests m =? 0 then s
      else
        let errorRate :=
          double (inject_Z (errorCount m) / inject_Z (totalRequests m)) in
        let s :=
          if Qlt_le_dec (AdaptiveConfig.targetErrorRate config) errorRate
          then
            let rate :=
              Qmax (AdaptiveConfig.minRate config)
                (double (currentRate s - AdaptiveConfig.decreaseStep config))
            in emit (rateDecreased rate errorRate) (with_currentRate rate s)
          else if Qlt_le_dec errorRate
                    (double (AdaptiveConfig.targetErrorRate config * (1 # 2)))
          then
            let rate :=
              Qmin (AdaptiveConfig.maxRate config)
                (double (currentRate s + AdaptiveConfig.increaseStep config))
            in emit (rateIncreased rate errorRate) (with_currentRate rate s)
          else s in
        let s := with_adaptiveMetrics (mkAdaptiveMetrics 0 0 0 now) s in
        let s :=
          match tokenBucket s with
          | Some b =>
              with_tokenBucket
                (Some (TokenBucket.mk (TokenBucket.tokens b)
                         (TokenBucket.capacity b) (currentRate s)
                         (TokenBucket.lastRefill b))) s
          | None => s
          end in
        match leakyBucket s with
        | Some b =>
            with_leakyBucket
              (Some (LeakyBucket.mk (LeakyBucket.queue b)
                       (LeakyBucket.capacity b) (currentRate s)
                       (LeakyBucket.lastLeak b))) s
        | None => s
        end
  end.

Definition recordSuccess (s : t) : t :=
  let m := adaptiveMetrics s in
  with_adaptiveMetrics
    (mkAdaptiveMetrics (successCount m + 1) (errorCount m) (totalRequests m)
       (lastAdjustment m)) s.

Definition recordError (s : t) : t :=
  let m := adaptiveMetrics s in
  with_adaptiveMetrics
    (mkAdaptiveMetrics (successCount m) (errorCount m + 1) (totalRequests m)
       (lastAdjustment m)) s.

(** [reset(key?)]: the callers parked in the leaky bucket's queue are
    dropped with it, neither released nor rejected. *)
Definition reset (key : option string) (s : t) : t :=
  let s :=
    if truthy_str key
    then with_windows (JsMap.delete (default ""%string key) (windows s)) s
    else with_windows [] s in
  let s :=
    match tokenBucket s with
    | Some b =>
        with_tokenBucket
          (Some (TokenBucket.mk (TokenBucket.capacity b)
                   (TokenBucket.capacity b) (TokenBucket.refillRate b)
                   (TokenBucket.lastRefill b))) s
    | None => s
    end in
  match leakyBucket s with
  | Some b =>
      with_leakyBucket
        (Some (LeakyBucket.mk [] (LeakyBucket.capacity b)
                 (LeakyBucket.leakRate b) (LeakyBucket.lastLeak b))) s
  | None => s
  end.

(** *** The limiter under its callers and its intervals *)
Inductive Label :=
  | LAcquire (key : string) (now : Z)
  | LWake (k : nat) (now : Z)
  | LRefill (now : Z)
  | LLeak (now : Z)
  | LAdjust (now : Z)
  | LRecordSuccess
  | LRecordError
  | LReset (key : option string).

(** [None] when the label cannot occur: no such sleeper, or an interval
    that the constructor did not start. *)
Definition step (l : Label) (s : t) : option t :=
  match l with
  | LAcquire key now => Some (acquire key now s).1
  | LWake k now => fst <$> wake k now s
  | LRefill now =>
      if decide (strategy (config s) = Some token_bucket)
      then Some (refill_tick now s) else None
  | LLeak now =>
      if decide (strategy (config s) = Some leaky_bucket)
      then Some (leak_tick now s) else None
  | LAdjust now =>
      match adaptive (config s) with
      | Some a =>
          if AdaptiveConfig.enabled a then Some (adjustAdaptiveRate now s)
          else None
      | None => None
      end
  | LRecordSuccess => Some (recordSuccess s)
  | LRecordError => Some (recordError s)
  | LReset key => Some (reset key s)
  end.

Fixpoint run (ls : list Label) (s : t) : option t :=
  match ls with
  | [] => Some s
  | l :: ls' =>
      match step l s with
      | Some s' => run ls' s'
      | None => None
      end
  end.
End RateLimiter.

(* PROOFS *)

(** * Properties *)

(** ** Rounding to doubles *)

Section DoubleRounding.
Local Open Scope Q_scope.

Lemma two_pow_pos (k : Z) : 0 < 2 ^ k.
Proof. by apply Qpower_0_lt. Qed.

Lemma two_pow_le (j k : Z) : (j ≤ k)%Z → 2 ^ j <= 2 ^ k.
Proof. intros H. by apply Qpower_le_compat_l. Qed.

Lemma two_pow_lt (j k : Z) : (j < k)%Z → 2 ^ j < 2 ^ k.
Proof. intros H. by apply Qpower_lt_compat_l. Qed.

Lemma two_pow_succ (k : Z) : 2 ^ (k + 1) == 2 * 2 ^ k.
Proof. rewrite Qpower_plus by done. rewrite Qpower_1_r. ring. Qed.

Lemma two_pow_Z (k : Z) : (0 ≤ k)%Z → inject_Z (2 ^ k) == 2 ^ k.
Proof. intros H. by rewrite Zpower_Qpower. Qed.

Lemma ilog2_spec (x : Q) :
  0 < x → 2 ^ ilog2 x <= x ∧ x < 2 ^ (ilog2 x + 1).
Proof.
  intros Hx. destruct x as [p q]. unfold ilog2. cbn [Qnum Qden].
  assert (Hp : (0 < p)%Z).
  { unfold Qlt in Hx. cbn in Hx. lia. }
  pose proof (Z.log2_spec p Hp) as [Hp1 Hp2].
  pose proof (Z.log2_spec (Z.pos q) ltac:(lia)) as [Hq1 Hq2].
  pose proof (Z.log2_nonneg p) as Hlp.
  pose proof (Z.log2_nonneg (Z.pos q)) as Hlq.
  set (lp := Z.log2 p) in *. set (lq := Z.log2 (Z.pos q)) in *.
  assert (Ex : p # q == inject_Z p / inject_Z (Z.pos q))
    by apply Qmake_Qdiv.
  assert (Hqpos : 0 < inject_Z (Z.pos q)).
  { change 0 with (inject_Z 0). rewrite <- Zlt_Qlt. lia. }
  rewrite Zle_Qle, two_pow_Z in Hp1, Hq1 by done.
  rewrite Zlt_Qlt in Hp2, Hq2.
  replace (Z.succ lp) with (lp + 1)%Z in Hp2 by lia.
  replace (Z.succ lq) with (lq + 1)%Z in Hq2 by lia.
  rewrite two_pow_Z in Hp2, Hq2 by lia.
  pose proof (two_pow_pos lq) as Hlqpos.
  pose proof (two_pow_pos (lq + 1)) as Hlq1pos.
  pose proof (two_pow_pos lp) as Hlppos.
  assert (Hup : p # q < 2 ^ (lp - lq + 1)).
  { replace (lp - lq + 1)%Z with ((lp + 1) - lq)%Z by lia.
    rewrite Qpower_minus by done. rewrite Ex.
    apply Qlt_shift_div_l; [done |].
    assert (Hre : inject_Z p / inject_Z (Z.pos q) * 2 ^ lq
                  == inject_Z p * 2 ^ lq / inject_Z (Z.pos q))
      by (field; intros Hc; rewrite Hc in Hqpos; by apply Qlt_irrefl in Hqpos).
    rewrite Hre.
    apply Qlt_shift_div_r; [done |].
    apply Qlt_le_trans with (2 ^ (lp + 1) * 2 ^ lq).
    - apply Qmult_lt_compat_r; done.
    - apply Qmult_le_l; [apply two_pow_pos | done]. }
  assert (Hlow : 2 ^ (lp - lq - 1) <= p # q).
  { replace (lp - lq - 1)%Z with (lp - (lq + 1))%Z by lia.
    rewrite Qpower_minus by done. rewrite Ex.
    apply Qle_shift_div_r; [done |].
    assert (Hre : inject_Z p / inject_Z (Z.pos q) * 2 ^ (lq + 1)
                  == inject_Z p * 2 ^ (lq + 1) / inject_Z (Z.pos q))
      by (field; intros Hc; rewrite Hc in Hqpos; by apply Qlt_irrefl in Hqpos).
    rewrite Hre.
    apply Qle_shift_div_l; [done |].
    apply Qle_trans with (2 ^ lp * 2 ^ (lq + 1)).
    - apply Qmult_le_l; [done |]. by apply Qlt_le_weak.
    - apply Qmult_le_compat_r; [done |]. by apply Qlt_le_weak. }
  destruct (Qle_bool (2 ^ (lp - lq)) (p # q)) eqn:Hb.
  - apply Qle_bool_iff in Hb. done.
  - split; [done |]. replace (lp - lq - 1 + 1)%Z with (lp - lq)%Z by lia.
    apply Qnot_le_lt. intros Hc. apply Qle_bool_iff in Hc. congruence.
Qed.

Lemma ilog2_unique (x : Q) (k : Z) :
  2 ^ k <= x → x < 2 ^ (k + 1) → ilog2 x = k.
Proof.
  intros H1 H2.
  assert (Hx : 0 < x) by (eapply Qlt_le_trans; [apply two_pow_pos | done]).
  destruct (ilog2_spec x Hx) as [G1 G2].
  destruct (Z.lt_trichotomy (ilog2 x) k) as [Hlt | [Heq | Hgt]]; [| done |].
  - exfalso. pose proof (two_pow_le (ilog2 x + 1) k ltac:(lia)) as Hle.
    apply (Qlt_irrefl x). eapply Qlt_le_trans; [exact G2 |].
    by eapply Qle_trans.
  - exfalso. pose proof (two_pow_le (k + 1) (ilog2 x) ltac:(lia)) as Hle.
    apply (Qlt_irrefl x). eapply Qlt_le_trans; [exact H2 |].
    by eapply Qle_trans.
Qed.

Lemma ilog2_le (x y : Q) : 0 < x → x <= y → (ilog2 x ≤ ilog2 y)%Z.
Proof.
  intros Hx Hxy.
  assert (Hy : 0 < y) by by eapply Qlt_le_trans.
  destruct (ilog2_spec x Hx) as [G1 G2].
  destruct (ilog2_spec y Hy) as [K1 K2].
  destruct (Z_le_gt_dec (ilog2 x) (ilog2 y)) as [Hle | Hgt]; [done |].
  exfalso. pose proof (two_pow_le (ilog2 y + 1) (ilog2 x) ltac:(lia)) as Hle.
  apply (Qlt_irrefl y). eapply Qlt_le_trans; [exact K2 |].
  eapply Qle_trans; [exact Hle |]. by eapply Qle_trans.
Qed.

Lemma ilog2_comp (x y : Q) : 0 < x → x == y → ilog2 x = ilog2 y.
Proof.
  intros Hx Hxy. destruct (ilog2_spec x Hx) as [G1 G2].
  symmetry. apply ilog2_unique; by rewrite <- Hxy.
Qed.

Lemma round_half_even_cases (x : Q) :
  (round_half_even x = Qfloor x ∧ x - inject_Z (Qfloor x) <= 1 # 2) ∨
  (round_half_even x = (Qfloor x + 1)%Z ∧ 1 # 2 <= x - inject_Z (Qfloor x)).
Proof.
  unfold round_half_even.
  destruct (Qcompare_spec (x - inject_Z (Qfloor x)) (1 # 2)) as [He | Hl | Hg].
  - destruct (Z.even (Qfloor x)); [left | right]; rewrite He; by split.
  - left. split; [done | by apply Qlt_le_weak].
  - right. split; [done | by apply Qlt_le_weak].
Qed.

Lemma round_half_even_comp (x y : Q) :
  x == y → round_half_even x = round_half_even y.
Proof.
  intros Hxy. unfold round_half_even.
  rewrite (Qfloor_comp _ _ Hxy).
  assert (Hc : (x - inject_Z (Qfloor y) ?= 1 # 2)
               = (y - inject_Z (Qfloor y) ?= 1 # 2)).
  { apply Qcompare_comp; [| done]. by rewrite Hxy. }
  by rewrite Hc.
Qed.

Lemma round_half_even_Z (n : Z) : round_half_even (inject_Z n) = n.
Proof.
  unfold round_half_even. rewrite Qfloor_Z.
  assert (Hc : (inject_Z n - inject_Z n ?= 1 # 2) = Lt).
  { apply (proj1 (Qlt_alt _ _)). lra. }
  by rewrite Hc.
Qed.

Lemma round_half_even_le (x y : Q) :
  x <= y → (round_half_even x ≤ round_half_even y)%Z.
Proof.
  intros Hxy. pose proof (Qfloor_resp_le _ _ Hxy) as Hf.
  destruct (Z.eq_dec (Qfloor x) (Qfloor y)) as [Heq | Hne].
  - unfold round_half_even. rewrite Heq.
    set (f := Qfloor y).
    assert (Hr : x - inject_Z f <= y - inject_Z f) by lra.
    destruct (Qcompare_spec (x - inject_Z f) (1 # 2)) as [H1 | H1 | H1];
      destruct (Qcompare_spec (y - inject_Z f) (1 # 2)) as [H2 | H2 | H2];
      destruct (Z.even f); try lia; exfalso; lra.
  - destruct (round_half_even_cases x) as [[-> _] | [-> _]];
      destruct (round_half_even_cases y) as [[-> _] | [-> _]]; lia.
Qed.

(** For a positive [x], [double_pos x] lies in the binade of [x]. *)
Lemma double_pos_bounds (x : Q) :
  0 < x →
  2 ^ ilog2 x <= double_pos x ∧ double_pos x <= 2 ^ (ilog2 x + 1).
Proof.
  intros Hx. destruct (ilog2_spec x Hx) as [G1 G2]. unfold double_pos.
  set (e := (ilog2 x - 52)%Z).
  pose proof (two_pow_pos e) as He.
  assert (E1 : 2 ^ ilog2 x == inject_Z (2 ^ 52) * 2 ^ e).
  { rewrite two_pow_Z by done. rewrite <- Qpower_plus by done.
    unfold e. by replace (52 + (ilog2 x - 52))%Z with (ilog2 x) by lia. }
  assert (E2 : 2 ^ (ilog2 x + 1) == inject_Z (2 ^ 53) * 2 ^ e).
  { rewrite two_pow_Z by done. rewrite <- Qpower_plus by done.
    unfold e. by replace (53 + (ilog2 x - 52))%Z with (ilog2 x + 1)%Z by lia. }
  assert (L : inject_Z (2 ^ 52) <= x / 2 ^ e).
  { apply Qle_shift_div_l; [done |]. by rewrite <- E1. }
  assert (U : x / 2 ^ e <= inject_Z (2 ^ 53)).
  { apply Qle_shift_div_r; [done |]. rewrite <- E2. by apply Qlt_le_weak. }
  apply round_half_even_le in L, U. rewrite round_half_even_Z in L, U.
  rewrite E1, E2. split; (apply Qmult_le_compat_r; [| by apply Qlt_le_weak]);
    by rewrite <- Zle_Qle.
Qed.

Lemma double_pos_le (x y : Q) :
  0 < x → x <= y → double_pos x <= double_pos y.
Proof.
  intros Hx Hxy.
  assert (Hy : 0 < y) by by eapply Qlt_le_trans.
  pose proof (ilog2_le x y Hx Hxy) as Hl.
  destruct (Z.eq_dec (ilog2 x) (ilog2 y)) as [Heq | Hne].
  - unfold double_pos. rewrite Heq. set (e := (ilog2 y - 52)%Z).
    pose proof (two_pow_pos e) as He.
    apply Qmult_le_compat_r; [| by apply Qlt_le_weak].
    rewrite <- Zle_Qle. apply round_half_even_le.
    apply Qmult_le_compat_r; [done |]. apply Qinv_le_0_compat.
    by apply Qlt_le_weak.
  - destruct (double_pos_bounds x Hx) as [_ U].
    destruct (double_pos_bounds y Hy) as [L _].
    eapply Qle_trans; [exact U |]. eapply Qle_trans; [| exact L].
    apply two_pow_le. lia.
Qed.

Lemma double_pos_comp (x y : Q) :
  0 < x → x == y → double_pos x == double_pos y.
Proof.
  intros Hx Hxy. unfold double_pos. rewrite (ilog2_comp x y Hx Hxy).
  assert (Hd : x / 2 ^ (ilog2 y - 52) == y / 2 ^ (ilog2 y - 52))
    by by rewrite Hxy.
  by rewrite (round_half_even_comp _ _ Hd).
Qed.

Lemma double_pos_positive (x : Q) : 0 < x → 0 < double_pos x.
Proof.
  intros Hx. destruct (double_pos_bounds x Hx) as [L _].
  eapply Qlt_le_trans; [apply two_pow_pos | exact L].
Qed.

Lemma double_of_pos (x : Q) : 0 < x → double x == double_pos x.
Proof.
  intros Hx. unfold double. rewrite Qred_correct.
  apply (proj1 (Qgt_alt _ _)) in Hx. by rewrite Hx.
Qed.

Lemma double_of_neg (x : Q) : x < 0 → double x == - double_pos (- x).
Proof.
  intros Hx. unfold double. rewrite Qred_correct.
  apply (proj1 (Qlt_alt _ _)) in Hx. by rewrite Hx.
Qed.

Lemma double_of_zero (x : Q) : x == 0 → double x == 0.
Proof.
  intros Hx. unfold double. rewrite Qred_correct.
  apply (proj1 (Qeq_alt _ _)) in Hx. by rewrite Hx.
Qed.

(** Rounding keeps the order. *)
Lemma double_le (x y : Q) : x <= y → double x <= double y.
Proof.
  intros Hxy.
  destruct (Q_dec x 0) as [[Hx | Hx] | Hx];
    destruct (Q_dec y 0) as [[Hy | Hy] | Hy].
  - rewrite (double_of_neg x Hx), (double_of_neg y Hy).
    apply Qopp_le_compat. apply double_pos_le; lra.
  - rewrite (double_of_neg x Hx), (double_of_pos y Hy).
    pose proof (double_pos_positive (- x) ltac:(lra)).
    pose proof (double_pos_positive y Hy). lra.
  - rewrite (double_of_neg x Hx), (double_of_zero y Hy).
    pose proof (double_pos_positive (- x) ltac:(lra)). lra.
  - exfalso. lra.
  - rewrite (double_of_pos x Hx), (double_of_pos y Hy).
    by apply double_pos_le.
  - exfalso. lra.
  - exfalso. lra.
  - rewrite (double_of_zero x Hx), (double_of_pos y Hy).
    pose proof (double_pos_positive y Hy). lra.
  - rewrite (double_of_zero x Hx), (double_of_zero y Hy). lra.
Qed.

Lemma double_comp (x y : Q) : x == y → double x == double y.
Proof.
  intros Hxy. apply Qle_antisym; apply double_le; rewrite Hxy; apply Qle_refl.
Qed.

Lemma double_nonneg (x : Q) : 0 <= x → 0 <= double x.
Proof.
  intros Hx. rewrite <- (double_of_zero 0) by reflexivity.
  by apply double_le.
Qed.

(** Integers of up to 53 bits are doubles. *)
Lemma double_small_Z (n : Z) :
  (0 ≤ n < 2 ^ 53)%Z → double (inject_Z n) == inject_Z n.
Proof.
  intros [Hn0 Hn]. destruct (Z.eq_dec n 0%Z) as [-> | Hne]; [reflexivity |].
  assert (Hpos : 0 < inject_Z n).
  { change 0 with (inject_Z 0). rewrite <- Zlt_Qlt. lia. }
  rewrite (double_of_pos _ Hpos). unfold double_pos.
  destruct (ilog2_spec _ Hpos) as [G1 G2].
  assert (Hk : (ilog2 (inject_Z n) ≤ 52)%Z).
  { destruct (Z_le_gt_dec (ilog2 (inject_Z n)) 52) as [? | Hgt]; [done |].
    exfalso. pose proof (two_pow_le 53 (ilog2 (inject_Z n)) ltac:(lia)) as H.
    rewrite <- two_pow_Z in H by done.
    assert (inject_Z (2 ^ 53) <= inject_Z n) by by eapply Qle_trans.
    rewrite <- Zle_Qle in *. lia. }
  set (e := (ilog2 (inject_Z n) - 52)%Z) in *.
  assert (He : 2 ^ e == / inject_Z (2 ^ (- e))).
  { rewrite two_pow_Z by lia. rewrite Qpower_opp.
    rewrite Qinv_involutive. reflexivity. }
  assert (Hpe : 0 < inject_Z (2 ^ (- e))).
  { rewrite two_pow_Z by lia. apply two_pow_pos. }
  assert (Hd : inject_Z n / 2 ^ e == inject_Z (n * 2 ^ (- e))).
  { rewrite He, inject_Z_mult. unfold Qdiv. by rewrite Qinv_involutive. }
  rewrite (round_half_even_comp _ _ Hd), round_half_even_Z.
  rewrite He, inject_Z_mult. field.
  intros Hc. rewrite Hc in Hpe. by apply Qlt_irrefl in Hpe.
Qed.

Lemma double_Z_small (n : Z) : (0 ≤ n < 2 ^ 53)%Z → double_Z n = n.
Proof.
  intros Hn. unfold double_Z.
  rewrite (Qfloor_comp _ _ (double_small_Z n Hn)). apply Qfloor_Z.
Qed.
End DoubleRounding.


(** ** Insertion-ordered maps *)

Section JsMapFacts.
Context {K V : Type} `{EqDecision K}.
Implicit Types (k : K) (v : V) (m : list (K * V)).
Import JsMap.

Lemma get_set_eq k v m : get k (set k v m) = Some v.
Proof.
  induction m as [|[k' v'] m IH]; simpl.
  - by rewrite decide_True.
  - destruct (decide (k = k')) as [->|Hne]; simpl.
    + by rewrite decide_True.
    + by rewrite decide_False.
Qed.

Lemma get_set_ne k k' v m : k ≠ k' → get k' (set k v m) = get k' m.
Proof.
  intros Hne. induction m as [|[k0 v0] m IH]; simpl.
  - by rewrite decide_False.
  - destruct (decide (k = k0)) as [->|Hne0]; simpl.
    + by rewrite !decide_False.
    + destruct (decide (k' = k0)); [done | apply IH].
Qed.

Lemma get_None_notin k m : get k m = None ↔ k ∉ keys m.
Proof.
  unfold keys. induction m as [|[k' v'] m IH]; simpl.
  - split; [intros _; apply not_elem_of_nil | done].
  - destruct (decide (k = k')) as [->|Hne].
    + split; [done | intros Hn; exfalso; apply Hn; left].
    + rewrite IH, not_elem_of_cons. tauto.
Qed.

Lemma set_fresh k v m : k ∉ keys m → set k v m = m ++ [(k, v)].
Proof.
  unfold keys. induction m as [|[k' v'] m IH]; simpl; [done |].
  rewrite not_elem_of_cons. intros [Hne Hnotin].
  rewrite decide_False by done. by rewrite IH.
Qed.

Lemma keys_set_fresh k v m : k ∉ keys m → keys (set k v m) = keys m ++ [k].
Proof.
  intros Hk. rewrite set_fresh by done. unfold keys. by rewrite fmap_app.
Qed.

Lemma keys_set_present k v m : k ∈ keys m → keys (set k v m) = keys m.
Proof.
  unfold keys. induction m as [|[k' v'] m IH]; simpl.
  - intros Hin. by apply elem_of_nil in Hin.
  - destruct (decide (k = k')) as [->|Hne]; simpl; [done |].
    intros Hin. apply elem_of_cons in Hin as [?|Hin]; [done |].
    f_equal. by apply IH.
Qed.

Lemma length_set_le k v m : (length (set k v m) ≤ S (length m))%nat.
Proof.
  induction m as [|[k' v'] m IH]; simpl; [lia |].
  destruct (decide (k = k')); simpl; lia.
Qed.

Lemma length_delete_le k m : (length (delete k m) ≤ length m)%nat.
Proof.
  induction m as [|[k' v'] m IH]; simpl; [lia |].
  destruct (decide (k = k')); simpl; lia.
Qed.
End JsMapFacts.

(** ** PriorityQueue: tiers drain in priority order, FIFO inside a tier *)

Section PriorityQueueProofs.
Import PriorityQueue TaskPriority.

(** What [enqueue] stores: the task with its priority made explicit. *)
Definition stamped (task : Task.t) : Task.t :=
  Task.set_priority (Some (default NORMAL (Task.priority task))) task.

(** The tasks of [tasks] that land in tier [p], in their order in [tasks]. *)
Definition tierOf (p : Z) (tasks : list Task.t) : list Task.t :=
  filter (λ task, Task.priority task = Some p) (stamped <$> tasks).

(** The tiers of [ps], concatenated in the order of [ps]. *)
Definition flat (ps : list Z) (pq : PriorityQueue.t) : list Task.t :=
  concat ((λ p, tier p pq) <$> ps).

Lemma tier_enqueue p task pq :
  tier p (enqueue task pq) =
  if decide (p = default NORMAL (Task.priority task))
  then tier p pq ++ [stamped task] else tier p pq.
Proof.
  unfold enqueue, tier, stamped.
  set (q := default NORMAL (Task.priority task)).
  destruct (JsMap.get q (queues pq)) as [queue|] eqn:Hq; simpl;
    destruct (decide (p = q)) as [->|Hne];
    rewrite ?get_set_eq, ?Hq; try done;
    by rewrite get_set_ne by done.
Qed.

Lemma tier_enqueue_all p tasks pq :
  tier p (enqueue_all tasks pq) = tier p pq ++ tierOf p tasks.
Proof.
  unfold enqueue_all, tierOf. revert pq.
  induction tasks as [|task tasks IH]; intros pq; simpl.
  - by rewrite app_nil_r.
  - rewrite IH, tier_enqueue, filter_cons. unfold stamped at 2. simpl.
    destruct (decide (p = default NORMAL (Task.priority task))) as [->|Hne].
    + rewrite decide_True by done. by rewrite <- app_assoc.
    + rewrite decide_False by congruence. done.
Qed.

Lemma tier_new p : tier p new = [].
Proof.
  unfold tier, new, priorities, CRITICAL, HIGH, NORMAL, LOW. simpl.
  repeat case_decide; done.
Qed.

Lemma dequeue_scan_spec ps pq :
  match dequeue_scan ps pq with
  | (Some task, pq') =>
      ∃ pre p post rest,
        ps = pre ++ p :: post ∧ Forall (λ q, tier q pq = []) pre ∧
        tier p pq = task :: rest ∧ tier p pq' = rest ∧
        ∀ q, q ≠ p → tier q pq' = tier q pq
  | (None, pq') => pq' = pq ∧ Forall (λ q, tier q pq = []) ps
  end.
Proof.
  induction ps as [|p ps IH]; simpl; [done |].
  destruct (JsMap.get p (queues pq)) as [[|task queue]|] eqn:Hp.
  - destruct (dequeue_scan ps pq) as [[task|] pq'].
    + destruct IH as (pre & p' & post & rest & -> & Hpre & H1 & H2 & H3).
      exists (p :: pre), p', post, rest. split_and!; try done.
      constructor; [by unfold tier; rewrite Hp | done].
    + destruct IH as [-> IH]. split; [done |].
      constructor; [by unfold tier; rewrite Hp | done].
  - exists [], p, ps, queue. split_and!; try done.
    + unfold tier. by rewrite Hp.
    + unfold tier. simpl. by rewrite get_set_eq.
    + intros q Hq. unfold tier. simpl. by rewrite get_set_ne by done.
  - destruct (dequeue_scan ps pq) as [[task|] pq'].
    + destruct IH as (pre & p' & post & rest & -> & Hpre & H1 & H2 & H3).
      exists (p :: pre), p', post, rest. split_and!; try done.
      constructor; [by unfold tier; rewrite Hp | done].
    + destruct IH as [-> IH]. split; [done |].
      constructor; [by unfold tier; rewrite Hp | done].
Qed.

Lemma flat_app ps ps' pq : flat (ps ++ ps') pq = flat ps pq ++ flat ps' pq.
Proof. unfold flat. by rewrite fmap_app, concat_app. Qed.

Lemma flat_cons p ps pq : flat (p :: ps) pq = tier p pq ++ flat ps pq.
Proof. done. Qed.

Lemma flat_empty ps pq : Forall (λ q, tier q pq = []) ps → flat ps pq = [].
Proof.
  induction 1 as [|q ps Hq _ IH]; [done |].
  by rewrite flat_cons, Hq, IH.
Qed.

Lemma flat_ext ps pq pq' :
  Forall (λ q, tier q pq' = tier q pq) ps → flat ps pq' = flat ps pq.
Proof.
  induction 1 as [|q ps Hq _ IH]; [done |].
  by rewrite !flat_cons, Hq, IH.
Qed.

(** One [dequeue] removes the head of the flattened queue. *)
Lemma dequeue_flat ps pq :
  NoDup ps →
  match dequeue_scan ps pq with
  | (Some task, pq') => flat ps pq = task :: flat ps pq'
  | (None, pq') => pq' = pq ∧ flat ps pq = []
  end.
Proof.
  intros Hnd. pose proof (dequeue_scan_spec ps pq) as Hspec.
  destruct (dequeue_scan ps pq) as [[task|] pq'].
  - destruct Hspec as (pre & p & post & rest & -> & Hpre & H1 & H2 & H3).
    apply NoDup_app in Hnd as (_ & Hdisj & Hnd).
    apply NoDup_cons in Hnd as [Hp _].
    assert (Hpre' : Forall (λ q, tier q pq' = []) pre).
    { rewrite Forall_forall in Hpre |- *. intros q Hq.
      rewrite H3; [by apply Hpre |].
      intros ->. apply (Hdisj p Hq). left. }
    assert (Hpost : Forall (λ q, tier q pq' = tier q pq) post).
    { rewrite Forall_forall. intros q Hq. apply H3. by intros ->. }
    rewrite !flat_app, !flat_cons.
    by rewrite (flat_empty pre pq), (flat_empty pre pq'), H1, H2,
      (flat_ext post pq pq').
  - destruct Hspec as [-> Hall]. split; [done | by apply flat_empty].
Qed.

Lemma NoDup_priorities : NoDup priorities.
Proof.
  by apply (bool_decide_unpack _).
Qed.

Lemma drain_flat fuel pq :
  (length (flat priorities pq) ≤ fuel)%nat →
  ∃ pq', drain fuel pq = (flat priorities pq, pq') ∧
         dequeue pq' = (None, pq').
Proof.
  revert pq. induction fuel as [|fuel IH]; intros pq Hlen.
  - pose proof (dequeue_flat priorities pq NoDup_priorities) as Hd.
    fold (dequeue pq) in Hd.
    destruct (flat priorities pq) as [|] eqn:Hf; [| simpl in Hlen; lia].
    destruct (dequeue pq) as [[task|] pq'] eqn:Hdq; [done |].
    destruct Hd as [-> _]. exists pq. by rewrite Hdq.
  - simpl. pose proof (dequeue_flat priorities pq NoDup_priorities) as Hd.
    fold (dequeue pq) in Hd.
    destruct (dequeue pq) as [[task|] pq'] eqn:Hdq.
    + rewrite Hd in Hlen |- *. simpl in Hlen.
      destruct (IH pq') as (pq'' & -> & Hnone); [lia |].
      by exists pq''.
    + destruct Hd as [-> ->]. by exists pq.
Qed.

Lemma tierOf_lengths tasks :
  (length (tierOf CRITICAL tasks) + length (tierOf HIGH tasks) +
   length (tierOf NORMAL tasks) + length (tierOf LOW tasks)
   ≤ length tasks)%nat.
Proof.
  unfold tierOf, CRITICAL, HIGH, NORMAL, LOW.
  induction tasks as [|task tasks IH]; [simpl; lia |].
  rewrite fmap_cons, !filter_cons.
  repeat case_decide; rewrite ?length_cons; try lia; congruence.
Qed.

Lemma tierOf_lengths_all tasks :
  Forall (λ task, default NORMAL (Task.priority task) ∈ priorities) tasks →
  (length (tierOf CRITICAL tasks) + length (tierOf HIGH tasks) +
   length (tierOf NORMAL tasks) + length (tierOf LOW tasks)
   = length tasks)%nat.
Proof.
  unfold tierOf, priorities, CRITICAL, HIGH, NORMAL, LOW.
  induction 1 as [|task tasks Hin _ IH]; [simpl; lia |].
  rewrite fmap_cons, !filter_cons.
  assert (Hq : Task.priority (stamped task) = Some 0 ∨
               Task.priority (stamped task) = Some 1 ∨
               Task.priority (stamped task) = Some 2 ∨
               Task.priority (stamped task) = Some 3).
  { unfold stamped, NORMAL. simpl.
    revert Hin. generalize (default 2 (Task.priority task)). intros q.
    rewrite !elem_of_cons, elem_of_nil. intuition congruence. }
  repeat case_decide; rewrite ?length_cons; try lia;
    destruct Hq as [?|[?|[?|?]]]; congruence.
Qed.

Lemma flat_enqueue_all tasks :
  flat priorities (enqueue_all tasks new) =
  tierOf CRITICAL tasks ++ tierOf HIGH tasks ++
  tierOf NORMAL tasks ++ tierOf LOW tasks.
Proof.
  unfold flat, priorities. simpl.
  rewrite !tier_enqueue_all, !tier_new. simpl. by rewrite app_nil_r.
Qed.

(** C3.  Enqueue tasks whose priority is one of the four tiers (a missing
    priority counts as NORMAL) into a fresh queue, then call [dequeue] until
    it answers [null]: the calls return every task, the CRITICAL ones first
    in the order they were enqueued, then the HIGH ones, then NORMAL, then
    LOW, each tier in enqueue order. *)
Theorem dequeue_order_by_tier (tasks : list Task.t) :
  Forall (λ task, default NORMAL (Task.priority task) ∈ priorities) tasks →
  ∃ pq',
    drain (length tasks) (enqueue_all tasks new) =
      (tierOf CRITICAL tasks ++ tierOf HIGH tasks ++
       tierOf NORMAL tasks ++ tierOf LOW tasks, pq') ∧
    length (fst (drain (length tasks) (enqueue_all tasks new))) =
      length tasks ∧
    dequeue pq' = (None, pq').
Proof.
  intros Hall.
  destruct (drain_flat (length tasks) (enqueue_all tasks new))
    as (pq' & Hdrain & Hnone).
  { rewrite flat_enqueue_all, !length_app.
    pose proof (tierOf_lengths tasks). lia. }
  exists pq'. rewrite Hdrain, flat_enqueue_all. split_and!; try done.
  simpl. rewrite !length_app. pose proof (tierOf_lengths_all tasks Hall). lia.
Qed.

Lemma dequeue_order_by_tier_witness :
  ∃ pq',
    drain 5 (enqueue_all
               [Task.literal (Some "a"%string) (Some LOW);
                Task.literal (Some "b"%string) (Some HIGH);
                Task.literal (Some "c"%string) None;
                Task.literal (Some "d"%string) (Some CRITICAL);
                Task.literal (Some "e"%string) (Some HIGH)] new) =
      ([Task.literal (Some "d"%string) (Some CRITICAL);
        Task.literal (Some "b"%string) (Some HIGH);
        Task.literal (Some "e"%string) (Some HIGH);
        Task.literal (Some "c"%string) (Some NORMAL);
        Task.literal (Some "a"%string) (Some LOW)], pq') ∧
    length (fst (drain 5 (enqueue_all
               [Task.literal (Some "a"%string) (Some LOW);
                Task.literal (Some "b"%string) (Some HIGH);
                Task.literal (Some "c"%string) None;
                Task.literal (Some "d"%string) (Some CRITICAL);
                Task.literal (Some "e"%string) (Some HIGH)] new))) = 5%nat ∧
    dequeue pq' = (None, pq').
Proof.
  apply (dequeue_order_by_tier
           [Task.literal (Some "a"%string) (Some LOW);
            Task.literal (Some "b"%string) (Some HIGH);
            Task.literal (Some "c"%string) None;
            Task.literal (Some "d"%string) (Some CRITICAL);
            Task.literal (Some "e"%string) (Some HIGH)]).
  unfold priorities, CRITICAL, HIGH, NORMAL, LOW.
  repeat (apply Forall_cons; split;
          [simpl; rewrite !elem_of_cons; tauto |]).
  apply Forall_nil_2.
Defined.
End PriorityQueueProofs.

(** ** DeadLetterQueue: eviction at capacity *)

Section DeadLetterQueueProofs.
Import DeadLetterQueue.

Definition entry (task : Task.t) : option string * Task.t :=
  (Task.id task, task).

Definition has_truthy_id (task : Task.t) : Prop :=
  truthy_str (Task.id task) = true.

Lemma maxSize_evict dlq : maxSize (evict dlq) = maxSize dlq.
Proof. unfold evict. by repeat case_match. Qed.

Lemma maxSize_add task dlq : maxSize (add task dlq) = maxSize dlq.
Proof. unfold add. simpl. apply maxSize_evict. Qed.

Lemma evict_below dlq : size dlq < maxSize dlq → evict dlq = dlq.
Proof.
  intros Hlt. unfold evict.
  destruct (size dlq >=? maxSize dlq) eqn:Hge; [lia | done].
Qed.

(** At capacity the first entry in insertion order goes, with one
    [overflow] event, when its key is truthy. *)
Lemma evict_full dlq k v rest :
  maxSize dlq ≤ size dlq → tasks dlq = (k, v) :: rest →
  truthy_str k = true →
  evict dlq = mk rest (maxSize dlq) (emitted dlq ++ [overflow k]).
Proof.
  intros Hge Htasks Hk. unfold evict, oldestId.
  destruct (size dlq >=? maxSize dlq) eqn:Hge'; [| lia].
  rewrite Htasks, Hk. simpl. by rewrite decide_True.
Qed.

Lemma size_evict dlq :
  1 ≤ maxSize dlq → size dlq ≤ maxSize dlq →
  Forall (λ k, truthy_str k = true) (JsMap.keys (tasks dlq)) →
  size (evict dlq) ≤ maxSize dlq - 1.
Proof.
  intros Hcap Hle Hkeys.
  destruct (decide (size dlq < maxSize dlq)) as [Hlt|Hge].
  - rewrite evict_below by done. lia.
  - destruct (tasks dlq) as [|[k v] rest] eqn:Htasks.
    { unfold size, JsMap.size in Hge. rewrite Htasks in Hge. simpl in Hge. lia. }
    apply Forall_cons in Hkeys as [Hk _].
    rewrite (evict_full dlq k v rest) by (done || lia).
    unfold size, JsMap.size in *. rewrite Htasks in Hle. simpl in *. lia.
Qed.

Lemma size_add_le task dlq : size (add task dlq) ≤ size (evict dlq) + 1.
Proof.
  unfold add, size, JsMap.size. simpl.
  pose proof (length_set_le (Task.id task) task (tasks (evict dlq))). lia.
Qed.

Lemma add_all_snoc batch task dlq :
  add_all (batch ++ [task]) dlq = add task (add_all batch dlq).
Proof. unfold add_all. by rewrite foldl_app. Qed.

(** Adding tasks with distinct truthy ids to a fresh queue of capacity
    [cap >= 1] keeps the last [cap] of them, in insertion order, and
    signals one overflow for each of the others, oldest first. *)
Lemma add_all_keeps_last (cap : Z) (batch : list Task.t) :
  1 ≤ cap → NoDup (Task.id <$> batch) → Forall has_truthy_id batch →
  tasks (add_all batch (new (Some cap))) =
    entry <$> drop (length batch - Z.to_nat cap) batch ∧
  overflows (add_all batch (new (Some cap))) =
    Task.id <$> take (length batch - Z.to_nat cap) batch ∧
  maxSize (add_all batch (new (Some cap))) = cap.
Proof.
  intros Hcap. induction batch as [|task batch IH] using rev_ind.
  { intros _ _. done. }
  intros Hnd Hids. rewrite fmap_app in Hnd. simpl in Hnd.
  apply NoDup_app in Hnd as (Hnd & Hfresh & _).
  apply Forall_app in Hids as [Hids Htask].
  destruct (IH Hnd Hids) as (Htasks & Hover & Hmax). clear IH.
  rewrite add_all_snoc.
  set (dlq := add_all batch (new (Some cap))) in *.
  rewrite maxSize_add, length_app. simpl length.
  assert (Hnew : Task.id task ∉ Task.id <$> batch).
  { intros Hin. apply (Hfresh _ Hin). left. }
  destruct (decide (length batch < Z.to_nat cap)%nat) as [Hlt|Hge].
  - replace (length batch - Z.to_nat cap)%nat with 0%nat in * by lia.
    replace (length batch + 1 - Z.to_nat cap)%nat with 0%nat by lia.
    rewrite drop_0 in *. simpl in *.
    unfold add. rewrite evict_below.
    2:{ unfold size, JsMap.size. rewrite Htasks, length_fmap. lia. }
    simpl. split_and!; try done.
    + rewrite set_fresh, Htasks, fmap_app; [done |].
      unfold JsMap.keys. rewrite Htasks, <- list_fmap_compose. done.
    + unfold overflows in *. simpl. rewrite omap_app. simpl.
      by rewrite app_nil_r.
  - set (d := (length batch - Z.to_nat cap)%nat) in *.
    replace (length batch + 1 - Z.to_nat cap)%nat with (S d) by lia.
    assert (Hd : (d < length batch)%nat) by lia.
    destruct (lookup_lt_is_Some_2 batch d Hd) as [x Hx].
    rewrite (drop_S _ _ _ Hx) in Htasks. simpl in Htasks.
    assert (Hxid : truthy_str (Task.id x) = true).
    { rewrite Forall_forall in Hids. apply Hids.
      by eapply list_elem_of_lookup_2. }
    unfold add. rewrite (evict_full dlq (Task.id x) x
                           (entry <$> drop (S d) batch)); try done.
    2:{ unfold size, JsMap.size. rewrite Htasks, Hmax. simpl.
        rewrite length_fmap, length_drop. lia. }
    simpl. split_and!; try done.
    + rewrite drop_app_le by lia. rewrite fmap_app. simpl.
      apply set_fresh. unfold JsMap.keys.
      rewrite <- list_fmap_compose. intros Hin. apply Hnew.
      apply list_elem_of_fmap in Hin as (y & -> & Hy).
      apply list_elem_of_fmap. exists y. split; [done |].
      by eapply subseteq_drop.
    + unfold overflows in *. simpl. rewrite !omap_app. simpl.
      rewrite app_nil_r, Hover, take_app_le by lia.
      by rewrite (take_S_r _ _ _ Hx), fmap_app.
Qed.
End DeadLetterQueueProofs.

Section DeadLetterCapacity.
Import DeadLetterQueue.

(** C7, the claim as stated, fails: a queue of capacity 0 has no oldest
    entry to evict, [add] inserts all the same, and [size()] is 1. *)
Lemma dlq_capacity_zero_exceeded :
  ¬ (∀ dlq task,
       size dlq ≤ maxSize dlq → size (add task dlq) ≤ maxSize (add task dlq)).
Proof.
  intros Hclaim.
  specialize (Hclaim (new (Some 0)) (Task.literal (Some "a"%string) None)).
  unfold size, JsMap.size in Hclaim. simpl in Hclaim. lia.
Qed.

(** C7, amended.  In a queue of capacity at least 1 whose keys are
    non-empty ids and that holds at most its capacity, [add] never makes
    [size()] exceed the capacity, neither after its eviction step nor after
    the insert; at capacity it removes exactly the first entry in insertion
    order and emits one [overflow] for it before [taskAdded]; below
    capacity it removes nothing.  Ten tasks with distinct non-empty ids
    added to a fresh queue of capacity 3 leave the last three in insertion
    order, with one overflow for each of the first seven.  A fresh queue of
    capacity 0 holds one task after one [add]. *)
Theorem dlq_add_evicts_oldest (dlq : t) (task : Task.t) (batch : list Task.t) :
  1 ≤ maxSize dlq → size dlq ≤ maxSize dlq →
  Forall (λ k, truthy_str k = true) (JsMap.keys (tasks dlq)) →
  length batch = 10%nat → NoDup (Task.id <$> batch) →
  Forall has_truthy_id batch →
  size (evict dlq) ≤ maxSize dlq ∧
  size (add task dlq) ≤ maxSize dlq ∧
  (size dlq = maxSize dlq →
     ∃ k v rest,
       tasks dlq = (k, v) :: rest ∧ tasks (evict dlq) = rest ∧
       emitted (add task dlq) =
         emitted dlq ++ [overflow k; taskAdded (Task.id task)]) ∧
  (size dlq < maxSize dlq →
     evict dlq = dlq ∧
     emitted (add task dlq) = emitted dlq ++ [taskAdded (Task.id task)]) ∧
  getAll (add_all batch (new (Some 3))) = drop 7 batch ∧
  overflows (add_all batch (new (Some 3))) = Task.id <$> take 7 batch ∧
  size (add task (new (Some 0))) = 1.
Proof.
  intros Hcap Hle Hkeys Hlen Hnd Hids.
  pose proof (size_evict dlq Hcap Hle Hkeys) as Hev.
  pose proof (size_add_le task dlq) as Hadd.
  split_and!; try lia.
  - intros Hfull.
    destruct (tasks dlq) as [|[k v] rest] eqn:Htasks.
    { unfold size, JsMap.size in Hfull. rewrite Htasks in Hfull.
      simpl in Hfull. lia. }
    apply Forall_cons in Hkeys as [Hk _].
    exists k, v, rest. unfold add.
    rewrite (evict_full dlq k v rest) by (done || lia). simpl.
    by rewrite <- app_assoc.
  - intros Hlt. unfold add. by rewrite evict_below.
  - destruct (add_all_keeps_last 3 batch) as (Htasks & _ & _); try done.
    unfold getAll, JsMap.values. rewrite Htasks, Hlen.
    rewrite <- list_fmap_compose. simpl. apply list_fmap_id.
  - destruct (add_all_keeps_last 3 batch) as (_ & Hover & _); try done.
    by rewrite Hover, Hlen.
  - done.
Qed.

Definition ten_tasks : list Task.t :=
  (λ i : string, Task.literal (Some i) None) <$>
    ["t0"; "t1"; "t2"; "t3"; "t4"; "t5"; "t6"; "t7"; "t8"; "t9"]%string.

Lemma dlq_add_evicts_oldest_witness :
  getAll (add_all ten_tasks (new (Some 3))) = drop 7 ten_tasks ∧
  overflows (add_all ten_tasks (new (Some 3))) =
    [Some "t0"; Some "t1"; Some "t2"; Some "t3"; Some "t4"; Some "t5";
     Some "t6"]%string.
Proof.
  pose proof (dlq_add_evicts_oldest
                (add_all (take 2 ten_tasks) (new (Some 2)))
                (Task.literal (Some "new"%string) None) ten_tasks) as H.
  destruct H as (_ & _ & _ & _ & H1 & H2 & _).
  - simpl. lia.
  - vm_compute. discriminate.
  - vm_compute. repeat constructor.
  - reflexivity.
  - apply (bool_decide_unpack _). vm_compute. exact I.
  - vm_compute. repeat constructor.
  - split; [exact H1 | exact H2].
Defined.
End DeadLetterCapacity.

(** ** PriorityQueue: per-tier predicates kept by every operation *)

Section PriorityQueueInvariants.
Import PriorityQueue TaskPriority.

(** Every task filed under priority [p] satisfies [R p]. *)
Definition tiers_all (R : Z → Task.t → Prop) (qs : list (Z * list Task.t))
  : Prop :=
  Forall (λ e, Forall (R e.1) e.2) qs.

Variable R : Z → Task.t → Prop.

Lemma tiers_all_get p queue qs :
  tiers_all R qs → JsMap.get p qs = Some queue → Forall (R p) queue.
Proof.
  unfold tiers_all. induction 1 as [|[p' q'] qs Hq _ IH]; simpl; [done |].
  destruct (decide (p = p')) as [->|Hne]; [| done].
  by intros [= <-].
Qed.

Lemma tiers_all_set p queue qs :
  tiers_all R qs → Forall (R p) queue → tiers_all R (JsMap.set p queue qs).
Proof.
  unfold tiers_all. intros Hall Hqueue.
  induction Hall as [|[p' q'] qs Hq Hall IH]; simpl.
  - by repeat constructor.
  - destruct (decide (p = p')) as [->|Hne]; by constructor.
Qed.

Lemma tiers_all_enqueue task pq :
  R (default NORMAL (Task.priority task)) (stamped task) →
  tiers_all R (queues pq) → tiers_all R (queues (enqueue task pq)).
Proof.
  intros Htask Hall. unfold enqueue. fold (stamped task).
  destruct (JsMap.get _ (queues pq)) as [queue|] eqn:Hget; simpl.
  - apply tiers_all_set; [done |]. apply Forall_app. split.
    + by eapply tiers_all_get.
    + by repeat constructor.
  - apply tiers_all_set; [done |]. by repeat constructor.
Qed.

Lemma tiers_all_enqueue_all tasks pq :
  Forall (λ task, R (default NORMAL (Task.priority task)) (stamped task))
         tasks →
  tiers_all R (queues pq) → tiers_all R (queues (enqueue_all tasks pq)).
Proof.
  unfold enqueue_all. intros Htasks. revert pq.
  induction Htasks as [|task tasks Htask _ IH]; intros pq Hall; simpl.
  - done.
  - apply IH. by apply tiers_all_enqueue.
Qed.

Lemma tiers_all_dequeue_scan ps pq :
  tiers_all R (queues pq) →
  tiers_all R (queues (dequeue_scan ps pq).2) ∧
  ∀ task, (dequeue_scan ps pq).1 = Some task → ∃ p, R p task.
Proof.
  intros Hall. induction ps as [|p ps IH]; simpl; [done |].
  destruct (JsMap.get p (queues pq)) as [[|task queue]|] eqn:Hget;
    try done.
  pose proof (tiers_all_get _ _ _ Hall Hget) as Hq.
  apply Forall_cons in Hq as [Htask Hq]. simpl. split.
  - by apply tiers_all_set.
  - intros ? [= <-]. by exists p.
Qed.

Lemma splice_first_Forall (Q : Task.t → Prop) taskId queue queue' :
  Forall Q queue → splice_first taskId queue = Some queue' →
  Forall Q queue'.
Proof.
  intros Hq. revert queue'.
  induction Hq as [|task queue Htask Hq IH]; intros queue'; simpl;
    [done |].
  destruct (has_id taskId task); [by intros [= <-] |].
  destruct (splice_first taskId queue) as [rest|]; [| done].
  intros [= <-]. constructor; [done | by apply IH].
Qed.

Lemma tiers_all_remove_in taskId qs :
  tiers_all R qs → tiers_all R (remove_in taskId qs).2.
Proof.
  unfold tiers_all. induction 1 as [|[p queue] qs Hq Hall IH]; simpl;
    [done |].
  destruct (splice_first taskId queue) as [queue'|] eqn:Hsp; simpl.
  - constructor; [| done]. by eapply splice_first_Forall.
  - destruct (remove_in taskId qs) as [b qs']. simpl in *.
    by constructor.
Qed.

Lemma tiers_all_remove taskId pq :
  tiers_all R (queues pq) → tiers_all R (queues (remove taskId pq).2).
Proof.
  intros Hall. unfold remove.
  pose proof (tiers_all_remove_in taskId _ Hall) as H.
  by destruct (remove_in taskId (queues pq)).
Qed.

Lemma tiers_all_clear pq : tiers_all R (queues (clear pq)).
Proof.
  unfold clear, tiers_all. simpl. apply Forall_fmap, Forall_forall.
  intros [p queue] _. simpl. constructor.
Qed.

Lemma tiers_all_new : tiers_all R (queues new).
Proof. unfold tiers_all. simpl. by repeat constructor. Qed.

Lemma tiers_all_getAll pq :
  tiers_all R (queues pq) → Forall (λ task, ∃ p, R p task) (getAll pq).
Proof.
  intros Hall. unfold getAll.
  assert (Hgen : ∀ ps acc,
    Forall (λ task, ∃ p, R p task) acc →
    Forall (λ task, ∃ p, R p task)
      (foldl (λ allTasks priority,
                match JsMap.get priority (queues pq) with
                | Some queue => allTasks ++ queue
                | None => allTasks
                end) acc ps)).
  { induction ps as [|p ps IH]; intros acc Hacc; simpl; [done |].
    apply IH. destruct (JsMap.get p (queues pq)) as [queue|] eqn:Hget;
      [| done].
    apply Forall_app. split; [done |].
    eapply Forall_impl; [by eapply tiers_all_get |].
    intros task Htask. by exists p. }
  by apply Hgen.
Qed.
End PriorityQueueInvariants.

Section PriorityQueueReorder.
Import PriorityQueue TaskPriority.

Lemma assign_first_Forall (Q : Task.t → Prop) taskId priority queue :
  (∀ task, Q task → Q (Task.set_priority (Some priority) task)) →
  Forall Q queue → Forall Q (assign_first taskId priority queue).
Proof.
  intros Hset. induction 1 as [|task queue Htask Hq IH]; simpl; [done |].
  destruct (has_id taskId task); constructor; auto.
Qed.

Lemma tiers_all_assign (Q : Task.t → Prop) taskId priority pq :
  (∀ task, Q task → Q (Task.set_priority (Some priority) task)) →
  tiers_all (λ _, Q) (queues pq) →
  tiers_all (λ _, Q) (queues (assignPriority taskId priority pq)).
Proof.
  intros Hset. unfold assignPriority, tiers_all. simpl.
  induction 1 as [|[p queue] qs Hq Hall IH]; simpl; [done |].
  destruct (find (has_id taskId) queue); constructor; try done.
  by apply assign_first_Forall.
Qed.

Lemma tiers_all_weaken (R R' : Z → Task.t → Prop) qs :
  (∀ p task, R p task → R' p task) → tiers_all R qs → tiers_all R' qs.
Proof.
  intros Himp Hall. unfold tiers_all in *.
  eapply Forall_impl; [exact Hall |]. intros [p queue] Hq.
  simpl in *. eapply Forall_impl; [exact Hq |]. apply Himp.
Qed.

Lemma stamped_priority task :
  Task.priority (stamped task) = Some (default NORMAL (Task.priority task)).
Proof. done. Qed.

Lemma stamped_id task : Task.id (stamped task) = Task.id task.
Proof. done. Qed.

Lemma stamped_some task p : Task.priority task = Some p → stamped task = task.
Proof. destruct task. simpl. by intros ->. Qed.
End PriorityQueueReorder.

(** ** TaskQueue: a predicate on tasks kept by every step *)

Section JsMapForall.
Context {K V : Type} `{EqDecision K}.
Implicit Types (k : K) (v : V) (m : list (K * V)).

Lemma Forall_map_set (Q : K * V → Prop) k v m :
  Forall Q m → Q (k, v) → Forall Q (JsMap.set k v m).
Proof.
  intros Hm Hkv. induction Hm as [|[k' v'] m Hq Hm IH]; simpl.
  - by repeat constructor.
  - destruct (decide (k = k')); by constructor.
Qed.

Lemma Forall_map_delete (Q : K * V → Prop) k m :
  Forall Q m → Forall Q (JsMap.delete k m).
Proof.
  induction 1 as [|[k' v'] m Hq Hm IH]; simpl; [done |].
  destruct (decide (k = k')); [done | by constructor].
Qed.

Lemma Forall_map_get (Q : K * V → Prop) k v m :
  Forall Q m → JsMap.get k m = Some v → Q (k, v).
Proof.
  induction 1 as [|[k' v'] m Hq Hm IH]; simpl; [done |].
  destruct (decide (k = k')) as [->|Hne]; [by intros [= <-] | done].
Qed.
End JsMapForall.

Section TaskQueueLoop.
Import TaskQueue.

(** What every round of the loop keeps, a run of the loop keeps. *)
Lemma rounds_preserve (I : TaskQueue.t → Prop) :
  (∀ now q, I q → I (processQueue_round now q).1) →
  ∀ fuel now q, I q → I (processQueue_rounds fuel now q).1.
Proof.
intros Hround. induction fuel as [|fuel IH]; intros now q Hq;
  cbn [processQueue_rounds]; [by apply Hround|].
pose proof (Hround now q Hq) as H1.
destruct (processQueue_round now q) as [q1 [ms|task|]]; try done.
by apply IH.
Qed.

Lemma processQueue_preserve (I : TaskQueue.t → Prop) :
  (∀ now q, I q → I (processQueue_round now q).1) →
  ∀ now q, I q → I (processQueue now q).1.
Proof. intros Hround now q. by apply rounds_preserve. Qed.
End TaskQueueLoop.

Section TaskQueueInvariant.
Import TaskQueue.
#[local] Arguments DeadLetterQueue.add : simpl never.
#[local] Arguments PriorityQueue.enqueue : simpl never.
#[local] Arguments PriorityQueue.dequeue : simpl never.

Variable P : Task.t → Prop.
Variable allowed : Label → Prop.

Hypothesis P_ext :
  ∀ task task', Task.id task = Task.id task' →
                Task.priority task = Task.priority task' →
                P task → P task'.
Hypothesis P_stamped : ∀ task, P task → P (stamped task).
Hypothesis P_admitted : ∀ env task, P (admitted env task).
Hypothesis P_updatePriority :
  ∀ taskId priority, allowed (LUpdatePriority taskId priority) →
  ∀ task, P task → P (Task.set_priority (Some priority) task).

(** A task filed under [p] satisfies [P] and carries priority [p]. *)
Definition filed (p : Z) (task : Task.t) : Prop :=
  P task ∧ Task.priority task = Some p.

Definition dlq_entry_ok (e : option string * Task.t) : Prop :=
  e.1 = Task.id e.2 ∧ P e.2.

Record Inv (q : TaskQueue.t) : Prop := mkInv {
  inv_queue : tiers_all filed (PriorityQueue.queues (priorityQueue q));
  inv_running : Forall P (running q);
  inv_timers : Forall (λ e, P e.2) (timers q);
  inv_dlq : Forall dlq_entry_ok (DeadLetterQueue.tasks (deadLetterQueue q))
}.

Lemma P_same task task' :
  P task → Task.id task = Task.id task' →
  Task.priority task = Task.priority task' → P task'.
Proof. intros Htask Hid Hpr. by eapply P_ext. Qed.

Lemma filed_stamped task :
  P task →
  filed (default TaskPriority.NORMAL (Task.priority task)) (stamped task).
Proof. intros Htask. split; [by apply P_stamped | done]. Qed.

Lemma Inv_new config : Inv (new config).
Proof. split; simpl; try done. apply tiers_all_new. Qed.

Lemma Inv_enqueue task q :
  P task → Inv q →
  Inv (with_priorityQueue (PriorityQueue.enqueue task (priorityQueue q)) q).
Proof.
  intros Htask [H1 H2 H3 H4]. split; simpl; try done.
  apply tiers_all_enqueue; [by apply filed_stamped | done].
Qed.

Lemma Inv_enqueue_all tasks q :
  Forall P tasks → Inv q →
  Inv (with_priorityQueue
         (PriorityQueue.enqueue_all tasks (priorityQueue q)) q).
Proof.
  intros Htasks [H1 H2 H3 H4]. split; simpl; try done.
  apply tiers_all_enqueue_all; [| done].
  eapply Forall_impl; [exact Htasks |]. apply filed_stamped.
Qed.

Lemma Inv_add_one env task q : Inv q → Inv (add_one env task q).1.
Proof.
  intros Hinv. unfold add_one.
  destruct (_ >=? _); [done |].
  pose proof (Inv_enqueue (admitted env task) q (P_admitted env task) Hinv)
    as [H1 H2 H3 H4].
  cbn [persistence with_metrics with_priorityQueue].
  destruct (persistence q) as [p|].
  - destruct (QueuePersistence.saveTask _ _ p) as [p' [e|]]; simpl;
      by split.
  - by split.
Qed.

Lemma Inv_add_loop env tasks i q : Inv q → Inv (add_loop i env tasks q).1.
Proof.
  revert i q. induction tasks as [|task tasks IH]; intros i q Hinv; simpl;
    [done |].
  pose proof (Inv_add_one (env i) task q Hinv) as H1.
  destruct (add_one (env i) task q) as [q' [e|]]; simpl in *; [done |].
  by apply IH.
Qed.

Lemma Inv_round now q : Inv q → Inv (processQueue_round now q).1.
Proof.
  intros [H1 H2 H3 H4]. unfold processQueue_round.
  destruct (isProcessing q && negb (isPaused q)); [| by split].
  destruct (_ >=? _); [by split |].
  pose proof (tiers_all_dequeue_scan filed PriorityQueue.priorities
                (priorityQueue q) H1) as [Hq Htask].
  fold (PriorityQueue.dequeue (priorityQueue q)) in Hq, Htask.
  destruct (PriorityQueue.dequeue (priorityQueue q)) as [[task|] pq'];
    simpl in *.
  - destruct (Htask task eq_refl) as [p [Hp _]].
    unfold processTask_begin. simpl.
    destruct (_ >? _); split; simpl; try done;
      (apply Forall_app; split; [done |]; repeat constructor;
       by apply (P_same task)).
  - destruct (_ =? _); by split.
Qed.

Lemma Inv_start now q : Inv q → Inv (start now q).
Proof.
  intros Hinv. unfold start. destruct (isProcessing q); [done |].
  apply (processQueue_preserve Inv Inv_round).
  destruct Hinv as [H1 H2 H3 H4]. by split.
Qed.

Lemma Inv_resume now q : Inv q → Inv (resume now q).
Proof.
  intros Hinv. unfold resume. destruct (negb (isPaused q)); [done |].
  apply (processQueue_preserve Inv Inv_round).
  destruct Hinv as [H1 H2 H3 H4]. by split.
Qed.

Lemma Inv_add env tasks q : Inv q → Inv (add env tasks q).1.
Proof.
  intros Hinv. unfold add.
  pose proof (Inv_add_loop env tasks 0 q Hinv) as H1.
  destruct (add_loop 0 env tasks q) as [q' [e|]]; simpl in *; [done |].
  destruct (negb (isProcessing q') && negb (isPaused q')); [| done].
  by apply Inv_start.
Qed.

Lemma Inv_persist_update task q : Inv q → Inv (persist_update task q).
Proof.
  intros [H1 H2 H3 H4]. unfold persist_update.
  destruct (persistence q); by split.
Qed.

Lemma dlq_add_ok task dlq :
  P task → Forall dlq_entry_ok (DeadLetterQueue.tasks dlq) →
  Forall dlq_entry_ok (DeadLetterQueue.tasks (DeadLetterQueue.add task dlq)).
Proof.
  intros Htask Hdlq. unfold DeadLetterQueue.add. simpl.
  apply Forall_map_set; [| done].
  unfold DeadLetterQueue.evict. repeat case_match; try done.
  simpl. by apply Forall_map_delete.
Qed.

Lemma Inv_same q q' :
  priorityQueue q' = priorityQueue q → running q' = running q →
  timers q' = timers q → deadLetterQueue q' = deadLetterQueue q →
  Inv q → Inv q'.
Proof. intros E1 E2 E3 E4 [H1 H2 H3 H4]. split; congruence. Qed.

Lemma Inv_dlq_add task q :
  P task → Inv q →
  Inv (with_deadLetterQueue
         (DeadLetterQueue.add task (deadLetterQueue q)) q).
Proof.
  intros Htask [H1 H2 H3 H4]. split; [done | done | done |].
  by apply dlq_add_ok.
Qed.

Lemma Inv_handleTaskError now task error q :
  P task → Inv q → Inv (handleTaskError now task error q).
Proof.
  intros Htask Hinv. unfold handleTaskError.
  destruct (_ <? _).
  - destruct Hinv as [H1 H2 H3 H4]. split; simpl; try done.
    apply Forall_app. split; [done |].
    repeat constructor. simpl. by apply (P_same task).
  - apply Inv_persist_update.
    cbn [config emit with_metrics with_failedTasks].
    destruct (QueueConfig.enableDeadLetter (config q)).
    + eapply Inv_same; [| | | | apply Inv_dlq_add]; try reflexivity.
      * by apply (P_same task).
      * eapply Inv_same; [| | | | exact Hinv]; reflexivity.
    + eapply Inv_same; [| | | | exact Hinv]; reflexivity.
Qed.

Lemma Inv_settle k outcome now q q' :
  Inv q → processTask_settle k outcome now q = Some q' → Inv q'.
Proof.
  intros [H1 H2 H3 H4]. unfold processTask_settle.
  destruct (running q !! k) as [task|] eqn:Hk; [| done].
  intros [= <-].
  assert (Htask : P task).
  { rewrite Forall_forall in H2. apply H2.
    by eapply list_elem_of_lookup_2. }
  assert (Hinv : Inv (with_running (delete k (running q)) q)).
  { split; simpl; try done.
    by apply Forall_delete. }
  destruct outcome as [res|error].
  - pose proof (Inv_persist_update
      (Task.set_result (Some res)
         (Task.set_completedAt (Some now)
            (Task.set_status (Some COMPLETED) task)))
      _ Hinv) as [G1 G2 G3 G4].
    split; simpl in *; try done.
    all: unfold persist_update in *; simpl in *;
      destruct (persistence q); simpl in *; done.
  - pose proof (Inv_handleTaskError now task error _ Htask Hinv)
      as [G1 G2 G3 G4].
    by split.
Qed.
Lemma Inv_timer k q q' : Inv q → timer_fire k q = Some q' → Inv q'.
Proof.
  intros Hinv. unfold timer_fire.
  destruct (timers q !! k) as [[delay task]|] eqn:Hk; [| done].
  intros [= <-].
  assert (Htask : P task).
  { destruct Hinv as [_ _ H3 _]. rewrite Forall_forall in H3.
    apply (H3 (delay, task)). by eapply list_elem_of_lookup_2. }
  apply (Inv_enqueue task (with_timers (delete k (timers q)) q) Htask).
  destruct Hinv as [H1 H2 H3 H4]. split; try done.
  by apply Forall_delete.
Qed.

Lemma Inv_remove taskId q :
  Inv q →
  Inv (with_priorityQueue (PriorityQueue.remove taskId (priorityQueue q)).2 q).
Proof.
  intros [H1 H2 H3 H4]. split; try done.
  by apply tiers_all_remove.
Qed.

Lemma Inv_cancel taskId q : Inv q → Inv (cancel taskId q).1.
Proof.
  intros Hinv. unfold cancel.
  pose proof (Inv_remove taskId q Hinv) as Hrm.
  destruct (PriorityQueue.remove taskId (priorityQueue q)) as [[|] pq'].
  - eapply Inv_same; [| | | | exact Hrm]; reflexivity.
  - case_bool_decide; [| done].
    eapply Inv_same; [| | | | exact Hinv]; reflexivity.
Qed.

Lemma Inv_cancelTask taskId q : Inv q → Inv (cancelTask taskId q).1.
Proof.
  intros Hinv. unfold cancelTask.
  pose proof (Inv_remove taskId q Hinv) as Hrm.
  destruct (PriorityQueue.remove taskId (priorityQueue q)) as [[|] pq'].
  - eapply Inv_same; [| | | | exact Hrm]; reflexivity.
  - case_bool_decide; [| done].
    eapply Inv_same; [| | | | exact Hinv]; reflexivity.
Qed.

Lemma Inv_updatePriority taskId priority q :
  allowed (LUpdatePriority taskId priority) →
  Inv q → Inv (updatePriority taskId priority q).
Proof.
  intros Hallowed Hinv. unfold updatePriority.
  destruct (PriorityQueue.findById taskId (priorityQueue q)); [| done].
  destruct Hinv as [H1 H2 H3 H4]. split; try done.
  cbn [priorityQueue emit with_priorityQueue].
  unfold PriorityQueue.reorder.
  apply tiers_all_enqueue_all; [| apply tiers_all_clear].
  assert (Hall : tiers_all (λ _, P)
            (PriorityQueue.queues
               (PriorityQueue.assignPriority taskId priority
                  (priorityQueue q)))).
  { apply tiers_all_assign; [by apply (P_updatePriority taskId) |].
    eapply tiers_all_weaken; [| exact H1]. by intros p task [Ht _]. }
  apply tiers_all_getAll in Hall.
  eapply Forall_impl; [exact Hall |].
  intros task [_ Htask]. by apply filed_stamped.
Qed.

Lemma P_reset_for_retry task : P task → P (reset_for_retry task).
Proof. intros Htask. by apply (P_same task). Qed.

Lemma dlq_values_ok dlq :
  Forall dlq_entry_ok (DeadLetterQueue.tasks dlq) →
  Forall P (DeadLetterQueue.getAll dlq).
Proof.
  unfold DeadLetterQueue.getAll, JsMap.values. intros Hdlq.
  apply Forall_fmap. eapply Forall_impl; [exact Hdlq |].
  by intros e [_ He].
Qed.

Lemma Inv_retryAll q :
  Inv q →
  Inv (with_deadLetterQueue (DeadLetterQueue.clear (deadLetterQueue q))
         (with_priorityQueue
            (PriorityQueue.enqueue_all
               (reset_for_retry <$> DeadLetterQueue.getAll (deadLetterQueue q))
               (priorityQueue q)) q)).
Proof.
  intros Hinv.
  assert (Htasks : Forall P
            (reset_for_retry <$> DeadLetterQueue.getAll (deadLetterQueue q))).
  { apply Forall_fmap. destruct Hinv as [_ _ _ H4].
    eapply Forall_impl; [by apply dlq_values_ok |].
    intros task. apply P_reset_for_retry. }
  pose proof (Inv_enqueue_all _ q Htasks Hinv) as [G1 G2 G3 G4].
  by split.
Qed.

Lemma Inv_retryFailed taskId q : Inv q → Inv (retryFailed taskId q).
Proof.
  intros Hinv. unfold retryFailed.
  destruct taskId as [i|]; [| by apply Inv_retryAll].
  destruct (truthy_str (Some i)); [| by apply Inv_retryAll].
  destruct (DeadLetterQueue.get i (deadLetterQueue q)) as [task|] eqn:Hget;
    [| done].
  assert (Htask : P task).
  { destruct Hinv as [_ _ _ H4]. unfold DeadLetterQueue.get in Hget.
    by destruct (Forall_map_get _ _ _ _ H4 Hget). }
  pose proof (Inv_enqueue _ q (P_reset_for_retry task Htask) Hinv)
    as [G1 G2 G3 G4].
  split; try done. simpl. by apply Forall_map_delete.
Qed.

Lemma Inv_clear a b c q : Inv q → Inv (clear a b c q).
Proof.
  intros [H1 H2 H3 H4]. unfold clear.
  destruct a, b, c, (persistence q) eqn:Hp; simpl; rewrite ?Hp;
    split; simpl; try done; try apply tiers_all_clear; constructor.
Qed.

(** Every allowed step keeps the invariant. *)
Lemma Inv_step l q q' : allowed l → Inv q → step l q = Some q' → Inv q'.
Proof.
  intros Hallowed Hinv. destruct l; simpl.
  - intros [= <-]. by apply Inv_add.
  - intros [= <-]. by apply Inv_start.
  - intros [= <-]. eapply Inv_same; [| | | | exact Hinv]; reflexivity.
  - intros [= <-]. by apply Inv_resume.
  - intros [= <-]. eapply Inv_same; [| | | | exact Hinv]; reflexivity.
  - destruct (_ && _); [done |]. intros [= <-].
    eapply Inv_same; [| | | | exact Hinv]; reflexivity.
  - destruct (loops q); [done |]. intros [= <-].
    by apply (processQueue_preserve Inv Inv_round).
  - by apply Inv_settle.
  - by apply Inv_timer.
  - intros [= <-]. by apply Inv_cancel.
  - intros [= <-]. by apply Inv_cancelTask.
  - intros [= <-]. by apply Inv_updatePriority.
  - intros [= <-]. by apply Inv_retryFailed.
  - intros [= <-]. by apply Inv_clear.
Qed.

Lemma Inv_reachable config q : reachable_by allowed config q → Inv q.
Proof.
  induction 1 as [|l q q' _ IH Hl Hstep]; [apply Inv_new |].
  by eapply Inv_step.
Qed.
End TaskQueueInvariant.

(** ** TaskQueue: what a step leaves alone *)

Section TaskQueueFrames.
Import TaskQueue.
#[local] Arguments DeadLetterQueue.add : simpl never.
#[local] Arguments PriorityQueue.enqueue : simpl never.
#[local] Arguments PriorityQueue.dequeue : simpl never.
#[local] Arguments PriorityQueue.remove : simpl never.

(** The configuration, the capacity of the dead-letter queue and the set
    of active ids are the same in both states. *)
Definition same_frame (q q' : TaskQueue.t) : Prop :=
  config q' = config q ∧
  DeadLetterQueue.maxSize (deadLetterQueue q') =
    DeadLetterQueue.maxSize (deadLetterQueue q) ∧
  activeTasks q' = activeTasks q.

Lemma same_frame_refl q : same_frame q q.
Proof. done. Qed.

Lemma same_frame_trans q1 q2 q3 :
  same_frame q1 q2 → same_frame q2 q3 → same_frame q1 q3.
Proof. intros (?&?&?) (?&?&?). split_and!; congruence. Qed.

Lemma frame_add_one env task q : same_frame q (add_one env task q).1.
Proof.
  unfold add_one. destruct (_ >=? _); [done |].
  cbn [persistence with_metrics with_priorityQueue].
  destruct (persistence q) as [p|]; [| done].
  by destruct (QueuePersistence.saveTask _ _ p) as [p' [e|]].
Qed.

Lemma frame_add_loop env tasks i q : same_frame q (add_loop i env tasks q).1.
Proof.
  revert i q. induction tasks as [|task tasks IH]; intros i q; simpl;
    [done |].
  pose proof (frame_add_one (env i) task q) as H1.
  destruct (add_one (env i) task q) as [q' [e|]]; simpl in *; [done |].
  eapply same_frame_trans; [exact H1 | apply IH].
Qed.

Lemma frame_persist_update task q : same_frame q (persist_update task q).
Proof. unfold persist_update. by destruct (persistence q). Qed.

Lemma frame_handleTaskError now task error q :
  same_frame q (handleTaskError now task error q).
Proof.
  unfold handleTaskError. destruct (_ <? _); [done |].
  eapply same_frame_trans; [| apply frame_persist_update].
  cbn [config emit with_metrics with_failedTasks].
  destruct (QueueConfig.enableDeadLetter (config q)); [| done].
  split_and!; try done. cbn. apply maxSize_add.
Qed.

Lemma frame_cancel taskId q : same_frame q (cancel taskId q).1.
Proof.
  unfold cancel. destruct (PriorityQueue.remove _ _) as [[|] pq']; [done |].
  by case_bool_decide.
Qed.

Lemma frame_cancelTask taskId q : same_frame q (cancelTask taskId q).1.
Proof.
  unfold cancelTask.
  destruct (PriorityQueue.remove _ _) as [[|] pq']; [done |].
  by case_bool_decide.
Qed.

Lemma frame_retryFailed taskId q : same_frame q (retryFailed taskId q).
Proof.
  unfold retryFailed. destruct taskId as [i|]; [| done].
  destruct (truthy_str (Some i)); [| done].
  by destruct (DeadLetterQueue.get i (deadLetterQueue q)).
Qed.

Lemma frame_clear a b c q : same_frame q (clear a b c q).
Proof. unfold clear. by destruct a, b, c, (persistence q) eqn:Hp; simpl; rewrite ?Hp. Qed.

(** A step keeps the configuration and the dead-letter capacity; it adds
    an id to the active set only below the concurrency limit. *)
(** The configuration and the capacity of the dead-letter queue stay, and
    the set of active ids grows only while it is smaller than the
    concurrency. *)
Definition loop_frame (q q' : TaskQueue.t) : Prop :=
  config q' = config q ∧
  DeadLetterQueue.maxSize (deadLetterQueue q') =
    DeadLetterQueue.maxSize (deadLetterQueue q) ∧
  Z.of_nat (size (activeTasks q'))
  ≤ Z.max (Z.of_nat (size (activeTasks q)))
          (QueueConfig.concurrency (config q)).

Lemma loop_frame_same q q' : same_frame q q' → loop_frame q q'.
Proof. intros (E1 & E2 & E3). split_and!; try done. rewrite E3. lia. Qed.

Lemma loop_frame_trans q1 q2 q3 :
  loop_frame q1 q2 → loop_frame q2 q3 → loop_frame q1 q3.
Proof.
  intros (E1 & E2 & E3) (F1 & F2 & F3). rewrite E1 in F3.
  split_and!; try congruence. lia.
Qed.

Lemma size_active_insert (i : option string) (A : gset (option string)) :
  (size ({[ i ]} ∪ A) ≤ S (size A))%nat.
Proof.
  pose proof (size_union_alt {[ i ]} A) as Hsz.
  rewrite size_singleton in Hsz.
  assert (size (A ∖ {[ i ]}) ≤ size A)%nat
    by (apply subseteq_size, subseteq_difference_l; done).
  lia.
Qed.

Lemma loop_frame_round now q : loop_frame q (processQueue_round now q).1.
Proof.
  unfold processQueue_round.
  destruct (isProcessing q && negb (isPaused q));
    [| by apply loop_frame_same].
  destruct (_ >=? _) eqn:Hge; [by apply loop_frame_same |].
  destruct (PriorityQueue.dequeue (priorityQueue q)) as [[task|] pq'].
  - unfold processTask_begin. cbn.
    pose proof (size_active_insert (Task.id task) (activeTasks q)) as Hs.
    split_and!; [by destruct (_ >? _) | by destruct (_ >? _) |].
    destruct (_ >? _); cbn; lia.
  - cbn. apply loop_frame_same. by destruct (_ =? _).
Qed.

Lemma loop_frame_processQueue now q : loop_frame q (processQueue now q).1.
Proof.
  apply (processQueue_preserve (loop_frame q)); [| by apply loop_frame_same].
  intros now' q1 H1. eapply loop_frame_trans; [exact H1 |].
  apply loop_frame_round.
Qed.

Lemma loop_frame_start now q : loop_frame q (start now q).
Proof.
  unfold start. destruct (isProcessing q); [by apply loop_frame_same |].
  eapply loop_frame_trans; [| apply loop_frame_processQueue].
  by apply loop_frame_same.
Qed.

Lemma loop_frame_resume now q : loop_frame q (resume now q).
Proof.
  unfold resume. destruct (negb (isPaused q)); [by apply loop_frame_same |].
  eapply loop_frame_trans; [| apply loop_frame_processQueue].
  by apply loop_frame_same.
Qed.

Lemma loop_frame_add env tasks q : loop_frame q (add env tasks q).1.
Proof.
  unfold add. pose proof (frame_add_loop env tasks 0 q) as H1.
  destruct (add_loop 0 env tasks q) as [q' [e|]]; simpl in *;
    [by apply loop_frame_same |].
  destruct (_ && _); [| by apply loop_frame_same].
  eapply loop_frame_trans; [by apply loop_frame_same | apply loop_frame_start].
Qed.

Lemma step_frame l q q' : step l q = Some q' → loop_frame q q'.
Proof.
  destruct l as [env tasks|t0| |t0| |graceful|t0|k outcome t0|k|taskId|taskId
                |taskId priority|taskId|a b c]; simpl.
  - intros [= <-]. apply loop_frame_add.
  - intros [= <-]. apply loop_frame_start.
  - intros [= <-]. by apply loop_frame_same.
  - intros [= <-]. apply loop_frame_resume.
  - intros [= <-]. by apply loop_frame_same.
  - destruct (_ && _); [done |]. intros [= <-]. by apply loop_frame_same.
  - destruct (loops q); [done |]. intros [= <-].
    apply loop_frame_processQueue.
  - unfold processTask_settle.
    destruct (running q !! k) as [task|]; [| done]. intros [= <-].
    assert (Hdrop : ∀ q1, loop_frame q q1 →
      loop_frame q
        (with_activeTasks (activeTasks q1 ∖ {[ Task.id task ]}) q1)).
    { intros q1 (E1 & E2 & E3). split_and!; try done. cbn.
      assert (size (activeTasks q1 ∖ {[ Task.id task ]})
              ≤ size (activeTasks q1))%nat
        by (apply subseteq_size, subseteq_difference_l; done).
      lia. }
    apply Hdrop. destruct outcome as [res|error].
    + apply loop_frame_same. unfold persist_update. cbn.
      by destruct (persistence q).
    + apply loop_frame_same.
      apply (frame_handleTaskError t0 task error
               (with_running (delete k (running q)) q)).
  - unfold timer_fire. destruct (timers q !! k) as [[d task]|]; [| done].
    intros [= <-]. by apply loop_frame_same.
  - intros [= <-]. apply loop_frame_same, frame_cancel.
  - intros [= <-]. apply loop_frame_same, frame_cancelTask.
  - intros [= <-]. apply loop_frame_same. unfold updatePriority.
    by destruct (PriorityQueue.findById _ _).
  - intros [= <-]. apply loop_frame_same, frame_retryFailed.
  - intros [= <-]. apply loop_frame_same, frame_clear.
Qed.

Lemma reachable_config allowed config0 q :
  reachable_by allowed config0 q →
  config q = config0 ∧
  DeadLetterQueue.maxSize (deadLetterQueue q) =
    QueueConfig.maxRetries config0.
Proof.
  induction 1 as [|l q q' _ [IH1 IH2] _ Hstep]; [done |].
  apply step_frame in Hstep as (E1 & E2 & _). split; congruence.
Qed.

Lemma reachable_weaken (allowed allowed' : Label → Prop) config0 q :
  (∀ l, allowed l → allowed' l) →
  reachable_by allowed config0 q → reachable_by allowed' config0 q.
Proof.
  intros Himp. induction 1 as [|l q q' _ IH Hl Hstep]; [constructor |].
  eapply reachable_step; eauto.
Qed.

Lemma reachable_run allowed config0 ls q q' :
  reachable_by allowed config0 q → Forall allowed ls →
  run ls q = Some q' → reachable_by allowed config0 q'.
Proof.
  intros Hq Hls. revert q Hq.
  induction Hls as [|l ls Hl _ IH]; intros q Hq; simpl.
  - by intros [= <-].
  - destruct (step l q) as [q1|] eqn:Hstep; [| done].
    apply IH. by eapply reachable_step.
Qed.
End TaskQueueFrames.

(** ** TaskQueue: the concurrency ceiling *)

Section ConcurrencyCeiling.
Import TaskQueue.
#[local] Arguments DeadLetterQueue.add : simpl never.
#[local] Arguments PriorityQueue.enqueue : simpl never.
#[local] Arguments PriorityQueue.dequeue : simpl never.
#[local] Arguments PriorityQueue.remove : simpl never.
#[local] Arguments PriorityQueue.reorder : simpl never.

Lemma active_bound allowed config0 q :
  0 ≤ QueueConfig.concurrency config0 →
  reachable_by allowed config0 q →
  Z.of_nat (size (activeTasks q)) ≤ QueueConfig.concurrency config0.
Proof.
  intros Hn. induction 1 as [|l q q' Hq IH _ Hstep].
  - change (activeTasks (new config0)) with (∅ : gset (option string)).
    rewrite size_empty. lia.
  - pose proof (reachable_config _ _ _ Hq) as [Hcfg _].
    apply step_frame in Hstep as (_ & _ & Hle). rewrite Hcfg in Hle. lia.
Qed.

(** The ids of the tasks whose [execute] is under way. *)
Definition running_ids (q : TaskQueue.t) : list (option string) :=
  Task.id <$> running q.

(** No two tasks that are running at the same time share an id. *)
Definition distinct_running (q : TaskQueue.t) : Prop :=
  NoDup (running_ids q).

#[global] Instance distinct_running_dec q : Decision (distinct_running q).
Proof. unfold distinct_running. apply _. Defined.

(** The states a run passes through, from the first one on. *)
Fixpoint states (ls : list Label) (q : TaskQueue.t) : list TaskQueue.t :=
  q :: match ls with
       | [] => []
       | l :: ls' =>
           match step l q with
           | Some q' => states ls' q'
           | None => []
           end
       end.

Definition is_processing (task : Task.t) : Prop :=
  Task.status task = Some PROCESSING.

(** [activeTasks] holds exactly the ids of the running tasks, and these
    tasks are in PROCESSING. *)
Record tracked (q : TaskQueue.t) : Prop := mkTracked {
  tracked_ids : activeTasks q = list_to_set (running_ids q);
  tracked_status : Forall is_processing (running q)
}.

(** Neither the running tasks nor the active ids change. *)
Definition same_running (q q' : TaskQueue.t) : Prop :=
  running q' = running q ∧ activeTasks q' = activeTasks q.

Lemma tracked_same q q' : same_running q q' → tracked q → tracked q'.
Proof.
  intros [E1 E2] [H1 H2]. split.
  - unfold running_ids. by rewrite E1, E2.
  - by rewrite E1.
Qed.

Lemma same_running_trans q1 q2 q3 :
  same_running q1 q2 → same_running q2 q3 → same_running q1 q3.
Proof. intros [? ?] [? ?]. split; congruence. Qed.

Lemma running_add_one env task q : same_running q (add_one env task q).1.
Proof.
  unfold add_one. destruct (_ >=? _); [done |].
  cbn [persistence with_metrics with_priorityQueue].
  destruct (persistence q) as [p|]; [| done].
  by destruct (QueuePersistence.saveTask _ _ p) as [p' [e|]].
Qed.

Lemma running_add_loop env tasks i q :
  same_running q (add_loop i env tasks q).1.
Proof.
  revert i q. induction tasks as [|task tasks IH]; intros i q; simpl;
    [done |].
  pose proof (running_add_one (env i) task q) as H1.
  destruct (add_one (env i) task q) as [q' [e|]]; simpl in *; [done |].
  eapply same_running_trans; [exact H1 | apply IH].
Qed.

Lemma running_persist_update task q : same_running q (persist_update task q).
Proof. unfold persist_update. by destruct (persistence q). Qed.

Lemma running_handleTaskError now task error q :
  same_running q (handleTaskError now task error q).
Proof.
  unfold handleTaskError. destruct (_ <? _); [done |].
  eapply same_running_trans; [| apply running_persist_update].
  cbn [config emit with_metrics with_failedTasks].
  by destruct (QueueConfig.enableDeadLetter (config q)).
Qed.

Lemma tracked_new config0 : tracked (new config0).
Proof. split; [done | constructor]. Qed.

Lemma tracked_round now q : tracked q → tracked (processQueue_round now q).1.
Proof.
  intros Ht. unfold processQueue_round.
  destruct (isProcessing q && negb (isPaused q));
    [| by apply (tracked_same q)].
  destruct (_ >=? _); [done |].
  destruct (PriorityQueue.dequeue (priorityQueue q)) as [[task|] pq'].
  - destruct Ht as [H1 H2]. unfold processTask_begin. cbn.
    destruct (_ >? _); split; cbn; unfold running_ids in *; cbn;
      rewrite ?fmap_app, ?list_to_set_app_L; cbn;
      rewrite ?H1; try set_solver;
      (apply Forall_app; split; [done | by repeat constructor]).
  - cbn. apply (tracked_same q); [| done]. by destruct (_ =? _).
Qed.

Lemma tracked_start now q : tracked q → tracked (start now q).
Proof.
  intros Ht. unfold start. destruct (isProcessing q); [done |].
  apply (processQueue_preserve tracked tracked_round).
  by apply (tracked_same q).
Qed.

Lemma tracked_resume now q : tracked q → tracked (resume now q).
Proof.
  intros Ht. unfold resume. destruct (negb (isPaused q)); [done |].
  apply (processQueue_preserve tracked tracked_round).
  by apply (tracked_same q).
Qed.

Lemma tracked_add env tasks q : tracked q → tracked (add env tasks q).1.
Proof.
  intros Ht. unfold add.
  pose proof (running_add_loop env tasks 0 q) as H1.
  destruct (add_loop 0 env tasks q) as [q' [e|]]; simpl in *;
    [by apply (tracked_same q) |].
  destruct (_ && _); [| by apply (tracked_same q)].
  by apply tracked_start, (tracked_same q).
Qed.

Lemma ids_delete (k : nat) (task : Task.t) (l : list Task.t) :
  l !! k = Some task → NoDup (Task.id <$> l) →
  (list_to_set (Task.id <$> delete k l) : gset (option string))
  = list_to_set (Task.id <$> l) ∖ {[ Task.id task ]}.
Proof.
  intros Hk Hnd.
  rewrite <- (take_drop_middle l k task Hk) in Hnd |- *.
  rewrite fmap_app in Hnd. cbn in Hnd.
  apply NoDup_app in Hnd as (_ & Hdisj & Hnd).
  apply NoDup_cons in Hnd as [Hnotin _].
  assert (Hlen : length (take k l) = k).
  { apply length_take_le. apply lookup_lt_Some in Hk. lia. }
  rewrite <- Hlen at 1. rewrite delete_middle.
  rewrite !fmap_app, !list_to_set_app_L. cbn.
  assert (Task.id task ∉ Task.id <$> take k l).
  { intros Hin. apply (Hdisj _ Hin). left. }
  apply set_eq. intros x. set_unfold. naive_solver.
Qed.

Lemma tracked_settle k outcome now q q' :
  distinct_running q → tracked q →
  processTask_settle k outcome now q = Some q' → tracked q'.
Proof.
  intros Hnd [H1 H2]. unfold processTask_settle.
  destruct (running q !! k) as [task|] eqn:Hk; [| done].
  intros [= <-].
  assert (Hfinal : ∀ q1,
    same_running (with_running (delete k (running q)) q) q1 →
    tracked (with_activeTasks (activeTasks q1 ∖ {[ Task.id task ]}) q1)).
  { intros q1 [E1 E2]. cbn in E1, E2. split; cbn.
    - unfold running_ids. rewrite E1, E2, H1.
      symmetry. by apply ids_delete.
    - rewrite E1. by apply Forall_delete. }
  apply Hfinal. destruct outcome as [res|error].
  - eapply same_running_trans; [| apply running_persist_update]. done.
  - apply running_handleTaskError.
Qed.

Lemma tracked_step l q q' :
  distinct_running q → tracked q → step l q = Some q' → tracked q'.
Proof.
  intros Hnd Ht.
  destruct l as [env tasks|t0| |t0| |graceful|t0|k outcome t0|k|taskId|taskId
                |taskId priority|taskId|a b c]; cbn [step].
  - intros [= <-]. by apply tracked_add.
  - intros [= <-]. by apply tracked_start.
  - intros [= <-]. by apply (tracked_same q).
  - intros [= <-]. by apply tracked_resume.
  - intros [= <-]. by apply (tracked_same q).
  - destruct (_ && _); [done |]. intros [= <-]. by apply (tracked_same q).
  - destruct (loops q); [done |]. intros [= <-].
    by apply (processQueue_preserve tracked tracked_round).
  - by apply tracked_settle.
  - unfold timer_fire. destruct (timers q !! k) as [[d task]|]; [| done].
    intros [= <-]. by apply (tracked_same q).
  - intros [= <-]. apply (tracked_same q); [| done]. unfold cancel.
    destruct (PriorityQueue.remove _ _) as [[|] pq']; [done |].
    by case_bool_decide.
  - intros [= <-]. apply (tracked_same q); [| done]. unfold cancelTask.
    destruct (PriorityQueue.remove _ _) as [[|] pq']; [done |].
    by case_bool_decide.
  - intros [= <-]. apply (tracked_same q); [| done]. unfold updatePriority.
    by destruct (PriorityQueue.findById _ _).
  - intros [= <-]. apply (tracked_same q); [| done]. unfold retryFailed.
    destruct taskId as [i|]; [| done].
    destruct (truthy_str (Some i)); [| done].
    by destruct (DeadLetterQueue.get i (deadLetterQueue q)).
  - intros [= <-]. apply (tracked_same q); [| done]. unfold clear.
    by destruct a, b, c, (persistence q) eqn:Hp; simpl; rewrite ?Hp.
Qed.

Lemma tracked_run ls : ∀ q q',
  Forall distinct_running (states ls q) → tracked q →
  run ls q = Some q' → tracked q' ∧ distinct_running q'.
Proof.
  induction ls as [|l ls IH]; intros q q' Hall Ht; cbn [run states] in *.
  - intros [= <-]. apply Forall_cons in Hall as [Hnd _]. done.
  - apply Forall_cons in Hall as [Hnd Hall].
    destruct (step l q) as [q1|] eqn:Hstep; [| done].
    apply IH; [done |]. by eapply tracked_step.
Qed.

Definition twin_config : QueueConfig.t :=
  QueueConfig.mk 2 100 false None true 3 100 5000.

Definition twins : list Task.t :=
  [Task.literal (Some "a"%string) None; Task.literal (Some "a"%string) None;
   Task.literal (Some "a"%string) None].

(** C2, the claim as stated, fails: [activeTasks] is a set of ids, and the
    loop compares its size with the concurrency.  Three tasks added under
    one id to a queue with [concurrency = 2] are all dispatched by the loop
    that [add] starts, and all three are in PROCESSING at once. *)
Lemma same_id_tasks_exceed_concurrency :
  let q := (add (λ _, mkEnv 1000 "r" None) twins (new twin_config)).1 in
  QueueConfig.concurrency (config q) = 2 ∧
  length (running q) = 3%nat ∧
  Task.status <$> running q
    = [Some PROCESSING; Some PROCESSING; Some PROCESSING] ∧
  size (activeTasks q) = 1%nat.
Proof. vm_compute. split_and!; reflexivity. Qed.

(** C2, amended.  In every state a queue with [concurrency = N >= 1]
    reaches, the set of active task ids has at most [N] members, and when it
    has [N], the loop dequeues nothing, changes nothing and sleeps 50 ms
    before it checks again.  The tasks in PROCESSING are bounded by [N] as
    well in every run in which no two tasks running at the same time share
    an id: then the active ids are exactly the ids of the running tasks,
    one each. *)
Theorem concurrency_ceiling (config0 : QueueConfig.t) (ls : list Label)
  (q : TaskQueue.t) (now : Z) :
  1 ≤ QueueConfig.concurrency config0 →
  run ls (new config0) = Some q →
  Z.of_nat (size (activeTasks q)) ≤ QueueConfig.concurrency config0 ∧
  (isProcessing q = true → isPaused q = false →
   Z.of_nat (size (activeTasks q)) = QueueConfig.concurrency config0 →
   processQueue_round now q = (q, Slept 50) ∧
   processQueue now q = (q, Slept 50)) ∧
  (Forall distinct_running (states ls (new config0)) →
   activeTasks q = list_to_set (running_ids q) ∧
   Forall is_processing (running q) ∧
   Z.of_nat (length (running q)) = Z.of_nat (size (activeTasks q)) ∧
   Z.of_nat (length (running q)) ≤ QueueConfig.concurrency config0).
Proof.
  intros Hn Hrun.
  assert (Hq : reachable config0 q).
  { apply (reachable_run (λ _, True) config0 ls (new config0));
      [constructor | | done].
    apply Forall_forall. done. }
  pose proof (active_bound (λ _, True) config0 q ltac:(lia) Hq) as Hle.
  split; [done |]. split.
  - intros Hproc Hpaused Hfull.
    pose proof (reachable_config _ _ _ Hq) as [Hcfg _].
    assert (Hround : processQueue_round now q = (q, Slept 50)).
    { unfold processQueue_round. rewrite Hproc, Hpaused, Hcfg. simpl.
      destruct (_ >=? _) eqn:Hge; [done | lia]. }
    split; [done |]. unfold processQueue.
    destruct (Z.to_nat _); cbn [processQueue_rounds]; by rewrite Hround.
  - intros Hall.
    destruct (tracked_run ls (new config0) q Hall (tracked_new config0) Hrun)
      as [[H1 H2] Hnd].
    assert (Hlen : length (running q) = size (activeTasks q)).
    { rewrite H1, size_list_to_set by done.
      unfold running_ids. by rewrite length_fmap. }
    split_and!; try done; lia.
Qed.

Definition busy_config : QueueConfig.t :=
  QueueConfig.mk 2 100 false None true 3 100 5000.

Definition busy_env : nat → AddEnv := λ _, mkEnv 1000 "r" None.

(** Three tasks added at once: the loop that [add] starts dispatches two
    and sleeps at the ceiling. *)
Definition busy_run : list Label :=
  [LAdd busy_env [Task.literal (Some "a"%string) None;
                  Task.literal (Some "b"%string) None;
                  Task.literal (Some "c"%string) None]].

Definition busy_state : TaskQueue.t :=
  default (new busy_config) (run busy_run (new busy_config)).

Lemma concurrency_ceiling_witness :
  size (activeTasks busy_state) = 2%nat ∧
  processQueue 1050 busy_state = (busy_state, Slept 50) ∧
  Task.id <$> running busy_state = [Some "a"; Some "b"]%string ∧
  Z.of_nat (length (running busy_state)) ≤ 2 ∧
  Task.id <$> PriorityQueue.getAll (priorityQueue busy_state)
    = [Some "c"%string].
Proof.
  destruct (concurrency_ceiling busy_config busy_run busy_state 1050)
    as (_ & H2 & H3).
  - simpl. lia.
  - vm_compute. reflexivity.
  - split; [vm_compute; reflexivity |].
    split; [apply H2; vm_compute; reflexivity |].
    split; [vm_compute; reflexivity |].
    split; [| vm_compute; reflexivity].
    apply H3. apply (bool_decide_unpack _). vm_compute. exact I.
Defined.
End ConcurrencyCeiling.

(** ** TaskQueue.add and the CRITICAL tier *)

Section CriticalTier.
Import TaskQueue TaskPriority.
#[local] Arguments PriorityQueue.enqueue : simpl never.

(** Any label except [updatePriority(id, CRITICAL)]. *)
Definition no_promotion (l : Label) : Prop :=
  ∀ taskId, l ≠ LUpdatePriority taskId CRITICAL.

Definition has_truthy_priority (task : Task.t) : Prop :=
  truthy_num (Task.priority task) = true.

Lemma admitted_priority env task :
  has_truthy_priority (admitted env task).
Proof.
  unfold has_truthy_priority, admitted. simpl.
  destruct (truthy_str (Task.id task)); simpl;
    destruct (truthy_num (Task.priority task)) eqn:Hp; simpl; done.
Qed.

Lemma admitted_id env task : has_truthy_id (admitted env task).
Proof.
  unfold has_truthy_id, admitted. simpl.
  destruct (truthy_str (Task.id task)) eqn:Hid; simpl;
    destruct (truthy_num (Task.priority task)); simpl; done.
Qed.

Lemma admitted_critical env task :
  Task.priority task = Some CRITICAL →
  Task.priority (admitted env task) = Some NORMAL.
Proof.
  intros Hp. unfold admitted.
  destruct (truthy_str (Task.id task)); simpl; by rewrite Hp.
Qed.

Lemma truthy_priority_stamped task :
  has_truthy_priority task → has_truthy_priority (stamped task).
Proof.
  unfold has_truthy_priority. destruct (Task.priority task) as [p|] eqn:Hp.
  - intros Ht. by rewrite (stamped_some task p), Hp.
  - done.
Qed.

Lemma critical_tier_empty config0 q :
  reachable_by no_promotion config0 q →
  PriorityQueue.tier CRITICAL (priorityQueue q) = [].
Proof.
  intros Hq.
  pose proof (Inv_reachable has_truthy_priority no_promotion) as Hinv.
  destruct (Hinv) with (config := config0) (q := q) as [H1 _ _ _]; try done.
  - unfold has_truthy_priority. by intros t1 t2 _ <-.
  - apply truthy_priority_stamped.
  - apply admitted_priority.
  - intros taskId priority Hallowed task _.
    unfold has_truthy_priority. simpl.
    destruct (decide (priority = 0)) as [->|Hne]; [| by destruct priority].
    by destruct (Hallowed taskId).
  - unfold PriorityQueue.tier.
    destruct (JsMap.get CRITICAL _) as [[|task queue]|] eqn:Hget; try done.
    pose proof (tiers_all_get _ _ _ _ H1 Hget) as Hall.
    apply Forall_cons in Hall as [[Htruthy Hprio] _].
    unfold has_truthy_priority in Htruthy. by rewrite Hprio in Htruthy.
Qed.

Definition paused_config : QueueConfig.t :=
  QueueConfig.mk 2 100 false None true 3 100 5000.

(** A client pauses the queue, adds a LOW task and promotes it. *)
Definition promote_run : list Label :=
  [LPause;
   LAdd (λ _, mkEnv 1000 "r" None)
        [Task.literal (Some "a"%string) (Some LOW)];
   LUpdatePriority "a" CRITICAL].

(** C5, the claim as stated, fails: a task that came in through [add] with
    priority LOW sits in the CRITICAL tier after
    [updatePriority("a", CRITICAL)]. *)
Lemma critical_tier_after_updatePriority :
  ∃ q, reachable paused_config q ∧
       run promote_run (new paused_config) = Some q ∧
       Task.id <$> PriorityQueue.tier CRITICAL (priorityQueue q)
         = [Some "a"%string].
Proof.
  exists (default (new paused_config) (run promote_run (new paused_config))).
  split; [| split; vm_compute; reflexivity].
  apply (reachable_run (λ _, True) paused_config promote_run
           (new paused_config)).
  - constructor.
  - repeat constructor.
  - vm_compute. reflexivity.
Qed.

(** C5, amended.  [add] turns an explicit CRITICAL priority into NORMAL
    before it enqueues the task, which lands at the end of the NORMAL tier;
    and as long as nobody calls [updatePriority(id, CRITICAL)], the CRITICAL
    tier of the queue stays empty, before and after every [add]. *)
Theorem add_never_files_critical (config0 : QueueConfig.t)
  (q : TaskQueue.t) (env : AddEnv) (task : Task.t) :
  reachable_by no_promotion config0 q →
  Task.priority task = Some CRITICAL →
  PriorityQueue.size (priorityQueue q) < QueueConfig.maxQueueSize config0 →
  Task.priority (admitted env task) = Some NORMAL ∧
  PriorityQueue.tier NORMAL (priorityQueue (add_one env task q).1) =
    PriorityQueue.tier NORMAL (priorityQueue q) ++ [admitted env task] ∧
  PriorityQueue.tier CRITICAL (priorityQueue q) = [] ∧
  PriorityQueue.tier CRITICAL (priorityQueue (add_one env task q).1) = [].
Proof.
  intros Hq Hp Hroom.
  pose proof (reachable_config _ _ _ Hq) as [Hcfg _].
  pose proof (admitted_critical env task Hp) as Hadm.
  pose proof (critical_tier_empty _ _ Hq) as Hempty.
  assert (Hpq : priorityQueue (add_one env task q).1 =
                PriorityQueue.enqueue (admitted env task) (priorityQueue q)).
  { unfold add_one. rewrite Hcfg.
    destruct (_ >=? _) eqn:Hge; [lia |].
    cbn [persistence with_metrics with_priorityQueue].
    destruct (persistence q) as [p|]; [| done].
    by destruct (QueuePersistence.saveTask _ _ p) as [p' [e|]]. }
  rewrite Hpq, !tier_enqueue, Hadm, Hempty.
  rewrite (stamped_some _ _ Hadm). simpl. split_and!; try done.
Qed.

Lemma add_never_files_critical_witness :
  Task.priority
    (admitted (mkEnv 1000 "r" None)
       (Task.literal (Some "a"%string) (Some CRITICAL))) = Some NORMAL ∧
  PriorityQueue.tier CRITICAL
    (priorityQueue
       (add_one (mkEnv 1000 "r" None)
          (Task.literal (Some "a"%string) (Some CRITICAL))
          (new paused_config)).1) = [].
Proof.
  destruct (add_never_files_critical paused_config (new paused_config)
              (mkEnv 1000 "r" None)
              (Task.literal (Some "a"%string) (Some CRITICAL)))
    as (H1 & _ & _ & H2).
  - constructor.
  - reflexivity.
  - reflexivity.
  - split; [exact H1 | exact H2].
Defined.
End CriticalTier.


(** ** TaskQueue.add: the queue-full rejection *)

Section QueueFull.
Import TaskQueue TaskPriority.
#[local] Arguments PriorityQueue.enqueue : simpl never.
#[local] Arguments PriorityQueue.size : simpl never.

Fixpoint total_length (qs : list (Z * list Task.t)) : Z :=
  match qs with
  | [] => 0
  | (_, queue) :: qs' => Z.of_nat (length queue) + total_length qs'
  end.

Lemma size_total pq :
  PriorityQueue.size pq = total_length (PriorityQueue.queues pq).
Proof.
  unfold PriorityQueue.size, JsMap.values.
  assert (Hgen : ∀ qs acc,
    foldl (λ total queue, total + Z.of_nat (length queue)) acc qs.*2 =
    acc + total_length qs).
  { induction qs as [|[p queue] qs IH]; intros acc; simpl; [lia |].
    rewrite IH. lia. }
  apply Hgen.
Qed.

Lemma total_length_set p queue qs :
  total_length (JsMap.set p queue qs) =
  total_length qs + Z.of_nat (length queue)
  - Z.of_nat (length (default [] (JsMap.get p qs))).
Proof.
  induction qs as [|[p' queue'] qs IH]; simpl; [lia |].
  destruct (decide (p = p')) as [->|Hne]; simpl; lia.
Qed.

Lemma size_enqueue task pq :
  PriorityQueue.size (PriorityQueue.enqueue task pq) =
  PriorityQueue.size pq + 1.
Proof.
  rewrite !size_total. unfold PriorityQueue.enqueue.
  destruct (JsMap.get _ (PriorityQueue.queues pq)) as [queue|] eqn:Hget;
    simpl; rewrite total_length_set, Hget; simpl;
    rewrite ?length_app; simpl; lia.
Qed.

Lemma size_nonneg pq : 0 ≤ PriorityQueue.size pq.
Proof.
  rewrite size_total. induction (PriorityQueue.queues pq) as [|[p q] qs IH];
    simpl; lia.
Qed.

(** The one step of [add]'s loop, spelled out. *)
Lemma add_one_spec env task q :
  let task' := admitted env task in
  if decide (QueueConfig.maxQueueSize (config q)
             ≤ PriorityQueue.size (priorityQueue q))
  then add_one env task q = (q, Some queueFull)
  else
    (add_one env task q).2 = None ∧
    priorityQueue (add_one env task q).1 =
      PriorityQueue.enqueue task' (priorityQueue q) ∧
    emitted (add_one env task q).1 = emitted q ++ [taskAdded task'] ∧
    totalAdded (metrics (add_one env task q).1) = totalAdded (metrics q) + 1 ∧
    isProcessing (add_one env task q).1 = isProcessing q ∧
    isPaused (add_one env task q).1 = isPaused q ∧
    loops (add_one env task q).1 = loops q.
Proof.
  intros task'. unfold add_one. fold task'.
  case_decide as Hfull.
  - destruct (_ >=? _) eqn:Hge; [done | lia].
  - destruct (_ >=? _) eqn:Hge; [lia |].
    cbn [persistence with_metrics with_priorityQueue].
    destruct (persistence q) as [p|]; [| done].
    unfold QueuePersistence.saveTask.
    rewrite bool_decide_eq_false_2; [done |].
    pose proof (admitted_priority env task) as Hp.
    unfold has_truthy_priority in Hp. fold task' in Hp.
    intros Heq. by rewrite Heq in Hp.
Qed.

Lemma add_one_error env task q e :
  (add_one env task q).2 = Some e → e = queueFull.
Proof.
  pose proof (add_one_spec env task q) as Hspec. simpl in Hspec.
  case_decide.
  - rewrite Hspec. simpl. by intros [= <-].
  - destruct Hspec as [-> _]. done.
Qed.

(** The loop over an array: it rejects exactly when the array does not fit,
    and with nothing but the queue-full error. *)
Lemma add_loop_spec env tasks i q :
  config (add_loop i env tasks q).1 = config q ∧
  isProcessing (add_loop i env tasks q).1 = isProcessing q ∧
  isPaused (add_loop i env tasks q).1 = isPaused q ∧
  loops (add_loop i env tasks q).1 = loops q ∧
  if decide (tasks ≠ [] ∧
             QueueConfig.maxQueueSize (config q)
             < PriorityQueue.size (priorityQueue q)
               + Z.of_nat (length tasks))
  then (add_loop i env tasks q).2 = Some queueFull
  else (add_loop i env tasks q).2 = None ∧
       PriorityQueue.size (priorityQueue (add_loop i env tasks q).1) =
         PriorityQueue.size (priorityQueue q) + Z.of_nat (length tasks).
Proof.
  revert i q. induction tasks as [|task tasks IH]; intros i q.
  { cbn [add_loop fst snd]. split_and!; try done.
    rewrite decide_False by (intros [? _]; done).
    split; [done | simpl; lia]. }
  cbn [add_loop].
  pose proof (add_one_spec (env i) task q) as Hone. cbv zeta in Hone.
  pose proof (frame_add_one (env i) task q) as (Hcfg & _ & _).
  destruct (decide (QueueConfig.maxQueueSize (config q)
                    ≤ PriorityQueue.size (priorityQueue q))) as [Hfull|Hroom].
  - rewrite Hone. cbn [fst snd]. split_and!; try done.
    rewrite decide_True; [done |]. split; [done |].
    rewrite length_cons. lia.
  - destruct Hone as (Hnone & Hpq & _ & _ & Hproc & Hpaused & Hloops).
    destruct (add_one (env i) task q) as [q1 e1]. cbn [fst snd] in *.
    subst e1.
    destruct (IH (S i) q1) as (IH1 & IH2 & IH3 & IH4 & IH5).
    split_and!; try congruence.
    rewrite Hcfg, Hpq, size_enqueue in IH5. rewrite length_cons.
    destruct (decide (tasks ≠ [] ∧
                      QueueConfig.maxQueueSize (config q)
                      < PriorityQueue.size (priorityQueue q) + 1
                        + Z.of_nat (length tasks))) as [Hd|Hd].
    + rewrite decide_True; [done |]. split; [done | lia].
    + rewrite decide_False.
      2:{ intros [_ Hlt]. destruct tasks as [|task2 tasks].
          - simpl in Hlt. lia.
          - apply Hd. split; [done | lia]. }
      destruct IH5 as [-> IH5]. split; [done |]. rewrite IH5. lia.
Qed.
Lemma size_dequeue pq task pq' :
  PriorityQueue.dequeue pq = (Some task, pq') →
  PriorityQueue.size pq' = PriorityQueue.size pq - 1.
Proof.
  unfold PriorityQueue.dequeue. rewrite !size_total.
  induction PriorityQueue.priorities as [|p ps IH]; simpl; [done |].
  destruct (JsMap.get p (PriorityQueue.queues pq)) as [[|t0 queue]|] eqn:Hget;
    try done.
  intros [= <- <-]. simpl. rewrite total_length_set, Hget. simpl. lia.
Qed.

Lemma dequeue_none pq pq' :
  PriorityQueue.dequeue pq = (None, pq') → pq' = pq.
Proof.
  unfold PriorityQueue.dequeue.
  induction PriorityQueue.priorities as [|p ps IH]; simpl;
    [by intros [= <-] |].
  by destruct (JsMap.get p (PriorityQueue.queues pq)) as [[|t0 queue]|].
Qed.

(** The task object as [processTask] leaves it at its [await]. *)
Definition begun (now : Z) (task : Task.t) : Task.t :=
  Task.set_startedAt (Some now) (Task.set_status (Some PROCESSING) task).

Lemma processTask_begin_spec now task q :
  let q' := processTask_begin now task q in
  config q' = config q ∧ priorityQueue q' = priorityQueue q ∧
  isProcessing q' = isProcessing q ∧ isPaused q' = isPaused q ∧
  loops q' = loops q ∧
  running q' = running q ++ [begun now task] ∧
  emitted q' = emitted q ++ [taskStarted (begun now task)] ∧
  activeTasks q' = {[ Task.id task ]} ∪ activeTasks q.
Proof. unfold processTask_begin. cbn. by destruct (_ >? _). Qed.

(** A run of the loop from a point where its condition holds: it
    dispatches the tasks [ts] that [dequeue] hands out, one after the
    other, and its last round is a sleep, at the concurrency ceiling or on
    an empty queue.  The fuel of [processQueue] is enough: the run never
    ends on a dispatch. *)
Lemma rounds_spec fuel now : ∀ q,
  isProcessing q = true → isPaused q = false →
  PriorityQueue.size (priorityQueue q) ≤ Z.of_nat fuel →
  ∃ ts pq' qn,
    PriorityQueue.drain (length ts) (priorityQueue q) = (ts, pq') ∧
    priorityQueue qn = pq' ∧ config qn = config q ∧
    isProcessing qn = true ∧ isPaused qn = false ∧ loops qn = loops q ∧
    running qn = running q ++ (begun now <$> ts) ∧
    emitted qn = emitted q ++ (taskStarted <$> (begun now <$> ts)) ∧
    activeTasks qn = list_to_set (Task.id <$> ts) ∪ activeTasks q ∧
    processQueue_rounds fuel now q = processQueue_round now qn ∧
    ((QueueConfig.concurrency (config q) ≤ Z.of_nat (size (activeTasks qn)) ∧
      processQueue_round now qn = (qn, Slept 50)) ∨
     (Z.of_nat (size (activeTasks qn)) < QueueConfig.concurrency (config q) ∧
      PriorityQueue.dequeue pq' = (None, pq') ∧
      processQueue_round now qn =
        (if Z.of_nat (size (activeTasks qn)) =? 0
         then emit idle (with_isProcessing false qn) else qn, Slept 100))).
Proof.
  induction fuel as [|fuel IH]; intros q Hproc Hpaused Hsize.
  all: unfold processQueue_rounds; fold processQueue_rounds.
  all: assert (Hround := eq_refl (processQueue_round now q)).
  all: unfold processQueue_round at 2 in Hround.
  all: rewrite Hproc, Hpaused in Hround; cbn [negb andb] in Hround.
  all: destruct (Z.of_nat (size (activeTasks q))
                 >=? QueueConfig.concurrency (config q)) eqn:Hge.
  1, 3: exists [], (priorityQueue q), q; cbn [length PriorityQueue.drain fmap
          list_fmap list_to_set]; rewrite ?app_nil_r, ?Hround;
        split_and!; try done; [set_solver | left; split; [lia | done]].
  all: destruct (PriorityQueue.dequeue (priorityQueue q))
         as [[task|] pq1] eqn:Hdeq.
  - apply size_dequeue in Hdeq. pose proof (size_nonneg pq1). lia.
  - pose proof (dequeue_none _ _ Hdeq) as ->.
    assert (Hq : with_priorityQueue (priorityQueue q) q = q) by by destruct q.
    rewrite Hq in Hround.
    exists [], (priorityQueue q), q; cbn [length PriorityQueue.drain fmap
      list_fmap list_to_set]; rewrite ?app_nil_r.
    split_and!; try done; [set_solver |].
    right. split; [lia | done].
  - rewrite Hround.
    pose proof (processTask_begin_spec now task (with_priorityQueue pq1 q))
      as (B1 & B2 & B3 & B4 & B5 & B6 & B7 & B8).
    set (q1 := processTask_begin now task (with_priorityQueue pq1 q)) in *.
    clearbody q1. cbn in B1, B2, B3, B4, B5, B6, B7, B8.
    pose proof (size_dequeue _ _ _ Hdeq) as Hs1.
    destruct (IH q1)
      as (ts & pq' & qn & D & E1 & E2 & E3 & E4 & E5 & E6 & E7 & E8 & E9 & E10).
    { by rewrite B3. } { by rewrite B4. } { rewrite B2. lia. }
    exists (task :: ts), pq', qn. rewrite B2 in D.
    cbn [length PriorityQueue.drain]. rewrite Hdeq, D.
    rewrite E6, E7, B6, B7, E2, B1. rewrite B1 in E10.
    split_and!; try done; try congruence.
    + by rewrite <- app_assoc.
    + by rewrite <- app_assoc.
    + rewrite E8, B8. cbn. set_solver.
  - pose proof (dequeue_none _ _ Hdeq) as ->.
    assert (Hq : with_priorityQueue (priorityQueue q) q = q) by by destruct q.
    rewrite Hq in Hround. rewrite Hround.
    exists [], (priorityQueue q), q; cbn [length PriorityQueue.drain fmap
      list_fmap list_to_set]; rewrite ?app_nil_r.
    split_and!; try done; [set_solver |].
    right. split; [lia | done].
Qed.

Lemma processQueue_spec now q :
  isProcessing q = true → isPaused q = false →
  ∃ ts pq' qn,
    PriorityQueue.drain (length ts) (priorityQueue q) = (ts, pq') ∧
    priorityQueue qn = pq' ∧ config qn = config q ∧
    isProcessing qn = true ∧ isPaused qn = false ∧ loops qn = loops q ∧
    running qn = running q ++ (begun now <$> ts) ∧
    emitted qn = emitted q ++ (taskStarted <$> (begun now <$> ts)) ∧
    activeTasks qn = list_to_set (Task.id <$> ts) ∪ activeTasks q ∧
    processQueue now q = processQueue_round now qn ∧
    ((QueueConfig.concurrency (config q) ≤ Z.of_nat (size (activeTasks qn)) ∧
      processQueue_round now qn = (qn, Slept 50)) ∨
     (Z.of_nat (size (activeTasks qn)) < QueueConfig.concurrency (config q) ∧
      PriorityQueue.dequeue pq' = (None, pq') ∧
      processQueue_round now qn =
        (if Z.of_nat (size (activeTasks qn)) =? 0
         then emit idle (with_isProcessing false qn) else qn, Slept 100))).
Proof.
  intros Hproc Hpaused. apply rounds_spec; try done.
  pose proof (size_nonneg (priorityQueue q)). lia.
Qed.

(** The fuel of [processQueue] is enough: a run ends in a sleep or in the
    return of the loop, never in the middle of its dispatches. *)
Lemma processQueue_stops now q task :
  (processQueue now q).2 ≠ Dispatched task.
Proof.
  destruct (isProcessing q && negb (isPaused q)) eqn:Hcond.
  - apply andb_true_iff in Hcond as [Hproc Hpaused].
    apply negb_true_iff in Hpaused.
    destruct (processQueue_spec now q Hproc Hpaused)
      as (ts & pq' & qn & _ & _ & _ & _ & _ & _ & _ & _ & _ & -> & Hend).
    by destruct Hend as [[_ ->] | (_ & _ & ->)].
  - unfold processQueue.
    destruct (Z.to_nat _); cbn [processQueue_rounds];
      unfold processQueue_round; by rewrite Hcond.
Qed.

Lemma processQueue_isPaused now q :
  isPaused (processQueue now q).1 = isPaused q.
Proof.
  apply (processQueue_preserve (λ x, isPaused x = isPaused q)); [| done].
  intros t0 x Hx. rewrite <- Hx. unfold processQueue_round.
  destruct (_ && _); [| done]. destruct (_ >=? _); [done |].
  destruct (PriorityQueue.dequeue _) as [[task|] pq'].
  - cbn [fst].
    by destruct (processTask_begin_spec t0 task (with_priorityQueue pq' x))
      as (_ & _ & _ & -> & _).
  - cbn. by destruct (_ =? _).
Qed.

(** [add] without the [start()] at its end: on an error, and on a queue
    that is processing or paused. *)
Lemma add_no_start env tasks q :
  isProcessing q = true ∨ isPaused q = true →
  add env tasks q = add_loop 0 env tasks q.
Proof.
  intros Hor. unfold add.
  pose proof (add_loop_spec env tasks 0 q) as (_ & E2 & E3 & _).
  destruct (add_loop 0 env tasks q) as [q' [e|]]; simpl in *; [done |].
  rewrite E2, E3. by destruct Hor as [-> | ->]; destruct (isProcessing q).
Qed.

Lemma add_spec env tasks q :
  (add env tasks q).2 = (add_loop 0 env tasks q).2 ∧
  config (add env tasks q).1 = config q ∧
  isPaused (add env tasks q).1 = isPaused q.
Proof.
  pose proof (loop_frame_add env tasks q) as (Hcfg & _).
  split_and!; [| done |]; unfold add;
    pose proof (add_loop_spec env tasks 0 q) as (_ & E2 & E3 & _);
    destruct (add_loop 0 env tasks q) as [q' [e|]]; simpl in *; try done.
  destruct (_ && _) eqn:Hidle; [| done].
  unfold start. destruct (isProcessing q'); [done |].
  rewrite processQueue_isPaused. cbn.
  rewrite <- E3. by destruct (isProcessing q), (isPaused q').
Qed.

Lemma add_single_ok env task q :
  PriorityQueue.size (priorityQueue q) < QueueConfig.maxQueueSize (config q) →
  (add env [task] q).2 = None.
Proof.
  intros Hroom.
  pose proof (add_spec env [task] q) as (E1 & _).
  pose proof (add_loop_spec env [task] 0 q) as (_ & _ & _ & _ & H5).
  rewrite decide_False in H5 by (simpl; lia).
  rewrite E1. by destruct H5 as [-> _].
Qed.

Definition small_config : QueueConfig.t :=
  QueueConfig.mk 1 2 false None false 1 100 5000.

(** C6, the claim as stated, fails on the error: there is no QueueFullError
    in the code.  The third [add] to a paused queue with [maxQueueSize = 2]
    rejects with a plain [Error] whose message is "Queue is full". *)
Lemma queue_full_is_a_plain_Error :
  let env := λ _ : nat, mkEnv 1000 "r" None in
  let q0 := pause (new small_config) in
  let q1 := (add env [Task.literal (Some "task-1"%string) None] q0).1 in
  let q2 := (add env [Task.literal (Some "task-2"%string) None] q1).1 in
  ∃ e, (add env [Task.literal (Some "task-3"%string) None] q2).2 = Some e ∧
       err_name e = "Error"%string ∧
       err_message e = "Queue is full"%string ∧
       err_name e ≠ "QueueFullError"%string.
Proof.
  eexists. split; [vm_compute; reflexivity |]. by split_and!.
Qed.

(** C6, amended.  [add] rejects exactly when the tasks do not fit under
    [maxQueueSize], and never with any other error than the plain [Error]
    "Queue is full"; with [maxQueueSize = 2] and the queue paused, two adds
    succeed and the third rejects.  Otherwise the task is enqueued with an
    id (its own, or a generated one when it had none), a priority, status
    PENDING, [addedAt] and a zero retry count, and [taskAdded] is emitted.
    On a queue that is processing or paused that is all.  On an idle,
    unpaused queue [add] goes on to [start()], whose loop runs before [add]
    returns: [started] is emitted, the tasks [ts] that [dequeue] hands out
    are dispatched one after the other, each leaving the priority queue
    for PROCESSING with a [taskStarted] event, until the loop sleeps at
    the concurrency ceiling or on a [dequeue] that finds nothing; the
    queue goes idle again only if nothing at all could be dequeued. *)
Theorem add_rejects_only_when_full (config0 : QueueConfig.t)
  (q : TaskQueue.t) (env env1 env2 env3 : nat → AddEnv)
  (tasks : list Task.t) (task t1 t2 t3 : Task.t) :
  QueueConfig.maxQueueSize config0 = 2 →
  (∀ e, (add env tasks q).2 = Some e → e = queueFull) ∧
  ((add env tasks q).2 = Some queueFull ↔
     tasks ≠ [] ∧
     QueueConfig.maxQueueSize (config q)
     < PriorityQueue.size (priorityQueue q) + Z.of_nat (length tasks)) ∧
  ((add env [task] q).2 = Some queueFull ↔
     QueueConfig.maxQueueSize (config q)
     ≤ PriorityQueue.size (priorityQueue q)) ∧
  (PriorityQueue.size (priorityQueue q)
     < QueueConfig.maxQueueSize (config q) →
   let task' := admitted (env 0%nat) task in
   let qa := (add_one (env 0%nat) task q).1 in
   let q' := (add env [task] q).1 in
   let now1 := now (env 1%nat) in
   (add env [task] q).2 = None ∧
   priorityQueue qa = PriorityQueue.enqueue task' (priorityQueue q) ∧
   PriorityQueue.size (priorityQueue qa) =
     PriorityQueue.size (priorityQueue q) + 1 ∧
   emitted qa = emitted q ++ [taskAdded task'] ∧
   Task.id task' =
     (if truthy_str (Task.id task) then Task.id task
      else Some (generateTaskId (env 0%nat))) ∧
   truthy_str (Task.id task') = true ∧
   Task.priority task' =
     (if truthy_num (Task.priority task) then Task.priority task
      else Some NORMAL) ∧
   Task.status task' = Some PENDING ∧
   Task.addedAt task' = Some (now (env 0%nat)) ∧
   Task.retries task' = Some 0 ∧
   (isProcessing q = true ∨ isPaused q = true → q' = qa) ∧
   (isProcessing q = false → isPaused q = false →
      q' = start now1 qa ∧
      isPaused q' = false ∧ loops q' = S (loops q) ∧
      ∃ ts,
        PriorityQueue.drain (length ts) (priorityQueue qa)
          = (ts, priorityQueue q') ∧
        running q' = running q ++ (begun now1 <$> ts) ∧
        activeTasks q' = list_to_set (Task.id <$> ts) ∪ activeTasks q ∧
        emitted q' =
          emitted q ++ [taskAdded task'; started]
            ++ (taskStarted <$> (begun now1 <$> ts))
            ++ (if isProcessing q' then [] else [idle]) ∧
        (QueueConfig.concurrency (config q)
           ≤ Z.of_nat (size (activeTasks q')) ∨
         PriorityQueue.dequeue (priorityQueue q')
           = (None, priorityQueue q')) ∧
        (isProcessing q' = false →
         ts = [] ∧ size (activeTasks q) = 0%nat ∧
         PriorityQueue.dequeue (priorityQueue qa)
           = (None, priorityQueue qa)))) ∧
  (let q0 := pause (new config0) in
   let q1 := (add env1 [t1] q0).1 in
   let q2 := (add env2 [t2] q1).1 in
   (add env1 [t1] q0).2 = None ∧ (add env2 [t2] q1).2 = None ∧
   (add env3 [t3] q2).2 = Some queueFull ∧
   PriorityQueue.size (priorityQueue (add env3 [t3] q2).1) = 2).
Proof.
  intros Hmax.
  pose proof (add_spec env tasks q) as (Eerr & _).
  pose proof (add_loop_spec env tasks 0 q) as (_ & _ & _ & _ & Hloop).
  split_and!.
  - intros e. rewrite Eerr. case_decide.
    + rewrite Hloop. by intros [= <-].
    + destruct Hloop as [-> _]. done.
  - rewrite Eerr. case_decide as Hd.
    + by rewrite Hloop.
    + destruct Hloop as [-> _]. split; [done | by intros ?].
  - pose proof (add_spec env [task] q) as (E1 & _).
    pose proof (add_loop_spec env [task] 0 q) as (_ & _ & _ & _ & H1).
    rewrite E1. case_decide as Hd.
    + rewrite H1. split; [| done]. intros _. simpl in Hd. lia.
    + destruct H1 as [-> _]. split; [done |]. intros Hfull.
      exfalso. apply Hd. split; [done | simpl; lia].
  - intros Hroom task' qa q' now1.
    pose proof (add_single_ok env task q Hroom) as Hnone.
    pose proof (add_one_spec (env 0%nat) task q) as Hone. simpl in Hone.
    rewrite decide_False in Hone by lia.
    pose proof (frame_add_one (env 0%nat) task q) as (Hcfg & _ & _).
    fold qa in Hone, Hcfg. fold task' in Hone.
    destruct Hone as (H1 & H2 & H3 & H4 & H5 & H6 & H7).
    assert (Hq' : q' = if negb (isProcessing q) && negb (isPaused q)
                       then start now1 qa else qa).
    { unfold q', add, now1. cbn [add_loop length]. subst qa.
      destruct (add_one (env 0%nat) task q) as [qb eb]. cbn [fst snd] in *.
      subst eb. by rewrite H5, H6. }
    split_and!.
    + done.
    + done.
    + by rewrite H2, size_enqueue.
    + done.
    + unfold task', admitted.
      destruct (truthy_str (Task.id task)); simpl;
        by destruct (truthy_num (Task.priority task)).
    + apply admitted_id.
    + unfold task', admitted.
      destruct (truthy_str (Task.id task)); simpl;
        by destruct (truthy_num (Task.priority task)).
    + done.
    + done.
    + done.
    + intros Hor. rewrite Hq'.
      assert (negb (isProcessing q) && negb (isPaused q) = false) as ->.
      { destruct Hor as [-> | ->]; [done | by destruct (isProcessing q)]. }
      done.
    + intros Hproc Hpaused. rewrite Hproc, Hpaused in Hq'.
      cbn [negb andb] in Hq'. split; [done |].
      clearbody q'. subst q'. unfold start. rewrite H5, Hproc.
      set (qs := with_loops (S (loops qa))
                   (emit started
                      (with_isPaused false (with_isProcessing true qa)))).
      destruct (processQueue_spec now1 qs)
        as (ts & pq' & qn & D & E1 & E2 & E3 & E4 & E5 & E6 & E7 & E8 & E9
            & Hend); [done | done |].
      cbn [qs config priorityQueue with_loops emit with_isPaused
           with_isProcessing loops running emitted activeTasks]
        in D, E2, E5, E6, E7, E8, Hend.
      assert (Hact : activeTasks qa = activeTasks q).
      { by destruct (running_add_one (env 0%nat) task q) as [_ ?]. }
      assert (Hrun : running qa = running q).
      { by destruct (running_add_one (env 0%nat) task q) as [? _]. }
      rewrite E9, Hcfg in *. rewrite H7 in E5. rewrite Hrun in E6.
      rewrite H3 in E7. rewrite Hact in E8.
      destruct Hend as [[Hc Hr] | (Hc & Hd & Hr)]; rewrite Hr; cbn [fst].
      * rewrite E4, E3. split_and!; try done. exists ts.
        rewrite E1, E6, E7, E8, app_nil_r.
        split_and!; try done; [by rewrite <- !app_assoc |].
        left. by rewrite <- E8.
      * destruct (Z.of_nat (size (activeTasks qn)) =? 0) eqn:Hz.
        -- cbn. rewrite E4. split_and!; try done. exists ts.
           rewrite E1, E6, E7, E8.
           split_and!; try done; [by rewrite <- !app_assoc | by right |].
           intros _. rewrite E8 in Hz.
           assert (Hsz : size (list_to_set (Task.id <$> ts)
                                 ∪ activeTasks q) = 0%nat) by lia.
           apply size_empty_inv in Hsz.
           assert (Hts : ts = []).
           { destruct ts as [|t0 ts]; [done |]. exfalso.
             cbn in Hsz. set_solver. }
           subst ts. cbn in D. injection D as <-.
           split_and!; try done.
           assert (activeTasks q ≡ ∅) as Hq0 by set_solver.
           apply leibniz_equiv in Hq0. by rewrite Hq0, size_empty.
        -- rewrite E4, E3. split_and!; try done. exists ts.
           rewrite E1, E6, E7, E8, app_nil_r.
           split_and!; try done; [by rewrite <- !app_assoc | by right].
  - intros q0 q1 q2.
    assert (H0 : PriorityQueue.size (priorityQueue q0) = 0) by done.
    assert (Hc0 : config q0 = config0) by done.
    assert (Hp0 : isPaused q0 = true) by done.
    assert (Hn1 : (add env1 [t1] q0).2 = None).
    { apply add_single_ok. rewrite Hc0, H0. lia. }
    pose proof (add_spec env1 [t1] q0) as (_ & Hc1 & Hp1).
    pose proof (add_loop_spec env1 [t1] 0 q0) as (_ & _ & _ & _ & Hs1).
    rewrite decide_False in Hs1 by (rewrite Hc0, H0; simpl; lia).
    rewrite <- add_no_start in Hs1 by by right. destruct Hs1 as [_ Hs1].
    fold q1 in Hs1, Hc1, Hp1. rewrite H0 in Hs1. cbn [length] in Hs1.
    assert (Hn2 : (add env2 [t2] q1).2 = None).
    { apply add_single_ok. rewrite Hc1, Hc0, Hs1. lia. }
    pose proof (add_spec env2 [t2] q1) as (_ & Hc2 & Hp2).
    pose proof (add_loop_spec env2 [t2] 0 q1) as (_ & _ & _ & _ & Hs2).
    rewrite decide_False in Hs2 by (rewrite Hc1, Hc0, Hs1; simpl; lia).
    rewrite <- add_no_start in Hs2 by (right; congruence).
    destruct Hs2 as [_ Hs2]. fold q2 in Hs2, Hc2, Hp2.
    rewrite Hs1 in Hs2. cbn [length] in Hs2.
    pose proof (add_one_spec (env3 0%nat) t3 q2) as H3. cbv zeta in H3.
    rewrite decide_True in H3 by (rewrite Hc2, Hc1, Hc0, Hs2; lia).
    rewrite (add_no_start env3 [t3] q2) by (right; congruence).
    cbn [add_loop]. rewrite H3. cbn [fst snd].
    by split_and!.
Qed.

Lemma add_rejects_only_when_full_witness :
  let env := λ _ : nat, mkEnv 1000 "r" None in
  let q0 := pause (new small_config) in
  let q1 := (add env [Task.literal (Some "task-1"%string) None] q0).1 in
  let q2 := (add env [Task.literal (Some "task-2"%string) None] q1).1 in
  let started_q :=
    (add env [Task.literal (Some "task-1"%string) None]
       (new small_config)).1 in
  (add env [Task.literal (Some "task-1"%string) None] q0).2 = None ∧
  (add env [Task.literal (Some "task-2"%string) None] q1).2 = None ∧
  (add env [Task.literal (Some "task-3"%string) None] q2).2
    = Some (mkError "Error" "Queue is full") ∧
  isProcessing started_q = true ∧ loops started_q = 1%nat ∧
  Task.id <$> running started_q = [Some "task-1"%string] ∧
  Task.status <$> running started_q = [Some PROCESSING] ∧
  PriorityQueue.size (priorityQueue started_q) = 0.
Proof.
  intros env q0 q1 q2 started_q.
  destruct (add_rejects_only_when_full small_config q0 env env env env []
              (Task.literal None None)
              (Task.literal (Some "task-1"%string) None)
              (Task.literal (Some "task-2"%string) None)
              (Task.literal (Some "task-3"%string) None))
    as (_ & _ & _ & _ & H1 & H2 & H3 & _).
  - reflexivity.
  - split; [exact H1 |]. split; [exact H2 |]. split; [exact H3 |].
    vm_compute. by split_and!.
Defined.
End QueueFull.

(** ** TaskQueue: retries and the terminal failure *)

Section RetryExhaustion.
Import TaskQueue TaskPriority.

(** Every task object the queue holds: pending, running, waiting for its
    retry timer, or dead-lettered. *)
Definition holders (q : TaskQueue.t) : list Task.t :=
  concat (JsMap.values (PriorityQueue.queues (priorityQueue q)))
  ++ running q ++ (timers q).*2
  ++ DeadLetterQueue.getAll (deadLetterQueue q).

Definition statuses (q : TaskQueue.t) : list (option TaskStatus) :=
  Task.status <$> holders q.

(** The statuses after each step of a run. *)
Fixpoint trace (ls : list Label) (q : TaskQueue.t)
  : list (list (option TaskStatus)) :=
  match ls with
  | [] => []
  | l :: ls' =>
      match step l q with
      | Some q' => statuses q' :: trace ls' q'
      | None => []
      end
  end.

Definition is_taskRetrying (e : Event) : bool :=
  match e with taskRetrying _ _ _ => true | _ => false end.

(** The status a listener reads off the task when the queue announces that
    it has just assigned one. *)
Definition announced_status (e : Event) : option (option TaskStatus) :=
  match e with
  | taskAdded task | taskStarted task | taskCompleted task
  | taskRetrying task _ _ | taskFailed task _ => Some (Task.status task)
  | _ => None
  end.

(** The statuses the queue assigned, in order. *)
Definition status_history (q : TaskQueue.t) : list (option TaskStatus) :=
  omap announced_status (emitted q).

(** How often a task was put into RETRYING. *)
Definition retrying_entries (q : TaskQueue.t) : nat :=
  length (List.filter is_taskRetrying (emitted q)).

(** [concurrency = 2], [maxRetries = 3], [retryDelay = 10]: the retry timers
    (10 ms, 20 ms) run out before the loop wakes from its sleep. *)
Definition retry_config : QueueConfig.t :=
  QueueConfig.mk 2 100 false None true 3 10 5000.

Definition boom : JsError := mkError "Error" "boom".

(** One task whose [execute] rejects every time.
    At 1000 [add] starts the loop, which dispatches the task and, finding
    the queue empty with one task active, sleeps 100 ms.  The execution
    fails at 1001 and arms a 10 ms timer, which re-enqueues the task at
    1011; the loop wakes at 1100 and dispatches it again.  The second
    failure, at 1101, arms a 20 ms timer (1121); the loop wakes at 1200.
    The third failure, at 1201, is the last. *)
Definition failing_run : list Label :=
  [LAdd (λ _, mkEnv 1000 "r" None) [Task.literal (Some "a"%string) None];
   LSettle 0 (Rejected boom) 1001; LTimer 0;
   LRound 1100; LSettle 0 (Rejected boom) 1101; LTimer 0;
   LRound 1200; LSettle 0 (Rejected boom) 1201].

Definition failed_state : TaskQueue.t :=
  default (new retry_config) (run failing_run (new retry_config)).

(** The two branches of [handleTaskError]. *)
Lemma handleTaskError_retry q task error now :
  let retries := or_default (Task.retries task) 0 + 1 in
  let counted := Task.set_lastError (Some error)
                   (Task.set_retries (Some retries) task) in
  let retrying := Task.set_status (Some RETRYING) counted in
  let q' := handleTaskError now task error q in
  retries < QueueConfig.maxRetries (config q) →
  timers q' =
    timers q ++ [(QueueConfig.retryDelay (config q) * 2 ^ (retries - 1),
                  retrying)] ∧
  deadLetterQueue q' = deadLetterQueue q ∧
  totalRetried (metrics q') = totalRetried (metrics q) + 1.
Proof.
  intros retries counted retrying q' Hlt.
  unfold q', handleTaskError. fold retries.
  cbn [config emit]. rewrite (proj2 (Z.ltb_lt _ _) Hlt). done.
Qed.

Lemma handleTaskError_terminal q task error now :
  let retries := or_default (Task.retries task) 0 + 1 in
  let counted := Task.set_lastError (Some error)
                   (Task.set_retries (Some retries) task) in
  let failed := Task.set_failedAt (Some now)
                  (Task.set_status (Some FAILED) counted) in
  let q' := handleTaskError now task error q in
  QueueConfig.maxRetries (config q) ≤ retries →
  timers q' = timers q ∧
  failedTasks q' = JsMap.set (Task.id task) error (failedTasks q) ∧
  deadLetterQueue q' =
    (if QueueConfig.enableDeadLetter (config q)
     then DeadLetterQueue.add failed (deadLetterQueue q)
     else deadLetterQueue q) ∧
  totalRetried (metrics q') = totalRetried (metrics q).
Proof.
  intros retries counted failed q' Hge.
  unfold q', handleTaskError. fold retries.
  cbn [config emit]. rewrite (proj2 (Z.ltb_ge _ _) Hge).
  unfold persist_update. cbn [config emit with_metrics with_failedTasks].
  destruct (QueueConfig.enableDeadLetter (config q));
    cbn; destruct (persistence q); done.
Qed.

(** C1, the claim as stated, fails: with [maxRetries = 3] the third failed
    execution is terminal, so the task enters RETRYING twice, not three
    times. *)
Lemma third_failure_is_terminal :
  run failing_run (new retry_config) = Some failed_state ∧
  statuses failed_state = [Some FAILED] ∧
  Task.retries <$> holders failed_state = [Some 3] ∧
  status_history failed_state =
    [Some PENDING; Some PROCESSING; Some RETRYING; Some PROCESSING;
     Some RETRYING; Some PROCESSING; Some FAILED] ∧
  retrying_entries failed_state = 2%nat ∧
  retrying_entries failed_state ≠ 3%nat.
Proof. vm_compute. split_and!; (reflexivity || discriminate). Qed.

(** C1, amended.  A failed execution first counts the failure in
    [task.retries]; the task then goes to RETRYING, with a timer of
    [retryDelay * 2^(retries-1)] ms and no dead-lettering, when the count is
    below [maxRetries], and otherwise to FAILED, into the DeadLetterQueue when
    that is enabled, with no timer.  For [maxRetries = 3] and a task that
    always fails, with retry timers that run out before the loop wakes, the
    statuses assigned are PENDING, PROCESSING, RETRYING, PROCESSING,
    RETRYING, PROCESSING, FAILED: three executions, two retries, and one
    entry in the DeadLetterQueue.  The task is PROCESSING by the time [add]
    returns, and it keeps RETRYING, not PENDING, while it waits in the queue
    again. *)
Theorem retry_until_maxRetries (q : TaskQueue.t) (task : Task.t)
  (error : JsError) (now : Z) :
  let retries := or_default (Task.retries task) 0 + 1 in
  let counted := Task.set_lastError (Some error)
                   (Task.set_retries (Some retries) task) in
  let retrying := Task.set_status (Some RETRYING) counted in
  let failed := Task.set_failedAt (Some now)
                  (Task.set_status (Some FAILED) counted) in
  let q' := handleTaskError now task error q in
  (retries < QueueConfig.maxRetries (config q) →
     timers q' =
       timers q ++ [(QueueConfig.retryDelay (config q) * 2 ^ (retries - 1),
                     retrying)] ∧
     deadLetterQueue q' = deadLetterQueue q ∧
     totalRetried (metrics q') = totalRetried (metrics q) + 1) ∧
  (QueueConfig.maxRetries (config q) ≤ retries →
     timers q' = timers q ∧
     failedTasks q' = JsMap.set (Task.id task) error (failedTasks q) ∧
     deadLetterQueue q' =
       (if QueueConfig.enableDeadLetter (config q)
        then DeadLetterQueue.add failed (deadLetterQueue q)
        else deadLetterQueue q) ∧
     totalRetried (metrics q') = totalRetried (metrics q)) ∧
  run failing_run (new retry_config) = Some failed_state ∧
  status_history failed_state =
    [Some PENDING; Some PROCESSING; Some RETRYING; Some PROCESSING;
     Some RETRYING; Some PROCESSING; Some FAILED] ∧
  trace failing_run (new retry_config) =
    [[Some PROCESSING]; [Some RETRYING]; [Some RETRYING];
     [Some PROCESSING]; [Some RETRYING]; [Some RETRYING];
     [Some PROCESSING]; [Some FAILED]] ∧
  JsMap.keys (DeadLetterQueue.tasks (deadLetterQueue failed_state))
    = [Some "a"%string] ∧
  DeadLetterQueue.emitted (deadLetterQueue failed_state)
    = [DeadLetterQueue.taskAdded (Some "a"%string)] ∧
  timers failed_state = [] ∧ running failed_state = [] ∧
  PriorityQueue.size (priorityQueue failed_state) = 0 ∧
  retrying_entries failed_state = 2%nat.
Proof.
  intros retries counted retrying failed q'.
  split_and!; try (vm_compute; reflexivity).
  - apply handleTaskError_retry.
  - apply handleTaskError_terminal.
Qed.

Lemma retry_until_maxRetries_witness :
  timers (handleTaskError 5 (Task.literal (Some "a"%string) None) boom
            (new retry_config))
  = [(10, Task.mk (Some "a"%string) None (Some RETRYING) (Some 1) None None
            None None (Some boom) None)].
Proof.
  destruct (retry_until_maxRetries (new retry_config)
              (Task.literal (Some "a"%string) None) boom 5) as [H _].
  destruct H as [H _]; [vm_compute; reflexivity |].
  exact H.
Defined.
End RetryExhaustion.

(** ** TaskQueue: the capacity of its DeadLetterQueue *)

Section DeadLetterCapacityOfQueue.
Import TaskQueue TaskPriority.

Lemma dlq_keys_truthy config0 q :
  reachable config0 q →
  Forall (λ k, truthy_str k = true)
         (JsMap.keys (DeadLetterQueue.tasks (deadLetterQueue q))).
Proof.
  intros Hq.
  pose proof (Inv_reachable has_truthy_id (λ _, True)) as Hinv.
  destruct Hinv with (config := config0) (q := q) as [_ _ _ H4]; try done.
  - unfold has_truthy_id. by intros t1 t2 <- _.
  - apply admitted_id.
  - unfold JsMap.keys. apply Forall_fmap.
    eapply Forall_impl; [exact H4 |].
    intros [k task] [Hk Htask]. simpl in *. by rewrite Hk.
Qed.

(** Four tasks that always fail, added together to a queue with
    [concurrency = 2] and [maxRetries = 3].  The loop is at the ceiling
    after every pair it dispatches and wakes every 50 ms; a pair fails 1 ms
    after its dispatch, and its retry timers (10 ms, then 20 ms) re-enqueue
    it before the next wake-up. *)
Definition fail_pair (t0 : Z) : list Label :=
  [LSettle 0 (Rejected boom) t0; LSettle 0 (Rejected boom) t0].

Definition fail_and_requeue (t0 : Z) : list Label :=
  fail_pair t0 ++ [LTimer 0; LTimer 0].

Definition four_failures : list Label :=
  [LAdd (λ _, mkEnv 1000 "r" None)
     [Task.literal (Some "a"%string) None;
      Task.literal (Some "b"%string) None;
      Task.literal (Some "c"%string) None;
      Task.literal (Some "d"%string) None]]
  ++ fail_and_requeue 1001
  ++ [LRound 1050] ++ fail_and_requeue 1051
  ++ [LRound 1100] ++ fail_and_requeue 1101
  ++ [LRound 1150] ++ fail_and_requeue 1151
  ++ [LRound 1200] ++ fail_pair 1201
  ++ [LRound 1250] ++ fail_pair 1251.

Definition four_failed : TaskQueue.t :=
  default (new retry_config) (run four_failures (new retry_config)).

(** C8.  The DeadLetterQueue a TaskQueue builds has the queue's
    [maxRetries] as its capacity, in the constructor and in every state the
    queue can reach; so once it holds [maxRetries] tasks, the next terminal
    failure (with dead-lettering enabled) evicts the oldest of them, with an
    [overflow] event, before the failed task goes in.  With
    [maxRetries = 3] the capacity is 3, and the fourth dead-lettered task
    evicts the first. *)
Theorem dead_letter_capacity_is_maxRetries (config0 : QueueConfig.t)
  (q : TaskQueue.t) (task : Task.t) (error : JsError) (now : Z) :
  reachable config0 q →
  QueueConfig.enableDeadLetter config0 = true →
  QueueConfig.maxRetries config0 ≤ or_default (Task.retries task) 0 + 1 →
  QueueConfig.maxRetries config0
    ≤ DeadLetterQueue.size (deadLetterQueue q) →
  DeadLetterQueue.tasks (deadLetterQueue q) ≠ [] →
  DeadLetterQueue.maxSize (deadLetterQueue (new config0))
    = QueueConfig.maxRetries config0 ∧
  DeadLetterQueue.maxSize (deadLetterQueue q)
    = QueueConfig.maxRetries config0 ∧
  (∃ k v rest failed,
     DeadLetterQueue.tasks (deadLetterQueue q) = (k, v) :: rest ∧
     Task.status failed = Some FAILED ∧ Task.id failed = Task.id task ∧
     DeadLetterQueue.tasks
       (deadLetterQueue (handleTaskError now task error q))
       = JsMap.set (Task.id task) failed rest ∧
     DeadLetterQueue.emitted
       (deadLetterQueue (handleTaskError now task error q))
       = DeadLetterQueue.emitted (deadLetterQueue q)
         ++ [DeadLetterQueue.overflow k;
             DeadLetterQueue.taskAdded (Task.id task)]) ∧
  (QueueConfig.maxRetries retry_config = 3 ∧
   DeadLetterQueue.maxSize (deadLetterQueue (new retry_config)) = 3 ∧
   run four_failures (new retry_config) = Some four_failed ∧
   JsMap.keys (DeadLetterQueue.tasks (deadLetterQueue four_failed))
     = [Some "b"; Some "c"; Some "d"]%string ∧
   DeadLetterQueue.overflows (deadLetterQueue four_failed)
     = [Some "a"%string]).
Proof.
  intros Hq Hdl Hterminal Hfull Hne.
  pose proof (reachable_config _ _ _ Hq) as [Hcfg Hmax].
  split; [reflexivity |]. split; [exact Hmax |].
  split; [| vm_compute; split_and!; reflexivity].
  destruct (DeadLetterQueue.tasks (deadLetterQueue q)) as [|[k v] rest]
    eqn:Htasks; [done |].
  pose proof (dlq_keys_truthy _ _ Hq) as Hkeys.
  rewrite Htasks in Hkeys. apply Forall_cons in Hkeys as [Hk _].
  destruct (handleTaskError_terminal q task error now)
    as (_ & _ & Hdlq & _); [by rewrite Hcfg |].
  rewrite Hcfg, Hdl in Hdlq. rewrite Hdlq.
  exists k, v, rest,
    (Task.set_failedAt (Some now)
       (Task.set_status (Some FAILED)
          (Task.set_lastError (Some error)
             (Task.set_retries
                (Some (or_default (Task.retries task) 0 + 1)) task)))).
  split; [reflexivity |]. split; [reflexivity |]. split; [reflexivity |].
  unfold DeadLetterQueue.add.
  rewrite (evict_full (deadLetterQueue q) k v rest); [| lia | done | done].
  cbn [DeadLetterQueue.tasks DeadLetterQueue.emitted
       DeadLetterQueue.maxSize].
  split; [reflexivity |]. by rewrite <- app_assoc.
Qed.
Lemma dead_letter_capacity_is_maxRetries_witness :
  DeadLetterQueue.maxSize (deadLetterQueue four_failed) = 3 ∧
  ∃ k v rest failed,
    DeadLetterQueue.tasks (deadLetterQueue four_failed) = (k, v) :: rest ∧
    Task.status failed = Some FAILED ∧
    Task.id failed = Some "e"%string ∧
    DeadLetterQueue.tasks
      (deadLetterQueue
         (handleTaskError 9
            (Task.mk (Some "e"%string) (Some NORMAL) (Some PROCESSING)
               (Some 2) (Some 5) (Some 8) None None (Some boom) None)
            boom four_failed))
      = JsMap.set (Some "e"%string) failed rest ∧
    DeadLetterQueue.emitted
      (deadLetterQueue
         (handleTaskError 9
            (Task.mk (Some "e"%string) (Some NORMAL) (Some PROCESSING)
               (Some 2) (Some 5) (Some 8) None None (Some boom) None)
            boom four_failed))
      = DeadLetterQueue.emitted (deadLetterQueue four_failed)
        ++ [DeadLetterQueue.overflow k;
            DeadLetterQueue.taskAdded (Some "e"%string)].
Proof.
  destruct (dead_letter_capacity_is_maxRetries retry_config four_failed
              (Task.mk (Some "e"%string) (Some NORMAL) (Some PROCESSING)
                 (Some 2) (Some 5) (Some 8) None None (Some boom) None)
              boom 9) as (_ & H2 & H3 & _).
  - apply (reachable_run (λ _, True) retry_config four_failures
             (new retry_config)).
    + constructor.
    + repeat constructor.
    + vm_compute. reflexivity.
  - reflexivity.
  - vm_compute. discriminate.
  - vm_compute. discriminate.
  - vm_compute. discriminate.
  - split; [exact H2 | exact H3].
Defined.
End DeadLetterCapacityOfQueue.

(** ** BackoffStrategy: the exponential sequence *)

Section ExponentialBackoff.
Import BackoffConfig BackoffStrategy.

Definition jitter_off (config : BackoffConfig.t) : Prop :=
  default false (jitter config) = false.

(** The delay returned by call number [S k] of [next()] on a fresh
    strategy. *)
Definition delay_of_call (config : BackoffConfig.t) (random : nat → Q * Q)
  (k : nat) : Q :=
  (next (random k) (next_many k random 0 (new config)).2).1.

Lemma next_exponential random s :
  type (config s) = EXPONENTIAL → jitter_off (config s) →
  next random s =
    (Qmin (initialDelay (config s)
           * the (multiplier (config s)) ^ (attempt s + 1 - 1))
          (maxDelay (config s)),
     mk (config s) (attempt s + 1) (fibSequence s)).
Proof.
  intros Htype Hjit. unfold jitter_off in Hjit. unfold next.
  cbn [config]. rewrite Htype. cbn [config]. rewrite Hjit. reflexivity.
Qed.

Lemma next_many_exponential k random i s :
  type (config s) = EXPONENTIAL → jitter_off (config s) →
  (next_many k random i s).2 =
    mk (config s) (attempt s + Z.of_nat k) (fibSequence s).
Proof.
  revert i s. induction k as [|k IH]; intros i s Htype Hjit.
  - simpl. destruct s. simpl. f_equal. lia.
  - cbn [next_many]. rewrite next_exponential by done.
    specialize (IH (S i) (mk (config s) (attempt s + 1) (fibSequence s))
                  Htype Hjit).
    destruct (next_many k random (S i) _) as [rest s2]. simpl in *.
    subst s2. f_equal. lia.
Qed.

Lemma delay_of_call_exponential config random k :
  type config = EXPONENTIAL → jitter_off config →
  delay_of_call config random k =
    Qmin (initialDelay config * or_defaultQ (multiplier config) 2
                                ^ Z.of_nat k)
         (maxDelay config).
Proof.
  intros Htype Hjit. unfold delay_of_call.
  rewrite next_many_exponential by done.
  rewrite next_exponential by done. cbn.
  by replace (0 + Z.of_nat k + 1 - 1) with (Z.of_nat k) by lia.
Qed.

Lemma delay_of_call_mono config random k :
  type config = EXPONENTIAL → jitter_off config →
  (0 <= initialDelay config)%Q →
  (1 <= or_defaultQ (multiplier config) 2)%Q →
  (delay_of_call config random k <= delay_of_call config random (S k))%Q.
Proof.
  intros Htype Hjit Hinit Hmult.
  rewrite !delay_of_call_exponential by done.
  apply Q.min_le_compat_r, Qmult_le_compat_nonneg.
  - split; [done | apply Qle_refl].
  - split.
    + apply Qpower_0_le. eapply Qle_trans; [| exact Hmult]. done.
    + apply Qpower_le_compat_l; [lia | done].
Qed.

Definition doubling (cap : Q) : BackoffConfig.t :=
  BackoffConfig.mk EXPONENTIAL 1000 cap (Some 2%Q) None None None.

(** With type exponential and jitter off, call number [n] of [next()]
    returns [initialDelay * multiplier^(n-1)] clamped to [maxDelay] (here
    [n = k + 1], and a missing or zero multiplier counts as 2).  With
    [initialDelay = 1000] and [multiplier = 2] the first three calls return
    1000, 2000 and 4000 clamped to [maxDelay], which are 1000, 2000 and 4000
    when [maxDelay] is at least 4000, and the sequence never decreases. *)
Theorem exponential_backoff_sequence (config : BackoffConfig.t)
  (random : nat → Q * Q) (k : nat) (cap : Q) :
  type config = EXPONENTIAL → jitter_off config →
  delay_of_call config random k =
    Qmin (initialDelay config * or_defaultQ (multiplier config) 2
                                ^ Z.of_nat k)
         (maxDelay config) ∧
  (delay_of_call (doubling cap) random 0 == Qmin 1000 cap)%Q ∧
  (delay_of_call (doubling cap) random 1 == Qmin 2000 cap)%Q ∧
  (delay_of_call (doubling cap) random 2 == Qmin 4000 cap)%Q ∧
  ((4000 <= cap)%Q →
     (delay_of_call (doubling cap) random 0 == 1000)%Q ∧
     (delay_of_call (doubling cap) random 1 == 2000)%Q ∧
     (delay_of_call (doubling cap) random 2 == 4000)%Q) ∧
  (delay_of_call (doubling cap) random k
   <= delay_of_call (doubling cap) random (S k))%Q ∧
  (delay_of_call (doubling cap) random k <= cap)%Q.
Proof.
  intros Htype Hjit.
  assert (H0 : delay_of_call (doubling cap) random 0 = Qmin (1000 * 2 ^ 0) cap)
    by (by rewrite delay_of_call_exponential).
  assert (H1 : delay_of_call (doubling cap) random 1 = Qmin (1000 * 2 ^ 1) cap)
    by (by rewrite delay_of_call_exponential).
  assert (H2 : delay_of_call (doubling cap) random 2 = Qmin (1000 * 2 ^ 2) cap)
    by (by rewrite delay_of_call_exponential).
  assert (E0 : (1000 * 2 ^ 0 == 1000)%Q) by reflexivity.
  assert (E1 : (1000 * 2 ^ 1 == 2000)%Q) by reflexivity.
  assert (E2 : (1000 * 2 ^ 2 == 4000)%Q) by reflexivity.
  split; [by apply delay_of_call_exponential |].
  split; [by rewrite H0, E0 |].
  split; [by rewrite H1, E1 |].
  split; [by rewrite H2, E2 |].
  split.
  - intros Hcap. rewrite H0, H1, H2, E0, E1, E2.
    split_and!; apply Q.min_l; (eapply Qle_trans; [| exact Hcap]); done.
  - split.
    + apply delay_of_call_mono; done.
    + rewrite delay_of_call_exponential by done. apply Q.le_min_r.
Qed.

Lemma exponential_backoff_sequence_witness :
  (calculateSequence 3 (λ _, (0, 0)%Q) (new (doubling 30000))).1
    = [Qmin (1000 * 2 ^ 0) 30000; Qmin (1000 * 2 ^ 1) 30000;
       Qmin (1000 * 2 ^ 2) 30000] ∧
  (delay_of_call (doubling 30000) (λ _, (0, 0)%Q) 0 == 1000)%Q ∧
  (delay_of_call (doubling 30000) (λ _, (0, 0)%Q) 1 == 2000)%Q ∧
  (delay_of_call (doubling 30000) (λ _, (0, 0)%Q) 2 == 4000)%Q.
Proof.
  destruct (exponential_backoff_sequence (doubling 30000) (λ _, (0, 0)%Q)
              2 30000) as (_ & _ & _ & _ & H & _).
  - reflexivity.
  - reflexivity.
  - split; [reflexivity |]. apply H. discriminate.
Defined.
End ExponentialBackoff.

Section ExponentialClaim.
Import BackoffConfig BackoffStrategy.

(** The delays of the first three calls on a fresh exponential strategy. *)
Lemma first_three_exponential config random :
  type config = EXPONENTIAL → jitter_off config →
  (next_many 3 random 0 (new config)).1 =
    [delay_of_call config random 0; delay_of_call config random 1;
     delay_of_call config random 2].
Proof.
  intros Htype Hjit. rewrite !delay_of_call_exponential by done.
  cbn [next_many]. rewrite !next_exponential by done. reflexivity.
Qed.

(** C9.  With type exponential and jitter off, call number [n + 1] of
    [next()] on a fresh strategy returns [initialDelay * multiplier^n]
    clamped to [maxDelay], a missing or zero multiplier counting as 2; it
    is never above [maxDelay], and the sequence of calls never decreases
    when [initialDelay] is not negative and the multiplier is at least 1.
    With [initialDelay = 1000] and [multiplier = 2], three successive calls
    return 1000, 2000 and 4000, each clamped to [maxDelay]: these very
    numbers when [maxDelay] is at least 4000; and the sequence never
    decreases, whatever [maxDelay] is. *)
Theorem exponential_delays_of_next (config : BackoffConfig.t)
  (random : nat → Q * Q) (n : nat) (cap : Q) :
  type config = EXPONENTIAL → jitter_off config →
  delay_of_call config random n =
    Qmin (initialDelay config * or_defaultQ (multiplier config) 2
                                ^ Z.of_nat n)
         (maxDelay config) ∧
  (delay_of_call config random n <= maxDelay config)%Q ∧
  ((0 <= initialDelay config)%Q →
   (1 <= or_defaultQ (multiplier config) 2)%Q →
   (delay_of_call config random n <= delay_of_call config random (S n))%Q) ∧
  Forall2 Qeq (next_many 3 random 0 (new (doubling cap))).1
    [Qmin 1000 cap; Qmin 2000 cap; Qmin 4000 cap] ∧
  ((4000 <= cap)%Q →
   Forall2 Qeq (next_many 3 random 0 (new (doubling cap))).1
     [1000; 2000; 4000]%Q) ∧
  (delay_of_call (doubling cap) random n
   <= delay_of_call (doubling cap) random (S n))%Q.
Proof.
  intros Htype Hjit.
  assert (Hthree : Forall2 Qeq (next_many 3 random 0 (new (doubling cap))).1
                     [Qmin 1000 cap; Qmin 2000 cap; Qmin 4000 cap]).
  { rewrite first_three_exponential by done.
    rewrite !delay_of_call_exponential by done.
    repeat constructor; cbn [initialDelay maxDelay multiplier doubling
      or_defaultQ Qeq_bool]; apply Q.min_compat; reflexivity. }
  split_and!.
  - by apply delay_of_call_exponential.
  - rewrite delay_of_call_exponential by done. apply Q.le_min_r.
  - intros Hinit Hmult. by apply delay_of_call_mono.
  - exact Hthree.
  - intros Hcap.
    assert (H1 : (Qmin 1000 cap == 1000)%Q)
      by (apply Q.min_l; eapply Qle_trans; [| exact Hcap]; done).
    assert (H2 : (Qmin 2000 cap == 2000)%Q)
      by (apply Q.min_l; eapply Qle_trans; [| exact Hcap]; done).
    assert (H4 : (Qmin 4000 cap == 4000)%Q) by (by apply Q.min_l).
    inversion Hthree as [|x1 y1 l1 r1 E1 Hrest1]; subst.
    inversion Hrest1 as [|x2 y2 l2 r2 E2 Hrest2]; subst.
    inversion Hrest2 as [|x3 y3 l3 r3 E3 Hrest3]; subst.
    inversion Hrest3; subst.
    repeat constructor.
    + by rewrite E1.
    + by rewrite E2.
    + by rewrite E3.
  - apply delay_of_call_mono; done.
Qed.

Lemma exponential_delays_of_next_witness :
  Forall2 Qeq
    (next_many 3 (λ _, (0, 0)%Q) 0 (new (doubling 30000))).1
    [1000; 2000; 4000]%Q ∧
  (delay_of_call (doubling 30000) (λ _, (0, 0)%Q) 5 <= 30000)%Q.
Proof.
  destruct (exponential_delays_of_next (doubling 30000) (λ _, (0, 0)%Q)
              5 30000) as (_ & Hle & _ & _ & H & _).
  - reflexivity.
  - reflexivity.
  - split; [| exact Hle]. apply H. discriminate.
Defined.
End ExponentialClaim.

(** ** CircuitBreaker: admission, thresholds and timers *)

Section CircuitBreakerProofs.
Import CircuitBreakerConfig CircuitBreaker.

(** Nothing but the constructor writes the configuration. *)
Lemma config_open cb : config (open cb) = config cb.
Proof. unfold open. by case_decide. Qed.

Lemma config_close cb : config (close cb) = config cb.
Proof.
  unfold close, scheduleReset, clearTimeout. case_decide; [done |].
  cbn. by destruct (resetTimer cb).
Qed.

Lemma config_onSuccess now cb : config (onSuccess now cb) = config cb.
Proof.
  unfold onSuccess. cbn. case_decide; [| done].
  destruct (_ >=? _); [| done]. cbn. by rewrite config_close.
Qed.

Lemma config_onFailure now cb : config (onFailure now cb) = config cb.
Proof.
  unfold onFailure. cbn. repeat case_decide; try done.
  - by rewrite config_open.
  - destruct (_ >=? _); [| done]. by rewrite config_open.
Qed.

Lemma config_execute_begin cb : config (execute_begin cb).1 = config cb.
Proof.
  unfold execute_begin. repeat case_decide; try done.
  by destruct (_ >=? _).
Qed.

Lemma state_open cb : state (open cb) = OPEN.
Proof. unfold open. by case_decide. Qed.

Lemma state_close cb : state (close cb) = CLOSED.
Proof.
  unfold close, scheduleReset, clearTimeout. case_decide; [done |].
  cbn. by destruct (resetTimer cb).
Qed.

Lemma state_execute_begin cb : state (execute_begin cb).1 = state cb.
Proof.
  unfold execute_begin. repeat case_decide; try done.
  by destruct (_ >=? _).
Qed.

Lemma state_onSuccess now cb :
  state (onSuccess now cb) =
  match state cb with
  | HALF_OPEN =>
      if consecutiveSuccesses (metrics cb) + 1 >=? successThreshold (config cb)
      then CLOSED else HALF_OPEN
  | s => s
  end.
Proof.
  unfold onSuccess. cbv zeta.
  change (state (emit ?e ?x)) with (state x).
  change (state (with_metrics ?m cb)) with (state cb).
  change (config (with_metrics ?m cb)) with (config cb).
  change (consecutiveSuccesses (metrics (with_metrics ?m cb)))
    with (consecutiveSuccesses (metrics cb) + 1).
  destruct (state cb) eqn:Hs.
  - by rewrite decide_False.
  - by rewrite decide_False.
  - rewrite decide_True by done.
    destruct (_ >=? _); [by rewrite state_close | done].
Qed.

Lemma state_onFailure now cb :
  state (onFailure now cb) =
  match state cb with
  | HALF_OPEN => OPEN
  | OPEN => OPEN
  | CLOSED =>
      if consecutiveFailures (metrics cb) + 1 >=? failureThreshold (config cb)
      then OPEN else CLOSED
  end.
Proof.
  unfold onFailure. cbv zeta.
  change (state (emit ?e ?x)) with (state x).
  change (state (with_metrics ?m cb)) with (state cb).
  change (config (with_metrics ?m cb)) with (config cb).
  change (consecutiveFailures (metrics (with_metrics ?m cb)))
    with (consecutiveFailures (metrics cb) + 1).
  destruct (state cb) eqn:Hs.
  - rewrite decide_False by done. rewrite decide_True by done.
    destruct (_ >=? _); [by rewrite state_open | done].
  - rewrite decide_False by done. by rewrite decide_False.
  - rewrite decide_True by done. by rewrite state_open.
Qed.

Lemma consecutiveFailures_open cb :
  consecutiveFailures (metrics (open cb)) = consecutiveFailures (metrics cb).
Proof. unfold open. by case_decide. Qed.

Lemma consecutiveFailures_onFailure now cb :
  consecutiveFailures (metrics (onFailure now cb)) =
  consecutiveFailures (metrics cb) + 1.
Proof.
  unfold onFailure. cbn. repeat case_decide; cbn;
    rewrite ?consecutiveFailures_open; try done.
  destruct (_ >=? _); cbn; by rewrite ?consecutiveFailures_open.
Qed.

Lemma consecutiveFailures_onSuccess now cb :
  consecutiveFailures (metrics (onSuccess now cb)) = 0.
Proof.
  unfold onSuccess. cbn. case_decide; [| done].
  destruct (_ >=? _); [| done]. cbn.
  unfold close, scheduleReset, clearTimeout. case_decide; [done |].
  cbn. by destruct (resetTimer cb).
Qed.

(** An OPEN breaker turns every call away with the open-circuit error; [fn]
    is not invoked (the world is untouched) and nothing is counted. *)
Theorem open_rejects_without_calling {W T : Type}
  (fn : W → W * (T + JsError)) (now : Z) (cb : CircuitBreaker.t) (w : W) :
  state cb = OPEN →
  execute fn now cb w = (cb, w, inr circuitOpen).
Proof.
  intros Hopen. unfold execute, execute_begin. by rewrite decide_True.
Qed.

Definition bump (w : nat) : nat * (unit + JsError) := (S w, inl tt).

Lemma open_rejects_without_calling_witness :
  execute bump 7 (open (new (CircuitBreakerConfig.mk 5 2 1000 None None None)))
          0%nat
  = (open (new (CircuitBreakerConfig.mk 5 2 1000 None None None)), 0%nat,
     inr (mkError "CircuitBreakerOpenError" "Circuit breaker is OPEN")).
Proof.
  apply (open_rejects_without_calling bump 7
           (open (new (CircuitBreakerConfig.mk 5 2 1000 None None None)))).
  reflexivity.
Defined.

(** *** Consecutive failures *)

Fixpoint fail_times (k : nat) (now : Z) (cb : CircuitBreaker.t)
  : CircuitBreaker.t :=
  match k with
  | O => cb
  | S k' => fail_times k' (now + 1) (onFailure now cb)
  end.

Lemma fail_times_closed k now cb :
  state cb = CLOSED →
  consecutiveFailures (metrics cb) + Z.of_nat k
    < failureThreshold (config cb) →
  state (fail_times k now cb) = CLOSED ∧
  config (fail_times k now cb) = config cb ∧
  consecutiveFailures (metrics (fail_times k now cb)) =
    consecutiveFailures (metrics cb) + Z.of_nat k.
Proof.
  revert now cb. induction k as [|k IH]; intros now cb Hs Hlt.
  - simpl. split_and!; try done. lia.
  - cbn [fail_times].
    destruct (IH (now + 1) (onFailure now cb)) as (H1 & H2 & H3).
    + rewrite state_onFailure, Hs.
      destruct (_ >=? _) eqn:Hge; [lia | done].
    + rewrite consecutiveFailures_onFailure, config_onFailure. lia.
    + rewrite consecutiveFailures_onFailure, config_onFailure in *.
      split_and!; try done. lia.
Qed.

Lemma fail_times_open k now cb :
  state cb = OPEN → state (fail_times k now cb) = OPEN.
Proof.
  revert now cb. induction k as [|k IH]; intros now cb Hs; [done |].
  cbn [fail_times]. apply IH. by rewrite state_onFailure, Hs.
Qed.

Lemma fail_times_app j k now cb :
  fail_times (j + k) now cb =
  fail_times k (now + Z.of_nat j) (fail_times j now cb).
Proof.
  revert now cb. induction j as [|j IH]; intros now cb.
  - simpl. by rewrite Z.add_0_r.
  - cbn [fail_times Nat.add]. rewrite IH. f_equal. lia.
Qed.

Lemma fail_times_state k now cb :
  state cb = CLOSED → consecutiveFailures (metrics cb) = 0 →
  1 ≤ failureThreshold (config cb) →
  state (fail_times k now cb) =
    (if Z.of_nat k <? failureThreshold (config cb) then CLOSED else OPEN).
Proof.
  intros Hs Hc Hth.
  destruct (Z.of_nat k <? failureThreshold (config cb)) eqn:Hk.
  - apply fail_times_closed; [done | lia].
  - set (n := Z.to_nat (failureThreshold (config cb) - 1)).
    replace k with (n + S (k - S n))%nat by lia.
    rewrite fail_times_app. cbn [fail_times].
    destruct (fail_times_closed n now cb) as (H1 & H2 & H3); [done | lia |].
    apply fail_times_open.
    rewrite state_onFailure, H1, H2, H3.
    destruct (_ >=? _) eqn:Hge; [done | lia].
Qed.

(** In a CLOSED breaker whose failure streak is at zero, the breaker stays
    CLOSED for fewer than [failureThreshold] failures in a row and is OPEN
    from the [failureThreshold]-th on; a success in between puts the streak
    back to zero. *)
Theorem failures_open_at_threshold (cb : CircuitBreaker.t) (k : nat)
  (now : Z) :
  state cb = CLOSED → consecutiveFailures (metrics cb) = 0 →
  1 ≤ failureThreshold (config cb) →
  state (fail_times k now cb) =
    (if Z.of_nat k <? failureThreshold (config cb) then CLOSED else OPEN) ∧
  consecutiveFailures (metrics (onSuccess now (fail_times k now cb))) = 0.
Proof.
  intros Hs Hc Hth. split; [| apply consecutiveFailures_onSuccess].
  by apply fail_times_state.
Qed.

Lemma failures_open_at_threshold_witness :
  state (fail_times 4 0 (new (CircuitBreakerConfig.mk 5 2 1000 None None None)))
    = CLOSED ∧
  state (fail_times 5 0 (new (CircuitBreakerConfig.mk 5 2 1000 None None None)))
    = OPEN.
Proof.
  split.
  - apply (failures_open_at_threshold
             (new (CircuitBreakerConfig.mk 5 2 1000 None None None)) 4 0);
      (reflexivity || (simpl; lia)).
  - apply (failures_open_at_threshold
             (new (CircuitBreakerConfig.mk 5 2 1000 None None None)) 5 0);
      (reflexivity || (simpl; lia)).
Defined.
End CircuitBreakerProofs.

(** *** Probing in HALF_OPEN *)

Section CircuitBreakerProbing.
Import CircuitBreakerConfig CircuitBreaker.

(** No timer fires during the sequence. *)
Definition no_timer (ls : list Label) : Prop :=
  Forall (λ l, match l with LTimer _ => False | _ => True end) ls.

Lemma halfOpenAttempts_onSuccess now cb :
  state (onSuccess now cb) = HALF_OPEN →
  halfOpenAttempts (onSuccess now cb) = halfOpenAttempts cb.
Proof.
  unfold onSuccess. cbv zeta.
  change (state (emit ?e ?x)) with (state x).
  change (halfOpenAttempts (emit ?e ?x)) with (halfOpenAttempts x).
  case_decide; [| done].
  destruct (_ >=? _); [| done]. by rewrite state_close.
Qed.

Lemma probes_outside_half_open ls cb :
  state cb ≠ HALF_OPEN → no_timer ls → probes_admitted ls cb = 0%nat.
Proof.
  intros Hs Hnt. revert cb Hs.
  induction Hnt as [|l ls Hl _ IH]; intros cb Hs; [done |].
  destruct l as [|now|now|h]; [| | | done]; cbn [probes_admitted step].
  - rewrite IH by (by rewrite state_execute_begin).
    by destruct (state cb), (execute_begin cb).2.
  - rewrite IH; [done |]. rewrite state_onSuccess. by destruct (state cb).
  - rewrite IH; [done |]. rewrite state_onFailure.
    destruct (state cb); try done. by destruct (_ >=? _).
Qed.

Lemma probes_bounded ls cb :
  state cb = HALF_OPEN → no_timer ls →
  Z.of_nat (probes_admitted ls cb)
  ≤ Z.max 0 (the (halfOpenMaxAttempts (config cb)) - halfOpenAttempts cb).
Proof.
  intros Hs Hnt. revert cb Hs.
  induction Hnt as [|l ls Hl Hnt IH]; intros cb Hs; [simpl; lia |].
  destruct l as [|now|now|h]; [| | | done]; cbn [probes_admitted step].
  - unfold execute_begin. rewrite decide_False by (by rewrite Hs).
    rewrite decide_True by done. rewrite Hs.
    destruct (_ >=? _) eqn:Hge; cbn [fst snd].
    + specialize (IH cb Hs). lia.
    + specialize (IH (with_metrics
                        (mkMetrics (totalRequests (metrics cb) + 1)
                           (successfulRequests (metrics cb))
                           (failedRequests (metrics cb))
                           (consecutiveFailures (metrics cb))
                           (consecutiveSuccesses (metrics cb))
                           (lastFailureTime (metrics cb))
                           (lastSuccessTime (metrics cb))
                           (stateChanges (metrics cb)))
                        (with_halfOpenAttempts (halfOpenAttempts cb + 1) cb))
                    Hs).
      cbn in IH. cbn. lia.
  - destruct (decide (state (onSuccess now cb) = HALF_OPEN)) as [Hh|Hh].
    + specialize (IH _ Hh).
      rewrite config_onSuccess, (halfOpenAttempts_onSuccess _ _ Hh) in IH.
      cbn [Nat.add]. lia.
    + rewrite (probes_outside_half_open ls _ Hh Hnt). cbn [Nat.add]. lia.
  - rewrite (probes_outside_half_open ls (onFailure now cb)); [| | done].
    + cbn [Nat.add]. lia.
    + by rewrite state_onFailure, Hs.
Qed.

(** From the moment the open timer puts the breaker into HALF_OPEN until
    the next timer fires, at most [halfOpenMaxAttempts] of the calls that
    arrive while the breaker is HALF_OPEN are let through, however
    admissions and settlements interleave.  Calls that arrive after enough
    successes have closed the breaker again are not counted: a CLOSED
    breaker admits without limit.  The default of a missing or zero
    [halfOpenMaxAttempts] is 3. *)
Theorem half_open_probe_limit (cb : CircuitBreaker.t) (ls : list Label) :
  no_timer ls →
  0 ≤ the (halfOpenMaxAttempts (config cb)) →
  Z.of_nat (probes_admitted ls (halfOpen cb))
  ≤ the (halfOpenMaxAttempts (config cb)) ∧
  the (halfOpenMaxAttempts
         (config (new (CircuitBreakerConfig.mk 5 2 1000 None None None)))) = 3.
Proof.
  intros Hnt Hmax. split; [| done].
  pose proof (probes_bounded ls (halfOpen cb) eq_refl Hnt) as H.
  cbn in H. lia.
Qed.

Definition probing_breaker : CircuitBreaker.t :=
  halfOpen (new (CircuitBreakerConfig.mk 5 4 1000 None (Some 2) None)).

Lemma half_open_probe_limit_witness :
  Z.of_nat (probes_admitted [LAdmit; LAdmit; LAdmit; LAdmit]
              probing_breaker) ≤ 2 ∧
  probes_admitted [LAdmit; LAdmit; LAdmit; LAdmit] probing_breaker = 2%nat.
Proof.
  split; [| reflexivity].
  apply (half_open_probe_limit
           (new (CircuitBreakerConfig.mk 5 4 1000 None (Some 2) None))
           [LAdmit; LAdmit; LAdmit; LAdmit]).
  - repeat constructor.
  - simpl. lia.
Defined.

(** *** Closing from HALF_OPEN *)

Fixpoint succeed_times (k : nat) (now : Z) (cb : CircuitBreaker.t)
  : CircuitBreaker.t :=
  match k with
  | O => cb
  | S k' => succeed_times k' (now + 1) (onSuccess now cb)
  end.

Lemma consecutiveSuccesses_onSuccess now cb :
  consecutiveSuccesses (metrics (onSuccess now cb)) =
  consecutiveSuccesses (metrics cb) + 1.
Proof.
  unfold onSuccess. cbv zeta.
  change (metrics (emit ?e ?x)) with (metrics x).
  case_decide; [| done].
  destruct (_ >=? _); [| done].
  unfold close, scheduleReset, clearTimeout.
  rewrite decide_False by (intros Hc; cbn in *; congruence).
  cbn. by destruct (resetTimer cb).
Qed.

Lemma succeed_times_half_open k now cb :
  state cb = HALF_OPEN →
  consecutiveSuccesses (metrics cb) + Z.of_nat k
    < successThreshold (config cb) →
  state (succeed_times k now cb) = HALF_OPEN ∧
  config (succeed_times k now cb) = config cb ∧
  consecutiveSuccesses (metrics (succeed_times k now cb)) =
    consecutiveSuccesses (metrics cb) + Z.of_nat k.
Proof.
  revert now cb. induction k as [|k IH]; intros now cb Hs Hlt.
  - simpl. split_and!; try done. lia.
  - cbn [succeed_times].
    destruct (IH (now + 1) (onSuccess now cb)) as (H1 & H2 & H3).
    + rewrite state_onSuccess, Hs.
      destruct (_ >=? _) eqn:Hge; [lia | done].
    + rewrite consecutiveSuccesses_onSuccess, config_onSuccess. lia.
    + rewrite consecutiveSuccesses_onSuccess, config_onSuccess in *.
      split_and!; try done. lia.
Qed.

Lemma succeed_times_closed k now cb :
  state cb = CLOSED →
  state (succeed_times k now cb) = CLOSED ∧
  consecutiveFailures (metrics (succeed_times k now cb)) =
    (if decide (k = 0%nat) then consecutiveFailures (metrics cb) else 0).
Proof.
  revert now cb. induction k as [|k IH]; intros now cb Hs; [done |].
  cbn [succeed_times].
  destruct (IH (now + 1) (onSuccess now cb)) as [H1 H2].
  { by rewrite state_onSuccess, Hs. }
  split; [done |]. rewrite H2, consecutiveFailures_onSuccess.
  by destruct (decide (k = 0%nat)).
Qed.

Lemma succeed_times_app j k now cb :
  succeed_times (j + k) now cb =
  succeed_times k (now + Z.of_nat j) (succeed_times j now cb).
Proof.
  revert now cb. induction j as [|j IH]; intros now cb.
  - simpl. by rewrite Z.add_0_r.
  - cbn [succeed_times Nat.add]. rewrite IH. f_equal. lia.
Qed.

Lemma halfOpenAttempts_close cb :
  state cb ≠ CLOSED → halfOpenAttempts (close cb) = 0.
Proof.
  intros Hs. unfold close. rewrite decide_False by done.
  unfold scheduleReset, clearTimeout. cbn. by destruct (resetTimer cb).
Qed.

Lemma succeed_times_state k now cb :
  state cb = HALF_OPEN → consecutiveSuccesses (metrics cb) = 0 →
  1 ≤ successThreshold (config cb) →
  state (succeed_times k now cb) =
    (if Z.of_nat k <? successThreshold (config cb)
     then HALF_OPEN else CLOSED) ∧
  (successThreshold (config cb) ≤ Z.of_nat k →
   consecutiveFailures (metrics (succeed_times k now cb)) = 0).
Proof.
  intros Hs Hc Hth.
  destruct (Z.of_nat k <? successThreshold (config cb)) eqn:Hk.
  - split; [| lia]. apply succeed_times_half_open; [done | lia].
  - set (n := Z.to_nat (successThreshold (config cb) - 1)).
    replace k with (n + S (k - S n))%nat by lia.
    rewrite succeed_times_app. cbn [succeed_times].
    destruct (succeed_times_half_open n now cb) as (H1 & H2 & H3);
      [done | lia |].
    destruct (succeed_times_closed (k - S n) (now + Z.of_nat n + 1)
                (onSuccess (now + Z.of_nat n) (succeed_times n now cb)))
      as [G1 G2].
    { rewrite state_onSuccess, H1, H2, H3.
      destruct (_ >=? _) eqn:Hge; [done | lia]. }
    split; [done |]. intros _. rewrite G2.
    destruct (decide _); [| done]. apply consecutiveFailures_onSuccess.
Qed.

(** A breaker that has just gone HALF_OPEN stays there for fewer than
    [successThreshold] successes in a row and is CLOSED from the
    [successThreshold]-th on, with the failure streak at zero. *)
Theorem successes_close_at_threshold (cb : CircuitBreaker.t) (k : nat)
  (now : Z) :
  state cb = HALF_OPEN → consecutiveSuccesses (metrics cb) = 0 →
  1 ≤ successThreshold (config cb) →
  state (succeed_times k now cb) =
    (if Z.of_nat k <? successThreshold (config cb)
     then HALF_OPEN else CLOSED) ∧
  (successThreshold (config cb) ≤ Z.of_nat k →
   consecutiveFailures (metrics (succeed_times k now cb)) = 0).
Proof. apply succeed_times_state. Qed.

Lemma successes_close_at_threshold_witness :
  state (succeed_times 1 0 probing_breaker) = HALF_OPEN ∧
  state (succeed_times 4 0 probing_breaker) = CLOSED.
Proof.
  split.
  - apply (successes_close_at_threshold probing_breaker 1 0);
      (reflexivity || (simpl; lia)).
  - apply (successes_close_at_threshold probing_breaker 4 0);
      (reflexivity || (simpl; lia)).
Defined.

(** *** A HALF_OPEN breaker that cannot close *)

(** One call of [execute] whose [fn] counts its invocations and succeeds. *)
Definition probe (now : Z) (acc : CircuitBreaker.t * nat)
  : CircuitBreaker.t * nat :=
  (execute bump now acc.1 acc.2).1.

Fixpoint probe_times (k : nat) (now : Z) (acc : CircuitBreaker.t * nat)
  : CircuitBreaker.t * nat :=
  match k with
  | O => acc
  | S k' => probe_times k' (now + 1) (probe now acc)
  end.

Lemma probe_half_open now cb w :
  state cb = HALF_OPEN →
  consecutiveSuccesses (metrics cb) = halfOpenAttempts cb →
  the (halfOpenMaxAttempts (config cb)) < successThreshold (config cb) →
  let cb' := (probe now (cb, w)).1 in
  let w' := (probe now (cb, w)).2 in
  state cb' = HALF_OPEN ∧ config cb' = config cb ∧
  consecutiveSuccesses (metrics cb') = halfOpenAttempts cb' ∧
  if halfOpenAttempts cb >=? the (halfOpenMaxAttempts (config cb))
  then cb' = cb ∧ w' = w
  else halfOpenAttempts cb' = halfOpenAttempts cb + 1 ∧ w' = S w.
Proof.
  intros Hs Hcs Hlt. unfold probe, execute, execute_begin. cbn [fst snd].
  rewrite decide_False by (by rewrite Hs). rewrite decide_True by done.
  destruct (_ >=? _) eqn:Hge; cbn [fst snd bump].
  - done.
  - set (cb1 := with_metrics _ _).
    assert (Hs1 : state cb1 = HALF_OPEN) by done.
    assert (Hstay : state (onSuccess now cb1) = HALF_OPEN).
    { rewrite state_onSuccess, Hs1. cbn. rewrite Hcs.
      destruct (halfOpenAttempts cb + 1 >=? successThreshold (config cb))
        eqn:Hge2; [lia | done]. }
    split_and!; try done.
    + by rewrite config_onSuccess.
    + rewrite consecutiveSuccesses_onSuccess,
        (halfOpenAttempts_onSuccess _ _ Hstay). cbn. lia.
    + by rewrite (halfOpenAttempts_onSuccess _ _ Hstay).
Qed.

Lemma probe_times_half_open k now cb w :
  state cb = HALF_OPEN →
  consecutiveSuccesses (metrics cb) = halfOpenAttempts cb →
  halfOpenAttempts cb ≤ the (halfOpenMaxAttempts (config cb)) →
  the (halfOpenMaxAttempts (config cb)) < successThreshold (config cb) →
  let cb' := (probe_times k now (cb, w)).1 in
  let w' := (probe_times k now (cb, w)).2 in
  state cb' = HALF_OPEN ∧ config cb' = config cb ∧
  halfOpenAttempts cb' =
    Z.min (halfOpenAttempts cb + Z.of_nat k)
          (the (halfOpenMaxAttempts (config cb))) ∧
  Z.of_nat w' = Z.of_nat w + (halfOpenAttempts cb' - halfOpenAttempts cb).
Proof.
  revert now cb w. induction k as [|k IH]; intros now cb w Hs Hcs Hle Hlt.
  - cbn. split_and!; try done; lia.
  - cbn [probe_times].
    pose proof (probe_half_open now cb w Hs Hcs Hlt) as (P1 & P2 & P3 & P4).
    destruct (probe now (cb, w)) as [cb1 w1]. cbn [fst snd] in *.
    destruct (halfOpenAttempts cb >=? _) eqn:Hge.
    + destruct P4 as [-> ->].
      destruct (IH (now + 1) cb w Hs Hcs Hle Hlt) as (I1 & I2 & I3 & I4).
      split_and!; try done; lia.
    + destruct P4 as [P4 ->].
      destruct (IH (now + 1) cb1 (S w) P1 P3) as (I1 & I2 & I3 & I4).
      { rewrite P2. lia. }
      { by rewrite P2. }
      rewrite P2 in *. split_and!; try done; lia.
Qed.

(** When [successThreshold] exceeds [halfOpenMaxAttempts], probing can never
    close the breaker: after the open timer has put it into HALF_OPEN, calls
    that all succeed leave it HALF_OPEN; only the first
    [halfOpenMaxAttempts] of them reach [fn], and every later one is turned
    away with the HALF_OPEN limit error. *)
Theorem half_open_cannot_close (cb : CircuitBreaker.t) (k : nat) (now : Z) :
  0 ≤ the (halfOpenMaxAttempts (config cb)) →
  the (halfOpenMaxAttempts (config cb)) < successThreshold (config cb) →
  let cb' := (probe_times k now (halfOpen cb, 0%nat)).1 in
  let invoked := (probe_times k now (halfOpen cb, 0%nat)).2 in
  state cb' = HALF_OPEN ∧
  Z.of_nat invoked = Z.min (Z.of_nat k) (the (halfOpenMaxAttempts (config cb))) ∧
  (the (halfOpenMaxAttempts (config cb)) ≤ Z.of_nat k →
   execute bump (now + Z.of_nat k) cb' invoked
   = (cb', invoked, inr halfOpenLimit)).
Proof.
  intros Hmax Hlt cb' invoked.
  destruct (probe_times_half_open k now (halfOpen cb) 0%nat)
    as (H1 & H2 & H3 & H4); try done.
  fold cb' in H1, H2, H3, H4. fold invoked in H4.
  change (halfOpenAttempts (halfOpen cb)) with 0 in *.
  change (config (halfOpen cb)) with (config cb) in *.
  split_and!; [done | lia |].
  intros Hk. unfold execute, execute_begin.
  rewrite decide_False by (by rewrite H1). rewrite decide_True by done.
  rewrite H2, H3. destruct (_ >=? _) eqn:Hge; [done | lia].
Qed.

Definition default_breaker : CircuitBreaker.t :=
  new (CircuitBreakerConfig.mk 5 5 1000 None None None).

Lemma half_open_cannot_close_witness :
  state (probe_times 10 0 (halfOpen default_breaker, 0%nat)).1 = HALF_OPEN ∧
  (probe_times 10 0 (halfOpen default_breaker, 0%nat)).2 = 3%nat.
Proof.
  destruct (half_open_cannot_close default_breaker 10 0) as (H1 & _ & _).
  - vm_compute. discriminate.
  - vm_compute. reflexivity.
  - split; [exact H1 |]. vm_compute. reflexivity.
Defined.
End CircuitBreakerProbing.

(** *** The open timer *)

Section CircuitBreakerTimers.
Import CircuitBreakerConfig CircuitBreaker.

Inductive cb_reachable (config0 : CircuitBreakerConfig.t)
  : CircuitBreaker.t → Prop :=
  | cb_reachable_new : cb_reachable config0 (new config0)
  | cb_reachable_step l cb cb' :
      cb_reachable config0 cb → step l cb = Some cb' →
      cb_reachable config0 cb'.

Definition is_open_timer (e : nat * Callback) : bool :=
  match e.2 with ToHalfOpen => true | ResetCounters => false end.

(** The number of pending timers that will run [halfOpen]. *)
Definition open_timers (cb : CircuitBreaker.t) : nat :=
  length (List.filter is_open_timer (pending cb)).

Lemma get_delete_ne {V} (h h0 : nat) (m : list (nat * V)) :
  h ≠ h0 → JsMap.get h (JsMap.delete h0 m) = JsMap.get h m.
Proof.
  intros Hne. induction m as [|[k v] m IH]; simpl; [done |].
  destruct (decide (h0 = k)) as [->|Hk]; simpl.
  - by rewrite decide_False.
  - by rewrite IH.
Qed.

Lemma get_fresh {V} (h bound : nat) (m : list (nat * V)) :
  Forall (λ e, (e.1 < bound)%nat) m → (bound ≤ h)%nat → JsMap.get h m = None.
Proof.
  intros Hall Hh. induction Hall as [|[k v] m Hk _ IH]; simpl; [done |].
  simpl in Hk. rewrite decide_False by lia. done.
Qed.

Lemma get_delete_eq {V} (h : nat) (m : list (nat * V)) :
  NoDup (JsMap.keys m) → JsMap.get h (JsMap.delete h m) = None.
Proof.
  unfold JsMap.keys. induction m as [|[k v] m IH]; simpl; [done |].
  intros Hnd. apply NoDup_cons in Hnd as [Hk Hnd].
  destruct (decide (h = k)) as [->|Hne]; simpl.
  - apply get_None_notin. done.
  - rewrite ?decide_False by done. by apply IH.
Qed.

Lemma get_snoc {V} (h k : nat) (v : V) (m : list (nat * V)) :
  JsMap.get h (m ++ [(k, v)]) =
  match JsMap.get h m with
  | Some x => Some x
  | None => if decide (h = k) then Some v else None
  end.
Proof.
  induction m as [|[k' v'] m IH]; simpl; [done |].
  by destruct (decide (h = k')).
Qed.

Lemma keys_delete_sub {V} (h : nat) (m : list (nat * V)) :
  JsMap.keys (JsMap.delete h m) `sublist_of` JsMap.keys m.
Proof.
  unfold JsMap.keys. induction m as [|[k v] m IH]; simpl; [done |].
  destruct (decide (h = k)); simpl.
  - by apply sublist_cons.
  - by apply sublist_skip.
Qed.

Lemma filter_pos h (m : list (nat * Callback)) :
  JsMap.get h m = Some ToHalfOpen →
  (0 < length (List.filter is_open_timer m))%nat.
Proof.
  induction m as [|[k v] m IH]; simpl; [done |].
  destruct (decide (h = k)) as [->|Hne].
  - intros [= ->]. unfold is_open_timer. simpl. lia.
  - intros Hg. specialize (IH Hg).
    destruct (is_open_timer (k, v)); simpl; lia.
Qed.

Lemma filter_delete h (m : list (nat * Callback)) :
  length (List.filter is_open_timer (JsMap.delete h m)) =
  (length (List.filter is_open_timer m)
   - match JsMap.get h m with Some ToHalfOpen => 1 | _ => 0 end)%nat.
Proof.
  induction m as [|[k v] m IH]; [done |].
  cbn [JsMap.delete JsMap.get].
  destruct (decide (h = k)) as [->|Hne]; destruct v;
    cbn [List.filter is_open_timer snd length]; rewrite ?IH; try lia.
  destruct (JsMap.get h m) as [[|]|] eqn:Hg; try lia.
  pose proof (filter_pos h m Hg). lia.
Qed.

Lemma filter_snoc (m : list (nat * Callback)) e :
  length (List.filter is_open_timer (m ++ [e])) =
  (length (List.filter is_open_timer m)
   + if is_open_timer e then 1 else 0)%nat.
Proof.
  rewrite List.filter_app, length_app. simpl.
  by destruct (is_open_timer e).
Qed.

(** What the timers of a breaker look like in every state it can reach. *)
Record timers_ok (cb : CircuitBreaker.t) : Prop := mkTimersOk {
  ok_count : open_timers cb = if decide (state cb = OPEN) then 1%nat else 0%nat;
  ok_bound : Forall (λ e, (e.1 < nextHandle cb)%nat) (pending cb);
  ok_nodup : NoDup (JsMap.keys (pending cb));
  ok_reset : ∀ h, resetTimer cb = Some h →
             (h < nextHandle cb)%nat ∧
             JsMap.get h (pending cb) ≠ Some ToHalfOpen;
  ok_open : state cb = OPEN →
            ∃ h, openTimer cb = Some h ∧
                 JsMap.get h (pending cb) = Some ToHalfOpen
}.

(** The part of a breaker the timers depend on. *)
Definition same_timers (cb cb' : CircuitBreaker.t) : Prop :=
  state cb' = state cb ∧ pending cb' = pending cb ∧
  nextHandle cb' = nextHandle cb ∧ resetTimer cb' = resetTimer cb ∧
  openTimer cb' = openTimer cb.

Lemma timers_ok_same cb cb' : same_timers cb cb' → timers_ok cb → timers_ok cb'.
Proof.
  intros (E1 & E2 & E3 & E4 & E5) [H1 H2 H3 H4 H5].
  split; unfold open_timers in *; rewrite ?E1, ?E2, ?E3, ?E4, ?E5; done.
Qed.

Lemma timers_ok_open cb : timers_ok cb → timers_ok (open cb).
Proof.
  intros Hok. unfold open. case_decide as Hs; [done |].
  destruct Hok as [H1 H2 H3 H4 H5]. rewrite decide_False in H1 by done.
  split; unfold open_timers in *; cbn.
  - rewrite filter_snoc, H1; try done.
  - apply Forall_app. split.
    + eapply Forall_impl; [exact H2 |]. intros e He. simpl in *. lia.
    + apply Forall_singleton. simpl. lia.
  - unfold JsMap.keys in *. rewrite fmap_app. simpl.
    apply NoDup_app. split_and!; [done | | apply NoDup_singleton].
    intros k Hk Hk'. apply list_elem_of_singleton in Hk'. subst k.
    apply list_elem_of_fmap in Hk as ([k v] & Hkv & Hin). simpl in Hkv.
    rewrite Forall_forall in H2. specialize (H2 _ Hin). simpl in H2. lia.
  - intros h Hh. destruct (H4 h Hh) as [Hlt Hget]. split; [lia |].
    rewrite get_snoc. destruct (JsMap.get h (pending cb)); [done |].
    rewrite decide_False by lia. done.
  - intros _. exists (nextHandle cb). split; [done |].
    rewrite get_snoc, (get_fresh _ (nextHandle cb)) by (done || lia).
    by rewrite decide_True.
Qed.

Lemma timers_ok_close cb :
  state cb ≠ OPEN → timers_ok cb → timers_ok (close cb).
Proof.
  intros Hs Hok. unfold close. case_decide as Hc; [done |].
  destruct Hok as [H1 H2 H3 H4 H5]. rewrite decide_False in H1 by done.
  unfold scheduleReset, arm_resetTimer, clearTimeout.
  cbn [resetTimer emit with_halfOpenAttempts with_metrics with_state].
  assert (Hdel : ∀ handle,
    let m := match handle with
             | Some h => JsMap.delete h (pending cb)
             | None => pending cb
             end in
    length (List.filter is_open_timer m) = 0%nat ∧
    Forall (λ e, (e.1 < nextHandle cb)%nat) m ∧ NoDup (JsMap.keys m)).
  { intros [h|]; cbn; [| done]. split_and!.
    - rewrite filter_delete. unfold open_timers in H1. lia.
    - by apply Forall_map_delete.
    - eapply sublist_NoDup; [exact H3 | apply keys_delete_sub]. }
  specialize (Hdel (resetTimer cb)).
  destruct (resetTimer cb) as [h|]; cbn in *;
    destruct Hdel as (D1 & D2 & D3).
  all: split; unfold open_timers; cbn.
  all: try (rewrite filter_snoc, D1; done).
  all: try (apply Forall_app; split;
            [eapply Forall_impl; [exact D2 |]; intros e He; simpl in *; lia
            | apply Forall_singleton; simpl; lia]).
  all: try (unfold JsMap.keys in *; rewrite fmap_app; simpl;
            apply NoDup_app; split_and!; [done | | apply NoDup_singleton];
            intros k Hk Hk'; apply list_elem_of_singleton in Hk'; subst k;
            apply list_elem_of_fmap in Hk as ([k v] & Hkv & Hin);
            simpl in Hkv; rewrite Forall_forall in D2;
            specialize (D2 _ Hin); simpl in D2; lia).
  all: try (intros h' [= <-]; split; [lia |];
            rewrite get_snoc, (get_fresh _ (nextHandle cb)) by (done || lia);
            by rewrite decide_True).
  all: done.
Qed.
Lemma timers_ok_execute_begin cb : timers_ok cb → timers_ok (execute_begin cb).1.
Proof.
  apply timers_ok_same. unfold execute_begin.
  repeat case_decide; try done. by destruct (_ >=? _).
Qed.

Lemma timers_ok_onSuccess now cb : timers_ok cb → timers_ok (onSuccess now cb).
Proof.
  intros Hok. unfold onSuccess. cbv zeta.
  set (cb1 := with_metrics _ cb).
  assert (Hok1 : timers_ok cb1) by (by eapply timers_ok_same; [| exact Hok]).
  case_decide as Hs.
  - destruct (_ >=? _).
    + eapply timers_ok_same; [| apply (timers_ok_close cb1)]; try done.
      by rewrite Hs.
    + by eapply timers_ok_same; [| exact Hok1].
  - by eapply timers_ok_same; [| exact Hok1].
Qed.

Lemma timers_ok_onFailure now cb : timers_ok cb → timers_ok (onFailure now cb).
Proof.
  intros Hok. unfold onFailure. cbv zeta.
  set (cb1 := with_metrics _ cb).
  assert (Hok1 : timers_ok cb1) by (by eapply timers_ok_same; [| exact Hok]).
  case_decide as Hs.
  - eapply timers_ok_same; [| apply (timers_ok_open cb1)]; done.
  - case_decide as Hc.
    + destruct (_ >=? _).
      * eapply timers_ok_same; [| apply (timers_ok_open cb1)]; done.
      * by eapply timers_ok_same; [| exact Hok1].
    + by eapply timers_ok_same; [| exact Hok1].
Qed.

Lemma timers_ok_timer_fire h cb cb' :
  timers_ok cb → timer_fire h cb = Some cb' →
  timers_ok cb' ∧
  (JsMap.get h (pending cb) = Some ToHalfOpen →
   state cb = OPEN ∧ state cb' = HALF_OPEN ∧ halfOpenAttempts cb' = 0 ∧
   consecutiveSuccesses (metrics cb') = 0).
Proof.
  intros [H1 H2 H3 H4 H5]. unfold timer_fire.
  destruct (JsMap.get h (pending cb)) as [callback|] eqn:Hget; [| done].
  assert (Hb : Forall (λ e, (e.1 < nextHandle cb)%nat)
                 (JsMap.delete h (pending cb)))
    by (by apply Forall_map_delete).
  assert (Hn : NoDup (JsMap.keys (JsMap.delete h (pending cb))))
    by (eapply sublist_NoDup; [exact H3 | apply keys_delete_sub]).
  assert (Hr : ∀ h', resetTimer cb = Some h' →
               (h' < nextHandle cb)%nat ∧
               JsMap.get h' (JsMap.delete h (pending cb)) ≠ Some ToHalfOpen).
  { intros h' Hh'. destruct (H4 h' Hh') as [Hlt Hne]. split; [done |].
    destruct (decide (h' = h)) as [->|Hd].
    - by rewrite get_delete_eq.
    - by rewrite get_delete_ne. }
  destruct callback.
  - assert (Hs : state cb = OPEN).
    { destruct (decide (state cb = OPEN)) as [|Hno]; [done |].
      pose proof (filter_pos h _ Hget). unfold open_timers in H1. lia. }
    rewrite decide_True in H1 by done.
    intros [= <-]. split; [| done].
    split; unfold open_timers in *; cbn; try done.
    rewrite filter_delete, Hget, H1. done.
  - intros Hcb'. split; [| done].
    assert (Hcount : open_timers
              (mk (config cb) (state cb) (metrics cb) (openTimer cb)
                 (resetTimer cb) (halfOpenAttempts cb)
                 (JsMap.delete h (pending cb)) (nextHandle cb) (emitted cb))
              = open_timers cb).
    { unfold open_timers. cbn. rewrite filter_delete, Hget. lia. }
    assert (Hok : timers_ok
              (mk (config cb) (state cb) (metrics cb) (openTimer cb)
                 (resetTimer cb) (halfOpenAttempts cb)
                 (JsMap.delete h (pending cb)) (nextHandle cb) (emitted cb))).
    { split; try done.
      - by rewrite Hcount.
      - cbn. intros Hs. destruct (H5 Hs) as (h' & Ho & Hg').
        exists h'. split; [done |]. rewrite get_delete_ne; [done |].
        intros ->. congruence. }
    cbn in Hcb'. case_decide; simplify_eq; [| done].
    by eapply timers_ok_same; [| exact Hok].
Qed.

Lemma timers_ok_reachable config0 cb : cb_reachable config0 cb → timers_ok cb.
Proof.
  induction 1 as [|l cb cb' _ IH Hstep].
  - split; try done. constructor.
  - destruct l as [|now|now|h]; simpl in Hstep; simplify_eq.
    + by apply timers_ok_execute_begin.
    + by apply timers_ok_onSuccess.
    + by apply timers_ok_onFailure.
    + by destruct (timers_ok_timer_fire h cb cb' IH Hstep).
Qed.

(** In every state a breaker reaches through calls, settlements and timers,
    it is OPEN exactly when one timer to HALF_OPEN is pending, and there is
    never more than one: an OPEN breaker always gets its probe phase, and
    no stale timer reopens the probe phase of a breaker that is not OPEN.
    When that timer fires, the breaker is HALF_OPEN with its probe count and
    success streak at zero; [reset] leaves none pending. *)
Theorem open_iff_timer_pending (config0 : CircuitBreakerConfig.t)
  (cb : CircuitBreaker.t) :
  cb_reachable config0 cb →
  open_timers cb = (if decide (state cb = OPEN) then 1%nat else 0%nat) ∧
  (state cb = OPEN →
   ∃ h cb', openTimer cb = Some h ∧ timer_fire h cb = Some cb' ∧
            state cb' = HALF_OPEN ∧ halfOpenAttempts cb' = 0 ∧
            consecutiveSuccesses (metrics cb') = 0 ∧ open_timers cb' = 0%nat) ∧
  (∀ h cb', timer_fire h cb = Some cb' → state cb' = HALF_OPEN →
            state cb = OPEN ∨ state cb = HALF_OPEN) ∧
  state (reset cb) = CLOSED ∧ open_timers (reset cb) = 0%nat.
Proof.
  intros Hreach. pose proof (timers_ok_reachable _ _ Hreach) as Hok.
  pose proof Hok as [H1 H2 H3 H4 H5]. split_and!.
  - done.
  - intros Hs. destruct (H5 Hs) as (h & Ho & Hg).
    assert (Hfire : ∃ cb', timer_fire h cb = Some cb')
      by (unfold timer_fire; rewrite Hg; eauto).
    destruct Hfire as [cb' Hfire].
    destruct (timers_ok_timer_fire h cb cb' Hok Hfire) as [[G1 _ _ _ _] G2].
    destruct (G2 Hg) as (_ & E1 & E2 & E3).
    exists h, cb'. split_and!; try done.
    by rewrite G1, decide_False by (by rewrite E1).
  - intros h cb' Hfire Hs'.
    destruct (JsMap.get h (pending cb)) as [[|]|] eqn:Hg.
    + destruct (timers_ok_timer_fire h cb cb' Hok Hfire) as [_ G2].
      left. by destruct (G2 Hg).
    + right. unfold timer_fire in Hfire. rewrite Hg in Hfire. cbn in Hfire.
      case_decide; simplify_eq; [cbn in *; congruence | done].
    + unfold timer_fire in Hfire. by rewrite Hg in Hfire.
  - unfold reset, clearTimeout. cbn.
    by destruct (openTimer cb), (resetTimer cb).
  - unfold reset, open_timers. cbv zeta.
    change (pending (emit ?e ?x)) with (pending x).
    change (pending (with_halfOpenAttempts ?e ?x)) with (pending x).
    change (pending (with_state ?e ?x)) with (pending x).
    set (cb1 := with_metrics _ cb).
    assert (Hfirst : length (List.filter is_open_timer
                               (pending (clearTimeout (openTimer cb1) cb1)))
                     = 0%nat).
    { unfold clearTimeout. change (openTimer cb1) with (openTimer cb).
      destruct (decide (state cb = OPEN)) as [Hs|Hs].
      - destruct (H5 Hs) as (h & -> & Hg). cbn.
        rewrite filter_delete, Hg. unfold open_timers in H1.
        rewrite H1. done.
      - unfold open_timers in H1.
        destruct (openTimer cb); cbn; rewrite ?filter_delete, H1; done. }
    set (cb2 := clearTimeout (openTimer cb1) cb1) in *.
    unfold clearTimeout at 1. destruct (resetTimer cb2); cbn; [| done].
    rewrite filter_delete, Hfirst. done.
Qed.

Definition tripped_breaker : CircuitBreaker.t :=
  onFailure 4 (onFailure 3 (onFailure 2 (onFailure 1
    (onFailure 0 default_breaker)))).

Lemma open_iff_timer_pending_witness :
  open_timers tripped_breaker = 1%nat ∧
  state <$> timer_fire 0 tripped_breaker = Some HALF_OPEN.
Proof.
  destruct (open_iff_timer_pending
              (CircuitBreakerConfig.mk 5 5 1000 None None None)
              tripped_breaker) as (H1 & _).
  - unfold tripped_breaker.
    repeat (eapply (cb_reachable_step _ (LFailure _)); [| reflexivity]).
    constructor.
  - split; [exact H1 |]. vm_compute. reflexivity.
Defined.
End CircuitBreakerTimers.

(** *** Forcing the state *)

Section CircuitBreakerForce.
Import CircuitBreakerConfig CircuitBreaker.

Lemma forced_open_stays ls cb cb' :
  state cb = OPEN → pending cb = [] →
  run ls cb = Some cb' → state cb' = OPEN ∧ pending cb' = [].
Proof.
  revert cb. induction ls as [|l ls IH]; intros cb Hs Hp; simpl.
  - by intros [= <-].
  - destruct l as [|now|now|h]; simpl.
    + apply IH.
      * by rewrite state_execute_begin.
      * unfold execute_begin. by rewrite decide_True.
    + apply IH.
      * by rewrite state_onSuccess, Hs.
      * unfold onSuccess. cbv zeta.
        rewrite decide_False by (cbn; congruence). done.
    + apply IH.
      * by rewrite state_onFailure, Hs.
      * unfold onFailure. cbv zeta.
        rewrite decide_False by (cbn; congruence).
        rewrite decide_False by (cbn; congruence). done.
    + unfold timer_fire. by rewrite Hp.
Qed.

(** [forceState] arms no timer and reports the new state as both ends of
    the change; a fresh breaker forced OPEN therefore stays OPEN whatever
    calls, settlements and timer firings follow. *)
Theorem forced_open_is_permanent (config0 : CircuitBreakerConfig.t)
  (ls : list Label) (cb' : CircuitBreaker.t) :
  run ls (forceState OPEN (new config0)) = Some cb' →
  state cb' = OPEN ∧
  emitted (forceState OPEN (new config0)) = [stateChange OPEN OPEN].
Proof.
  intros Hrun. split; [| done].
  by destruct (forced_open_stays ls (forceState OPEN (new config0)) cb').
Qed.

Lemma forced_open_is_permanent_witness :
  state <$> run [LAdmit; LSuccess 5; LFailure 6; LAdmit]
                (forceState OPEN default_breaker) = Some OPEN.
Proof.
  destruct (run [LAdmit; LSuccess 5; LFailure 6; LAdmit]
                (forceState OPEN default_breaker)) as [cb'|] eqn:Hrun.
  - destruct (forced_open_is_permanent
                (CircuitBreakerConfig.mk 5 5 1000 None None None)
                [LAdmit; LSuccess 5; LFailure 6; LAdmit] cb' Hrun)
      as [Hs _].
    simpl. by rewrite Hs.
  - vm_compute in Hrun. discriminate.
Defined.
End CircuitBreakerForce.

Section CircuitBreakerLifecycle.
Import CircuitBreakerConfig CircuitBreaker.


End CircuitBreakerLifecycle.

(** ** BackoffStrategy: the other strategies *)

Section OtherBackoffs.
Import BackoffConfig BackoffStrategy.

Lemma next_linear random s :
  type (config s) = LINEAR → jitter_off (config s) →
  next random s =
    (Qmin (initialDelay (config s)
           + the (increment (config s)) * inject_Z (attempt s + 1 - 1))
          (maxDelay (config s)),
     mk (config s) (attempt s + 1) (fibSequence s)).
Proof.
  intros Htype Hjit. unfold jitter_off in Hjit. unfold next.
  cbn [config]. rewrite Htype. cbn [config]. rewrite Hjit. reflexivity.
Qed.

Lemma next_many_linear k random i s :
  type (config s) = LINEAR → jitter_off (config s) →
  (next_many k random i s).2 =
    mk (config s) (attempt s + Z.of_nat k) (fibSequence s).
Proof.
  revert i s. induction k as [|k IH]; intros i s Htype Hjit.
  - simpl. destruct s. simpl. f_equal. lia.
  - cbn [next_many]. rewrite next_linear by done.
    specialize (IH (S i) (mk (config s) (attempt s + 1) (fibSequence s))
                  Htype Hjit).
    destruct (next_many k random (S i) _) as [rest s2]. simpl in *.
    subst s2. f_equal. lia.
Qed.

(** With type linear and jitter off, call number [k + 1] of [next()]
    returns [initialDelay + increment * k] clamped to [maxDelay], where a
    missing or zero [increment] counts as 1000; for a non-negative increment
    the sequence never decreases. *)
Theorem linear_backoff_sequence (config : BackoffConfig.t)
  (random : nat → Q * Q) (k : nat) :
  type config = LINEAR → jitter_off config →
  delay_of_call config random k =
    Qmin (initialDelay config
          + or_defaultQ (increment config) 1000 * inject_Z (Z.of_nat k))
         (maxDelay config) ∧
  ((0 <= or_defaultQ (increment config) 1000)%Q →
   (delay_of_call config random k <= delay_of_call config random (S k))%Q).
Proof.
  intros Htype Hjit.
  assert (Hcall : ∀ j, delay_of_call config random j =
    Qmin (initialDelay config
          + or_defaultQ (increment config) 1000 * inject_Z (Z.of_nat j))
         (maxDelay config)).
  { intros j. unfold delay_of_call.
    rewrite next_many_linear by done. rewrite next_linear by done. cbn.
    by replace (0 + Z.of_nat j + 1 - 1) with (Z.of_nat j) by lia. }
  split; [apply Hcall |].
  intros Hinc. rewrite !Hcall.
  apply Q.min_le_compat_r. apply Qplus_le_r.
  apply Qmult_le_compat_nonneg.
  - split; [done | apply Qle_refl].
  - split.
    + change 0%Q with (inject_Z 0). rewrite <- Zle_Qle. lia.
    + rewrite <- Zle_Qle. lia.
Qed.

Lemma linear_backoff_sequence_witness :
  (delay_of_call
     (BackoffConfig.mk LINEAR 500 10000 None (Some 0%Q) None None)
     (λ _, (0, 0)%Q) 2 == 2500)%Q.
Proof.
  destruct (linear_backoff_sequence
              (BackoffConfig.mk LINEAR 500 10000 None (Some 0%Q) None None)
              (λ _, (0, 0)%Q) 2) as [H _]; [reflexivity | reflexivity |].
  rewrite H. reflexivity.
Defined.

(** *** Fibonacci *)

Fixpoint fib (n : nat) : Z :=
  match n with
  | O => 0
  | S m => match m with
           | O => 1
           | S p => fib m + fib p
           end
  end.

Definition fib_prefix (n : nat) : list Z := fib <$> seq 0 n.

Lemma fib_SS n : fib (S (S n)) = fib (S n) + fib n.
Proof. done. Qed.

(** [fib], computed with two accumulators. *)
Fixpoint fib_iter (n : nat) (a b : Z) : Z :=
  match n with
  | O => a
  | S m => fib_iter m b (a + b)
  end.

Lemma fib_iter_spec n : ∀ k, fib_iter n (fib k) (fib (S k)) = fib (n + k).
Proof.
  induction n as [|n IH]; intros k; [done |].
  cbn [fib_iter]. replace (fib k + fib (S k)) with (fib (S (S k)))
    by (rewrite fib_SS; lia).
  rewrite IH. f_equal. lia.
Qed.

Lemma fib_fast n : fib n = fib_iter n 0 1.
Proof.
  change (fib n = fib_iter n (fib 0) (fib 1)).
  rewrite (fib_iter_spec n 0). f_equal. lia.
Qed.

Lemma fib_nonneg n : 0 ≤ fib n ∧ 0 ≤ fib (S n).
Proof.
  induction n as [|n [IH1 IH2]]; [done |].
  split; [done |]. rewrite fib_SS. lia.
Qed.

Lemma fib_mono n m : (n ≤ m)%nat → fib n ≤ fib m.
Proof.
  induction 1 as [|m _ IH]; [done |].
  etrans; [exact IH |]. destruct m as [|m]; [done |].
  rewrite fib_SS. pose proof (fib_nonneg m). lia.
Qed.

(** The Fibonacci numbers up to [fib 78] have at most 53 bits;
    [fib 79] has 54 and is odd. *)
Lemma fib_78 : fib 78 = 8944394323791464.
Proof. rewrite fib_fast. vm_compute. reflexivity. Qed.

Lemma fib_79 : fib 79 = 14472334024676221.
Proof. rewrite fib_fast. vm_compute. reflexivity. Qed.

Lemma fib_is_double n : (n ≤ 78)%nat → double_Z (fib n) = fib n.
Proof.
  intros Hn. apply double_Z_small. split; [apply fib_nonneg |].
  pose proof (fib_mono n 78 Hn) as Hle. rewrite fib_78 in Hle. lia.
Qed.

Lemma fib_prefix_S n : fib_prefix (S n) = fib_prefix n ++ [fib n].
Proof. unfold fib_prefix. by rewrite seq_S, fmap_app. Qed.

Lemma length_fib_prefix n : length (fib_prefix n) = n.
Proof. unfold fib_prefix. by rewrite length_fmap, length_seq. Qed.

Lemma nth_fib_prefix n i : (i < n)%nat → nth i (fib_prefix n) 0 = fib i.
Proof.
  intros Hi. unfold fib_prefix.
  apply nth_lookup_Some with (d := 0).
  rewrite list_lookup_fmap, lookup_seq_lt by done. done.
Qed.

Lemma fib_extend_one n :
  (2 ≤ n)%nat →
  fib_extend 1 (fib_prefix n) = fib_prefix n ++ [double_Z (fib n)].
Proof.
  intros Hn. cbn [fib_extend].
  rewrite length_fib_prefix, !nth_fib_prefix by lia.
  destruct n as [|[|n]]; [lia | lia |].
  replace (S (S n) - 1)%nat with (S n) by lia.
  replace (S (S n) - 2)%nat with n by lia. by rewrite <- fib_SS.
Qed.

Lemma fib_extend_prefix rounds n :
  (2 ≤ n)%nat → (n + rounds ≤ 79)%nat →
  fib_extend rounds (fib_prefix n) = fib_prefix (n + rounds).
Proof.
  revert n. induction rounds as [|rounds IH]; intros n Hn Hle.
  - by rewrite Nat.add_0_r.
  - change (fib_extend (S rounds) (fib_prefix n))
      with (fib_extend rounds (fib_extend 1 (fib_prefix n))).
    rewrite fib_extend_one, fib_is_double by lia.
    rewrite <- fib_prefix_S, IH by lia. f_equal. lia.
Qed.

(** After [attempt] calls the memo table holds the Fibonacci numbers from
    [fib 0] to [fib attempt] (and [fib 1] from the start). *)
Definition memo_ok (s : BackoffStrategy.t) : Prop :=
  fibSequence s = fib_prefix (Z.to_nat (Z.max 2 (attempt s + 1))).

Lemma next_fibonacci random s :
  type (config s) = FIBONACCI → jitter_off (config s) → memo_ok s →
  0 ≤ attempt s < 78 →
  (next random s).1 =
    Qmin (double (initialDelay (config s)
                  * inject_Z (fib (Z.to_nat (attempt s + 1)))))
         (maxDelay (config s)) ∧
  config (next random s).2 = config s ∧
  attempt (next random s).2 = attempt s + 1 ∧
  memo_ok (next random s).2.
Proof.
  intros Htype Hjit Hmemo Hatt. unfold jitter_off in Hjit.
  unfold memo_ok in *.
  unfold next, fibonacciBackoff. cbn [config attempt fibSequence].
  rewrite Htype. cbn [config attempt fibSequence fst snd]. rewrite Hjit.
  rewrite Hmemo, length_fib_prefix, fib_extend_prefix by lia.
  cbn [fst snd config attempt fibSequence].
  split_and!; try done.
  - rewrite nth_fib_prefix by lia. done.
  - f_equal. lia.
Qed.

(** Call 79: the sum [fib 78 + fib 77] has 54 bits and is odd, so it is
    rounded, to the even neighbour below. *)
Lemma next_fibonacci_79 random s :
  type (config s) = FIBONACCI → jitter_off (config s) → memo_ok s →
  attempt s = 78 →
  (next random s).1 =
    Qmin (double (initialDelay (config s) * inject_Z 14472334024676220))
         (maxDelay (config s)).
Proof.
  intros Htype Hjit Hmemo Hatt. unfold jitter_off in Hjit.
  unfold memo_ok in Hmemo. rewrite Hatt in Hmemo.
  change (Z.to_nat (Z.max 2 (78 + 1))) with 79%nat in Hmemo.
  unfold next, fibonacciBackoff. cbn [config attempt fibSequence].
  rewrite Htype. cbn [config attempt fibSequence fst snd].
  rewrite Hjit, Hmemo, Hatt, length_fib_prefix.
  change (Z.to_nat (78 + 1 + 1 - Z.of_nat 79)) with 1%nat.
  change (Z.to_nat (78 + 1)) with 79%nat.
  rewrite fib_extend_one by lia.
  rewrite app_nth2 by (rewrite length_fib_prefix; lia).
  rewrite length_fib_prefix, Nat.sub_diag. cbn [nth].
  rewrite fib_79. reflexivity.
Qed.

Lemma next_many_fibonacci k random i s :
  type (config s) = FIBONACCI → jitter_off (config s) → memo_ok s →
  0 ≤ attempt s → attempt s + Z.of_nat k ≤ 78 →
  config (next_many k random i s).2 = config s ∧
  attempt (next_many k random i s).2 = attempt s + Z.of_nat k ∧
  memo_ok (next_many k random i s).2.
Proof.
  revert i s. induction k as [|k IH]; intros i s Htype Hjit Hmemo Hatt Hle.
  - simpl. split_and!; try done. lia.
  - cbn [next_many].
    destruct (next_fibonacci (random i) s Htype Hjit Hmemo ltac:(lia))
      as (_ & N2 & N3 & N4).
    destruct (next (random i) s) as [delay s1]. cbn [fst snd] in *.
    destruct (IH (S i) s1) as (I1 & I2 & I3);
      [by rewrite N2 | by rewrite N2 | done | lia | lia |].
    destruct (next_many k random (S i) s1) as [rest s2]. cbn [fst snd] in *.
    split_and!; try done; [congruence | lia].
Qed.

(** With type fibonacci and jitter off, each of the first 78 calls of
    [next()] returns the product of [initialDelay] and [fib n], rounded to
    a double and clamped to [maxDelay], for its call number [n], with
    [fib 1 = fib 2 = 1].  The memo table holds doubles: call 79 adds the
    rounded sum 14472334024676220 to it, one less than [fib 79], and
    returns [initialDelay] times that. *)
Theorem fibonacci_backoff_sequence (config : BackoffConfig.t)
  (random : nat → Q * Q) (k : nat) :
  type config = FIBONACCI → jitter_off config →
  ((k < 78)%nat →
   delay_of_call config random k =
     Qmin (double (initialDelay config * inject_Z (fib (S k))))
          (maxDelay config)) ∧
  delay_of_call config random 78 =
    Qmin (double (initialDelay config * inject_Z 14472334024676220))
         (maxDelay config) ∧
  fib 79 = 14472334024676221.
Proof.
  intros Htype Hjit.
  assert (Hm : memo_ok (new config)) by done.
  split_and!; [| | apply fib_79].
  - intros Hk. unfold delay_of_call.
    destruct (next_many_fibonacci k random 0 (new config))
      as (H1 & H2 & H3); try done; [cbn; lia |].
    destruct (next_fibonacci (random k)
                (next_many k random 0 (new config)).2)
      as (N1 & _); try done.
    + by rewrite H1.
    + by rewrite H1.
    + rewrite H2. cbn. lia.
    + rewrite N1, H1, H2. cbn.
      by replace (Z.to_nat (0 + Z.of_nat k + 1)) with (S k) by lia.
  - unfold delay_of_call.
    destruct (next_many_fibonacci 78 random 0 (new config))
      as (H1 & H2 & H3); try done.
    rewrite (next_fibonacci_79 (random 78%nat)
               (next_many 78 random 0 (new config)).2); try done.
    + by rewrite H1.
    + by rewrite H1.
    + by rewrite H1.
Qed.

Lemma fibonacci_backoff_sequence_witness :
  (delay_of_call
     (BackoffConfig.mk FIBONACCI 100 100000 None None None None)
     (λ _, (0, 0)%Q) 5 == 800)%Q.
Proof.
  destruct (fibonacci_backoff_sequence
              (BackoffConfig.mk FIBONACCI 100 100000 None None None None)
              (λ _, (0, 0)%Q) 5) as (H & _); [reflexivity | reflexivity |].
  rewrite H by lia. reflexivity.
Defined.
End OtherBackoffs.

(** *** Jitter and the preview of a sequence *)

Section BackoffJitter.
Import BackoffConfig BackoffStrategy.

Lemma applyJitter_band (random delay : Q) (s : BackoffStrategy.t) :
  (0 <= random)%Q → (random <= 1)%Q → (0 <= delay)%Q →
  (0 <= the (jitterFactor (config s)))%Q →
  (delay * (1 - the (jitterFactor (config s))) <= applyJitter random delay s)%Q ∧
  (applyJitter random delay s <= delay * (1 + the (jitterFactor (config s))))%Q.
Proof.
  intros Hr0 Hr1 Hd Hj. unfold applyJitter. cbv zeta.
  set (f := the (jitterFactor (config s))) in *.
  assert (Hx : (0 <= delay * f)%Q) by (by apply Qmult_le_0_compat).
  set (x := (delay * f)%Q) in *.
  assert (E1 : (delay * (1 - f) == delay - x)%Q) by (unfold x; ring).
  assert (E2 : (delay * (1 + f) == delay + x)%Q) by (unfold x; ring).
  rewrite E1, E2. split; nra.
Qed.

(** Whatever the strategy, the jitter setting and the random draws,
    [next()] never returns more than [maxDelay] and moves the attempt counter
    on by one.  With the exponential strategy and jitter on, a draw in
    [[0, 1]] keeps the delay within [jitterFactor] of
    [initialDelay * multiplier^(attempt-1)] on either side, before the
    clamp. *)
Theorem next_is_clamped_and_in_band (random : Q * Q)
  (s : BackoffStrategy.t) :
  (0 <= random.2)%Q → (random.2 <= 1)%Q →
  (0 <= initialDelay (config s))%Q →
  (0 <= the (multiplier (config s)))%Q →
  (0 <= the (jitterFactor (config s)))%Q →
  ((next random s).1 <= maxDelay (config s))%Q ∧
  attempt (next random s).2 = attempt s + 1 ∧
  (type (config s) = EXPONENTIAL → jitter (config s) = Some true →
   let base := (initialDelay (config s)
                * the (multiplier (config s)) ^ attempt s)%Q in
   (Qmin (base * (1 - the (jitterFactor (config s)))) (maxDelay (config s))
    <= (next random s).1)%Q ∧
   ((next random s).1
    <= Qmin (base * (1 + the (jitterFactor (config s)))) (maxDelay (config s)))%Q).
Proof.
  intros Hr0 Hr1 Hi Hm Hj. split_and!.
  - unfold next. cbv zeta.
    destruct (type _); cbn [config fst snd fibonacciBackoff];
      apply Q.le_min_r.
  - unfold next. cbv zeta.
    by destruct (type _); cbn [config fst snd fibonacciBackoff attempt].
  - intros Htype Hjit base. unfold next. cbv zeta. cbn [config].
    rewrite Htype. cbn [config fst snd]. rewrite Hjit. cbn [default].
    unfold exponentialBackoff. cbn [config attempt].
    replace (attempt s + 1 - 1) with (attempt s) by lia. fold base.
    assert (Hb : (0 <= base)%Q).
    { unfold base. apply Qmult_le_0_compat; [done |]. by apply Qpower_0_le. }
    destruct (applyJitter_band random.2 base
                (mk (config s) (attempt s + 1) (fibSequence s)))
      as [B1 B2]; try done.
    cbn [config] in B1, B2.
    split; by apply Q.min_le_compat_r.
Qed.

Lemma next_is_clamped_and_in_band_witness :
  (Qmin 1800 30000
   <= (next (0, 1 # 2)%Q
         (mk (BackoffConfig.mk EXPONENTIAL 1000 30000 (Some 2%Q)
                (Some 1000%Q) (Some true) (Some (1 # 10)))
             1 [0; 1]%Z)).1)%Q.
Proof.
  destruct (next_is_clamped_and_in_band (0, 1 # 2)%Q
              (mk (BackoffConfig.mk EXPONENTIAL 1000 30000 (Some 2%Q)
                     (Some 1000%Q) (Some true) (Some (1 # 10)))
                  1 [0; 1])) as (_ & _ & H);
    [cbn; discriminate | cbn; discriminate | cbn; discriminate
    | cbn; discriminate | cbn; discriminate |].
  destruct H as [H _]; [reflexivity | reflexivity |].
  eapply Qle_trans; [| exact H]. cbn. discriminate.
Defined.

Lemma next_many_exponential_delays k random i s :
  type (config s) = EXPONENTIAL → jitter_off (config s) →
  (next_many k random i s).1 =
    (λ j : nat, Qmin (initialDelay (config s)
                      * the (multiplier (config s))
                        ^ (attempt s + Z.of_nat j))
                     (maxDelay (config s))) <$> seq 0 k.
Proof.
  revert i s. induction k as [|k IH]; intros i s Htype Hjit; [done |].
  cbn [next_many]. rewrite next_exponential by done.
  specialize (IH (S i) (mk (config s) (attempt s + 1) (fibSequence s))
                Htype Hjit).
  destruct (next_many k random (S i) _) as [rest s2]. cbn [fst snd] in *.
  subst rest. cbn [seq fmap list_fmap]. f_equal.
  - by replace (attempt s + 1 - 1) with (attempt s + Z.of_nat 0) by lia.
  - rewrite <- fmap_S_seq, <- list_fmap_compose.
    apply list_fmap_ext. intros _ j _. cbn.
    by replace (attempt s + 1 + Z.of_nat j) with (attempt s + Z.of_nat (S j))
      by lia.
Qed.

(** [calculateSequence] is not a pure preview: it returns the first
    [maxAttempts] delays of the strategy, whatever attempt the strategy had
    reached, and leaves the attempt counter at zero, so the next [next()]
    starts over at the first delay (exponential strategy, jitter off). *)
Theorem calculateSequence_rewinds (maxAttempts : nat)
  (random : nat → Q * Q) (draw : Q * Q) (s : BackoffStrategy.t) :
  type (config s) = EXPONENTIAL → jitter_off (config s) →
  (calculateSequence maxAttempts random s).1 =
    (λ j : nat, Qmin (initialDelay (config s)
                      * the (multiplier (config s)) ^ Z.of_nat j)
                     (maxDelay (config s))) <$> seq 0 maxAttempts ∧
  getCurrentAttempt (calculateSequence maxAttempts random s).2 = 0 ∧
  (next draw (calculateSequence maxAttempts random s).2).1 =
    Qmin (initialDelay (config s) * the (multiplier (config s)) ^ 0)
         (maxDelay (config s)).
Proof.
  intros Htype Hjit. unfold calculateSequence.
  pose proof (next_many_exponential_delays maxAttempts random 0 (reset s)
                Htype Hjit) as Hd.
  pose proof (next_many_exponential maxAttempts random 0 (reset s)
                Htype Hjit) as Hs.
  destruct (next_many maxAttempts random 0 (reset s)) as [sequence s'].
  cbn [fst snd] in *. subst sequence s'. split_and!; try done.
  rewrite next_exponential by done. done.
Qed.

Lemma calculateSequence_rewinds_witness :
  getCurrentAttempt
    (calculateSequence 3 (λ _, (0, 0)%Q)
       (mk (config (new (doubling 30000))) 7 [0; 1])).2 = 0.
Proof.
  destruct (calculateSequence_rewinds 3 (λ _, (0, 0)%Q) (0, 0)%Q
              (mk (config (new (doubling 30000))) 7 [0; 1]))
    as (_ & H & _); [reflexivity | reflexivity | exact H].
Defined.
End BackoffJitter.

(** * RetryStrategy: how many attempts, and what they cost *)

Section RetryStrategyProofs.
Import RetryConfig RetryStrategy.
Context {T : Type}.

(** Invocation [k] of the retried function threw an error that the strategy
    retries. *)
Definition retryable_failure (fn : nat → T + Thrown) (s : RetryStrategy.t)
  (k : nat) : Prop :=
  ∃ e, fn k = inr e ∧ isRetryableError e s = true.

(** The sum the loop accumulates in [totalDelay]. *)
Definition sum_delays (start : Q) (delays : list Q) : Q :=
  foldl Qplus start delays.

Lemma execute_loop_spec (fuel : nat) : ∀ fn random calls attempt total
    lastError s,
  attempt = Z.of_nat calls →
  attempt ≤ maxRetries (config s) →
  maxRetries (config s) - attempt < Z.of_nat fuel →
  let r := (@execute_loop T fuel fn random calls attempt total lastError s).1 in
  attempt + 1 ≤ attempts r ≤ maxRetries (config s) + 1 ∧
  (∀ k, (calls ≤ k < Z.to_nat (attempts r) - 1)%nat →
        retryable_failure fn s k) ∧
  match fn (Z.to_nat (attempts r - 1)) with
  | inl v => success r = true ∧ result r = Some v ∧ error r = None
  | inr e => success r = false ∧ result r = None ∧ error r = Some e ∧
             (isRetryableError e s = false ∨
              attempts r = maxRetries (config s) + 1)
  end ∧
  totalDelay r =
    sum_delays total
      (BackoffStrategy.next_many (Z.to_nat (attempts r - 1) - calls) random
         calls (backoffStrategy s)).1.
Proof.
induction fuel as [|fuel IH]; intros fn random calls attempt total lastError s
  Hc Hle Hfuel.
{ exfalso. change (Z.of_nat 0) with 0 in Hfuel. lia. }
cbn [execute_loop].
destruct (attempt <=? maxRetries (config s)) eqn:E; [|lia].
assert (Hidx : Z.to_nat (attempt + 1 - 1) = calls) by lia.
destruct (fn calls) as [v|e] eqn:Efn.
{ cbn. rewrite Hidx, Efn, Nat.sub_diag. split_and!; try done; try lia. }
destruct (isRetryableError e s) eqn:Er; cbn [negb].
2:{ cbn. rewrite Hidx, Efn, Nat.sub_diag. split_and!; try done; try lia.
    by left. }
destruct (attempt + 1 >? maxRetries (config s)) eqn:E2.
{ cbn. rewrite Hidx, Efn, Nat.sub_diag. split_and!; try done; lia. }
destruct (BackoffStrategy.next (random calls) (backoffStrategy s))
  as [delay b] eqn:En.
specialize (IH fn random (S calls) (attempt + 1) (total + delay)%Q (Some e)
  (mk (config s) b)).
cbn [config backoffStrategy] in IH.
destruct IH as (Ha & Hk & Hlast & Ht); [lia..|].
set (r := (execute_loop fuel fn random (S calls) (attempt + 1)
  (total + delay)%Q (Some e) (mk (config s) b)).1) in *.
split_and!; try lia.
- intros k Hk'. destruct (decide (k = calls)) as [->|Hne].
  + by exists e.
  + destruct (Hk k) as (e' & He' & Hr'); [lia|]. by exists e'.
- destruct (fn (Z.to_nat (attempts r - 1))); [done|].
  destruct Hlast as (? & ? & ? & Hl). split_and!; try done.
- rewrite Ht.
  replace (Z.to_nat (attempts r - 1) - calls)%nat
    with (S (Z.to_nat (attempts r - 1) - S calls)) by lia.
  cbn [BackoffStrategy.next_many]. rewrite En.
  destruct (BackoffStrategy.next_many _ random (S calls) b). done.
Qed.

(** [execute] invokes the function between once and [maxRetries + 1] times.
    Every invocation but the last threw a retryable error; the last one
    decides the result, and a failure is final only because the error is
    not retryable or the attempts are used up.  The reported [totalDelay] is
    the sum of the first [attempts - 1] delays of the freshly reset backoff
    strategy. *)
Theorem execute_attempts_and_delay (fn : nat → T + Thrown)
    (random : nat → Q * Q) (s : RetryStrategy.t) :
  0 ≤ maxRetries (config s) →
  let r := (execute fn random s).1 in
  1 ≤ attempts r ≤ maxRetries (config s) + 1 ∧
  (∀ k, (k < Z.to_nat (attempts r) - 1)%nat → retryable_failure fn s k) ∧
  match fn (Z.to_nat (attempts r - 1)) with
  | inl v => success r = true ∧ result r = Some v ∧ error r = None
  | inr e => success r = false ∧ result r = None ∧ error r = Some e ∧
             (isRetryableError e s = false ∨
              attempts r = maxRetries (config s) + 1)
  end ∧
  totalDelay r =
    sum_delays 0
      (BackoffStrategy.next_many (Z.to_nat (attempts r - 1)) random 0
         (BackoffStrategy.reset (backoffStrategy s))).1.
Proof.
intros Hm. unfold execute.
pose proof (execute_loop_spec (Z.to_nat (maxRetries (config s) + 1) + 1) fn
  random 0 0 0%Q None
  (mk (config s) (BackoffStrategy.reset (backoffStrategy s)))) as H.
cbn [config backoffStrategy] in H.
destruct H as (Ha & Hk & Hlast & Ht); [done|lia|lia|].
cbv zeta.
set (r := (execute_loop _ fn random 0 0 0%Q None _).1) in *.
split_and!; try lia.
- intros k Hk'. destruct (Hk k) as (e & ? & ?); [lia|]. by exists e.
- destruct (fn (Z.to_nat (attempts r - 1))); [done|].
  destruct Hlast as (? & ? & ? & Hl). split_and!; try done.
- rewrite Ht, Nat.sub_0_r. done.
Qed.

(** A strategy built with two empty lists retries nothing: the function is
    invoked once, whatever [maxRetries] allows, and no delay is spent. *)
Theorem empty_lists_never_retry (fn : nat → T + Thrown)
    (random : nat → Q * Q) (c : RetryConfig.t) :
  0 ≤ maxRetries c →
  retryableErrors c = Some [] →
  retryableStatusCodes c = Some [] →
  let r := (execute fn random (new c)).1 in
  attempts r = 1 ∧ totalDelay r = 0%Q ∧
  match fn 0%nat with
  | inl v => success r = true ∧ result r = Some v
  | inr e => success r = false ∧ error r = Some e
  end.
Proof.
intros Hm He Hs. unfold execute, new. cbn [config backoffStrategy maxRetries].
replace (Z.to_nat (maxRetries c + 1) + 1)%nat
  with (S (Z.to_nat (maxRetries c + 1))) by lia.
cbn [execute_loop config maxRetries].
destruct (0 <=? maxRetries c) eqn:E; [|lia].
destruct (fn 0%nat) as [v|e]; [done|].
unfold isRetryableError. cbn [config RetryConfig.retryableErrors
  RetryConfig.retryableStatusCodes].
rewrite He, Hs. cbn [default].
rewrite !bool_decide_eq_false_2 by apply not_elem_of_nil.
rewrite !andb_false_r. done.
Qed.

(** With a negative [maxRetries] the function is never invoked: the result
    is a failure that carries no error and counts zero attempts. *)
Theorem negative_maxRetries_never_calls (f g : nat → T + Thrown)
    (random : nat → Q * Q) (s : RetryStrategy.t) :
  maxRetries (config s) < 0 →
  let r := (execute f random s).1 in
  success r = false ∧ error r = None ∧ result r = None ∧ attempts r = 0 ∧
  totalDelay r = 0%Q ∧ execute g random s = execute f random s.
Proof.
intros Hm. unfold execute.
replace (Z.to_nat (maxRetries (config s) + 1) + 1)%nat with 1%nat by lia.
cbn [execute_loop config].
destruct (0 <=? maxRetries (config s)) eqn:E; [lia|]. done.
Qed.

End RetryStrategyProofs.

Section RetryStrategyExamples.
Import RetryConfig RetryStrategy.

(** Doubling from one second, capped at thirty, retried up to [n] times. *)
Definition retry_doubling (n : Z) (errors : option (list string))
  (codes : option (list Z)) : RetryConfig.t :=
  RetryConfig.mk n
    (BackoffConfig.mk EXPONENTIAL 1000 30000 None None None None)
    errors codes.

Definition timeoutError : Thrown :=
  mkThrown (Some "ETIMEDOUT"%string) "Error"%string None None.

(** Two timeouts, then the value 7. *)
Definition flaky (k : nat) : Z + Thrown :=
  if (k <? 2)%nat then inr timeoutError else inl 7.

Lemma execute_attempts_and_delay_witness :
  let s := new (retry_doubling 3 None None) in
  let r := (execute flaky (λ _, (0, 0)%Q) s).1 in
  1 ≤ attempts r ≤ 3 + 1 ∧
  (∀ k, (k < Z.to_nat (attempts r) - 1)%nat → retryable_failure flaky s k) ∧
  match flaky (Z.to_nat (attempts r - 1)) with
  | inl v => success r = true ∧ result r = Some v ∧ error r = None
  | inr e => success r = false ∧ result r = None ∧ error r = Some e ∧
             (isRetryableError e s = false ∨ attempts r = 3 + 1)
  end ∧
  totalDelay r =
    sum_delays 0
      (BackoffStrategy.next_many (Z.to_nat (attempts r - 1))
         (λ _, (0, 0)%Q) 0
         (BackoffStrategy.reset (backoffStrategy s))).1.
Proof.
apply (execute_attempts_and_delay flaky (λ _, (0, 0)%Q)
         (new (retry_doubling 3 None None))).
vm_compute. discriminate.
Defined.

Lemma empty_lists_never_retry_witness :
  let r := (execute flaky (λ _, (0, 0)%Q)
              (new (retry_doubling 3 (Some []) (Some [])))).1 in
  attempts r = 1 ∧ totalDelay r = 0%Q ∧
  success r = false ∧ error r = Some timeoutError.
Proof.
destruct (empty_lists_never_retry flaky (λ _, (0, 0)%Q)
            (retry_doubling 3 (Some []) (Some [])))
  as (Ha & Ht & Hs & He).
- vm_compute. discriminate.
- reflexivity.
- reflexivity.
- split_and!; assumption.
Defined.

Lemma negative_maxRetries_never_calls_witness :
  let s := new (retry_doubling (-1) None None) in
  let r := (execute flaky (λ _, (0, 0)%Q) s).1 in
  success r = false ∧ error r = None ∧ attempts r = 0 ∧
  execute (λ _, inl 0) (λ _, (0, 0)%Q) s = execute flaky (λ _, (0, 0)%Q) s.
Proof.
destruct (negative_maxRetries_never_calls flaky (λ _, inl 0) (λ _, (0, 0)%Q)
            (new (retry_doubling (-1) None None)))
  as (Hs & He & _ & Ha & _ & Hg).
- vm_compute. reflexivity.
- split_and!; assumption.
Defined.
End RetryStrategyExamples.

(** * PriorityQueue: the other operations *)

Section PriorityQueueOperations.
Import PriorityQueue TaskPriority.
#[local] Arguments PriorityQueue.enqueue : simpl never.
#[local] Arguments PriorityQueue.size : simpl never.

Lemma getAll_flat pq : getAll pq = flat priorities pq.
Proof.
unfold getAll.
assert (Hgen : ∀ ps acc,
  foldl (λ allTasks priority,
           match JsMap.get priority (queues pq) with
           | Some queue => allTasks ++ queue
           | None => allTasks
           end) acc ps = acc ++ flat ps pq).
{ induction ps as [|p ps IH]; intros acc; cbn [foldl].
  - by rewrite app_nil_r.
  - rewrite IH, flat_cons. unfold tier.
    destruct (JsMap.get p (queues pq)); cbn [default].
    + by rewrite app_assoc.
    + done. }
apply Hgen.
Qed.

Lemma size_dequeue_scan ps pq :
  match dequeue_scan ps pq with
  | (Some _, pq') => size pq' = size pq - 1
  | (None, pq') => pq' = pq
  end.
Proof.
induction ps as [|p ps IH]; cbn [dequeue_scan]; [done|].
destruct (JsMap.get p (queues pq)) as [[|task queue]|] eqn:Hp; try exact IH.
rewrite !size_total. cbn [queues]. rewrite total_length_set, Hp.
cbn [default from_option id length]. lia.
Qed.

Lemma peek_dequeue_scan ps pq : peek_scan ps pq = (dequeue_scan ps pq).1.
Proof.
induction ps as [|p ps IH]; cbn [peek_scan dequeue_scan]; [done|].
by destruct (JsMap.get p (queues pq)) as [[|task queue]|].
Qed.

(** [peek] announces exactly the task the next [dequeue] hands out.  When
    there is one, that [dequeue] lowers [size] by one; when there is none,
    it leaves the queue as it was. *)
Theorem peek_is_next_dequeue (pq : PriorityQueue.t) :
  peek pq = (dequeue pq).1 ∧
  match peek pq with
  | Some _ => size (dequeue pq).2 = size pq - 1
  | None => (dequeue pq).2 = pq
  end.
Proof.
unfold peek, dequeue. rewrite peek_dequeue_scan.
split; [done|].
pose proof (size_dequeue_scan priorities pq) as H.
by destruct (dequeue_scan priorities pq) as [[task|] pq'].
Qed.

(** [getAll] lists the queued tasks in the order in which repeated
    [dequeue] calls hand them out, and after that many calls nothing that
    [getAll] or [peek] can see is left. *)
Theorem getAll_is_dequeue_order (pq : PriorityQueue.t) (fuel : nat) :
  (length (getAll pq) ≤ fuel)%nat →
  (drain fuel pq).1 = getAll pq ∧
  getAll (drain fuel pq).2 = [] ∧
  peek (drain fuel pq).2 = None.
Proof.
rewrite getAll_flat. intros Hlen.
destruct (drain_flat fuel pq Hlen) as (pq' & -> & Hnone).
cbn [fst snd]. split; [done|].
pose proof (dequeue_flat priorities pq' NoDup_priorities) as Hd.
fold (dequeue pq') in Hd. rewrite Hnone in Hd. destruct Hd as [_ Hd].
rewrite getAll_flat. split; [done|].
unfold peek. rewrite peek_dequeue_scan. fold (dequeue pq'). by rewrite Hnone.
Qed.

Lemma splice_first_find taskId queue :
  match find (has_id taskId) queue with
  | Some task =>
      Task.id task = Some taskId ∧
      ∃ queue', splice_first taskId queue = Some queue' ∧
                S (length queue') = length queue
  | None => splice_first taskId queue = None
  end.
Proof.
induction queue as [|task queue IH]; cbn [find splice_first]; [done|].
destruct (has_id taskId task) eqn:E.
- split; [by apply bool_decide_eq_true in E|]. by exists queue.
- destruct (find (has_id taskId) queue) as [task'|].
  + destruct IH as (? & queue' & -> & Hl). split; [done|].
    exists (task :: queue'). cbn. by rewrite Hl.
  + by rewrite IH.
Qed.

Lemma remove_in_find taskId qs :
  match findById_in taskId qs with
  | Some task =>
      Task.id task = Some taskId ∧ (remove_in taskId qs).1 = true ∧
      total_length (remove_in taskId qs).2 = total_length qs - 1
  | None => remove_in taskId qs = (false, qs)
  end.
Proof.
induction qs as [|[p queue] qs IH]; cbn [findById_in remove_in]; [done|].
pose proof (splice_first_find taskId queue) as Hs.
destruct (find (has_id taskId) queue) as [task|].
- destruct Hs as (? & queue' & -> & Hl). cbn. split_and!; try done. lia.
- rewrite Hs. destruct (findById_in taskId qs) as [task|].
  + destruct IH as (? & Hb & Hl).
    destruct (remove_in taskId qs) as [b qs']. cbn in *.
    split_and!; try done. lia.
  + by rewrite IH.
Qed.

(** [remove] answers [true] exactly when [findById] finds a task, and that
    task carries the id; then the queue is one task shorter.  When
    [findById] finds none, [remove] leaves the queue untouched. *)
Theorem remove_agrees_with_findById (taskId : string) (pq : PriorityQueue.t) :
  match findById taskId pq with
  | Some task =>
      Task.id task = Some taskId ∧ (remove taskId pq).1 = true ∧
      size (remove taskId pq).2 = size pq - 1
  | None => remove taskId pq = (false, pq)
  end.
Proof.
unfold findById, remove. pose proof (remove_in_find taskId (queues pq)) as H.
destruct (findById_in taskId (queues pq)) as [task|].
- destruct H as (? & Hb & Hl).
  destruct (remove_in taskId (queues pq)) as [b qs'].
  rewrite !size_total. by cbn in *.
- rewrite H. by destruct pq.
Qed.

Lemma total_length_clear qs :
  total_length ((λ e : Z * list Task.t, (e.1, [])) <$> qs) = 0.
Proof. induction qs as [|[p queue] qs IH]; cbn; [done|]. by rewrite IH. Qed.

Lemma size_enqueue_all tasks pq :
  size (enqueue_all tasks pq) = size pq + Z.of_nat (length tasks).
Proof.
unfold enqueue_all. revert pq.
induction tasks as [|task tasks IH]; intros pq; cbn [foldl length]; [lia|].
rewrite IH, size_enqueue. lia.
Qed.

Lemma total_length_delete p qs :
  total_length qs =
  Z.of_nat (length (default [] (JsMap.get p qs)))
  + total_length (JsMap.delete p qs).
Proof.
induction qs as [|[p' queue] qs IH]; cbn; [done|].
destruct (decide (p = p')) as [->|Hne]; cbn; lia.
Qed.

Lemma tier_delete_ne p q qs :
  p ≠ q → tier q (mk (JsMap.delete p qs)) = tier q (mk qs).
Proof.
intros Hne. unfold tier. cbn [queues]. f_equal.
induction qs as [|[p' queue] qs IH]; cbn; [done|].
destruct (decide (p = p')) as [->|Hne'].
- by rewrite decide_False by done.
- cbn. destruct (decide (q = p')); done.
Qed.

Lemma total_length_nonneg qs : 0 ≤ total_length qs.
Proof. induction qs as [|[p queue] qs IH]; cbn; lia. Qed.

Lemma flat_le_total ps : ∀ qs,
  NoDup ps → Z.of_nat (length (flat ps (mk qs))) ≤ total_length qs.
Proof.
induction ps as [|p ps IH]; intros qs Hnd.
- cbn. apply total_length_nonneg.
- apply NoDup_cons in Hnd as [Hp Hnd].
  rewrite flat_cons, length_app, (total_length_delete p qs).
  specialize (IH (JsMap.delete p qs) Hnd).
  rewrite (flat_ext ps (mk qs) (mk (JsMap.delete p qs))) in IH.
  2:{ rewrite Forall_forall. intros q Hq. apply tier_delete_ne.
      by intros ->. }
  unfold tier at 1. cbn [queues]. lia.
Qed.

(** [reorder] keeps exactly the tasks [getAll] lists.  A task filed under a
    number that is not one of the four priorities is not among them: it is
    counted by [size] before and gone after. *)
Theorem reorder_drops_unknown_tiers (pq : PriorityQueue.t) :
  size (reorder pq) = Z.of_nat (length (getAll pq)) ∧
  size (reorder pq) ≤ size pq ∧
  ∀ p, p ∉ priorities → tier p pq ≠ [] → size (reorder pq) < size pq.
Proof.
assert (Hsize : size (reorder pq) = Z.of_nat (length (getAll pq))).
{ change (reorder pq) with (enqueue_all (getAll pq) (clear pq)).
  rewrite size_enqueue_all, size_total. cbn [clear queues].
  rewrite total_length_clear. lia. }
rewrite Hsize, getAll_flat, size_total. destruct pq as [qs]. cbn [queues].
split_and!; [done| |].
- apply flat_le_total, NoDup_priorities.
- intros p Hp Hne.
  assert (Hnd : NoDup (p :: priorities)).
  { apply NoDup_cons. split; [done | apply NoDup_priorities]. }
  pose proof (flat_le_total (p :: priorities) qs Hnd) as H.
  rewrite flat_cons, length_app in H.
  destruct (tier p (mk qs)) as [|task queue]; [done|]. cbn [length] in H.
  lia.
Qed.

Definition normal_task : Task.t := Task.literal (Some "a"%string) (Some NORMAL).
Definition odd_task : Task.t := Task.literal (Some "b"%string) (Some 7).

Lemma getAll_is_dequeue_order_witness :
  (drain 2 (enqueue_all [normal_task; odd_task] new)).1 = [normal_task].
Proof.
destruct (getAll_is_dequeue_order
            (enqueue_all [normal_task; odd_task] new) 2) as (H & _ & _).
- vm_compute. lia.
- rewrite H. vm_compute. reflexivity.
Defined.

Lemma reorder_drops_unknown_tiers_witness :
  size (enqueue_all [normal_task; odd_task] new) = 2 ∧
  size (reorder (enqueue_all [normal_task; odd_task] new)) < 2.
Proof.
destruct (reorder_drops_unknown_tiers
            (enqueue_all [normal_task; odd_task] new)) as (_ & _ & H).
split; [vm_compute; reflexivity|].
apply (H 7).
- vm_compute. intros Hin. by repeat (apply elem_of_cons in Hin as [?|Hin]);
    try apply elem_of_nil in Hin.
- vm_compute. discriminate.
Defined.
End PriorityQueueOperations.

(** * DeadLetterQueue: adds that the capacity check mishandles *)

Section DeadLetterQueueEdges.
Import DeadLetterQueue.

Lemma length_set_present {K V : Type} `{EqDecision K} (k : K) (v : V)
    (m : list (K * V)) :
  k ∈ JsMap.keys m → length (JsMap.set k v m) = length m.
Proof.
intros Hin. apply keys_set_present with (v := v) in Hin.
unfold JsMap.keys in Hin.
by rewrite <- (length_fmap fst (JsMap.set k v m)), Hin, length_fmap.
Qed.

(** A task whose id the full queue already holds still costs the oldest
    entry its place: the entry is evicted with an [overflow], the task
    overwrites its own entry, and the queue ends one short of capacity. *)
Theorem readd_at_capacity_loses_oldest (dlq : DeadLetterQueue.t)
    (task : Task.t) (k : option string) (v : Task.t)
    (rest : list (option string * Task.t)) :
  tasks dlq = (k, v) :: rest →
  size dlq = maxSize dlq →
  truthy_str k = true →
  Task.id task ∈ JsMap.keys rest →
  size (add task dlq) = maxSize dlq - 1 ∧
  JsMap.keys (tasks (add task dlq)) = JsMap.keys rest ∧
  overflows (add task dlq) = overflows dlq ++ [k].
Proof.
intros Htasks Hfull Hk Hin. unfold add.
rewrite (evict_full dlq k v rest) by (done || lia).
cbn [tasks maxSize emitted]. unfold size, JsMap.size in *. cbn [tasks].
rewrite Htasks in Hfull. cbn [length] in Hfull.
split_and!.
- rewrite length_set_present by done. lia.
- by apply keys_set_present.
- unfold overflows. cbn [emitted]. rewrite !omap_app. cbn.
  by rewrite app_nil_r.
Qed.

Lemma evict_falsy dlq k v rest :
  tasks dlq = (k, v) :: rest → truthy_str k = false → evict dlq = dlq.
Proof.
intros Htasks Hk. unfold evict, oldestId. rewrite Htasks, Hk.
by destruct (size dlq >=? maxSize dlq).
Qed.

(** While the oldest entry sits under a falsy key (no id, or the empty
    string), nothing is ever evicted: every task with a new id makes the
    queue one longer, whatever the capacity, and no [overflow] is
    emitted. *)
Theorem falsy_oldest_key_disables_eviction (batch : list Task.t) :
  ∀ (dlq : DeadLetterQueue.t) (k : option string) (v : Task.t)
    (rest : list (option string * Task.t)),
  tasks dlq = (k, v) :: rest →
  truthy_str k = false →
  NoDup (Task.id <$> batch) →
  (∀ i, i ∈ Task.id <$> batch → i ∉ JsMap.keys (tasks dlq)) →
  size (add_all batch dlq) = size dlq + Z.of_nat (length batch) ∧
  overflows (add_all batch dlq) = overflows dlq ∧
  oldestId (add_all batch dlq) = k.
Proof.
induction batch as [|task batch IH]; intros dlq k v rest Htasks Hk Hnd Hfresh.
{ cbn. unfold oldestId. rewrite Htasks. split_and!; try done. lia. }
cbn [fmap list_fmap] in Hnd, Hfresh. apply NoDup_cons in Hnd as [Hnew Hnd].
assert (Hid : Task.id task ∉ JsMap.keys (tasks dlq)).
{ apply Hfresh. left. }
assert (Hadd : tasks (add task dlq)
               = (k, v) :: (rest ++ [(Task.id task, task)])).
{ unfold add. rewrite (evict_falsy dlq k v rest) by done. cbn [tasks].
  rewrite set_fresh by done. by rewrite Htasks. }
change (add_all (task :: batch) dlq) with (add_all batch (add task dlq)).
destruct (IH (add task dlq) k v (rest ++ [(Task.id task, task)]))
  as (Hs & Ho & Hold); try done.
{ intros i Hi. rewrite Hadd. unfold JsMap.keys.
  change ((k, v) :: rest ++ [(Task.id task, task)])
    with (((k, v) :: rest) ++ [(Task.id task, task)]).
  rewrite <- Htasks, fmap_app. cbn. intros Hin.
  apply elem_of_app in Hin as [Hin|Hin].
  - apply (Hfresh i); [by right | done].
  - apply list_elem_of_singleton in Hin. by subst. }
rewrite Hs, Ho, Hold. split_and!; try done.
- unfold size, JsMap.size. rewrite Hadd, Htasks. cbn [length].
  rewrite length_app. cbn [length]. lia.
- unfold overflows, add. rewrite (evict_falsy dlq k v rest) by done.
  cbn [emitted]. rewrite omap_app. cbn. by rewrite app_nil_r.
Qed.

Definition dead (i : string) : Task.t := Task.literal (Some i) None.

Lemma readd_at_capacity_loses_oldest_witness :
  let dlq := add_all [dead "a"; dead "b"; dead "c"] (new (Some 3)) in
  size dlq = 3 ∧ size (add (dead "b") dlq) = 2 ∧
  overflows (add (dead "b") dlq) = [Some "a"%string].
Proof.
destruct (readd_at_capacity_loses_oldest
            (add_all [dead "a"; dead "b"; dead "c"] (new (Some 3)))
            (dead "b") (Some "a"%string) (dead "a")
            [(Some "b"%string, dead "b"); (Some "c"%string, dead "c")])
  as (Hs & _ & Ho).
- vm_compute. reflexivity.
- vm_compute. reflexivity.
- vm_compute. reflexivity.
- vm_compute. left.
- split_and!; [vm_compute; reflexivity | exact Hs | exact Ho].
Defined.

Lemma falsy_oldest_key_disables_eviction_witness :
  let dlq := add (Task.literal None None) (new (Some 1)) in
  size (add_all [dead "a"; dead "b"] dlq) = 3 ∧
  overflows (add_all [dead "a"; dead "b"] dlq) = [].
Proof.
destruct (falsy_oldest_key_disables_eviction [dead "a"; dead "b"]
            (add (Task.literal None None) (new (Some 1)))
            None (Task.literal None None) [])
  as (Hs & Ho & _).
- vm_compute. reflexivity.
- reflexivity.
- vm_compute. apply (bool_decide_unpack _). vm_compute. exact I.
- intros i Hi Hin. vm_compute in Hi, Hin.
  apply list_elem_of_singleton in Hin. subst i.
  repeat (apply elem_of_cons in Hi as [Hi|Hi]; [discriminate|]).
  by apply elem_of_nil in Hi.
- split; [exact Hs | exact Ho].
Defined.
End DeadLetterQueueEdges.

(** * TaskQueue: cancelling, manual retries and the idle loop *)

Section TaskQueueOperations.
Import TaskQueue TaskPriority.
#[local] Arguments PriorityQueue.enqueue : simpl never.
#[local] Arguments PriorityQueue.size : simpl never.
#[local] Arguments PriorityQueue.remove : simpl never.

Lemma remove_findById taskId pq :
  (PriorityQueue.remove taskId pq).1
  = bool_decide (is_Some (PriorityQueue.findById taskId pq)).
Proof.
unfold PriorityQueue.findById, PriorityQueue.remove.
pose proof (remove_in_find taskId (PriorityQueue.queues pq)) as H.
destruct (PriorityQueue.findById_in taskId (PriorityQueue.queues pq))
  as [task|].
- destruct H as (_ & Hb & _).
  destruct (PriorityQueue.remove_in taskId (PriorityQueue.queues pq)).
  cbn in *. by rewrite Hb.
- by rewrite H.
Qed.

(** [cancel] and [cancelTask] do the same to the queue and emit the same
    events.  Their answers differ in one case only: the task is not queued
    but is running, where [cancel] says [false] and [cancelTask] says
    [true] although neither stops it. *)
Theorem cancel_and_cancelTask (taskId : string) (q : TaskQueue.t) :
  (cancel taskId q).1 = (cancelTask taskId q).1 ∧
  running (cancelTask taskId q).1 = running q ∧
  activeTasks (cancelTask taskId q).1 = activeTasks q ∧
  ((cancel taskId q).2 = true ↔
   is_Some (PriorityQueue.findById taskId (priorityQueue q))) ∧
  ((cancel taskId q).2 ≠ (cancelTask taskId q).2 ↔
   PriorityQueue.findById taskId (priorityQueue q) = None ∧
   Some taskId ∈ activeTasks q).
Proof.
unfold cancel, cancelTask.
pose proof (remove_findById taskId (priorityQueue q)) as Hr.
destruct (PriorityQueue.remove taskId (priorityQueue q)) as [removed pq'].
cbn [fst] in Hr. subst removed.
destruct (PriorityQueue.findById taskId (priorityQueue q)) as [task|].
- rewrite bool_decide_eq_true_2 by done. cbn.
  split_and!; try done; naive_solver.
- rewrite bool_decide_eq_false_2 by (by intros [? ?]).
  destruct (decide (Some taskId ∈ activeTasks q)) as [Hin|Hout].
  + rewrite !bool_decide_eq_true_2 by done. cbn.
    split_and!; try done; naive_solver.
  + rewrite !bool_decide_eq_false_2 by done. cbn.
    split_and!; try done; naive_solver.
Qed.

(** [retryFailed()] moves every dead-lettered task back into the priority
    queue without consulting [maxQueueSize], emits nothing, and does not
    start the processing loop. *)
Theorem retryFailed_all_ignores_maxQueueSize (q : TaskQueue.t) :
  PriorityQueue.size (priorityQueue (retryFailed None q))
  = PriorityQueue.size (priorityQueue q)
    + DeadLetterQueue.size (deadLetterQueue q) ∧
  DeadLetterQueue.size (deadLetterQueue (retryFailed None q)) = 0 ∧
  isProcessing (retryFailed None q) = isProcessing q ∧
  loops (retryFailed None q) = loops q ∧
  emitted (retryFailed None q) = emitted q.
Proof.
cbn [retryFailed]. split_and!; try done.
cbn. rewrite size_enqueue_all, length_fmap.
unfold DeadLetterQueue.getAll, JsMap.values, DeadLetterQueue.size, JsMap.size.
by rewrite length_fmap.
Qed.

Lemma round_not_processing now q :
  isProcessing q = false →
  (processQueue now q).1 = with_loops (pred (loops q)) q.
Proof.
intros H. unfold processQueue.
destruct (Z.to_nat _); cbn [processQueue_rounds];
  unfold processQueue_round; by rewrite H.
Qed.

Lemma rounds_not_processing times : ∀ q q',
  isProcessing q = false →
  run (LRound <$> times) q = Some q' →
  priorityQueue q' = priorityQueue q ∧ running q' = running q ∧
  timers q' = timers q ∧ emitted q' = emitted q ∧ isProcessing q' = false.
Proof.
induction times as [|now times IH]; intros q q' Hp; cbn [fmap list_fmap run].
{ by intros [= <-]. }
cbn [step]. destruct (loops q); [done|].
rewrite round_not_processing by done.
intros Hrun. apply IH in Hrun; [|done]. by cbn in Hrun.
Qed.

(** A retry timer only puts its task back into the priority queue.  When
    it fires after the loop has declared the queue idle, the task stays
    there: whatever loop rounds still run, none dispatches it, and nothing
    is emitted. *)
Theorem idle_queue_strands_retry (q q' q'' : TaskQueue.t) (k : nat)
    (times : list Z) :
  isProcessing q = false →
  timer_fire k q = Some q' →
  run (LRound <$> times) q' = Some q'' →
  PriorityQueue.size (priorityQueue q')
  = PriorityQueue.size (priorityQueue q) + 1 ∧
  priorityQueue q'' = priorityQueue q' ∧
  running q'' = running q ∧
  isProcessing q'' = false ∧
  emitted q'' = emitted q.
Proof.
intros Hp Hfire Hrun. unfold timer_fire in Hfire.
destruct (timers q !! k) as [[d task]|]; [|done].
injection Hfire as <-.
apply rounds_not_processing in Hrun; [|done].
destruct Hrun as (-> & -> & _ & -> & ->). cbn.
split_and!; try done. apply size_enqueue.
Qed.

(** [retryDelay = 100]: the first retry timer runs as long as the loop
    sleeps on an empty queue. *)
Definition slow_retry_config : QueueConfig.t :=
  QueueConfig.mk 2 100 false None true 3 100 5000.

(** One failure, and the loop finds the queue empty before the retry timer
    fires: the loop that [add] starts at 1000 dispatches the task and
    sleeps until 1100; the task fails at 1001, which arms a timer for
    1101; at 1100 the loop wakes to an empty queue with nothing active and
    declares the queue idle. *)
Definition idle_before_retry : TaskQueue.t :=
  default (new slow_retry_config)
    (run [LAdd (λ _, mkEnv 1000 "r" None)
            [Task.literal (Some "a"%string) None];
          LSettle 0 (Rejected boom) 1001; LRound 1100]
       (new slow_retry_config)).

Lemma idle_queue_strands_retry_witness :
  ∃ q' q'',
    timer_fire 0 idle_before_retry = Some q' ∧
    run (LRound <$> [1200]) q' = Some q'' ∧
    Task.id <$> PriorityQueue.getAll (priorityQueue q'')
      = [Some "a"%string] ∧
    running q'' = [] ∧ isProcessing q'' = false.
Proof.
assert (Hfire : ∃ q', timer_fire 0 idle_before_retry = Some q' ∧
          Task.id <$> PriorityQueue.getAll (priorityQueue q')
            = [Some "a"%string] ∧
          ∃ q'', run (LRound <$> [1200]) q' = Some q'').
{ eexists. split; [vm_compute; reflexivity|].
  split; [vm_compute; reflexivity|].
  eexists. vm_compute. reflexivity. }
destruct Hfire as (q' & Hfire & Hall & q'' & Hrun).
destruct (idle_queue_strands_retry idle_before_retry q' q'' 0 [1200])
  as (_ & Hpq & Hr & Hp & _).
- vm_compute. reflexivity.
- exact Hfire.
- exact Hrun.
- exists q', q''.
  split; [exact Hfire|]. split; [exact Hrun|].
  split; [rewrite Hpq; exact Hall|].
  split; [rewrite Hr; vm_compute; reflexivity | exact Hp].
Defined.
End TaskQueueOperations.

(** * TaskQueue: what the metrics count *)

Section TaskQueueMetrics.
Import TaskQueue TaskPriority.
#[local] Arguments DeadLetterQueue.add : simpl never.
#[local] Arguments PriorityQueue.enqueue : simpl never.
#[local] Arguments PriorityQueue.dequeue : simpl never.
#[local] Arguments PriorityQueue.remove : simpl never.
#[local] Arguments PriorityQueue.reorder : simpl never.
#[local] Arguments PriorityQueue.size : simpl never.

Definition is_taskAdded (e : Event) : bool :=
  match e with taskAdded _ => true | _ => false end.
Definition is_taskCompleted (e : Event) : bool :=
  match e with taskCompleted _ => true | _ => false end.
Definition is_taskError (e : Event) : bool :=
  match e with taskError _ _ => true | _ => false end.
Definition is_taskFailed (e : Event) : bool :=
  match e with taskFailed _ _ => true | _ => false end.

(** How many of the events emitted so far satisfy [f]. *)
Definition count (f : Event → bool) (q : TaskQueue.t) : Z :=
  Z.of_nat (length (List.filter f (emitted q))).

(** The metrics agree with the events: each counter but [totalAdded]
    equals the number of its events, every [taskError] was followed by a
    retry or a terminal failure, and [peakConcurrency] lies between the
    present number of active ids and the configured concurrency. *)
Record metrics_ok (q : TaskQueue.t) : Prop := mkMetricsOk {
  ok_added : count is_taskAdded q ≤ totalAdded (metrics q);
  ok_added_exact :
    persistence q = None → count is_taskAdded q = totalAdded (metrics q);
  ok_processed : count is_taskCompleted q = totalProcessed (metrics q);
  ok_failed : count is_taskFailed q = totalFailed (metrics q);
  ok_retried : count is_taskRetrying q = totalRetried (metrics q);
  ok_error :
    count is_taskError q
    = totalRetried (metrics q) + totalFailed (metrics q);
  ok_peak_lo :
    Z.of_nat (size (activeTasks q)) ≤ peakConcurrency (metrics q);
  ok_peak_hi :
    peakConcurrency (metrics q)
    ≤ Z.max 0 (QueueConfig.concurrency (config q))
}.

Definition counted (e : Event) : bool :=
  is_taskAdded e || is_taskCompleted e || is_taskError e
  || is_taskFailed e || is_taskRetrying e.

(** A change that touches neither the metrics nor the configuration, adds
    no active id and emits none of the counted events. *)
Definition quiet (q q' : TaskQueue.t) : Prop :=
  metrics q' = metrics q ∧ config q' = config q ∧
  (persistence q' = None → persistence q = None) ∧
  activeTasks q' ⊆ activeTasks q ∧
  ∃ es, emitted q' = emitted q ++ es ∧ List.filter counted es = [].

Lemma quiet_refl q : quiet q q.
Proof.
split_and!; try done. exists []. by rewrite app_nil_r.
Qed.

Lemma quiet_trans q1 q2 q3 : quiet q1 q2 → quiet q2 q3 → quiet q1 q3.
Proof.
intros (M1 & C1 & P1 & A1 & es1 & E1 & F1) (M2 & C2 & P2 & A2 & es2 & E2 & F2).
split_and!; try congruence; try (by etrans); [auto|].
exists (es1 ++ es2). rewrite E2, E1, <- app_assoc, List.filter_app, F1, F2.
done.
Qed.

Lemma filter_uncounted (f : Event → bool) es :
  (∀ e, f e = true → counted e = true) →
  List.filter counted es = [] → List.filter f es = [].
Proof.
intros Hf. induction es as [|e es IH]; cbn [List.filter]; [done|].
destruct (counted e) eqn:Ec; [done|]. intros H.
destruct (f e) eqn:Ef; [|by apply IH].
apply Hf in Ef. congruence.
Qed.

Lemma count_quiet (f : Event → bool) q q' :
  (∀ e, f e = true → counted e = true) →
  quiet q q' → count f q' = count f q.
Proof.
intros Hf (_ & _ & _ & _ & es & E & F). unfold count.
by rewrite E, List.filter_app, (filter_uncounted f es Hf F), app_nil_r.
Qed.

Lemma counted_cases :
  (∀ e, is_taskAdded e = true → counted e = true) ∧
  (∀ e, is_taskCompleted e = true → counted e = true) ∧
  (∀ e, is_taskError e = true → counted e = true) ∧
  (∀ e, is_taskFailed e = true → counted e = true) ∧
  (∀ e, is_taskRetrying e = true → counted e = true).
Proof. split_and!; by intros []. Qed.

Lemma metrics_ok_quiet q q' : quiet q q' → metrics_ok q → metrics_ok q'.
Proof.
intros Hq [H1 H1' H2 H3 H4 H5 H6 H7].
pose proof Hq as (M & C & P & A & _).
destruct counted_cases as (CA & CC & CE & CF & CR).
pose proof (count_quiet is_taskAdded q q' CA Hq) as HA.
pose proof (count_quiet is_taskCompleted q q' CC Hq) as HC.
pose proof (count_quiet is_taskError q q' CE Hq) as HE.
pose proof (count_quiet is_taskFailed q q' CF Hq) as HF.
pose proof (count_quiet is_taskRetrying q q' CR Hq) as HR.
apply subseteq_size in A.
split; rewrite ?M, ?C; try lia.
intros Hp. apply P, H1' in Hp. lia.
Qed.

Ltac quiet_by es :=
  split_and!; try done; exists es; cbn; by rewrite ?app_nil_r.

Lemma quiet_persist_update task q : quiet q (persist_update task q).
Proof.
unfold persist_update. destruct (persistence q) eqn:E; [|apply quiet_refl].
split_and!; try done. exists []. cbn. by rewrite app_nil_r.
Qed.

Lemma quiet_cancel taskId q : quiet q (cancel taskId q).1.
Proof.
unfold cancel.
destruct (PriorityQueue.remove taskId (priorityQueue q)) as [[] pq'].
- quiet_by [taskCancelled taskId].
- destruct (bool_decide _); [|apply quiet_refl].
  quiet_by [taskCancelling taskId].
Qed.

Lemma quiet_cancelTask taskId q : quiet q (cancelTask taskId q).1.
Proof.
unfold cancelTask.
destruct (PriorityQueue.remove taskId (priorityQueue q)) as [[] pq'].
- quiet_by [taskCancelled taskId].
- destruct (bool_decide _); [|apply quiet_refl].
  quiet_by [taskCancelling taskId].
Qed.

Lemma quiet_updatePriority taskId priority q :
  quiet q (updatePriority taskId priority q).
Proof.
unfold updatePriority.
destruct (PriorityQueue.findById taskId (priorityQueue q));
  [|apply quiet_refl].
quiet_by [priorityUpdated taskId priority].
Qed.

Lemma quiet_retryFailed taskId q : quiet q (retryFailed taskId q).
Proof.
unfold retryFailed. destruct taskId as [i|]; [|quiet_by (@nil Event)].
destruct (truthy_str (Some i)); [|quiet_by (@nil Event)].
destruct (DeadLetterQueue.get i (deadLetterQueue q));
  [quiet_by (@nil Event) | apply quiet_refl].
Qed.

Lemma quiet_clear a b c q : quiet q (clear a b c q).
Proof.
unfold clear. destruct a, b, c, (persistence q) eqn:E;
  split_and!; try done; cbn; rewrite ?E; try done;
  exists [cleared]; cbn; by rewrite ?E.
Qed.

Lemma quiet_timer k q q' : timer_fire k q = Some q' → quiet q q'.
Proof.
unfold timer_fire. destruct (timers q !! k) as [[d task]|]; [|done].
intros [= <-]. quiet_by (@nil Event).
Qed.

Definition tally (f : Event → bool) (es : list Event) : Z :=
  Z.of_nat (length (List.filter f es)).

Lemma metrics_ok_delta q q' es :
  metrics_ok q →
  config q' = config q →
  (persistence q' = None → persistence q = None) →
  emitted q' = emitted q ++ es →
  tally is_taskAdded es
    ≤ totalAdded (metrics q') - totalAdded (metrics q) →
  (persistence q' = None →
   tally is_taskAdded es
     = totalAdded (metrics q') - totalAdded (metrics q)) →
  tally is_taskCompleted es
    = totalProcessed (metrics q') - totalProcessed (metrics q) →
  tally is_taskFailed es
    = totalFailed (metrics q') - totalFailed (metrics q) →
  tally is_taskRetrying es
    = totalRetried (metrics q') - totalRetried (metrics q) →
  tally is_taskError es
    = tally is_taskRetrying es + tally is_taskFailed es →
  Z.of_nat (size (activeTasks q')) ≤ peakConcurrency (metrics q') →
  peakConcurrency (metrics q')
    ≤ Z.max 0 (QueueConfig.concurrency (config q)) →
  metrics_ok q'.
Proof.
intros [H1 H1' H2 H3 H4 H5 H6 H7] C P E DA DA' DC DF DR DE Plo Phi.
assert (Hc : ∀ f, count f q' = count f q + tally f es).
{ intros f. unfold count, tally.
  rewrite E, List.filter_app, length_app. lia. }
split; rewrite ?Hc, ?C; try lia.
intros Hp. specialize (DA' Hp). apply P, H1' in Hp. lia.
Qed.

Ltac delta_by q es :=
  eapply (metrics_ok_delta q _ es);
  try done; unfold tally; cbn; rewrite ?app_nil_r; try done; try lia.

Lemma metrics_ok_add_one env task q :
  metrics_ok q → metrics_ok (add_one env task q).1.
Proof.
intros Hok. pose proof Hok as [H1 H1' H2 H3 H4 H5 H6 H7].
unfold add_one. destruct (_ >=? _); [done|]. cbv zeta.
cbn [persistence with_metrics with_priorityQueue].
destruct (persistence q) as [p|] eqn:Ep.
- destruct (QueuePersistence.saveTask _ _ p) as [p' [e|]]; cbn [fst].
  + delta_by q (@nil Event).
  + delta_by q [taskAdded (admitted env task)].
- cbn [fst]. delta_by q [taskAdded (admitted env task)].
Qed.

Lemma metrics_ok_add_loop env tasks : ∀ i q,
  metrics_ok q → metrics_ok (add_loop i env tasks q).1.
Proof.
induction tasks as [|task tasks IH]; intros i q Hok; cbn [add_loop]; [done|].
pose proof (metrics_ok_add_one (env i) task q Hok) as H1.
destruct (add_one (env i) task q) as [q1 [e|]]; [done|].
by apply IH.
Qed.


Lemma size_insert_le (i : option string) (A : gset (option string)) :
  (size ({[ i ]} ∪ A) ≤ S (size A))%nat.
Proof.
pose proof (size_union_alt {[ i ]} A) as Hsz.
rewrite size_singleton in Hsz.
assert (size (A ∖ {[ i ]}) ≤ size A)%nat
  by (apply subseteq_size, subseteq_difference_l; done).
lia.
Qed.

Lemma metrics_ok_round now q :
  metrics_ok q → metrics_ok (processQueue_round now q).1.
Proof.
intros Hok. pose proof Hok as [H1 H1' H2 H3 H4 H5 H6 H7].
unfold processQueue_round.
destruct (isProcessing q && negb (isPaused q)).
2:{ eapply metrics_ok_quiet; [|done]. quiet_by (@nil Event). }
destruct (_ >=? _) eqn:Hge; [done|].
destruct (PriorityQueue.dequeue (priorityQueue q)) as [[task|] pq'].
- cbn [fst]. unfold processTask_begin. cbv zeta.
  cbn [activeTasks emit with_activeTasks with_priorityQueue metrics].
  pose proof (size_insert_le (Task.id task) (activeTasks q)) as Hs.
  destruct (_ >? _) eqn:Hgt.
  + delta_by q [taskStarted (Task.set_startedAt (Some now)
                  (Task.set_status (Some PROCESSING) task))].
  + delta_by q [taskStarted (Task.set_startedAt (Some now)
                  (Task.set_status (Some PROCESSING) task))].
- cbn [fst]. eapply metrics_ok_quiet; [|done].
  cbn [activeTasks with_priorityQueue].
  destruct (_ =? _); [quiet_by [idle] | quiet_by (@nil Event)].
Qed.

Lemma metrics_ok_start now q : metrics_ok q → metrics_ok (start now q).
Proof.
intros Hok. unfold start. destruct (isProcessing q); [done|].
apply (processQueue_preserve metrics_ok metrics_ok_round).
eapply metrics_ok_quiet; [|done]. quiet_by [started].
Qed.

Lemma metrics_ok_resume now q : metrics_ok q → metrics_ok (resume now q).
Proof.
intros Hok. unfold resume. destruct (negb (isPaused q)); [done|].
apply (processQueue_preserve metrics_ok metrics_ok_round).
eapply metrics_ok_quiet; [|done]. quiet_by [resumed].
Qed.

Lemma metrics_ok_add env tasks q :
  metrics_ok q → metrics_ok (add env tasks q).1.
Proof.
intros Hok. unfold add.
pose proof (metrics_ok_add_loop env tasks 0 q Hok) as H1.
destruct (add_loop 0 env tasks q) as [q1 [e|]]; [done|]. cbn [fst] in *.
destruct (_ && _); [|done].
by apply metrics_ok_start.
Qed.

Lemma metrics_ok_handleTaskError now task error q :
  metrics_ok q → metrics_ok (handleTaskError now task error q).
Proof.
intros Hok. pose proof Hok as [H1 H1' H2 H3 H4 H5 H6 H7].
unfold handleTaskError. cbv zeta. cbn [config emit].
destruct (_ <? _).
- eapply (metrics_ok_delta q _ [taskError _ _; taskRetrying _ _ _]);
    try done; unfold tally; cbn; rewrite <- ?app_assoc; try done;
    intros; lia.
- eapply metrics_ok_quiet; [apply quiet_persist_update|].
  destruct (QueueConfig.enableDeadLetter _);
    eapply (metrics_ok_delta q _ [taskError _ _; taskFailed _ _]);
    try done; unfold tally; cbn; rewrite <- ?app_assoc; try done;
    intros; lia.
Qed.

Lemma metrics_ok_settle k outcome now q q' :
  metrics_ok q → processTask_settle k outcome now q = Some q' →
  metrics_ok q'.
Proof.
intros Hok. unfold processTask_settle.
destruct (running q !! k) as [task|]; [|done]. intros [= <-].
assert (Hdrop : ∀ q1, metrics_ok q1 →
  metrics_ok (with_activeTasks (activeTasks q1 ∖ {[ Task.id task ]}) q1)).
{ intros q1 H1. eapply metrics_ok_quiet; [|exact H1].
  split_and!; try done.
  - cbn. apply subseteq_difference_l. done.
  - exists []. cbn. by rewrite app_nil_r. }
apply Hdrop.
assert (Hrun : metrics_ok (with_running (delete k (running q)) q)).
{ eapply metrics_ok_quiet; [|done]. quiet_by (@nil Event). }
destruct outcome as [result|error].
- eapply metrics_ok_quiet; [apply quiet_persist_update|].
  pose proof Hok as [H1 H1' H2 H3 H4 H5 H6 H7].
  eapply (metrics_ok_delta q _ [taskCompleted _]);
    try done; unfold tally; cbn; rewrite <- ?app_assoc; try done;
    intros; lia.
- by apply metrics_ok_handleTaskError.
Qed.

Lemma metrics_ok_new config0 : metrics_ok (new config0).
Proof.
split; cbn; try done; try lia.
Qed.

Lemma metrics_ok_step l q q' :
  metrics_ok q → step l q = Some q' → metrics_ok q'.
Proof.
intros Hok.
destruct l as [env tasks|t0| |t0| |graceful|t0|k outcome t0|k|taskId|taskId
              |taskId priority|taskId|a b c]; cbn [step].
- intros [= <-]. by apply metrics_ok_add.
- intros [= <-]. by apply metrics_ok_start.
- intros [= <-]. eapply metrics_ok_quiet; [|done]. quiet_by [paused].
- intros [= <-]. by apply metrics_ok_resume.
- intros [= <-]. eapply metrics_ok_quiet; [|done]. quiet_by (@nil Event).
- destruct (_ && _); [done|]. intros [= <-].
  eapply metrics_ok_quiet; [|done]. quiet_by [stopped].
- destruct (loops q); [done|]. intros [= <-].
  by apply (processQueue_preserve metrics_ok metrics_ok_round).
- by apply metrics_ok_settle.
- intros Hfire. eapply metrics_ok_quiet; [by eapply quiet_timer | done].
- intros [= <-]. eapply metrics_ok_quiet; [apply quiet_cancel | done].
- intros [= <-]. eapply metrics_ok_quiet; [apply quiet_cancelTask | done].
- intros [= <-].
  eapply metrics_ok_quiet; [apply quiet_updatePriority | done].
- intros [= <-]. eapply metrics_ok_quiet; [apply quiet_retryFailed | done].
- intros [= <-]. eapply metrics_ok_quiet; [apply quiet_clear | done].
Qed.

Lemma metrics_ok_reachable config0 q : reachable config0 q → metrics_ok q.
Proof.
induction 1 as [|l q q' _ IH _ Hstep]; [apply metrics_ok_new|].
by eapply metrics_ok_step.
Qed.

(** In every state a queue can reach, [totalProcessed], [totalFailed] and
    [totalRetried] equal the numbers of [taskCompleted], [taskFailed] and
    [taskRetrying] events emitted, every [taskError] event is matched by
    exactly one of the latter two, and [totalAdded] is at least the number
    of [taskAdded] events, with equality when nothing is persisted. *)
Theorem metrics_count_the_events (config0 : QueueConfig.t)
    (q : TaskQueue.t) :
  reachable config0 q →
  totalProcessed (metrics q) = count is_taskCompleted q ∧
  totalFailed (metrics q) = count is_taskFailed q ∧
  totalRetried (metrics q) = count is_taskRetrying q ∧
  count is_taskError q = count is_taskRetrying q + count is_taskFailed q ∧
  count is_taskAdded q ≤ totalAdded (metrics q) ∧
  (persistence q = None → totalAdded (metrics q) = count is_taskAdded q).
Proof.
intros Hq. destruct (metrics_ok_reachable config0 q Hq)
  as [H1 H1' H2 H3 H4 H5 H6 H7].
split_and!; try lia. intros Hp. symmetry. by apply H1'.
Qed.

(** In every state a queue can reach, [peakConcurrency] is at least the
    number of ids now active and at most the configured concurrency (zero,
    for a negative one). *)
Theorem peakConcurrency_bounds (config0 : QueueConfig.t) (q : TaskQueue.t) :
  reachable config0 q →
  Z.of_nat (size (activeTasks q)) ≤ peakConcurrency (metrics q) ∧
  peakConcurrency (metrics q) ≤ Z.max 0 (QueueConfig.concurrency config0).
Proof.
intros Hq. destruct (metrics_ok_reachable config0 q Hq)
  as [H1 H1' H2 H3 H4 H5 H6 H7].
destruct (reachable_config _ _ _ Hq) as [<- _]. done.
Qed.

Lemma failed_state_reachable : reachable retry_config failed_state.
Proof.
apply (reachable_run (λ _, True) retry_config failing_run
         (new retry_config)).
- constructor.
- repeat constructor.
- vm_compute. reflexivity.
Qed.

Lemma metrics_count_the_events_witness :
  totalFailed (metrics failed_state) = 1 ∧
  totalRetried (metrics failed_state) = 2 ∧
  count is_taskError failed_state = 3.
Proof.
destruct (metrics_count_the_events retry_config failed_state)
  as (_ & HF & HR & HE & _).
- exact failed_state_reachable.
- rewrite HE, <- HF, <- HR. vm_compute. split_and!; reflexivity.
Defined.

Lemma peakConcurrency_bounds_witness :
  2 ≤ peakConcurrency (metrics busy_state) ≤ 2.
Proof.
destruct (peakConcurrency_bounds busy_config busy_state) as [Hlo Hhi].
- apply (reachable_run (λ _, True) busy_config busy_run (new busy_config)).
  + constructor.
  + repeat constructor.
  + vm_compute. reflexivity.
- split.
  + etrans; [|exact Hlo]. vm_compute. discriminate.
  + etrans; [exact Hhi|]. vm_compute. discriminate.
Defined.
End TaskQueueMetrics.

(** * RateLimiter *)

Section RateLimiterLeakyBucket.
Import RateLimitConfig RateLimiter.

(** The leaky bucket, if there is one, still has the capacity [cap] and
    holds no more callers than that. *)
Definition leaky_ok (config0 : RateLimitConfig.t) (cap : Q) (s : RateLimiter.t)
  : Prop :=
  config s = config0 ∧
  ∀ b, leakyBucket s = Some b →
    LeakyBucket.capacity b = cap ∧
    Z.of_nat (length (LeakyBucket.queue b)) ≤ Z.max 0 (Qceiling cap).

Lemma leaky_ok_same config0 cap s s' :
  config s' = config s → leakyBucket s' = leakyBucket s →
  leaky_ok config0 cap s → leaky_ok config0 cap s'.
Proof. intros E1 E2 [H1 H2]. split; [congruence|]. by rewrite E2. Qed.

Lemma below_capacity (cap : Q) (n : nat) :
  Qle_bool cap (inject_Z (Z.of_nat n)) = false →
  Z.of_nat (S n) ≤ Z.max 0 (Qceiling cap).
Proof.
intros H.
assert (Hlt : (inject_Z (Z.of_nat n) < cap)%Q).
{ apply Qnot_le_lt. intros Hle. apply Qle_bool_iff in Hle. congruence. }
pose proof (Qle_ceiling cap) as Hc.
assert (Hz : (inject_Z (Z.of_nat n) < inject_Z (Qceiling cap))%Q)
  by (eapply Qlt_le_trans; eauto).
rewrite <- Zlt_Qlt in Hz. lia.
Qed.

Lemma fixed_frame key now s :
  config (acquireFixedWindow key now s).1 = config s ∧
  leakyBucket (acquireFixedWindow key now s).1 = leakyBucket s ∧
  tokenBucket (acquireFixedWindow key now s).1 = tokenBucket s.
Proof.
unfold acquireFixedWindow. cbv zeta.
destruct (JsMap.get key (windows s)) as [w|];
  [destruct (_ =? _)|]; cbn; destruct (_ >=? _); done.
Qed.

Lemma sliding_frame key now s :
  config (acquireSlidingWindow key now s).1 = config s ∧
  leakyBucket (acquireSlidingWindow key now s).1 = leakyBucket s ∧
  tokenBucket (acquireSlidingWindow key now s).1 = tokenBucket s.
Proof.
unfold acquireSlidingWindow. cbv zeta. cbn [RateLimitWindow.count].
by destruct (_ >=? _).
Qed.

Lemma token_frame now s :
  config (acquireTokenBucket now s).1 = config s ∧
  leakyBucket (acquireTokenBucket now s).1 = leakyBucket s.
Proof.
unfold acquireTokenBucket. destruct (tokenBucket s); [|done].
cbv zeta. by destruct (Qle_bool _ _).
Qed.

Lemma settle_frame key r :
  config (settle key r).1 = config r.1 ∧
  leakyBucket (settle key r).1 = leakyBucket r.1 ∧
  tokenBucket (settle key r).1 = tokenBucket r.1 ∧
  windows (settle key r).1 = windows r.1.
Proof. unfold settle. by destruct r.2. Qed.

Lemma leaky_ok_attempt config0 cap key now s :
  leaky_ok config0 cap s → leaky_ok config0 cap (attempt key now s).1.
Proof.
intros Hok. unfold attempt.
destruct (strategy (config s)) as [[]|].
- destruct (fixed_frame key now s) as (? & ? & _).
  by apply (leaky_ok_same _ _ s).
- destruct (sliding_frame key now s) as (? & ? & _).
  by apply (leaky_ok_same _ _ s).
- destruct (token_frame now s) as (? & ?).
  by apply (leaky_ok_same _ _ s).
- unfold acquireLeakyBucket. destruct (leakyBucket s) as [b|] eqn:Eb; [|done].
  destruct (Qle_bool _ _) eqn:Hfull; [done|].
  destruct Hok as [Hc Hb]. destruct (Hb b Eb) as [Hcap Hlen].
  split; [done|]. cbn. intros b' [= <-]. cbn. split; [done|].
  rewrite length_app. cbn [length]. rewrite Nat.add_1_r. rewrite <- Hcap.
  by apply below_capacity.
- destruct (fixed_frame key now s) as (? & ? & _).
  by apply (leaky_ok_same _ _ s).
Qed.

Lemma leaky_ok_settle config0 cap key r :
  leaky_ok config0 cap r.1 → leaky_ok config0 cap (settle key r).1.
Proof.
destruct (settle_frame key r) as (? & ? & _). by apply leaky_ok_same.
Qed.

Lemma foldl_emit_frame (released : list (string * Z)) : ∀ s,
  let s' := foldl (λ s request,
                     emit (acquired request.1 (strategy (config s))) s)
              s released in
  config s' = config s ∧ leakyBucket s' = leakyBucket s ∧
  tokenBucket s' = tokenBucket s ∧ windows s' = windows s ∧
  emitted s' = emitted s
    ++ ((λ request : string * Z, acquired request.1 (strategy (config s)))
          <$> released).
Proof.
induction released as [|r released IH]; intros s; cbn [foldl].
{ cbn. by rewrite app_nil_r. }
destruct (IH (emit (acquired r.1 (strategy (config s))) s))
  as (E1 & E2 & E3 & E4 & E5).
cbv zeta. rewrite E1, E2, E3, E4, E5. cbn. by rewrite <- app_assoc.
Qed.

Lemma leaky_ok_leak config0 cap now s :
  leaky_ok config0 cap s → leaky_ok config0 cap (leak_tick now s).
Proof.
intros Hok. unfold leak_tick.
destruct (leakyBucket s) as [b|] eqn:Eb; [|done].
destruct (LeakyBucket.queue b) as [|r queue] eqn:Eq; [done|]. cbv zeta.
match goal with |- leaky_ok _ _ (foldl _ ?s0 ?rel) =>
  destruct (foldl_emit_frame rel s0) as (E1 & E2 & _) end.
apply (leaky_ok_same _ _ _ _ E1 E2).
destruct Hok as [Hc Hb]. destruct (Hb b Eb) as [Hcap Hlen].
split; [done|]. cbn. intros b' [= <-]. cbn. split; [done|].
rewrite length_drop. rewrite Eq in Hlen. lia.
Qed.

Lemma leaky_ok_adjust config0 cap now s :
  leaky_ok config0 cap s → leaky_ok config0 cap (adjustAdaptiveRate now s).
Proof.
intros [Hc Hb]. unfold adjustAdaptiveRate.
destruct (adaptive (config s)) as [a|]; [|done].
destruct (_ =? _); [done|]. cbv zeta.
destruct (tokenBucket s) as [tb|] eqn:Et;
  destruct (leakyBucket s) as [b|] eqn:Eb;
  (destruct (Qlt_le_dec _ _); [|destruct (Qlt_le_dec _ _)]);
  repeat (cbn; rewrite ?Et, ?Eb);
  (split; [done|]); cbn; rewrite ?Eb; try done;
  intros b' [= <-]; cbn; by apply Hb.
Qed.

Lemma leaky_ok_reset config0 cap key s :
  leaky_ok config0 cap s → leaky_ok config0 cap (reset key s).
Proof.
intros [Hc Hb]. unfold reset.
destruct (tokenBucket s) as [tb|] eqn:Et;
  destruct (leakyBucket s) as [b|] eqn:Eb;
  destruct (truthy_str key);
  repeat (cbn; rewrite ?Et, ?Eb);
  (split; [done|]); cbn; rewrite ?Eb; try done;
  intros b' [= <-]; cbn; (split; [by apply Hb | lia]).
Qed.

Lemma leaky_ok_step config0 cap l s s' :
  leaky_ok config0 cap s → step l s = Some s' → leaky_ok config0 cap s'.
Proof.
intros Hok.
destruct l as [key now|k now|now|now|now| | |key]; cbn [step].
- intros [= <-]. unfold acquire. cbv zeta.
  apply leaky_ok_settle, leaky_ok_attempt.
  by apply (leaky_ok_same _ _ s).
- unfold wake. destruct (sleepers s !! k) as [key|]; [|done].
  cbn. intros [= <-].
  apply leaky_ok_settle, leaky_ok_attempt.
  by apply (leaky_ok_same _ _ s).
- destruct (decide _); [|done]. intros [= <-]. unfold refill_tick.
  destruct (tokenBucket s); [|done]. by apply (leaky_ok_same _ _ s).
- destruct (decide _); [|done]. intros [= <-]. by apply leaky_ok_leak.
- destruct (adaptive (config s)) as [a|]; [|done].
  destruct (AdaptiveConfig.enabled a); [|done].
  intros [= <-]. by apply leaky_ok_adjust.
- intros [= <-]. by apply (leaky_ok_same _ _ s).
- intros [= <-]. by apply (leaky_ok_same _ _ s).
- intros [= <-]. by apply leaky_ok_reset.
Qed.

Lemma leaky_ok_run config0 cap ls : ∀ s s',
  leaky_ok config0 cap s → run ls s = Some s' → leaky_ok config0 cap s'.
Proof.
induction ls as [|l ls IH]; intros s s' Hok; cbn [run].
{ by intros [= <-]. }
destruct (step l s) as [s1|] eqn:Hstep; [|done].
apply IH. by eapply leaky_ok_step.
Qed.

(** The capacity the constructor gives the leaky bucket. *)
Definition leakyCapacity (config0 : RateLimitConfig.t) (now0 : Z) : Q :=
  match leakyBucket (new config0 now0) with
  | Some b => LeakyBucket.capacity b
  | None => 0
  end.

(** Whatever callers and intervals do to a limiter, its leaky bucket keeps
    the capacity it was built with and its queue never holds more callers
    than that capacity, rounded up.  In such a state [acquire] throws when
    the queue has reached the capacity, and otherwise parks the caller at
    the end of the queue without letting it through. *)
Theorem leaky_bucket_queue_bounded (config0 : RateLimitConfig.t)
    (now0 : Z) (ls : list Label) (s : RateLimiter.t) (b : LeakyBucket.t)
    (key : string) (now : Z) :
  strategy config0 = Some leaky_bucket →
  run ls (new config0 now0) = Some s →
  leakyBucket s = Some b →
  LeakyBucket.capacity b = leakyCapacity config0 now0 ∧
  Z.of_nat (length (LeakyBucket.queue b))
    ≤ Z.max 0 (Qceiling (LeakyBucket.capacity b)) ∧
  ((LeakyBucket.capacity b
      <= inject_Z (Z.of_nat (length (LeakyBucket.queue b))))%Q →
   (acquire key now s).2 = Threw bucketFull ∧
   leakyBucket (acquire key now s).1 = Some b ∧
   emitted (acquire key now s).1 = emitted s) ∧
  (¬ (LeakyBucket.capacity b
        <= inject_Z (Z.of_nat (length (LeakyBucket.queue b))))%Q →
   (acquire key now s).2 = Queued ∧
   LeakyBucket.queue <$> leakyBucket (acquire key now s).1
     = Some (LeakyBucket.queue b ++ [(key, now)]) ∧
   emitted (acquire key now s).1 = emitted s).
Proof.
intros Hstrat Hrun Hb.
assert (Hok : leaky_ok config0 (leakyCapacity config0 now0) s).
{ eapply leaky_ok_run; [|exact Hrun].
  split.
  - unfold new, initializeStrategy. cbn. rewrite Hstrat. done.
  - unfold leakyCapacity. intros b0 E. rewrite E. split; [done|].
    revert E. unfold new, initializeStrategy. cbn. rewrite Hstrat. cbn.
    intros [= <-]. cbn. lia. }
destruct Hok as [Hc Hbs]. destruct (Hbs b Hb) as [Hcap Hlen].
split; [done|]. split; [by rewrite Hcap|].
unfold acquire, attempt. cbv zeta. cbn [config with_adaptiveMetrics].
rewrite Hc, Hstrat. unfold acquireLeakyBucket. cbn [leakyBucket with_adaptiveMetrics].
rewrite Hb. split.
- intros Hfull. apply Qle_bool_iff in Hfull. rewrite Hfull. cbn.
  by rewrite Hb.
- intros Hroom. destruct (Qle_bool _ _) eqn:E.
  { apply Qle_bool_iff in E. done. }
  done.
Qed.

Definition leaky_config : RateLimitConfig.t :=
  RateLimitConfig.mk (Some 5%Q) None None None (Some 2%Q)
    (Some leaky_bucket) None.

Lemma leaky_bucket_queue_bounded_witness :
  ∃ s b,
    run [LAcquire "a" 10; LAcquire "b" 20] (new leaky_config 0) = Some s ∧
    leakyBucket s = Some b ∧
    LeakyBucket.queue b = [("a"%string, 10); ("b"%string, 20)] ∧
    (acquire "c" 30 s).2 = Threw bucketFull.
Proof.
assert (H : ∃ s b,
  run [LAcquire "a" 10; LAcquire "b" 20] (new leaky_config 0) = Some s ∧
  leakyBucket s = Some b ∧
  LeakyBucket.queue b = [("a"%string, 10); ("b"%string, 20)] ∧
  (LeakyBucket.capacity b
     <= inject_Z (Z.of_nat (length (LeakyBucket.queue b))))%Q).
{ eexists. eexists. split; [vm_compute; reflexivity|].
  split; [vm_compute; reflexivity|]. split; [vm_compute; reflexivity|].
  vm_compute. discriminate. }
destruct H as (s & b & Hrun & Hb & Hq & Hfull).
destruct (leaky_bucket_queue_bounded leaky_config 0
            [LAcquire "a" 10; LAcquire "b" 20] s b "c" 30)
  as (_ & _ & Hthrow & _).
- reflexivity.
- exact Hrun.
- exact Hb.
- exists s, b. split; [exact Hrun|]. split; [exact Hb|].
  split; [exact Hq|]. by apply Hthrow.
Defined.
End RateLimiterLeakyBucket.

Section RateLimiterRejection.
Import RateLimitConfig RateLimiter.

(** The limiter still has its configuration and each bucket it had. *)
Definition buckets_kept (s s' : RateLimiter.t) : Prop :=
  config s' = config s ∧
  (is_Some (tokenBucket s) → is_Some (tokenBucket s')) ∧
  (is_Some (leakyBucket s) → is_Some (leakyBucket s')).

Lemma buckets_kept_same s s' :
  config s' = config s → tokenBucket s' = tokenBucket s →
  leakyBucket s' = leakyBucket s → buckets_kept s s'.
Proof. intros E1 E2 E3. unfold buckets_kept. by rewrite E1, E2, E3. Qed.

Lemma buckets_kept_trans s1 s2 s3 :
  buckets_kept s1 s2 → buckets_kept s2 s3 → buckets_kept s1 s3.
Proof.
intros (C1 & T1 & L1) (C2 & T2 & L2). split_and!; [congruence | auto..].
Qed.

Lemma attempt_keeps key now s : buckets_kept s (attempt key now s).1.
Proof.
unfold attempt. destruct (strategy (config s)) as [[]|].
- destruct (fixed_frame key now s) as (? & ? & ?).
  by apply buckets_kept_same.
- destruct (sliding_frame key now s) as (? & ? & ?).
  by apply buckets_kept_same.
- destruct (token_frame now s) as (C & L). split; [done |].
  split; [| by rewrite L]. intros [b Eb]. unfold acquireTokenBucket.
  rewrite Eb. cbv zeta. by destruct (Qle_bool 1 _).
- unfold acquireLeakyBucket. destruct (leakyBucket s) as [b|] eqn:Eb;
    [| by apply buckets_kept_same].
  destruct (Qle_bool _ _); [by apply buckets_kept_same |].
  split_and!; try done.
- destruct (fixed_frame key now s) as (? & ? & ?).
  by apply buckets_kept_same.
Qed.

Lemma settle_keeps key r : buckets_kept r.1 (settle key r).1.
Proof.
destruct (settle_frame key r) as (? & ? & ? & _). by apply buckets_kept_same.
Qed.

Lemma step_keeps l s s' : step l s = Some s' → buckets_kept s s'.
Proof.
destruct l as [key now|k now|now|now|now| | |key]; cbn [step].
- intros [= <-]. unfold acquire. cbv zeta.
  eapply buckets_kept_trans; [| apply settle_keeps].
  eapply buckets_kept_trans; [| apply attempt_keeps].
  by apply buckets_kept_same.
- unfold wake. destruct (sleepers s !! k) as [key|]; [|done].
  cbn. intros [= <-].
  eapply buckets_kept_trans; [| apply settle_keeps].
  eapply buckets_kept_trans; [| apply attempt_keeps].
  by apply buckets_kept_same.
- destruct (decide _); [|done]. intros [= <-]. unfold refill_tick.
  destruct (tokenBucket s) as [b|] eqn:Eb; [| by apply buckets_kept_same].
  split_and!; try done.
- destruct (decide _); [|done]. intros [= <-]. unfold leak_tick.
  destruct (leakyBucket s) as [b|] eqn:Eb; [| by apply buckets_kept_same].
  destruct (LeakyBucket.queue b) as [|r queue];
    [by apply buckets_kept_same |]. cbv zeta.
  match goal with |- buckets_kept _ (foldl _ ?s0 ?rel) =>
    destruct (foldl_emit_frame rel s0) as (E1 & E2 & E3 & _) end.
  split_and!; [by rewrite E1 | by rewrite E3 | by rewrite E2].
- destruct (adaptive (config s)) as [a|] eqn:Ea; [|done].
  destruct (AdaptiveConfig.enabled a); [|done].
  intros [= <-]. unfold adjustAdaptiveRate. rewrite Ea.
  destruct (_ =? _); [by apply buckets_kept_same |]. cbv zeta.
  destruct (tokenBucket s) as [tb|] eqn:Et;
    destruct (leakyBucket s) as [b|] eqn:Eb;
    (destruct (Qlt_le_dec _ _); [|destruct (Qlt_le_dec _ _)]);
    repeat (cbn; rewrite ?Et, ?Eb);
    split_and!; cbn; rewrite ?Et, ?Eb; try done; by intros [? [=]].
- intros [= <-]. by apply buckets_kept_same.
- intros [= <-]. by apply buckets_kept_same.
- intros [= <-]. unfold reset.
  destruct (tokenBucket s) as [tb|] eqn:Et;
    destruct (leakyBucket s) as [b|] eqn:Eb;
    destruct (truthy_str key);
    repeat (cbn; rewrite ?Et, ?Eb);
    split_and!; cbn; rewrite ?Et, ?Eb; try done; by intros [? [=]].
Qed.

Lemma run_keeps ls : ∀ s s', run ls s = Some s' → buckets_kept s s'.
Proof.
induction ls as [|l ls IH]; intros s s'; cbn [run].
{ intros [= <-]. by apply buckets_kept_same. }
destruct (step l s) as [s1|] eqn:Hstep; [|done].
intros Hrun. eapply buckets_kept_trans; [by eapply step_keeps | by apply IH].
Qed.

(** The window strategies and an initialised token bucket let a caller
    through or put it to sleep; they never throw. *)
Lemma windows_never_throw key now s :
  strategy (config s) ≠ Some leaky_bucket →
  (strategy (config s) = Some token_bucket → is_Some (tokenBucket s)) →
  (attempt key now s).2 = Granted ∨
  ∃ waitTime, (attempt key now s).2 = Sleeping waitTime.
Proof.
intros Hnl Htb. unfold attempt.
destruct (strategy (config s)) as [[]|] eqn:Hs; try done.
- unfold acquireFixedWindow. cbv zeta.
  destruct (JsMap.get key (windows s)) as [w|];
    [destruct (_ =? _)|]; cbn; destruct (_ >=? _); cbn; eauto.
- unfold acquireSlidingWindow. cbv zeta. cbn [RateLimitWindow.count].
  destruct (_ >=? _); cbn; eauto.
- destruct (Htb eq_refl) as [b Eb]. unfold acquireTokenBucket.
  rewrite Eb. cbv zeta. destruct (Qle_bool 1 _); cbn; eauto.
- unfold acquireFixedWindow. cbv zeta.
  destruct (JsMap.get key (windows s)) as [w|];
    [destruct (_ =? _)|]; cbn; destruct (_ >=? _); cbn; eauto.
Qed.

Definition two_in_the_bucket : list Label :=
  [LAcquire "a" 10; LAcquire "b" 20].

(** C10, the claim as stated, fails on the error: there is no
    RateLimitExceededError in the code.  A third caller at a leaky bucket
    of capacity 2 that holds two is rejected with a plain [Error]. *)
Lemma bucket_full_is_a_plain_Error :
  ∃ s e, run two_in_the_bucket (new leaky_config 0) = Some s ∧
         (acquire "c" 30 s).2 = Threw e ∧
         err_name e = "Error"%string ∧
         err_message e = "Rate limit exceeded: bucket is full"%string ∧
         err_name e ≠ "RateLimitExceededError"%string.
Proof.
eexists. eexists. split; [vm_compute; reflexivity |].
split; [vm_compute; reflexivity |]. by split_and!.
Qed.

(** C10, amended.  In every state a limiter built with the leaky-bucket
    strategy reaches, the bucket has the capacity it was built with and
    its queue holds no more callers than that capacity, rounded up.
    [acquire] there throws at once, without sleeping or queueing, exactly
    when the queue has reached the capacity, and the error is the plain
    [Error] "Rate limit exceeded: bucket is full"; otherwise the caller is
    appended to the queue, to be released by the leak.  Under every other
    strategy [acquire] never throws, neither at once nor when it tries
    again after a sleep: the caller is let through or put to sleep. *)
Theorem leaky_bucket_rejects_when_full (config0 : RateLimitConfig.t)
    (now0 : Z) (ls : list Label) (s : RateLimiter.t) (key : string)
    (now : Z) :
  run ls (new config0 now0) = Some s →
  (strategy config0 = Some leaky_bucket →
   ∃ b, leakyBucket s = Some b ∧
     LeakyBucket.capacity b = leakyCapacity config0 now0 ∧
     Z.of_nat (length (LeakyBucket.queue b))
       ≤ Z.max 0 (Qceiling (LeakyBucket.capacity b)) ∧
     ((acquire key now s).2 = Threw bucketFull ↔
      (LeakyBucket.capacity b
         <= inject_Z (Z.of_nat (length (LeakyBucket.queue b))))%Q) ∧
     ((acquire key now s).2 = Threw bucketFull →
      leakyBucket (acquire key now s).1 = Some b ∧
      sleepers (acquire key now s).1 = sleepers s ∧
      emitted (acquire key now s).1 = emitted s) ∧
     ((acquire key now s).2 ≠ Threw bucketFull →
      (acquire key now s).2 = Queued ∧
      LeakyBucket.queue <$> leakyBucket (acquire key now s).1
        = Some (LeakyBucket.queue b ++ [(key, now)]) ∧
      sleepers (acquire key now s).1 = sleepers s ∧
      emitted (acquire key now s).1 = emitted s)) ∧
  (strategy config0 ≠ Some leaky_bucket →
   ((acquire key now s).2 = Granted ∨
    ∃ waitTime, (acquire key now s).2 = Sleeping waitTime) ∧
   ∀ k r, wake k now s = Some r →
     r.2 = Granted ∨ ∃ waitTime, r.2 = Sleeping waitTime) ∧
  err_name bucketFull = "Error"%string ∧
  err_message bucketFull = "Rate limit exceeded: bucket is full"%string.
Proof.
intros Hrun.
assert (Hcfg0 : config (new config0 now0) = config0).
{ unfold new, initializeStrategy. cbn.
  by destruct (strategy config0) as [[]|]. }
destruct (run_keeps ls _ _ Hrun) as (Hc & Htk & Hlk). rewrite Hcfg0 in Hc.
split_and!; try done.
- intros Hstrat.
  assert (Hsome : is_Some (leakyBucket s)).
  { apply Hlk. unfold new, initializeStrategy. cbn. rewrite Hstrat. cbn.
    eauto. }
  destruct Hsome as [b Hb]. exists b. split; [done |].
  assert (Hok : leaky_ok config0 (leakyCapacity config0 now0) s).
  { eapply leaky_ok_run; [|exact Hrun].
    split; [done |].
    unfold leakyCapacity. intros b0 E. rewrite E. split; [done|].
    revert E. unfold new, initializeStrategy. cbn. rewrite Hstrat. cbn.
    intros [= <-]. cbn. lia. }
  destruct Hok as [_ Hbs]. destruct (Hbs b Hb) as [Hcap Hlen].
  split; [done|]. split; [by rewrite Hcap|].
  unfold acquire, attempt. cbv zeta. cbn [config with_adaptiveMetrics].
  rewrite Hc, Hstrat. unfold acquireLeakyBucket.
  cbn [leakyBucket with_adaptiveMetrics]. rewrite Hb.
  destruct (Qle_bool _ _) eqn:E; cbn.
  + apply Qle_bool_iff in E. rewrite Hb. by split_and!.
  + assert (Hnot : ¬ (LeakyBucket.capacity b
                        <= inject_Z (Z.of_nat (length (LeakyBucket.queue b))))%Q).
    { intros Hle. apply Qle_bool_iff in Hle. congruence. }
    by split_and!.
- intros Hstrat.
  assert (Hready : strategy config0 = Some token_bucket →
                   is_Some (tokenBucket s)).
  { intros Ht. apply Htk.
    unfold new, initializeStrategy. cbn. rewrite Ht. cbn. eauto. }
  split.
  + set (s1 := with_adaptiveMetrics
                 (bump_totalRequests (adaptiveMetrics s)) s).
    destruct (windows_never_throw key now s1) as [Hg | [ms Hm]].
    * cbn. by rewrite Hc.
    * cbn. by rewrite Hc.
    * left. unfold acquire, settle. cbv zeta. fold s1. by rewrite Hg.
    * right. exists ms. unfold acquire, settle. cbv zeta. fold s1.
      by rewrite Hm.
  + intros k r. unfold wake.
    destruct (sleepers s !! k) as [key'|]; [| done]. intros [= <-].
    set (s1 := with_sleepers (delete k (sleepers s)) s).
    destruct (windows_never_throw key' now s1) as [Hg | [ms Hm]].
    * cbn. by rewrite Hc.
    * cbn. by rewrite Hc.
    * left. unfold settle. by rewrite Hg.
    * right. exists ms. unfold settle. by rewrite Hm.
Qed.

Lemma leaky_bucket_rejects_when_full_witness :
  ∃ s, run two_in_the_bucket (new leaky_config 0) = Some s ∧
       (acquire "c" 30 s).2 = Threw bucketFull ∧
       (LeakyBucket.queue <$> leakyBucket (acquire "c" 30 s).1)
         = Some [("a"%string, 10); ("b"%string, 20)].
Proof.
assert (H : ∃ s, run two_in_the_bucket (new leaky_config 0) = Some s ∧
                 (LeakyBucket.queue <$> leakyBucket s)
                   = Some [("a"%string, 10); ("b"%string, 20)] ∧
                 (LeakyBucket.capacity <$> leakyBucket s) = Some 2%Q).
{ eexists. split; [vm_compute; reflexivity |].
  split; vm_compute; reflexivity. }
destruct H as (s & Hrun & Hq & Hcap).
destruct (leaky_bucket_rejects_when_full leaky_config 0 two_in_the_bucket
            s "c" 30 Hrun) as (Hleaky & _).
destruct (Hleaky eq_refl) as (b & Hb & _ & _ & Hiff & Hthrow & _).
rewrite Hb in Hq, Hcap. cbn in Hq, Hcap.
injection Hq as Hq. injection Hcap as Hcap.
assert (Hfull : (acquire "c" 30 s).2 = Threw bucketFull).
{ apply Hiff. rewrite Hq, Hcap. vm_compute. discriminate. }
exists s. split; [exact Hrun |]. split; [exact Hfull |].
destruct (Hthrow Hfull) as (-> & _). cbn. by rewrite Hq.
Defined.
End RateLimiterRejection.

Section RateLimiterSlowLeak.
Import RateLimitConfig RateLimiter.

(** Successive leak ticks, none before the one it follows and none more
    than [gap] ms after it. *)
Fixpoint slow_ticks (gap : Z) (last : Z) (ticks : list Z) : Prop :=
  match ticks with
  | [] => True
  | now :: ticks' => 0 ≤ now - last ≤ gap ∧ slow_ticks gap now ticks'
  end.

Lemma elapsed_le (ms ms' : Z) :
  ms ≤ ms' → (inject_Z ms / 1000 <= inject_Z ms' / 1000)%Q.
Proof.
intros H. apply Qmult_le_compat_r; [by rewrite <- Zle_Qle | done].
Qed.

Lemma elapsed_nonneg (ms : Z) : 0 ≤ ms → (0 <= inject_Z ms / 1000)%Q.
Proof.
intros H. apply Qle_shift_div_l; [done |]. rewrite Qmult_0_l.
change 0%Q with (inject_Z 0). by rewrite <- Zle_Qle.
Qed.

(** What accrues grows with the time and with the rate. *)
Lemma accrued_le (ms ms' : Z) (rate rate' : Q) :
  0 ≤ ms ≤ ms' → (0 <= rate)%Q → (rate <= rate')%Q →
  (accrued ms rate <= accrued ms' rate')%Q.
Proof.
intros [H0 Hms] Hr Hrr. unfold accrued. apply double_le.
apply Qmult_le_compat_nonneg; split; try done.
- apply double_nonneg. by apply elapsed_nonneg.
- apply double_le. by apply elapsed_le.
Qed.

Lemma accrued_nonneg (ms : Z) (rate : Q) :
  0 ≤ ms → (0 <= rate)%Q → (0 <= accrued ms rate)%Q.
Proof.
intros H0 Hr. unfold accrued. apply double_nonneg.
apply Qmult_le_0_compat; [| done].
apply double_nonneg. by apply elapsed_nonneg.
Qed.

Lemma Qfloor_below_one (x : Q) : (x < 1)%Q → Z.to_nat (Qfloor x) = 0%nat.
Proof.
intros Hx. pose proof (Qfloor_le x) as Hf.
assert (Hz : (inject_Z (Qfloor x) < inject_Z 1)%Q)
  by (eapply Qle_lt_trans; eauto).
rewrite <- Zlt_Qlt in Hz. lia.
Qed.

Lemma last_cons_any {A} (x : A) (l : list A) (d d' : A) :
  List.last (x :: l) d = List.last (x :: l) d'.
Proof.
revert x. induction l as [|y l IH]; intros x; [done|].
change (List.last (y :: l) d = List.last (y :: l) d'). apply IH.
Qed.

Lemma slow_ticks_run (gap : Z) (rate : Q) (ticks : list Z) :
  ∀ (s : RateLimiter.t) (b : LeakyBucket.t),
  strategy (config s) = Some leaky_bucket →
  leakyBucket s = Some b →
  LeakyBucket.queue b ≠ [] →
  (0 <= LeakyBucket.leakRate b)%Q → (LeakyBucket.leakRate b <= rate)%Q →
  (accrued gap rate < 1)%Q →
  slow_ticks gap (LeakyBucket.lastLeak b) ticks →
  ∃ s', run (LLeak <$> ticks) s = Some s' ∧
        LeakyBucket.queue <$> leakyBucket s' = Some (LeakyBucket.queue b) ∧
        LeakyBucket.lastLeak <$> leakyBucket s'
          = Some (List.last ticks (LeakyBucket.lastLeak b)) ∧
        emitted s' = emitted s.
Proof.
induction ticks as [|now ticks IH];
  intros s b Hstrat Hb Hq Hr0 Hr Hone Hslow.
{ exists s. cbn. by rewrite Hb. }
destruct Hslow as [Hgap Hslow].
cbn [fmap list_fmap run step]. rewrite decide_True by done.
assert (Hnone : (accrued (now - LeakyBucket.lastLeak b)
                   (LeakyBucket.leakRate b) < 1)%Q).
{ eapply Qle_lt_trans; [| exact Hone]. by apply accrued_le. }
assert (Htick : leak_tick now s
  = with_leakyBucket
      (Some (LeakyBucket.mk (LeakyBucket.queue b) (LeakyBucket.capacity b)
               (LeakyBucket.leakRate b) now)) s).
{ unfold leak_tick. rewrite Hb.
  destruct (LeakyBucket.queue b) as [|r queue] eqn:Eq; [done|].
  cbv zeta. rewrite (Qfloor_below_one _ Hnone), take_0, drop_0.
  reflexivity. }
rewrite Htick.
destruct (IH (with_leakyBucket
                (Some (LeakyBucket.mk (LeakyBucket.queue b)
                         (LeakyBucket.capacity b) (LeakyBucket.leakRate b)
                         now)) s)
             (LeakyBucket.mk (LeakyBucket.queue b) (LeakyBucket.capacity b)
                (LeakyBucket.leakRate b) now))
  as (s' & Hrun & Hq' & Hl' & He'); try done.
exists s'. split_and!; try done.
rewrite Hl'. cbn [LeakyBucket.lastLeak]. f_equal.
destruct ticks as [|t1 ticks]; [done|].
change (List.last (now :: t1 :: ticks) (LeakyBucket.lastLeak b))
  with (List.last (t1 :: ticks) (LeakyBucket.lastLeak b)).
apply last_cons_any.
Qed.

(** A leak tick releases the whole number of requests that the rounded
    product of the rounded elapsed seconds and the rate comes to, and then
    forgets the remainder.  So when a tick [gap] ms after the last releases
    nobody at some rate, ticks that follow one another by no more than
    [gap] ms never release anyone at that rate or a lower one: the queue
    stays as it is and nothing is emitted, however many ticks pass.  The
    rounding counts: 99 ms at the rate 10.1010101010101 fall short of a
    whole request, and the tick releases one; 290 ms at the rate 100 come
    to 29 requests, and the tick releases 28. *)
Theorem slow_ticks_release_nobody (ticks : list Z) (s : RateLimiter.t)
    (b : LeakyBucket.t) (gap : Z) (rate : Q) :
  strategy (config s) = Some leaky_bucket →
  leakyBucket s = Some b →
  LeakyBucket.queue b ≠ [] →
  (0 <= LeakyBucket.leakRate b)%Q → (LeakyBucket.leakRate b <= rate)%Q →
  Qfloor (accrued gap rate) < 1 →
  slow_ticks gap (LeakyBucket.lastLeak b) ticks →
  (∃ s', run (LLeak <$> ticks) s = Some s' ∧
         LeakyBucket.queue <$> leakyBucket s' = Some (LeakyBucket.queue b) ∧
         LeakyBucket.lastLeak <$> leakyBucket s'
           = Some (List.last ticks (LeakyBucket.lastLeak b)) ∧
         emitted s' = emitted s) ∧
  (inject_Z 99 / 1000 * (101010101010101 # 10000000000000) < 1)%Q ∧
  Qfloor (accrued 99 (double (101010101010101 # 10000000000000))) = 1 ∧
  (inject_Z 290 / 1000 * 100 == 29)%Q ∧
  Qfloor (accrued 290 100) = 28.
Proof.
intros Hstrat Hb Hq Hr0 Hr Hone Hslow.
split; [| by vm_compute].
apply (slow_ticks_run gap rate); try done.
apply Qnot_le_lt. intros Hc. apply Qfloor_resp_le in Hc.
change (Qfloor 1) with 1 in Hc. lia.
Qed.

Definition one_waiting : RateLimiter.t :=
  (acquire "a" 10 (new leaky_config 0)).1.

Lemma slow_ticks_release_nobody_witness :
  ∃ s', run (LLeak <$> [100; 200; 300]) one_waiting = Some s' ∧
        LeakyBucket.queue <$> leakyBucket s' = Some [("a"%string, 10)] ∧
        emitted s' = [].
Proof.
destruct (slow_ticks_release_nobody [100; 200; 300] one_waiting
            (LeakyBucket.mk [("a"%string, 10)] 2 5 0) 100 5)
  as ((s' & Hrun & Hq & _ & He) & _).
- reflexivity.
- vm_compute. reflexivity.
- discriminate.
- vm_compute. discriminate.
- vm_compute. discriminate.
- vm_compute. reflexivity.
- cbn. lia.
- exists s'. split_and!; [exact Hrun | exact Hq | exact He].
Defined.
End RateLimiterSlowLeak.

Section RateLimiterTokenBucket.
Import RateLimitConfig RateLimiter.

Definition is_tokenConsumed (e : Event) : bool :=
  match e with tokenConsumed _ _ => true | _ => false end.

(** How many acquisitions the token bucket has let through. *)
Definition granted (s : RateLimiter.t) : Z :=
  Z.of_nat (length (List.filter is_tokenConsumed (emitted s))).

(** The time a label carries, if any. *)
Definition time_of (l : Label) : option Z :=
  match l with
  | LAcquire _ now | LWake _ now | LRefill now | LLeak now | LAdjust now =>
      Some now
  | _ => None
  end.

(** The clock never runs backwards along the labels. *)
Fixpoint monotone (last : Z) (ls : list Label) : Prop :=
  match ls with
  | [] => True
  | l :: ls' =>
      match time_of l with
      | Some now => last ≤ now ∧ monotone now ls'
      | None => monotone last ls'
      end
  end.

(** Whatever clock the label reads shows [now]. *)
Definition at_instant (now : Z) (l : Label) : Prop :=
  match time_of l with
  | Some t0 => t0 = now
  | None => True
  end.

Definition is_reset (l : Label) : bool :=
  match l with LReset _ => true | _ => false end.

Definition adaptive_off (config0 : RateLimitConfig.t) : Prop :=
  match adaptive config0 with
  | Some a => AdaptiveConfig.enabled a = false
  | None => True
  end.

(** The bucket after [tokens -= 1]. *)
Definition spend (b : TokenBucket.t) : TokenBucket.t :=
  TokenBucket.mk (double (TokenBucket.tokens b - 1)) (TokenBucket.capacity b)
    (TokenBucket.refillRate b) (TokenBucket.lastRefill b).

Lemma granted_emit e s :
  granted (emit e s) = granted s + (if is_tokenConsumed e then 1 else 0).
Proof.
unfold granted. cbn. rewrite List.filter_app, length_app. cbn.
destruct (is_tokenConsumed e); cbn; lia.
Qed.

Lemma fixed_granted key now s :
  granted (acquireFixedWindow key now s).1 = granted s.
Proof.
unfold acquireFixedWindow. cbv zeta.
destruct (JsMap.get key (windows s)) as [w|];
  [destruct (_ =? _)|]; cbn; destruct (_ >=? _); cbn; try done;
  by rewrite granted_emit, Z.add_0_r.
Qed.

Lemma sliding_granted key now s :
  granted (acquireSlidingWindow key now s).1 = granted s.
Proof.
unfold acquireSlidingWindow. cbv zeta. cbn [RateLimitWindow.count].
destruct (_ >=? _); cbn; try done. by rewrite granted_emit, Z.add_0_r.
Qed.

Lemma acquired_not_consumed strat (released : list (string * Z)) :
  List.filter is_tokenConsumed
    ((λ request : string * Z, acquired request.1 strat) <$> released) = [].
Proof. induction released as [|r released IH]; [done | exact IH]. Qed.

(** What a step can do to the token bucket: nothing, a refill, or a refill
    that finds a token and spends it on a grant. *)
Definition bucket_change (now : option Z) (s s' : RateLimiter.t) : Prop :=
  config s' = config s ∧
  ((tokenBucket s' = tokenBucket s ∧ granted s' = granted s) ∨
   ∃ b t0, now = Some t0 ∧ tokenBucket s = Some b ∧
     ((tokenBucket s' = Some (refill t0 b) ∧ granted s' = granted s) ∨
      ((1 <= TokenBucket.tokens (refill t0 b))%Q ∧
       tokenBucket s' = Some (spend (refill t0 b)) ∧
       granted s' = granted s + 1))).

Lemma bucket_change_same now s s' :
  config s' = config s → tokenBucket s' = tokenBucket s →
  granted s' = granted s → bucket_change now s s'.
Proof. intros. split; [done |]. by left. Qed.

Lemma bucket_change_then now s s1 s2 :
  config s2 = config s1 → tokenBucket s2 = tokenBucket s1 →
  granted s2 = granted s1 →
  bucket_change now s s1 → bucket_change now s s2.
Proof.
intros E1 E2 E3 [C H]. split; [congruence |]. rewrite E2, E3. done.
Qed.

Lemma bucket_change_after now s0 s s' :
  config s = config s0 → tokenBucket s = tokenBucket s0 →
  granted s = granted s0 →
  bucket_change now s s' → bucket_change now s0 s'.
Proof.
intros E1 E2 E3 [C H]. split; [congruence |]. rewrite <- E2, <- E3. done.
Qed.

Lemma attempt_change key now s :
  bucket_change (Some now) s (attempt key now s).1.
Proof.
unfold attempt.
destruct (strategy (config s)) as [[]|].
- destruct (fixed_frame key now s) as (? & _ & ?).
  apply bucket_change_same; try done. apply fixed_granted.
- destruct (sliding_frame key now s) as (? & _ & ?).
  apply bucket_change_same; try done. apply sliding_granted.
- unfold acquireTokenBucket.
  destruct (tokenBucket s) as [b|] eqn:Eb.
  2:{ apply bucket_change_same; try done. }
  split.
  { cbv zeta. by destruct (Qle_bool 1 _). }
  right. exists b, now. split; [done |]. split; [done |].
  cbv zeta. destruct (Qle_bool 1 _) eqn:Hone.
  + apply Qle_bool_iff in Hone. right. split; [done |].
    cbn [fst tokenBucket emit with_tokenBucket].
    split; [done |]. rewrite granted_emit. done.
  + left. done.
- unfold acquireLeakyBucket. destruct (leakyBucket s) as [b|];
    [| by apply bucket_change_same].
  destruct (Qle_bool _ _); by apply bucket_change_same.
- destruct (fixed_frame key now s) as (? & _ & ?).
  apply bucket_change_same; try done. apply fixed_granted.
Qed.

Lemma settle_change now key s r :
  bucket_change now s r.1 → bucket_change now s (settle key r).1.
Proof.
destruct (settle_frame key r) as (E1 & _ & E2 & _).
apply bucket_change_then; try done.
unfold settle. destruct r.2; cbn; try done.
by rewrite granted_emit, Z.add_0_r.
Qed.

Lemma step_change l s s' :
  adaptive_off (config s) → is_reset l = false → step l s = Some s' →
  bucket_change (time_of l) s s'.
Proof.
intros Hoff Hl.
destruct l as [key now|k now|now|now|now| | |key]; cbn [step time_of].
- intros [= <-]. unfold acquire. cbv zeta.
  apply settle_change.
  eapply bucket_change_after; [| | | apply attempt_change]; done.
- unfold wake. destruct (sleepers s !! k) as [key|]; [|done].
  cbn. intros [= <-]. apply settle_change.
  eapply bucket_change_after; [| | | apply attempt_change]; done.
- destruct (decide _); [|done]. intros [= <-]. unfold refill_tick.
  destruct (tokenBucket s) as [b|] eqn:Eb;
    [| by apply bucket_change_same].
  split; [done |]. right. exists b, now. split; [done |].
  split; [done |]. left. done.
- destruct (decide _); [|done]. intros [= <-].
  unfold leak_tick. destruct (leakyBucket s) as [b|];
    [| by apply bucket_change_same].
  destruct (LeakyBucket.queue b) as [|r queue];
    [by apply bucket_change_same |]. cbv zeta.
  match goal with |- bucket_change _ _ (foldl _ ?s0 ?rel) =>
    destruct (foldl_emit_frame rel s0) as (E1 & _ & E3 & _ & E5) end.
  apply bucket_change_same; [exact E1 | exact E3 |].
  unfold granted. rewrite E5, List.filter_app, length_app.
  rewrite acquired_not_consumed. cbn [length]. cbn. lia.
- unfold adaptive_off in Hoff.
  destruct (adaptive (config s)) as [a|]; [|done]. by rewrite Hoff.
- intros [= <-]. by apply bucket_change_same.
- intros [= <-]. by apply bucket_change_same.
- done.
Qed.

(** The bucket has its first capacity and rate, holds between zero and
    [cap] tokens, and was last refilled no later than [last]. *)
Definition token_ok (config0 : RateLimitConfig.t) (cap rate : Q)
  (last : Z) (s : RateLimiter.t) : Prop :=
  config s = config0 ∧
  ∀ b, tokenBucket s = Some b →
    TokenBucket.capacity b = cap ∧ TokenBucket.refillRate b = rate ∧
    (0 <= TokenBucket.tokens b)%Q ∧ (TokenBucket.tokens b <= cap)%Q ∧
    TokenBucket.lastRefill b ≤ last.

Lemma accrued_zero (rate : Q) : (accrued 0 rate == 0)%Q.
Proof.
unfold accrued. apply double_of_zero.
assert (H : (double (inject_Z 0 / 1000) == 0)%Q)
  by (by apply double_of_zero).
rewrite H. ring.
Qed.

Lemma refill_ok cap rate now (b : TokenBucket.t) :
  (0 <= cap)%Q → (0 <= rate)%Q → TokenBucket.lastRefill b ≤ now →
  TokenBucket.capacity b = cap → TokenBucket.refillRate b = rate →
  (0 <= TokenBucket.tokens b)%Q →
  (0 <= TokenBucket.tokens (refill now b))%Q ∧
  (TokenBucket.tokens (refill now b) <= cap)%Q ∧
  (TokenBucket.tokens (refill now b)
   <= double (TokenBucket.tokens b
              + accrued (now - TokenBucket.lastRefill b) rate))%Q.
Proof.
intros Hcap Hrate Hnow Ec Er Ht. unfold refill. cbn. rewrite Ec, Er.
pose proof (accrued_nonneg (now - TokenBucket.lastRefill b) rate
              ltac:(lia) Hrate) as Ha.
split_and!.
- apply Q.min_glb; [done |]. apply double_nonneg. lra.
- apply Q.le_min_l.
- apply Q.le_min_r.
Qed.

Lemma spend_ok cap (b : TokenBucket.t) :
  (double cap == cap)%Q →
  (1 <= TokenBucket.tokens b)%Q → (TokenBucket.tokens b <= cap)%Q →
  (0 <= TokenBucket.tokens (spend b))%Q ∧
  (TokenBucket.tokens (spend b) <= cap)%Q.
Proof.
intros Hd H1 Hc. cbn. split.
- apply double_nonneg. lra.
- rewrite <- Hd. apply double_le. lra.
Qed.

Lemma token_ok_step config0 cap rate last l s s' :
  (0 <= cap)%Q → (double cap == cap)%Q → (0 <= rate)%Q →
  adaptive_off config0 → is_reset l = false →
  monotone last [l] →
  token_ok config0 cap rate last s → step l s = Some s' →
  token_ok config0 cap rate (default last (time_of l)) s'.
Proof.
intros Hcap Hd Hrate Hoff Hl Hmono [Hc Hb] Hstep.
rewrite <- Hc in Hoff.
destruct (step_change l s s' Hoff Hl Hstep) as [C H].
split; [congruence |].
assert (Hlast : last ≤ default last (time_of l)).
{ unfold monotone in Hmono. destruct (time_of l); cbn; lia. }
destruct H as [[E1 E2] | (b & t0 & Et & Eb & H)].
- intros b1 Hb1. rewrite E1 in Hb1.
  destruct (Hb b1 Hb1) as (?&?&?&?&?). split_and!; try done; lia.
- destruct (Hb b Eb) as (Ec & Er & Ht & Htc & Hlb).
  unfold monotone in Hmono. rewrite Et in *. cbn [default].
  destruct (refill_ok cap rate t0 b) as (R1 & R2 & _); try done; [lia |].
  destruct H as [[E1 _] | (Hone & E1 & _)]; intros b1 Hb1;
    rewrite E1 in Hb1; injection Hb1 as <-.
  + by split_and!.
  + by destruct (spend_ok cap (refill t0 b)) as [S1 S2].
Qed.

Lemma token_ok_run config0 cap rate ls : ∀ last s s',
  (0 <= cap)%Q → (double cap == cap)%Q → (0 <= rate)%Q →
  adaptive_off config0 →
  Forall (λ l, is_reset l = false) ls →
  monotone last ls →
  token_ok config0 cap rate last s → run ls s = Some s' →
  ∃ last', token_ok config0 cap rate last' s'.
Proof.
induction ls as [|l ls IH];
  intros last s s' Hcap Hd Hrate Hoff Hnr Hmono Hok; cbn [run].
{ intros [= <-]. by exists last. }
apply Forall_cons in Hnr as [Hl Hnr].
destruct (step l s) as [s1|] eqn:Hstep; [|done].
assert (Hm1 : monotone last [l]).
{ cbn in *. destruct (time_of l); [|done]. by destruct Hmono. }
assert (Hm2 : monotone (default last (time_of l)) ls).
{ cbn in *. destruct (time_of l); [|done]. by destruct Hmono. }
pose proof (token_ok_step config0 cap rate last l s s1
              Hcap Hd Hrate Hoff Hl Hm1 Hok Hstep) as Hok1.
intros Hrun. exact (IH _ s1 s' Hcap Hd Hrate Hoff Hnr Hm2 Hok1 Hrun).
Qed.

(** During a burst at the instant [now], after [granted s - g0] grants:
    a bucket refilled at [now] holds no more than [N] less the grants, and
    a bucket not yet refilled at [now] has granted nothing. *)
Definition burst_ok (config0 : RateLimitConfig.t) (cap rate : Q) (N g0 : Z)
  (now : Z) (s : RateLimiter.t) : Prop :=
  token_ok config0 cap rate now s ∧ g0 ≤ granted s ∧
  ∀ b, tokenBucket s = Some b →
    (TokenBucket.lastRefill b = now →
     (TokenBucket.tokens b <= inject_Z (N - (granted s - g0)))%Q) ∧
    (TokenBucket.lastRefill b < now → granted s = g0).

Lemma inject_Z_sub (a b : Z) : (inject_Z (a - b) == inject_Z a - inject_Z b)%Q.
Proof.
unfold Z.sub. rewrite inject_Z_plus, inject_Z_opp. reflexivity.
Qed.

Lemma at_most_whole (x : Q) (n : Z) :
  (0 <= x)%Q → (x <= inject_Z n)%Q → 0 ≤ n.
Proof.
intros H0 Hx. rewrite Zle_Qle. by eapply Qle_trans.
Qed.

Lemma burst_ok_step config0 cap rate N g0 now l s s' :
  (0 <= cap)%Q → (double cap == cap)%Q → (0 <= rate)%Q →
  (cap <= inject_Z N)%Q → N < 2 ^ 53 →
  adaptive_off config0 → is_reset l = false → at_instant now l →
  burst_ok config0 cap rate N g0 now s → step l s = Some s' →
  burst_ok config0 cap rate N g0 now s'.
Proof.
intros Hcap Hd Hrate HN H53 Hoff Hl Hat (Hok & Hg0 & Hburst) Hstep.
assert (Hok' : token_ok config0 cap rate now s').
{ pose proof (token_ok_step config0 cap rate now l s s'
                Hcap Hd Hrate Hoff Hl) as H.
  unfold at_instant in Hat. unfold monotone in H.
  destruct (time_of l) as [t0|]; cbn [default] in H.
  - subst t0. apply H; try done.
  - by apply H. }
split; [done |].
destruct Hok as [Hc Hb]. rewrite <- Hc in Hoff.
destruct (step_change l s s' Hoff Hl Hstep) as [C H].
split.
{ destruct H as [[_ E2] | (b & t0 & _ & _ & [[_ E2] | (_ & _ & E2)])];
    lia. }
destruct H as [[E1 E2] | (b & t0 & Et & Eb & H)].
- intros b1 Hb1. rewrite E1 in Hb1. rewrite E2. by apply Hburst.
- unfold at_instant in Hat. rewrite Et in Hat. subst t0.
  destruct (Hb b Eb) as (Ec & Er & Ht & Htc & Hlb).
  destruct (Hburst b Eb) as [Hnow Hbefore].
  destruct (refill_ok cap rate now b) as (R1 & R2 & R3); try done.
  assert (Hroom : (TokenBucket.tokens (refill now b)
                   <= inject_Z (N - (granted s - g0)))%Q).
  { destruct (Z.eq_dec (TokenBucket.lastRefill b) now) as [Heq | Hne].
    - specialize (Hnow Heq).
      pose proof (at_most_whole _ _ Ht Hnow) as Hn0.
      eapply Qle_trans; [exact R3 |].
      rewrite <- (double_small_Z (N - (granted s - g0))).
      2:{ lia. }
      apply double_le. rewrite Heq, Z.sub_diag, accrued_zero. lra.
    - rewrite Hbefore by lia. rewrite Z.sub_diag, Z.sub_0_r.
      exact (Qle_trans _ _ _ R2 HN). }
  destruct H as [[E1 E2] | (Hone & E1 & E2)]; intros b1 Hb1;
    rewrite E1 in Hb1; injection Hb1 as <-;
    cbn [spend TokenBucket.lastRefill refill];
    (split; [intros _ | lia]).
  + by rewrite E2.
  + rewrite E2. cbn [TokenBucket.tokens].
    assert (Hn1 : 1 ≤ N - (granted s - g0)).
    { rewrite Zle_Qle. exact (Qle_trans _ _ _ Hone Hroom). }
    rewrite <- (double_small_Z (N - (granted s + 1 - g0))) by lia.
    apply double_le.
    replace (N - (granted s + 1 - g0)) with (N - (granted s - g0) - 1)
      by lia.
    rewrite (inject_Z_sub (N - (granted s - g0)) 1).
    change (inject_Z 1) with 1%Q. lra.
Qed.

Lemma burst_ok_run config0 cap rate N g0 now ls : ∀ s s',
  (0 <= cap)%Q → (double cap == cap)%Q → (0 <= rate)%Q →
  (cap <= inject_Z N)%Q → N < 2 ^ 53 →
  adaptive_off config0 →
  Forall (λ l, is_reset l = false) ls → Forall (at_instant now) ls →
  burst_ok config0 cap rate N g0 now s → run ls s = Some s' →
  burst_ok config0 cap rate N g0 now s'.
Proof.
induction ls as [|l ls IH];
  intros s s' Hcap Hd Hrate HN H53 Hoff Hnr Hat Hok; cbn [run].
{ by intros [= <-]. }
apply Forall_cons in Hnr as [Hl Hnr]. apply Forall_cons in Hat as [Ha Hat].
destruct (step l s) as [s1|] eqn:Hstep; [|done].
intros Hrun. apply (IH s1 s'); try done.
by apply (burst_ok_step config0 cap rate N g0 now l s s1).
Qed.

(** A token bucket whose rate is never adapted and that is never reset,
    under a clock that does not run backwards, with a capacity that is a
    double: it always holds between zero and [capacity] tokens, every
    rounding counted; and however many acquisitions arrive at one and the
    same instant, it lets through no more than [N] of them, for any whole
    number [N] from [capacity] up (below [2^53]). *)
Theorem token_bucket_grants_bounded (config0 : RateLimitConfig.t) (t0 : Z)
    (b0 : TokenBucket.t) (ls : list Label) (s : RateLimiter.t)
    (b : TokenBucket.t) :
  tokenBucket (new config0 t0) = Some b0 →
  (0 <= TokenBucket.capacity b0)%Q →
  (double (TokenBucket.capacity b0) == TokenBucket.capacity b0)%Q →
  (0 <= TokenBucket.refillRate b0)%Q →
  adaptive_off config0 →
  Forall (λ l, is_reset l = false) ls →
  monotone t0 ls →
  run ls (new config0 t0) = Some s →
  tokenBucket s = Some b →
  TokenBucket.capacity b = TokenBucket.capacity b0 ∧
  TokenBucket.refillRate b = TokenBucket.refillRate b0 ∧
  (0 <= TokenBucket.tokens b)%Q ∧
  (TokenBucket.tokens b <= TokenBucket.capacity b)%Q ∧
  ∀ (N now : Z) (burst : list Label) (s' : RateLimiter.t),
    (TokenBucket.capacity b0 <= inject_Z N)%Q → N < 2 ^ 53 →
    TokenBucket.lastRefill b ≤ now →
    Forall (at_instant now) burst →
    Forall (λ l, is_reset l = false) burst →
    run burst s = Some s' →
    granted s' - granted s ≤ N.
Proof.
intros Hb0 Hcap Hd Hrate Hoff Hnr Hmono Hrun Hb.
assert (Hinit : token_ok config0 (TokenBucket.capacity b0)
                  (TokenBucket.refillRate b0) t0 (new config0 t0)).
{ split.
  - unfold new, initializeStrategy. cbn.
    by destruct (strategy config0) as [[]|].
  - intros b1 Hb1. rewrite Hb0 in Hb1. injection Hb1 as <-.
    assert (Hnew : TokenBucket.tokens b0 = TokenBucket.capacity b0 ∧
                   TokenBucket.lastRefill b0 = t0).
    { revert Hb0. unfold new, initializeStrategy. cbn.
      destruct (strategy config0) as [[]|]; cbn; try done.
      by intros [= <-]. }
    destruct Hnew as [Ht Hl]. rewrite Ht, Hl.
    split_and!; try done; try lra; try lia. }
destruct (token_ok_run config0 _ _ ls t0 _ s Hcap Hd Hrate Hoff
            Hnr Hmono Hinit Hrun)
  as (last' & Hcfg & Hall).
destruct (Hall b Hb) as (Ec & Er & Ht & Htc & _).
rewrite Ec, Er. split_and!; try done.
intros N now burst s' HN H53 Hlast Hat Hnr' Hburst.
assert (Hstart : burst_ok config0 (TokenBucket.capacity b0)
                   (TokenBucket.refillRate b0) N (granted s) now s).
{ split.
  - split; [done |]. intros b1 Hb1. rewrite Hb in Hb1. injection Hb1 as <-.
    by split_and!.
  - split; [lia |].
    intros b1 Hb1. rewrite Hb in Hb1. injection Hb1 as <-.
    split; [| done]. intros _. rewrite Z.sub_diag, Z.sub_0_r.
    exact (Qle_trans _ _ _ Htc HN). }
pose proof (burst_ok_run config0 _ _ N (granted s) now burst s s'
              Hcap Hd Hrate HN H53 Hoff Hnr' Hat Hstart Hburst)
  as ([_ Hb'] & _ & Hend).
pose proof (at_most_whole _ _ Hcap HN) as HN0.
destruct (tokenBucket s') as [b'|] eqn:Eb'.
- destruct (Hb' b' eq_refl) as (_ & _ & Ht' & _ & Hl').
  destruct (Hend b' eq_refl) as [Hnow Hbefore].
  destruct (Z.eq_dec (TokenBucket.lastRefill b') now) as [Heq | Hne].
  + specialize (Hnow Heq). pose proof (at_most_whole _ _ Ht' Hnow). lia.
  + rewrite Hbefore by lia. lia.
- (* the bucket cannot vanish *)
  exfalso. revert Hburst Eb'. clear -Hb Hoff Hnr' Hcfg.
  revert s b Hb Hcfg. induction burst as [|l burst IH];
    intros s b Hb Hcfg; cbn [run].
  + intros [= <-]. congruence.
  + apply Forall_cons in Hnr' as [Hl Hnr'].
    destruct (step l s) as [s1|] eqn:Hstep; [|done].
    rewrite <- Hcfg in Hoff.
    destruct (step_change l s s1 Hoff Hl Hstep) as [C H].
    assert (∃ b1, tokenBucket s1 = Some b1) as [b1 Hb1].
    { destruct H as [[E1 _] | (b2 & t1 & _ & _ & [[E1 _] | (_ & E1 & _)])];
        rewrite E1; eauto. }
    apply (IH Hnr' s1 b1 Hb1). congruence.
Qed.

Definition token_config : RateLimitConfig.t :=
  RateLimitConfig.mk (Some 1%Q) None None None (Some 2%Q)
    (Some token_bucket) None.

(** Three callers at once against a bucket of two tokens. *)
Definition three_at_once : list Label :=
  [LAcquire "a" 0; LAcquire "b" 0; LAcquire "c" 0].

Lemma token_bucket_grants_bounded_witness :
  ∃ s, run three_at_once (new token_config 0) = Some s ∧
       granted s = 2 ∧ granted s - granted (new token_config 0) ≤ 2 ∧
       sleepers s = ["c"%string].
Proof.
assert (H : ∃ s, run three_at_once (new token_config 0) = Some s ∧
                 granted s = 2 ∧ sleepers s = ["c"%string]).
{ eexists. split; [vm_compute; reflexivity|].
  split; vm_compute; reflexivity. }
destruct H as (s & Hrun & Hg & Hs).
destruct (token_bucket_grants_bounded token_config 0
            (TokenBucket.mk 2 2 1 0) [] (new token_config 0)
            (TokenBucket.mk 2 2 1 0))
  as (_ & _ & _ & _ & Hbound).
- vm_compute. reflexivity.
- vm_compute. discriminate.
- vm_compute. reflexivity.
- vm_compute. discriminate.
- exact I.
- constructor.
- exact I.
- reflexivity.
- vm_compute. reflexivity.
- exists s. split_and!; [exact Hrun | exact Hg | | exact Hs].
  apply (Hbound 2 0 three_at_once s).
  + vm_compute. discriminate.
  + lia.
  + cbn. lia.
  + repeat constructor.
  + repeat constructor.
  + exact Hrun.
Defined.
End RateLimiterTokenBucket.

Section RateLimiterWindows.
Import RateLimitConfig RateLimiter.

(** The limit a limiter applies to one window; it is fixed by the
    configuration. *)
Definition windowLimit (s : RateLimiter.t) : Z := getLimit (getWindowSize s) s.

(** A window has let through a number of requests between zero and the
    limit, and under the sliding strategy it has a time stamp for each. *)
Definition window_ok (config0 : RateLimitConfig.t) (limit : Z)
  (e : string * RateLimitWindow.t) : Prop :=
  0 ≤ RateLimitWindow.count e.2 ≤ Z.max 0 limit ∧
  (strategy config0 = Some sliding_window →
   RateLimitWindow.count e.2
   = Z.of_nat (length (RateLimitWindow.requests e.2))).

Definition windows_ok (config0 : RateLimitConfig.t) (s : RateLimiter.t)
  : Prop :=
  config s = config0 ∧
  Forall (window_ok config0 (windowLimit s)) (windows s).

Lemma windowLimit_config s s' :
  config s' = config s → windowLimit s' = windowLimit s.
Proof.
intros E. unfold windowLimit, getLimit, getWindowSize. by rewrite E.
Qed.

Lemma windows_ok_same config0 s s' :
  config s' = config s → windows s' = windows s →
  windows_ok config0 s → windows_ok config0 s'.
Proof.
intros E1 E2 [H1 H2]. split; [congruence|].
by rewrite E2, (windowLimit_config s s' E1).
Qed.

Lemma get_elem_of {K V : Type} `{EqDecision K} (k : K) (v : V)
    (m : list (K * V)) :
  JsMap.get k m = Some v → (k, v) ∈ m.
Proof.
induction m as [|[k0 v0] m IH]; [done|]. cbn.
destruct (decide (k = k0)) as [->|Hne].
- intros [= ->]. left.
- intros Hg. right. by apply IH.
Qed.

Lemma set_set {K V : Type} `{EqDecision K} (k : K) (v v' : V)
    (m : list (K * V)) :
  JsMap.set k v' (JsMap.set k v m) = JsMap.set k v' m.
Proof.
induction m as [|[k0 v0] m IH]; cbn.
{ by rewrite decide_True. }
destruct (decide (k = k0)) as [->|Hne]; cbn.
{ by rewrite decide_True. }
rewrite decide_False by done. by rewrite IH.
Qed.

Lemma windows_ok_fixed config0 key now s :
  strategy config0 ≠ Some sliding_window →
  windows_ok config0 s → windows_ok config0 (acquireFixedWindow key now s).1.
Proof.
intros Hstrat [Hc Hw]. unfold acquireFixedWindow. cbv zeta.
fold (windowLimit s).
set (fresh := RateLimitWindow.mk (now / getWindowSize s * getWindowSize s)
                0 []).
assert (Hfresh : window_ok config0 (windowLimit s) (key, fresh)).
{ split; [cbn; lia | done]. }
assert (Hset : ∀ w, window_ok config0 (windowLimit s) (key, w) →
  windows_ok config0 (with_windows (JsMap.set key w (windows s)) s)).
{ intros w Hwok. split; [done|]. cbn [windows with_windows].
  rewrite (windowLimit_config s) by done. by apply Forall_map_set. }
assert (Hcase : ∀ w s1, window_ok config0 (windowLimit s) (key, w) →
  windows_ok config0 s1 → config s1 = config s →
  (∀ w', window_ok config0 (windowLimit s) (key, w') →
     windows_ok config0 (with_windows (JsMap.set key w' (windows s1)) s1)) →
  windows_ok config0
    (if RateLimitWindow.count w >=? windowLimit s
     then (s1, Sleeping (Some (inject_Z
             (now / getWindowSize s * getWindowSize s
              + getWindowSize s - now))))
     else (emit (windowUpdate key (RateLimitWindow.count w + 1)
                   (windowLimit s))
             (with_windows
                (JsMap.set key
                   (RateLimitWindow.mk (RateLimitWindow.start w)
                      (RateLimitWindow.count w + 1)
                      (RateLimitWindow.requests w)) (windows s1)) s1),
           Granted)).1).
{ intros w s1 [[Hlo Hhi] _] Hs1 Hc1 Hset1.
  destruct (_ >=? _) eqn:Hge; [done|]. cbn [fst].
  eapply windows_ok_same; [| |apply Hset1]; [done|done|].
  cbn [snd] in Hlo, Hhi.
  split; [cbn [snd RateLimitWindow.count]; lia |].
  intros Hsl. by destruct Hstrat. }
assert (Hnew : windows_ok config0
  (if RateLimitWindow.count fresh >=? windowLimit s
   then (with_windows (JsMap.set key fresh (windows s)) s,
         Sleeping (Some (inject_Z
           (now / getWindowSize s * getWindowSize s
            + getWindowSize s - now))))
   else (emit (windowUpdate key (RateLimitWindow.count fresh + 1)
                 (windowLimit s))
           (with_windows
              (JsMap.set key
                 (RateLimitWindow.mk (RateLimitWindow.start fresh)
                    (RateLimitWindow.count fresh + 1)
                    (RateLimitWindow.requests fresh))
                 (windows (with_windows
                             (JsMap.set key fresh (windows s)) s)))
              (with_windows (JsMap.set key fresh (windows s)) s)),
         Granted)).1).
{ apply Hcase; [exact Hfresh | by apply Hset | done |].
  intros w' Hw'. cbn [windows with_windows].
  eapply windows_ok_same; [| |apply (Hset w' Hw')]; [done|].
  cbn [windows with_windows]. apply set_set. }
destruct (JsMap.get key (windows s)) as [w|] eqn:Eg; [|exact Hnew].
destruct (_ =? _); [|exact Hnew].
apply Hcase; [| by split | done | exact Hset].
rewrite Forall_forall in Hw. by apply Hw, get_elem_of.
Qed.

Lemma windows_ok_sliding config0 key now s :
  strategy config0 = Some sliding_window →
  windows_ok config0 s → windows_ok config0 (acquireSlidingWindow key now s).1.
Proof.
intros Hsl [Hc Hw]. unfold acquireSlidingWindow. cbv zeta.
fold (windowLimit s). cbn [RateLimitWindow.count RateLimitWindow.start].
set (w := match JsMap.get key (windows s) with
          | Some window => window
          | None => RateLimitWindow.mk now 0 []
          end).
assert (Hold : Z.of_nat (length (RateLimitWindow.requests w))
               ≤ Z.max 0 (windowLimit s)).
{ subst w. destruct (JsMap.get key (windows s)) as [w|] eqn:Eg; [|cbn; lia].
  rewrite Forall_forall in Hw.
  destruct (Hw _ (get_elem_of _ _ _ Eg)) as [[_ Hhi] Hlen].
  cbn [snd] in *. rewrite <- Hlen by done. done. }
set (requests := List.filter (λ t0, now - getWindowSize s <? t0)
                   (RateLimitWindow.requests w)).
assert (Hle : (length requests ≤ length (RateLimitWindow.requests w))%nat)
  by apply List.filter_length_le.
destruct (_ >=? _) eqn:Hge; cbn [fst].
- split; [done|]. cbn [windows with_windows].
  rewrite (windowLimit_config s) by done.
  apply Forall_map_set; [done|]. split; [|done].
  cbn [snd RateLimitWindow.count]. lia.
- split; [done|]. cbn [windows with_windows emit].
  rewrite (windowLimit_config s) by done.
  apply Forall_map_set; [done|]. split; cbn [snd RateLimitWindow.count
    RateLimitWindow.requests].
  + lia.
  + intros _. rewrite length_app. cbn [length]. lia.
Qed.

Lemma windows_ok_attempt config0 key now s :
  windows_ok config0 s → windows_ok config0 (attempt key now s).1.
Proof.
intros Hok. pose proof Hok as [Hc _]. unfold attempt.
destruct (strategy (config s)) as [[]|] eqn:Es.
- apply windows_ok_fixed; [congruence | done].
- apply windows_ok_sliding; [congruence | done].
- unfold acquireTokenBucket. destruct (tokenBucket s); [|done].
  cbv zeta. destruct (Qle_bool _ _); by apply (windows_ok_same _ s).
- unfold acquireLeakyBucket. destruct (leakyBucket s); [|done].
  destruct (Qle_bool _ _); by apply (windows_ok_same _ s).
- apply windows_ok_fixed; [congruence | done].
Qed.

Lemma windows_ok_settle config0 key r :
  windows_ok config0 r.1 → windows_ok config0 (settle key r).1.
Proof.
destruct (settle_frame key r) as (E1 & _ & _ & E2). by apply windows_ok_same.
Qed.

Lemma windows_ok_step config0 l s s' :
  windows_ok config0 s → step l s = Some s' → windows_ok config0 s'.
Proof.
intros Hok.
destruct l as [key now|k now|now|now|now| | |key]; cbn [step].
- intros [= <-]. unfold acquire. cbv zeta.
  apply windows_ok_settle, windows_ok_attempt.
  by apply (windows_ok_same _ s).
- unfold wake. destruct (sleepers s !! k) as [key|]; [|done].
  cbn. intros [= <-].
  apply windows_ok_settle, windows_ok_attempt.
  by apply (windows_ok_same _ s).
- destruct (decide _); [|done]. intros [= <-]. unfold refill_tick.
  destruct (tokenBucket s); [|done]. by apply (windows_ok_same _ s).
- destruct (decide _); [|done]. intros [= <-]. unfold leak_tick.
  destruct (leakyBucket s) as [b|]; [|done].
  destruct (LeakyBucket.queue b) as [|r queue]; [done|]. cbv zeta.
  match goal with |- windows_ok _ (foldl _ ?s0 ?rel) =>
    destruct (foldl_emit_frame rel s0) as (E1 & _ & _ & E4 & _) end.
  eapply windows_ok_same; [exact E1 | exact E4 |].
  by apply (windows_ok_same _ s).
- destruct (adaptive (config s)) as [a|] eqn:Ea; [|done].
  destruct (AdaptiveConfig.enabled a); [|done].
  intros [= <-]. unfold adjustAdaptiveRate. rewrite Ea.
  destruct (_ =? _); [done|]. cbv zeta.
  destruct (tokenBucket s) as [tb|] eqn:Et;
    destruct (leakyBucket s) as [b|] eqn:Eb;
    (destruct (Qlt_le_dec _ _); [|destruct (Qlt_le_dec _ _)]);
    repeat (cbn; rewrite ?Et, ?Eb);
    by apply (windows_ok_same _ s).
- intros [= <-]. by apply (windows_ok_same _ s).
- intros [= <-]. by apply (windows_ok_same _ s).
- intros [= <-]. destruct Hok as [Hc Hw]. unfold reset.
  destruct (tokenBucket s) as [tb|] eqn:Et;
    destruct (leakyBucket s) as [b|] eqn:Eb;
    destruct (truthy_str key);
    repeat (cbn; rewrite ?Et, ?Eb);
    (split; [done|]); cbn [windows with_windows with_tokenBucket
                           with_leakyBucket];
    rewrite ?(windowLimit_config s) by done;
    first [by apply Forall_map_delete | by constructor].
Qed.

Lemma windows_ok_run config0 ls : ∀ s s',
  windows_ok config0 s → run ls s = Some s' → windows_ok config0 s'.
Proof.
induction ls as [|l ls IH]; intros s s' Hok; cbn [run].
{ by intros [= <-]. }
destruct (step l s) as [s1|] eqn:Hstep; [|done].
apply IH. by eapply windows_ok_step.
Qed.

(** Whatever callers and intervals do to a limiter, no window ever counts
    more requests than the limit of its configuration, for any key; and
    under the sliding strategy a window's count is the number of time
    stamps it keeps. *)
Theorem window_count_within_limit (config0 : RateLimitConfig.t) (now0 : Z)
    (ls : list Label) (s : RateLimiter.t) (key : string)
    (w : RateLimitWindow.t) :
  run ls (new config0 now0) = Some s →
  JsMap.get key (windows s) = Some w →
  windowLimit s = windowLimit (new config0 now0) ∧
  0 ≤ RateLimitWindow.count w ≤ Z.max 0 (windowLimit s) ∧
  (strategy config0 = Some sliding_window →
   RateLimitWindow.count w
   = Z.of_nat (length (RateLimitWindow.requests w))).
Proof.
intros Hrun Hget.
assert (Hnew : config (new config0 now0) = config0 ∧
               windows (new config0 now0) = []).
{ unfold new, initializeStrategy. cbn.
  by destruct (strategy config0) as [[]|]. }
destruct Hnew as [Hc0 Hw0].
assert (Hok : windows_ok config0 s).
{ eapply windows_ok_run; [|exact Hrun]. split; [done|].
  rewrite Hw0. constructor. }
destruct Hok as [Hc Hw].
split; [apply windowLimit_config; congruence|].
apply (Forall_map_get _ key w) in Hw; [|done]. exact Hw.
Qed.

Definition two_per_second : RateLimitConfig.t :=
  RateLimitConfig.mk (Some 2%Q) None None None None None None.

Lemma window_count_within_limit_witness :
  ∃ s w,
    run [LAcquire "k" 1000; LAcquire "k" 1100; LAcquire "k" 1200]
      (new two_per_second 0) = Some s ∧
    JsMap.get "k"%string (windows s) = Some w ∧
    RateLimitWindow.count w = 2 ∧ sleepers s = ["k"%string].
Proof.
assert (H : ∃ s w,
  run [LAcquire "k" 1000; LAcquire "k" 1100; LAcquire "k" 1200]
    (new two_per_second 0) = Some s ∧
  JsMap.get "k"%string (windows s) = Some w ∧
  2 ≤ RateLimitWindow.count w ∧ windowLimit s = 2 ∧
  sleepers s = ["k"%string]).
{ eexists. eexists. split; [vm_compute; reflexivity|].
  split; [vm_compute; reflexivity|]. split; [vm_compute; discriminate|].
  split; vm_compute; reflexivity. }
destruct H as (s & w & Hrun & Hget & Hlo & Hlim & Hs).
destruct (window_count_within_limit two_per_second 0
            [LAcquire "k" 1000; LAcquire "k" 1100; LAcquire "k" 1200]
            s "k" w) as (_ & [_ Hhi] & _).
- exact Hrun.
- exact Hget.
- exists s, w. split; [exact Hrun|]. split; [exact Hget|].
  split; [|exact Hs]. rewrite Hlim in Hhi. lia.
Defined.
End RateLimiterWindows.
